(** * OpenVoronoi: the incremental insertion engine of [voronoidiagram.cpp]

    A shallow embedding of [ovd::VoronoiDiagram] (src/src/voronoidiagram.cpp)
    and of the declarations of [ovd::Point] (src/src/common/point.hpp),
    followed by the properties of the engine that the specification states.

    Layout:
    - [Num]      the numbers the engine computes with;
    - data model: points, vertices, half-edges, faces, sites, the graph;
    - [External] the collaborators whose code is outside the two sources;
    - the engine state and the monad its member functions run in;
    - the half-edge graph operations;
    - the member functions of [VoronoiDiagram], in source order;
    - the theorems. *)

From Stdlib Require Import QArith ZArith Lia Lqa.
From stdpp Require Import gmap list.

(** ** Numbers

    A C++ [double] is idealised as an exact number of the field Q(sqrt 3):
    [rat + irr * sqrt 3] with rational [rat] and [irr].  Every finite double
    is rational, and the only irrational constant of the source is
    [sqrt(3.0)] in [initialize]; rounding is not modelled. *)
Module Num.

Local Open Scope Q_scope.

Record double : Type := mk { rat : Q; irr : Q }.

Definition of_Q (q : Q) : double := mk q 0.
Definition of_Z (z : Z) : double := mk (inject_Z z) 0.
Definition sqrt3 : double := mk 0 1.

Definition add (x y : double) : double :=
  mk (rat x + rat y) (irr x + irr y).
Definition opp (x : double) : double := mk (- rat x) (- irr x).
Definition sub (x y : double) : double := add x (opp y).
Definition mul (x y : double) : double :=
  mk (rat x * rat y + 3 * (irr x * irr y)) (rat x * irr y + irr x * rat y).
(** [1 / (c + d sqrt 3) = (c - d sqrt 3) / (c^2 - 3 d^2)] *)
Definition inv (x : double) : double :=
  let n := rat x * rat x - 3 * (irr x * irr x) in
  mk (rat x / n) (- irr x / n).
Definition div (x y : double) : double := mul x (inv y).

Definition Qltb (p q : Q) : bool := negb (Qle_bool q p).

(** [0 < a + b sqrt 3], decided on the signs of [a], [b] and of
    [a^2 - 3 b^2]. *)
Definition is_pos (x : double) : bool :=
  let a := rat x in
  let b := irr x in
  if Qle_bool 0 b
  then if Qle_bool 0 a
       then negb (Qeq_bool a 0 && Qeq_bool b 0)
       else Qltb (a * a) (3 * (b * b))
  else Qltb 0 a && Qltb (3 * (b * b)) (a * a).

Definition ltb (x y : double) : bool := is_pos (sub y x).
Definition leb (x y : double) : bool := negb (ltb y x).
Definition eqb (x y : double) : bool :=
  Qeq_bool (rat x) (rat y) && Qeq_bool (irr x) (irr y).

(** Equality of values (the components are fractions, compared as such). *)
Definition eq (x y : double) : Prop := rat x == rat y /\ irr x == irr y.

(** Literals: a [double] prints as an integer when it is one. *)
Definition to_Z (x : double) : option Z :=
  match x with
  | mk (Qmake z 1) (Qmake 0 1) => Some z
  | _ => None
  end.

Definition abs (x : double) : double := if ltb x (of_Z 0) then opp x else x.
Definition min (x y : double) : double := if ltb y x then y else x.
Definition max (x y : double) : double := if ltb x y then y else x.

End Num.

Abbreviation double := Num.double.

Declare Scope double_scope.
Delimit Scope double_scope with D.
Bind Scope double_scope with Num.double.
Infix "+" := Num.add : double_scope.
Infix "-" := Num.sub : double_scope.
Infix "*" := Num.mul : double_scope.
Infix "/" := Num.div : double_scope.
Notation "- x" := (Num.opp x) : double_scope.
Infix "<?" := Num.ltb : double_scope.
Infix "<=?" := Num.leb : double_scope.
Infix "=?" := Num.eqb : double_scope.
Infix "==" := Num.eq (at level 70, no associativity) : double_scope.
Number Notation Num.double Num.of_Z Num.to_Z : double_scope.

(** ** Points ([common/point.hpp]) *)

Record Point : Type := mkPoint { px : double; py : double }.

Definition Point_add (p q : Point) : Point :=
  mkPoint (px p + px q)%D (py p + py q)%D.
Definition Point_sub (p q : Point) : Point :=
  mkPoint (px p - px q)%D (py p - py q)%D.
Definition Point_scale (a : double) (p : Point) : Point :=
  mkPoint (a * px p)%D (a * py p)%D.
Definition Point_eqb (p q : Point) : bool :=
  (px p =? px q)%D && (py p =? py q)%D.
Definition dot (p q : Point) : double := (px p * px q + py p * py q)%D.
Definition cross (p q : Point) : double := (px p * py q - py p * px q)%D.
Definition norm_sq (p : Point) : double := (px p * px p + py p * py p)%D.

Declare Scope point_scope.
Delimit Scope point_scope with P.
Bind Scope point_scope with Point.
Infix "+" := Point_add : point_scope.
Infix "-" := Point_sub : point_scope.
Infix "*" := Point_scale : point_scope.
Infix "=?" := Point_eqb : point_scope.

(** ** Data model *)

(** Descriptors of the half-edge graph.  [None] is the default-constructed
    (invalid) descriptor [HEVertex()], [HEEdge()], [g.HFace()]. *)
Definition HEVertex : Type := option nat.
Definition HEEdge : Type := option nat.
Definition HEFace : Type := option nat.

Inductive VoronoiVertexStatus : Type := OUT | IN | UNDECIDED | NEW.
Inductive VoronoiVertexType : Type :=
  OUTER | NORMAL | POINTSITE | ENDPOINT | SEPPOINT | APEX | SPLIT.
Inductive VoronoiFaceStatus : Type := INCIDENT | NONINCIDENT.
Inductive VoronoiEdgeType : Type :=
  LINE | OUTEDGE | LINESITE | SEPARATOR | NULLEDGE.

#[global] Instance VoronoiVertexStatus_eq_dec : EqDecision VoronoiVertexStatus.
Proof. solve_decision. Defined.
#[global] Instance VoronoiVertexType_eq_dec : EqDecision VoronoiVertexType.
Proof. solve_decision. Defined.
#[global] Instance VoronoiFaceStatus_eq_dec : EqDecision VoronoiFaceStatus.
Proof. solve_decision. Defined.
#[global] Instance VoronoiEdgeType_eq_dec : EqDecision VoronoiEdgeType.
Proof. solve_decision. Defined.

(** Modelled from the spec: the class [Site] (site.hpp) is not among the
    sources.  A site is a tagged [PointSite(p)] or [LineSite(a,b,k)]; each
    carries the face it owns ([s->face]). *)
Inductive Site : Type :=
  | PointSite (p : Point) (face : HEFace)
  | LineSite (s e : Point) (k : Z) (face : HEFace).

Definition isPoint (s : Site) : bool :=
  match s with PointSite _ _ => true | LineSite _ _ _ _ => false end.
Definition isLine (s : Site) : bool :=
  match s with PointSite _ _ => false | LineSite _ _ _ _ => true end.
Definition site_face (s : Site) : HEFace :=
  match s with PointSite _ f => f | LineSite _ _ _ f => f end.
Definition site_set_face (f : HEFace) (s : Site) : Site :=
  match s with
  | PointSite p _ => PointSite p f
  | LineSite a b k _ => LineSite a b k f
  end.
(** [position()] of a point site; [start()] and [end()] of a line site.  The
    accessors of the other kind are not defined by [Site]. *)
Definition site_position (s : Site) : option Point :=
  match s with PointSite p _ => Some p | LineSite _ _ _ _ => None end.
Definition site_start (s : Site) : option Point :=
  match s with PointSite _ _ => None | LineSite a _ _ _ => Some a end.
Definition site_end (s : Site) : option Point :=
  match s with PointSite _ _ => None | LineSite _ b _ _ => Some b end.

(** Modelled from the spec: the class [VoronoiVertex] (voronoivertex.hpp) is
    not among the sources.  The fields are those of the data model: index,
    status, kind, position, [k3], [alfa], [in_queue], the null face of an
    endpoint, the face of a point-site vertex, and the cached generator point
    of the in-circle predicate. *)
Record VoronoiVertex : Type := mkVertex {
  index : Z;
  status : VoronoiVertexStatus;
  type : VoronoiVertexType;
  position : Point;
  k3 : Z;
  alfa : double;
  in_queue : bool;
  null_face : HEFace;
  face : HEFace;
  generator : option Point
}.

Definition set_status (st : VoronoiVertexStatus) (v : VoronoiVertex) :=
  mkVertex (index v) st (type v) (position v) (k3 v) (alfa v) (in_queue v)
           (null_face v) (face v) (generator v).
Definition set_type (t : VoronoiVertexType) (v : VoronoiVertex) :=
  mkVertex (index v) (status v) t (position v) (k3 v) (alfa v) (in_queue v)
           (null_face v) (face v) (generator v).
Definition set_position (p : Point) (v : VoronoiVertex) :=
  mkVertex (index v) (status v) (type v) p (k3 v) (alfa v) (in_queue v)
           (null_face v) (face v) (generator v).
Definition set_k3 (k : Z) (v : VoronoiVertex) :=
  mkVertex (index v) (status v) (type v) (position v) k (alfa v) (in_queue v)
           (null_face v) (face v) (generator v).
Definition set_alfa_value (a : double) (v : VoronoiVertex) :=
  mkVertex (index v) (status v) (type v) (position v) (k3 v) a (in_queue v)
           (null_face v) (face v) (generator v).
Definition set_in_queue (b : bool) (v : VoronoiVertex) :=
  mkVertex (index v) (status v) (type v) (position v) (k3 v) (alfa v) b
           (null_face v) (face v) (generator v).
Definition set_null_face (f : HEFace) (v : VoronoiVertex) :=
  mkVertex (index v) (status v) (type v) (position v) (k3 v) (alfa v)
           (in_queue v) f (face v) (generator v).
Definition set_face (f : HEFace) (v : VoronoiVertex) :=
  mkVertex (index v) (status v) (type v) (position v) (k3 v) (alfa v)
           (in_queue v) (null_face v) f (generator v).
Definition set_generator (p : option Point) (v : VoronoiVertex) :=
  mkVertex (index v) (status v) (type v) (position v) (k3 v) (alfa v)
           (in_queue v) (null_face v) (face v) p.

(** [reset()]: status back to UNDECIDED, transient flag cleared. *)
Definition reset (v : VoronoiVertex) : VoronoiVertex :=
  set_in_queue false (set_status UNDECIDED v).
(** [zero_dist()]: the clearance radius is zero, the generator is the vertex
    itself; [init_dist(p)]: the generator is [p]. *)
Definition zero_dist (v : VoronoiVertex) : VoronoiVertex :=
  set_generator (Some (position v)) v.
Definition init_dist (p : Point) (v : VoronoiVertex) : VoronoiVertex :=
  set_generator (Some p) v.

(** The analytic description of the curve of a half-edge, as the last call
    of [set_parameters] or [set_sep_parameters] left it. *)
Inductive EdgeParams : Type :=
  | NoParameters
  | Parameters (s1 s2 : Site) (sign : bool)
  | SepParameters (endp target : Point).

(** A half-edge: its end vertices (which boost keeps in the descriptor) and
    its bundled properties. *)
Record HEdge : Type := mkEdge {
  esource : HEVertex;
  etarget : HEVertex;
  twin : HEEdge;
  next : HEEdge;
  eface : HEFace;
  etype : option VoronoiEdgeType;
  ek : Z;
  eparams : EdgeParams
}.

Definition set_twin (t : HEEdge) (e : HEdge) :=
  mkEdge (esource e) (etarget e) t (next e) (eface e) (etype e) (ek e) (eparams e).
Definition set_next_ptr (n : HEEdge) (e : HEdge) :=
  mkEdge (esource e) (etarget e) (twin e) n (eface e) (etype e) (ek e) (eparams e).
Definition set_eface (f : HEFace) (e : HEdge) :=
  mkEdge (esource e) (etarget e) (twin e) (next e) f (etype e) (ek e) (eparams e).
Definition set_etype (t : VoronoiEdgeType) (e : HEdge) :=
  mkEdge (esource e) (etarget e) (twin e) (next e) (eface e) (Some t) (ek e)
         (eparams e).
Definition set_ek (k : Z) (e : HEdge) :=
  mkEdge (esource e) (etarget e) (twin e) (next e) (eface e) (etype e) k
         (eparams e).
Definition set_eparams (p : EdgeParams) (e : HEdge) :=
  mkEdge (esource e) (etarget e) (twin e) (next e) (eface e) (etype e) (ek e) p.

Record FaceProps : Type := mkFace {
  fedge : HEEdge;
  fsite : option Site;
  fstatus : VoronoiFaceStatus
}.

Definition set_fedge (e : HEEdge) (f : FaceProps) :=
  mkFace e (fsite f) (fstatus f).
Definition set_fsite (s : option Site) (f : FaceProps) :=
  mkFace (fedge f) s (fstatus f).
Definition set_fstatus (st : VoronoiFaceStatus) (f : FaceProps) :=
  mkFace (fedge f) (fsite f) st.

(** The half-edge graph [g]: an arena per kind of object. *)
Record HEGraph : Type := mkGraph {
  vertices : gmap nat VoronoiVertex;
  edges : gmap nat HEdge;
  faces : gmap nat FaceProps
}.

(** [Solution] of the vertex positioner: a point and its [k3] label. *)
Record Solution : Type := mkSolution { sol_p : Point; sol_k3 : Z }.

(** ** External collaborators

    Everything the engine calls whose code is outside voronoidiagram.cpp:
    the bodies of [Point] (point.cpp), [numeric::diangle], the numerics of
    [VoronoiVertex], [Site] and the edge parameters, the face grid, the
    vertex positioner, the topology checker and the root finder.  The engine
    is verified for every choice of them; [fuel] bounds the number of
    iterations of each loop of the model (a C++ loop that exceeds it is a
    run that has not returned). *)
Class External : Type := {
  fuel : nat;
  (* point.cpp *)
  norm : Point -> double;
  xy_perp : Point -> Point;
  is_right : Point -> Point -> Point -> bool;
  (* common/numeric.hpp *)
  diangle : double -> double -> double;
  diangle_bracket : double -> double -> double -> bool;
  diangle_mid : double -> double -> double;
  (* VoronoiVertex *)
  in_circle : VoronoiVertex -> Point -> double;
  dist : VoronoiVertex -> double;
  (* LineSite *)
  line_apex_point : Point -> Point -> Point -> Point;
  line_in_region : Point -> Point -> Point -> bool;
  line_a : Point -> Point -> double;
  line_b : Point -> Point -> double;
  (* EdgeProps *)
  point : HEdge -> double -> Point;
  minimum_t : HEdge -> Site -> Site -> double;
  (* FaceGrid *)
  grid_find_closest_face : list (HEFace * FaceProps) -> Point -> HEFace;
  (* VertexPositioner *)
  vpos_position : HEGraph -> HEEdge -> Site -> Solution;
  vpos_dist_error : HEGraph -> HEEdge -> Solution -> Site -> double;
  (* VoronoiDiagramChecker *)
  is_valid : HEGraph -> bool;
  face_ok : HEGraph -> HEFace -> bool;
  check_edge : HEGraph -> HEEdge -> bool;
  current_face_equals_next_face : HEGraph -> HEEdge -> bool;
  (* SplitPointError and boost::math::tools::toms748_solve *)
  SplitPointError : HEGraph -> HEEdge -> Point -> Point -> double -> double;
  toms748_solve : (double -> double) -> double -> double -> double * double
}.

(** Modelled from the spec: [Site::apex_point] and [Site::in_region]
    (site.hpp is not among the sources).  For a point site the apex point is
    the site itself and every point is in its region; for a line site the
    apex point is a point on the site, the foot of the perpendicular where it
    falls on the segment, and the region is that of the points that project
    onto the segment; both are computed by the collaborator. *)
Definition apex_point `{External} (s : Site) (q : Point) : Point :=
  match s with
  | PointSite p _ => p
  | LineSite a b _ _ => line_apex_point a b q
  end.
Definition in_region `{External} (s : Site) (q : Point) : bool :=
  match s with
  | PointSite _ _ => true
  | LineSite a b _ _ => line_in_region a b q
  end.
Definition site_a `{External} (s : Site) : option double :=
  match s with PointSite _ _ => None | LineSite a b _ _ => Some (line_a a b) end.
Definition site_b `{External} (s : Site) : option double :=
  match s with PointSite _ _ => None | LineSite a b _ _ => Some (line_b a b) end.

(** [set_alfa(dir)]: the diangle of the direction. *)
Definition set_alfa `{External} (dir : Point) (v : VoronoiVertex) :=
  set_alfa_value (diangle (px dir) (py dir)) v.

(** ** The engine state

    The data members of [VoronoiDiagram], the static counter
    [VoronoiVertex::count] that numbers the vertices, and the faces handed to
    the face grid. *)
Record State : Type := mkState {
  g : HEGraph;
  count : Z;
  far_radius : double;
  num_psites : Z;
  num_lsites : Z;
  vertex_map : gmap Z HEVertex;
  v0 : list HEVertex;
  incident_faces : list HEFace;
  modified_vertices : gset HEVertex;
  vertexQueue : list (HEVertex * double);
  segment_start : HEVertex;
  segment_end : HEVertex;
  zero_point_face : HEFace;
  null_face1 : HEFace;
  null_face2 : HEFace;
  fgrid : list (HEFace * FaceProps)
}.

Definition with_g (x : HEGraph) (s : State) : State :=
  mkState x (count s) (far_radius s) (num_psites s) (num_lsites s)
    (vertex_map s) (v0 s) (incident_faces s) (modified_vertices s)
    (vertexQueue s) (segment_start s) (segment_end s) (zero_point_face s)
    (null_face1 s) (null_face2 s) (fgrid s).
Definition with_count (x : Z) (s : State) : State :=
  mkState (g s) x (far_radius s) (num_psites s) (num_lsites s)
    (vertex_map s) (v0 s) (incident_faces s) (modified_vertices s)
    (vertexQueue s) (segment_start s) (segment_end s) (zero_point_face s)
    (null_face1 s) (null_face2 s) (fgrid s).
Definition with_far_radius (x : double) (s : State) : State :=
  mkState (g s) (count s) x (num_psites s) (num_lsites s)
    (vertex_map s) (v0 s) (incident_faces s) (modified_vertices s)
    (vertexQueue s) (segment_start s) (segment_end s) (zero_point_face s)
    (null_face1 s) (null_face2 s) (fgrid s).
Definition with_num_psites (x : Z) (s : State) : State :=
  mkState (g s) (count s) (far_radius s) x (num_lsites s)
    (vertex_map s) (v0 s) (incident_faces s) (modified_vertices s)
    (vertexQueue s) (segment_start s) (segment_end s) (zero_point_face s)
    (null_face1 s) (null_face2 s) (fgrid s).
Definition with_num_lsites (x : Z) (s : State) : State :=
  mkState (g s) (count s) (far_radius s) (num_psites s) x
    (vertex_map s) (v0 s) (incident_faces s) (modified_vertices s)
    (vertexQueue s) (segment_start s) (segment_end s) (zero_point_face s)
    (null_face1 s) (null_face2 s) (fgrid s).
Definition with_vertex_map (x : gmap Z HEVertex) (s : State) : State :=
  mkState (g s) (count s) (far_radius s) (num_psites s) (num_lsites s)
    x (v0 s) (incident_faces s) (modified_vertices s)
    (vertexQueue s) (segment_start s) (segment_end s) (zero_point_face s)
    (null_face1 s) (null_face2 s) (fgrid s).
Definition with_v0 (x : list HEVertex) (s : State) : State :=
  mkState (g s) (count s) (far_radius s) (num_psites s) (num_lsites s)
    (vertex_map s) x (incident_faces s) (modified_vertices s)
    (vertexQueue s) (segment_start s) (segment_end s) (zero_point_face s)
    (null_face1 s) (null_face2 s) (fgrid s).
Definition with_incident_faces (x : list HEFace) (s : State) : State :=
  mkState (g s) (count s) (far_radius s) (num_psites s) (num_lsites s)
    (vertex_map s) (v0 s) x (modified_vertices s)
    (vertexQueue s) (segment_start s) (segment_end s) (zero_point_face s)
    (null_face1 s) (null_face2 s) (fgrid s).
Definition with_modified_vertices (x : gset HEVertex) (s : State) : State :=
  mkState (g s) (count s) (far_radius s) (num_psites s) (num_lsites s)
    (vertex_map s) (v0 s) (incident_faces s) x
    (vertexQueue s) (segment_start s) (segment_end s) (zero_point_face s)
    (null_face1 s) (null_face2 s) (fgrid s).
Definition with_vertexQueue (x : list (HEVertex * double)) (s : State) : State :=
  mkState (g s) (count s) (far_radius s) (num_psites s) (num_lsites s)
    (vertex_map s) (v0 s) (incident_faces s) (modified_vertices s)
    x (segment_start s) (segment_end s) (zero_point_face s)
    (null_face1 s) (null_face2 s) (fgrid s).
Definition with_segment_start (x : HEVertex) (s : State) : State :=
  mkState (g s) (count s) (far_radius s) (num_psites s) (num_lsites s)
    (vertex_map s) (v0 s) (incident_faces s) (modified_vertices s)
    (vertexQueue s) x (segment_end s) (zero_point_face s)
    (null_face1 s) (null_face2 s) (fgrid s).
Definition with_segment_end (x : HEVertex) (s : State) : State :=
  mkState (g s) (count s) (far_radius s) (num_psites s) (num_lsites s)
    (vertex_map s) (v0 s) (incident_faces s) (modified_vertices s)
    (vertexQueue s) (segment_start s) x (zero_point_face s)
    (null_face1 s) (null_face2 s) (fgrid s).
Definition with_zero_point_face (x : HEFace) (s : State) : State :=
  mkState (g s) (count s) (far_radius s) (num_psites s) (num_lsites s)
    (vertex_map s) (v0 s) (incident_faces s) (modified_vertices s)
    (vertexQueue s) (segment_start s) (segment_end s) x
    (null_face1 s) (null_face2 s) (fgrid s).
Definition with_null_face1 (x : HEFace) (s : State) : State :=
  mkState (g s) (count s) (far_radius s) (num_psites s) (num_lsites s)
    (vertex_map s) (v0 s) (incident_faces s) (modified_vertices s)
    (vertexQueue s) (segment_start s) (segment_end s) (zero_point_face s)
    x (null_face2 s) (fgrid s).
Definition with_null_face2 (x : HEFace) (s : State) : State :=
  mkState (g s) (count s) (far_radius s) (num_psites s) (num_lsites s)
    (vertex_map s) (v0 s) (incident_faces s) (modified_vertices s)
    (vertexQueue s) (segment_start s) (segment_end s) (zero_point_face s)
    (null_face1 s) x (fgrid s).
Definition with_fgrid (x : list (HEFace * FaceProps)) (s : State) : State :=
  mkState (g s) (count s) (far_radius s) (num_psites s) (num_lsites s)
    (vertex_map s) (v0 s) (incident_faces s) (modified_vertices s)
    (vertexQueue s) (segment_start s) (segment_end s) (zero_point_face s)
    (null_face1 s) (null_face2 s) x.

(** ** The monad of the member functions

    A member function either returns a value and the new state, or stops:
    on a failed [assert], on an invalid descriptor (undefined behaviour in
    C++), or because a loop ran out of [fuel].  The state at the stop is
    kept. *)
Inductive failure : Type := AssertionFailed | InvalidDescriptor | OutOfFuel.

Inductive result (A : Type) : Type :=
  | Done (a : A) (s : State)
  | Failed (e : failure) (s : State).
Arguments Done {A} a s.
Arguments Failed {A} e s.

Definition M (A : Type) : Type := State -> result A.

Definition ret {A} (a : A) : M A := fun s => Done a s.
Definition bind {A B} (m : M A) (k : A -> M B) : M B :=
  fun s => match m s with
           | Done a s' => k a s'
           | Failed e s' => Failed e s'
           end.

Declare Scope engine_scope.
Delimit Scope engine_scope with M.
Notation "x <- m ;; k" := (bind m (fun x => k))
  (at level 100, m at level 99, k at level 200, right associativity,
   format "'[v' x  <-  m  ;; '/' k ']'") : engine_scope.
Notation "m ;; k" := (bind m (fun _ => k))
  (at level 100, k at level 200, right associativity,
   format "'[v' m  ;; '/' k ']'") : engine_scope.
Open Scope engine_scope.

Definition fail {A} (e : failure) : M A := fun s => Failed e s.
Definition get : M State := fun s => Done s s.
Definition gets {A} (f : State -> A) : M A := fun s => Done (f s) s.
Definition modify (f : State -> State) : M unit := fun s => Done tt (f s).
Definition assert (b : bool) : M unit :=
  if b then ret tt else fail AssertionFailed.
Definition when (b : bool) (m : M unit) : M unit := if b then m else ret tt.
(** The value behind a descriptor or an optional accessor. *)
Definition valid {A} (o : option A) : M A :=
  match o with Some a => ret a | None => fail InvalidDescriptor end.

(** [BOOST_FOREACH (x, l) body] *)
Fixpoint foreach {A} (l : list A) (body : A -> M unit) : M unit :=
  match l with
  | [] => ret tt
  | x :: l' => body x ;; foreach l' body
  end.

(** Reading and updating the bundled properties: [g[v]], [g[e]], [g[f]]. *)
Definition graph_vertex (gr : HEGraph) (v : HEVertex) : option VoronoiVertex :=
  match v with Some i => vertices gr !! i | None => None end.
Definition graph_edge (gr : HEGraph) (e : HEEdge) : option HEdge :=
  match e with Some i => edges gr !! i | None => None end.
Definition graph_face (gr : HEGraph) (f : HEFace) : option FaceProps :=
  match f with Some i => faces gr !! i | None => None end.

Definition put_vertex (i : nat) (x : VoronoiVertex) (gr : HEGraph) : HEGraph :=
  mkGraph (<[i := x]> (vertices gr)) (edges gr) (faces gr).
Definition put_edge (i : nat) (x : HEdge) (gr : HEGraph) : HEGraph :=
  mkGraph (vertices gr) (<[i := x]> (edges gr)) (faces gr).
Definition put_face (i : nat) (x : FaceProps) (gr : HEGraph) : HEGraph :=
  mkGraph (vertices gr) (edges gr) (<[i := x]> (faces gr)).

Definition vertex (v : HEVertex) : M VoronoiVertex :=
  s <- get ;; valid (graph_vertex (g s) v).
Definition edge (e : HEEdge) : M HEdge :=
  s <- get ;; valid (graph_edge (g s) e).
Definition face_props (f : HEFace) : M FaceProps :=
  s <- get ;; valid (graph_face (g s) f).

Definition update_vertex (v : HEVertex) (f : VoronoiVertex -> VoronoiVertex)
  : M unit :=
  x <- vertex v ;;
  i <- valid v ;;
  modify (fun s => with_g (put_vertex i (f x) (g s)) s).
Definition update_edge (e : HEEdge) (f : HEdge -> HEdge) : M unit :=
  x <- edge e ;;
  i <- valid e ;;
  modify (fun s => with_g (put_edge i (f x) (g s)) s).
Definition update_face (fc : HEFace) (f : FaceProps -> FaceProps) : M unit :=
  x <- face_props fc ;;
  i <- valid fc ;;
  modify (fun s => with_g (put_face i (f x) (g s)) s).

(** Modelled from the spec: the constructors of [VoronoiVertex]
    (voronoivertex.hpp is not among the sources).  A vertex takes the next
    value of the static counter as its stable, monotone index; the fields the
    constructor is not given start cleared. *)
Definition VoronoiVertex_new (p : Point) (st : VoronoiVertexStatus)
    (t : VoronoiVertexType) (initDist : option Point) (k : Z)
  : M VoronoiVertex :=
  c <- gets count ;;
  modify (with_count (c + 1)%Z) ;;
  ret (mkVertex c st t p k (-1)%D false None None initDist).

(** ** The half-edge graph (namespace [hedi])

    Modelled from the spec: the class of the half-edge graph
    (halfedgediagram.hpp) is not among the sources; its operations follow
    the table of low-level operations of the specification. *)
Module hedi.

(** Half-edges leaving [v], with their descriptors. *)
Definition out_edges (gr : HEGraph) (v : HEVertex) : list HEEdge :=
  (fun ke => Some (fst ke)) <$>
    filter (fun ke => esource (snd ke) = v) (map_to_list (edges gr)).
Definition in_edges (gr : HEGraph) (v : HEVertex) : list HEEdge :=
  (fun ke => Some (fst ke)) <$>
    filter (fun ke => etarget (snd ke) = v) (map_to_list (edges gr)).

(** [out_edge_itr(v)]: iteration over the half-edges leaving [v]. *)
Definition out_edge_itr (v : HEVertex) : M (list HEEdge) :=
  vertex v ;;
  gets (fun s => out_edges (g s) v).

Definition source (e : HEEdge) : M HEVertex := x <- edge e ;; ret (esource x).
Definition target (e : HEEdge) : M HEVertex := x <- edge e ;; ret (etarget x).

(** [has_edge(w,v)]: is there a half-edge from [w] to [v]. *)
Definition has_edge (w v : HEVertex) : M bool :=
  gets (fun s =>
    bool_decide (Exists (fun e => (etarget <$> graph_edge (g s) e) = Some v)
                        (out_edges (g s) w))).

(** [add_vertex(v-data)]: new vertex handle. *)
Definition add_vertex (x : VoronoiVertex) : M HEVertex :=
  s <- get ;;
  let i := fresh (dom (vertices (g s))) in
  modify (fun s => with_g (put_vertex i x (g s)) s) ;;
  ret (Some i).

(** [add_edge(u,w)]: one new half-edge; twin, face, next, type unset. *)
Definition add_edge (u w : HEVertex) : M HEEdge :=
  s <- get ;;
  let i := fresh (dom (edges (g s))) in
  modify (fun s =>
    with_g (put_edge i (mkEdge u w None None None None 0%Z NoParameters) (g s)) s) ;;
  ret (Some i).

Definition twin_edges (e1 e2 : HEEdge) : M unit :=
  update_edge e1 (set_twin e2) ;;
  update_edge e2 (set_twin e1).

(** [add_twin_edges(u,w)]: two new half-edges (u->w, w->u); twin pointers
    set; face, next, type unset. *)
Definition add_twin_edges (u w : HEVertex) : M (HEEdge * HEEdge) :=
  e1 <- add_edge u w ;;
  e2 <- add_edge w u ;;
  twin_edges e1 e2 ;;
  ret (e1, e2).

(** [add_face()]: new face with no edge yet. *)
Definition add_face : M HEFace :=
  s <- get ;;
  let i := fresh (dom (faces (g s))) in
  modify (fun s => with_g (put_face i (mkFace None None NONINCIDENT) (g s)) s) ;;
  ret (Some i).

(** [set_next(e1,e2)]: [e1.next = e2]. *)
Definition set_next (e1 e2 : HEEdge) : M unit :=
  update_edge e1 (set_next_ptr e2).

(** Links each edge of the list to the one that follows it, the last one to
    [last_next] when given. *)
Fixpoint link (l : list HEEdge) (last_next : option HEEdge) : M unit :=
  match l with
  | [] => ret tt
  | [e] => match last_next with
           | Some n => set_next e n
           | None => ret tt
           end
  | e :: (e' :: _) as l' => set_next e e' ;; link l' last_next
  end.

(** [set_next_cycle(list, f, k)]: chains the list into a ring; sets face = f
    and k for every edge; sets f.edge = first. *)
Definition set_next_cycle (l : list HEEdge) (f : HEFace) (k : Z) : M unit :=
  first <- valid (head l) ;;
  update_face f (set_fedge first) ;;
  foreach l (fun e => update_edge e (fun x => set_ek k (set_eface f x))) ;;
  link l (Some first).

(** [set_next_chain(list, f, k)]: as [set_next_cycle], the chain left open;
    [set_next_chain(list)] links only. *)
Definition set_next_chain_fk (l : list HEEdge) (f : HEFace) (k : Z) : M unit :=
  first <- valid (head l) ;;
  update_face f (set_fedge first) ;;
  foreach l (fun e => update_edge e (fun x => set_ek k (set_eface f x))) ;;
  link l None.
Definition set_next_chain (l : list HEEdge) : M unit := link l None.

(** [previous_edge(e)]: the edge of the ring of [e] whose next is [e]. *)
Fixpoint previous_edge_loop (n : nat) (e previous : HEEdge) : M HEEdge :=
  match n with
  | O => fail OutOfFuel
  | S n' =>
      x <- edge previous ;;
      if bool_decide (next x = e) then ret previous
      else previous_edge_loop n' e (next x)
  end.
Definition previous_edge `{External} (e : HEEdge) : M HEEdge :=
  x <- edge e ;;
  previous_edge_loop fuel e (next x).

(** The ring of a face, walked from [start] along [next] until [start]
    comes back: the edges in ring order. *)
Fixpoint ring_loop (n : nat) (start current : HEEdge) : M (list HEEdge) :=
  match n with
  | O => fail OutOfFuel
  | S n' =>
      x <- edge current ;;
      if bool_decide (next x = start) then ret [current]
      else l <- ring_loop n' start (next x) ;; ret (current :: l)
  end.
Definition face_edges `{External} (f : HEFace) : M (list HEEdge) :=
  fp <- face_props f ;;
  ring_loop fuel (fedge fp) (fedge fp).

(** [face_vertices(f)]: the vertices on the ring of [f]. *)
Definition face_vertices `{External} (f : HEFace) : M (list HEVertex) :=
  l <- face_edges f ;;
  s <- get ;;
  ret (omap (fun e => etarget <$> graph_edge (g s) e) l).

(** [adjacent_faces(v)]: the faces of the half-edges leaving [v], each
    once. *)
Definition adjacent_faces (v : HEVertex) : M (list HEFace) :=
  l <- out_edge_itr v ;;
  s <- get ;;
  ret (remove_dups (omap (fun e => eface <$> graph_edge (g s) e) l)).

Definition remove_edge (e : HEEdge) : M unit :=
  i <- valid e ;;
  modify (fun s =>
    with_g (mkGraph (vertices (g s)) (delete i (edges (g s))) (faces (g s))) s).

(** [add_vertex_in_edge(v,e)]: splits [e] (which has a twin) into two halves
    sharing [v]; the halves inherit face, k, type and parameters; twin
    symmetry is preserved. *)
Definition add_vertex_in_edge `{External} (v : HEVertex) (e : HEEdge) : M unit :=
  x <- edge e ;;
  let e_twin := twin x in
  xt <- edge e_twin ;;
  let src := esource x in
  let trg := etarget x in
  let fc := eface x in
  let twin_face := eface xt in
  previous <- previous_edge e ;;
  twin_previous <- previous_edge e_twin ;;
  e1 <- add_edge src v ;;
  te2 <- add_edge v src ;;
  twin_edges e1 te2 ;;
  e2 <- add_edge v trg ;;
  te1 <- add_edge trg v ;;
  twin_edges e2 te1 ;;
  set_next previous e1 ;;
  set_next e1 e2 ;;
  set_next e2 (next x) ;;
  set_next twin_previous te1 ;;
  set_next te1 te2 ;;
  set_next te2 (next xt) ;;
  let inherit (from : HEdge) (y : HEdge) :=
    mkEdge (esource y) (etarget y) (twin y) (next y)
           (eface from) (etype from) (ek from) (eparams from) in
  update_edge e1 (inherit x) ;;
  update_edge e2 (inherit x) ;;
  update_edge te1 (inherit xt) ;;
  update_edge te2 (inherit xt) ;;
  update_face fc (set_fedge e1) ;;
  update_face twin_face (set_fedge te1) ;;
  remove_edge e ;;
  remove_edge e_twin.

(** [delete_vertex(v)]: removes [v] and every half-edge incident to [v]. *)
Definition delete_vertex (v : HEVertex) : M unit :=
  i <- valid v ;;
  vertex v ;;
  modify (fun s =>
    with_g (mkGraph (delete i (vertices (g s)))
              (filter (fun ke => esource (snd ke) <> v /\
                                 etarget (snd ke) <> v) (edges (g s)))
              (faces (g s))) s).

(** [remove_deg2_vertex(v)]: [v] has exactly two half-edges in, two out;
    merges the in/out pair on each side back into a single edge; twin
    symmetry preserved. *)
Definition remove_deg2_vertex `{External} (v : HEVertex) : M unit :=
  v_edges <- out_edge_itr v ;;
  ins <- gets (fun s => in_edges (g s) v) ;;
  assert (bool_decide (length v_edges = 2 /\ length ins = 2)) ;;
  ea <- valid (v_edges !! 0) ;;
  eb <- valid (v_edges !! 1) ;;
  xa <- edge ea ;;
  xb <- edge eb ;;
  xat <- edge (twin xa) ;;
  xbt <- edge (twin xb) ;;
  let v1 := etarget xa in
  let v2 := etarget xb in
  let v1_next := next xa in
  let v2_next := next xb in
  v1_prev <- previous_edge (twin xa) ;;
  v2_prev <- previous_edge (twin xb) ;;
  let face1 := eface xb in
  let face2 := eface xa in
  p <- add_twin_edges v1 v2 ;;
  let new1 := fst p in
  let new2 := snd p in
  set_next new1 v2_next ;;
  set_next new2 v1_next ;;
  set_next v2_prev new2 ;;
  set_next v1_prev new1 ;;
  update_face face1 (set_fedge new1) ;;
  update_face face2 (set_fedge new2) ;;
  let inherit (from : HEdge) (y : HEdge) :=
    mkEdge (esource y) (etarget y) (twin y) (next y)
           (eface from) (etype from) (ek from) (eparams from) in
  update_edge new1 (inherit xb) ;;
  update_edge new2 (inherit xa) ;;
  delete_vertex v.

End hedi.

(** ** The member functions of [VoronoiDiagram] *)

Section Engine.

Context `{External}.

(** [g.add_vertex( VoronoiVertex(...) )] *)
Definition add_new_vertex (p : Point) (st : VoronoiVertexStatus)
    (t : VoronoiVertexType) (initDist : option Point) (k : Z) : M HEVertex :=
  x <- VoronoiVertex_new p st t initDist k ;;
  hedi.add_vertex x.

(** Modelled from the spec: [EdgeProps::set_parameters(siteA, siteB, sign)]
    populates the analytic description of the bisector of the two sites with
    the given orientation sign (the edge class is not among the sources). *)
Definition set_parameters (e : HEEdge) (s1 s2 : Site) (sign : bool) : M unit :=
  update_edge e (set_eparams (Parameters s1 s2 sign)).
Definition set_sep_parameters (e : HEEdge) (endp target : Point) : M unit :=
  update_edge e (set_eparams (SepParameters endp target)).

(** [g[f].site], which the callers dereference. *)
Definition face_site (f : HEFace) : M Site :=
  fp <- face_props f ;; valid (fsite fp).

(** [fgrid->add_face( g[f] )] *)
Definition fgrid_add_face (f : HEFace) : M unit :=
  fp <- face_props f ;;
  modify (fun s => with_fgrid (fgrid s ++ [(f, fp)]) s).

(** [vd_checker->is_valid()] and the other tests of the checker, on the
    current graph. *)
Definition vd_checker_is_valid : M bool := gets (fun s => is_valid (g s)).
Definition vd_checker_face_ok (f : HEFace) : M bool :=
  gets (fun s => face_ok (g s) f).
Definition vd_checker_check_edge (e : HEEdge) : M bool :=
  gets (fun s => check_edge (g s) e).
Definition assertM (m : M bool) : M unit := b <- m ;; assert b.

(** *** [initialize] (lines 55-146) *)
Definition initialize : M unit :=
  far_radius <- gets far_radius ;;
  let far_multiplier : double := 6%D in
  let gen1 := mkPoint 0 (3 * far_radius) in
  let gen2 := mkPoint ((-3) * Num.sqrt3 * far_radius / 2)
                      ((-3) * far_radius / 2) in
  let gen3 := mkPoint (3 * Num.sqrt3 * far_radius / 2)
                      ((-3) * far_radius / 2) in
  let vd1 := mkPoint 0 ((-3) * far_radius * far_multiplier) in
  let vd2 := mkPoint (3 * Num.sqrt3 * far_radius * far_multiplier / 2)
                     (3 * far_radius * far_multiplier / 2) in
  let vd3 := mkPoint ((-3) * Num.sqrt3 * far_radius * far_multiplier / 2)
                     (3 * far_radius * far_multiplier / 2) in
  v00 <- add_new_vertex (mkPoint 0 0) UNDECIDED NORMAL (Some gen1) 0 ;;
  v01 <- add_new_vertex vd1 OUT OUTER (Some gen3) 0 ;;
  v02 <- add_new_vertex vd2 OUT OUTER (Some gen1) 0 ;;
  v03 <- add_new_vertex vd3 OUT OUTER (Some gen2) 0 ;;
  add_new_vertex gen1 OUT POINTSITE None 0 ;;
  add_new_vertex gen2 OUT POINTSITE None 0 ;;
  add_new_vertex gen3 OUT POINTSITE None 0 ;;
  let half := Num.of_Q 0.5 in
  a1 <- add_new_vertex (half * (gen2 + gen3))%P UNDECIDED APEX (Some gen2) 0 ;;
  a2 <- add_new_vertex (half * (gen1 + gen3))%P UNDECIDED APEX (Some gen3) 0 ;;
  a3 <- add_new_vertex (half * (gen1 + gen2))%P UNDECIDED APEX (Some gen1) 0 ;;
  (* face 1: v0-v1-v2 which encloses gen3 *)
  e1_1 <- hedi.add_edge v00 a1 ;;
  e1_2 <- hedi.add_edge a1 v01 ;;
  e2 <- hedi.add_edge v01 v02 ;;
  e3_1 <- hedi.add_edge v02 a2 ;;
  e3_2 <- hedi.add_edge a2 v00 ;;
  f1 <- hedi.add_face ;;
  update_face f1 (set_fsite (Some (PointSite gen3 f1))) ;;
  update_face f1 (set_fstatus NONINCIDENT) ;;
  fgrid_add_face f1 ;;
  hedi.set_next_cycle [e1_1; e1_2; e2; e3_1; e3_2] f1 1 ;;
  (* face 2: v0-v02-v03 which encloses gen1 *)
  e4_1 <- hedi.add_edge v00 a2 ;;
  e4_2 <- hedi.add_edge a2 v02 ;;
  e5 <- hedi.add_edge v02 v03 ;;
  e6_1 <- hedi.add_edge v03 a3 ;;
  e6_2 <- hedi.add_edge a3 v00 ;;
  f2 <- hedi.add_face ;;
  update_face f2 (set_fsite (Some (PointSite gen1 f2))) ;;
  update_face f2 (set_fstatus NONINCIDENT) ;;
  fgrid_add_face f2 ;;
  hedi.set_next_cycle [e4_1; e4_2; e5; e6_1; e6_2] f2 1 ;;
  (* face 3: v0-v3-v1 which encloses gen2 *)
  e7_1 <- hedi.add_edge v00 a3 ;;
  e7_2 <- hedi.add_edge a3 v03 ;;
  e8 <- hedi.add_edge v03 v01 ;;
  e9_1 <- hedi.add_edge v01 a1 ;;
  e9_2 <- hedi.add_edge a1 v00 ;;
  f3 <- hedi.add_face ;;
  update_face f3 (set_fsite (Some (PointSite gen2 f3))) ;;
  update_face f3 (set_fstatus NONINCIDENT) ;;
  fgrid_add_face f3 ;;
  hedi.set_next_cycle [e7_1; e7_2; e8; e9_1; e9_2] f3 1 ;;
  (* set type *)
  s1 <- face_site f1 ;;
  s2 <- face_site f2 ;;
  s3 <- face_site f3 ;;
  update_edge e1_1 (set_etype LINE) ;; set_parameters e1_1 s1 s3 false ;;
  update_edge e1_2 (set_etype LINE) ;; set_parameters e1_2 s1 s3 true ;;
  update_edge e2 (set_etype OUTEDGE) ;;
  update_edge e3_1 (set_etype LINE) ;; set_parameters e3_1 s2 s1 true ;;
  update_edge e3_2 (set_etype LINE) ;; set_parameters e3_2 s2 s1 false ;;
  update_edge e4_1 (set_etype LINE) ;; set_parameters e4_1 s2 s1 false ;;
  update_edge e4_2 (set_etype LINE) ;; set_parameters e4_2 s2 s1 true ;;
  update_edge e5 (set_etype OUTEDGE) ;;
  update_edge e6_1 (set_etype LINE) ;; set_parameters e6_1 s2 s3 false ;;
  update_edge e6_2 (set_etype LINE) ;; set_parameters e6_2 s2 s3 true ;;
  update_edge e7_1 (set_etype LINE) ;; set_parameters e7_1 s2 s3 true ;;
  update_edge e7_2 (set_etype LINE) ;; set_parameters e7_2 s2 s3 false ;;
  update_edge e8 (set_etype OUTEDGE) ;;
  update_edge e9_1 (set_etype LINE) ;; set_parameters e9_1 s1 s3 true ;;
  update_edge e9_2 (set_etype LINE) ;; set_parameters e9_2 s1 s3 false ;;
  (* twin edges *)
  hedi.twin_edges e1_1 e9_2 ;;
  hedi.twin_edges e1_2 e9_1 ;;
  update_edge e2 (set_twin None) ;;
  update_edge e5 (set_twin None) ;;
  update_edge e8 (set_twin None) ;;
  hedi.twin_edges e3_1 e4_2 ;;
  hedi.twin_edges e3_2 e4_1 ;;
  hedi.twin_edges e6_1 e7_2 ;;
  hedi.twin_edges e6_2 e7_1 ;;
  assertM vd_checker_is_valid.

(** *** The constructor (lines 36-46)

    The data members start empty; [count0] is the value the static vertex
    counter has when the engine is constructed. *)
Definition blank (count0 : Z) : State :=
  mkState (mkGraph ∅ ∅ ∅) count0 0%D 0 0 ∅ [] [] ∅ [] None None None None None [].

Definition VoronoiDiagram_new (far : double) (n_bins : nat) : M unit :=
  modify (with_fgrid []) ;;
  modify (with_far_radius far) ;;
  initialize ;;
  modify (with_num_psites 3) ;;
  modify (with_num_lsites 0) ;;
  (* reset_vertex_count() *)
  modify (with_count 0).

(** *** The vertex queue

    Modelled from the spec: [vertexQueue] is a max-priority queue of pairs
    (vertex, in_circle) ranked by the magnitude of the in_circle value (its
    declaration is in voronoidiagram.hpp, not among the sources). *)
Fixpoint queue_extract (q : list (HEVertex * double))
  : option ((HEVertex * double) * list (HEVertex * double)) :=
  match q with
  | [] => None
  | x :: q' =>
      match queue_extract q' with
      | None => Some (x, [])
      | Some (m, rest) =>
          if (Num.abs (snd x) <? Num.abs (snd m))%D
          then Some (m, x :: rest)
          else Some (x, q')
      end
  end.
Definition queue_top (q : list (HEVertex * double)) : option (HEVertex * double) :=
  fst <$> queue_extract q.
Definition queue_pop (q : list (HEVertex * double)) : list (HEVertex * double) :=
  match queue_extract q with Some (_, rest) => rest | None => [] end.

(** *** [find_seed_vertex] (lines 946-967) *)
Fixpoint find_seed_vertex_loop (n : nat) (site : Site) (start current : HEEdge)
    (minPred : double) (minimalVertex : HEVertex) (first : bool)
  : M (double * HEVertex) :=
  match n with
  | O => fail OutOfFuel
  | S n' =>
      q <- hedi.target current ;;
      gq <- vertex q ;;
      let '(minPred, minimalVertex, first) :=
        if negb (bool_decide (status gq = OUT)) && bool_decide (type gq = NORMAL)
        then
          let h := in_circle gq (apex_point site (position gq)) in
          if first || ((h <? minPred)%D && in_region site (position gq))
          then (h, q, false)
          else (minPred, minimalVertex, first)
        else (minPred, minimalVertex, first) in
      x <- edge current ;;
      let current := next x in
      if bool_decide (current <> start)
      then find_seed_vertex_loop n' site start current minPred minimalVertex first
      else ret (minPred, minimalVertex)
  end.

Definition find_seed_vertex (f : HEFace) (site : Site) : M HEVertex :=
  let minPred : double := 0%D in
  let minimalVertex : HEVertex := None in
  let first := true in
  fp <- face_props f ;;
  let current := fedge fp in
  let start := current in
  r <- find_seed_vertex_loop fuel site start current minPred minimalVertex first ;;
  let '(minPred, minimalVertex) := r in
  assert (minPred <? 0)%D ;;
  ret minimalVertex.

(** *** [predicate_c4] (lines 1707-1718) *)
Fixpoint predicate_c4_loop (l : list HEEdge) (in_count : Z) : M bool :=
  match l with
  | [] => ret false
  | e :: l' =>
      w <- hedi.target e ;;
      gw <- vertex w ;;
      if bool_decide (status gw = IN)
      then
        let in_count := (in_count + 1)%Z in
        if (in_count >=? 2)%Z then ret true else predicate_c4_loop l' in_count
      else predicate_c4_loop l' in_count
  end.
Definition predicate_c4 (v : HEVertex) : M bool :=
  l <- hedi.out_edge_itr v ;;
  predicate_c4_loop l 0.

(** *** [predicate_c5] (lines 1722-1752) *)
Fixpoint predicate_c5_ring (n : nat) (v : HEVertex) (start current : HEEdge)
    (face_ok : bool) : M bool :=
  match n with
  | O => fail OutOfFuel
  | S n' =>
      w <- hedi.target current ;;
      gw <- vertex w ;;
      adj <- hedi.has_edge w v ;;
      let face_ok :=
        if bool_decide (w <> v) && bool_decide (status gw = IN) && adj
        then true
        else if bool_decide (w <> v) &&
                (bool_decide (type gw = ENDPOINT) || bool_decide (type gw = APEX)
                 || bool_decide (type gw = SPLIT))
        then true
        else face_ok in
      x <- edge current ;;
      let current := next x in
      if bool_decide (current <> start)
      then predicate_c5_ring n' v start current face_ok
      else ret face_ok
  end.

Fixpoint predicate_c5_faces (v : HEVertex) (l : list HEFace) (all_found : bool)
  : M bool :=
  match l with
  | [] => ret all_found
  | f :: l' =>
      fp <- face_props f ;;
      let current := fedge fp in
      let start := current in
      face_ok <- predicate_c5_ring fuel v start current false ;;
      predicate_c5_faces v l' (if negb face_ok then false else all_found)
  end.

Fixpoint adjacent_incident (l : list HEEdge) : M (list HEFace) :=
  match l with
  | [] => ret []
  | e :: l' =>
      x <- edge e ;;
      let f := eface x in
      fp <- face_props f ;;
      rest <- adjacent_incident l' ;;
      ret (if bool_decide (fstatus fp = INCIDENT) then f :: rest else rest)
  end.

Definition predicate_c5 (v : HEVertex) : M bool :=
  gv <- vertex v ;;
  if bool_decide (type gv = APEX) || bool_decide (type gv = SPLIT)
  then ret true
  else
    l <- hedi.out_edge_itr v ;;
    adjacent_incident_faces <- adjacent_incident l ;;
    assert (negb (bool_decide (adjacent_incident_faces = []))) ;;
    predicate_c5_faces v adjacent_incident_faces true.

(** *** [find_split_edges] (lines 1073-1102) *)
Fixpoint find_split_edges_loop (n : nat) (pt1 pt2 : Point)
    (start_edge current_edge : HEEdge) (out : list HEEdge) : M (list HEEdge) :=
  match n with
  | O => fail OutOfFuel
  | S n' =>
      trg <- hedi.target current_edge ;;
      src <- hedi.source current_edge ;;
      gsrc <- vertex src ;;
      gtrg <- vertex trg ;;
      let src_is_right := is_right (position gsrc) pt1 pt2 in
      let trg_is_right := is_right (position gtrg) pt1 pt2 in
      out <-
        (if bool_decide (type gsrc = NORMAL) || bool_decide (type gsrc = APEX)
            || bool_decide (type gsrc = SPLIT)
         then
           if negb (eqb src_is_right trg_is_right)
           then assertM (vd_checker_check_edge current_edge) ;;
                ret (out ++ [current_edge])
           else ret out
         else ret out) ;;
      x <- edge current_edge ;;
      let current_edge := next x in
      if bool_decide (current_edge <> start_edge)
      then find_split_edges_loop n' pt1 pt2 start_edge current_edge out
      else ret out
  end.

Definition find_split_edges (f : HEFace) (pt1 pt2 : Point) : M (list HEEdge) :=
  assertM (vd_checker_face_ok f) ;;
  fp <- face_props f ;;
  let current_edge := fedge fp in
  let start_edge := current_edge in
  find_split_edges_loop fuel pt1 pt2 start_edge current_edge [].

(** *** [add_split_vertex] (lines 1109-1193)

    The loop over the split edges; a [return] inside it leaves the
    function. *)
Fixpoint add_split_vertex_loop (fpos : Point) (pt1 pt2 : Point)
    (split_edges : list HEEdge) : M unit :=
  match split_edges with
  | [] => ret tt
  | split_edge :: rest =>
      x <- edge split_edge ;;
      if bool_decide (etype x = Some SEPARATOR) ||
         bool_decide (etype x = Some LINESITE)
      then ret tt
      else
        split_src <- hedi.source split_edge ;;
        split_trg <- hedi.target split_edge ;;
        gsrc <- vertex split_src ;;
        gtrg <- vertex split_trg ;;
        gr <- gets g ;;
        let errFunctr := SplitPointError gr split_edge pt1 pt2 in
        let min_t := Num.min (dist gsrc) (dist gtrg) in
        let max_t := Num.max (dist gsrc) (dist gtrg) in
        if (0 <=? errFunctr min_t * errFunctr max_t)%D
        then ret tt
        else
          let r1 := toms748_solve errFunctr min_t max_t in
          let split_pt_pos := point x (fst r1) in
          v <- add_new_vertex split_pt_pos UNDECIDED SPLIT (Some fpos) 0 ;;
          assertM (vd_checker_check_edge split_edge) ;;
          hedi.add_vertex_in_edge v split_edge ;;
          add_split_vertex_loop fpos pt1 pt2 rest
  end.

Definition add_split_vertex (f : HEFace) (s : Site) : M unit :=
  if isPoint s then ret tt
  else
    fs <- face_site f ;;
    match fs, s with
    | PointSite fpos _, LineSite s_start s_end _ _ =>
        if (fpos =? s_start)%P || (fpos =? s_end)%P
        then ret tt
        else
          if in_region s fpos
          then
            let pt1 := fpos in
            let pt2 := (pt1 - mkPoint (line_a s_start s_end) (line_b s_start s_end))%P in
            assert (0 <? norm (pt1 - pt2)%P)%D ;;
            split_edges <- find_split_edges f pt1 pt2 ;;
            add_split_vertex_loop fpos pt1 pt2 split_edges
          else ret tt
    | _, _ => ret tt
    end.

(** *** [mark_adjacent_faces_p] (lines 1033-1043) *)
Definition mark_adjacent_faces_p (v : HEVertex) (site : Site) : M unit :=
  gv <- vertex v ;;
  assert (bool_decide (status gv = IN)) ;;
  l <- hedi.out_edge_itr v ;;
  foreach l (fun e =>
    x <- edge e ;;
    let adj_face := eface x in
    fp <- face_props adj_face ;;
    if negb (bool_decide (fstatus fp = INCIDENT))
    then update_face adj_face (set_fstatus INCIDENT) ;;
         modify (fun s => with_incident_faces (incident_faces s ++ [adj_face]) s)
    else ret tt).

(** *** [mark_adjacent_faces] (lines 1048-1067) *)
Definition mark_adjacent_faces (v : HEVertex) (site : Site) : M unit :=
  gv <- vertex v ;;
  assert (bool_decide (status gv = IN)) ;;
  new_adjacent_faces <- hedi.adjacent_faces v ;;
  assert ((bool_decide (type gv = APEX) && bool_decide (length new_adjacent_faces = 2))
          || (bool_decide (type gv = SPLIT) && bool_decide (length new_adjacent_faces = 2))
          || bool_decide (length new_adjacent_faces = 3)) ;;
  foreach new_adjacent_faces (fun adj_face =>
    fp <- face_props adj_face ;;
    if negb (bool_decide (fstatus fp = INCIDENT))
    then (if isLine site then add_split_vertex adj_face site else ret tt) ;;
         update_face adj_face (set_fstatus INCIDENT) ;;
         modify (fun s => with_incident_faces (incident_faces s ++ [adj_face]) s)
    else ret tt).

(** *** [mark_vertex] (lines 1008-1028) *)
Definition mark_vertex (v : HEVertex) (site : Site) : M unit :=
  update_vertex v (set_status IN) ;;
  modify (fun s => with_v0 (v0 s ++ [v]) s) ;;
  modify (fun s => with_modified_vertices ({[v]} ∪ modified_vertices s) s) ;;
  (if isPoint site
   then mark_adjacent_faces_p v site
   else mark_adjacent_faces v site) ;;
  l <- hedi.out_edge_itr v ;;
  foreach l (fun e =>
    w <- hedi.target e ;;
    gw <- vertex w ;;
    if bool_decide (status gw = UNDECIDED) && negb (in_queue gw)
    then
      modify (fun s =>
        with_vertexQueue
          (vertexQueue s ++ [(w, in_circle gw (apex_point site (position gw)))]) s) ;;
      update_vertex w (set_in_queue true)
    else ret tt).

(** *** [augment_vertex_set] (lines 978-1004)

    One turn of the [while] loop: the top of the queue is popped and
    decided. *)
Definition augment_vertex_set_body (site : Site) (v : HEVertex) (h : double)
  : M unit :=
  gv <- vertex v ;;
  assert (bool_decide (status gv = UNDECIDED)) ;;
  modify (fun s => with_vertexQueue (queue_pop (vertexQueue s)) s) ;;
  (if (h <? 0)%D
   then
     c4 <- predicate_c4 v ;;
     violated <-
       (if c4 then ret true
        else c5 <- predicate_c5 v ;;
             if negb c5 then ret true
             else ret (negb (in_region site (position gv)))) ;;
     if (violated : bool)
     then update_vertex v (set_status OUT)
     else mark_vertex v site
   else update_vertex v (set_status OUT)) ;;
  modify (fun s => with_modified_vertices ({[v]} ∪ modified_vertices s) s).

Fixpoint augment_vertex_set_loop (n : nat) (site : Site) : M unit :=
  q <- gets vertexQueue ;;
  match queue_top q with
  | None => ret tt
  | Some (v, h) =>
      match n with
      | O => fail OutOfFuel
      | S n' =>
          augment_vertex_set_body site v h ;;
          augment_vertex_set_loop n' site
      end
  end.

Definition augment_vertex_set (site : Site) : M unit :=
  augment_vertex_set_loop fuel site ;;
  q <- gets vertexQueue ;;
  assert (bool_decide (q = [])).

(** *** [find_in_out_edges] (lines 1691-1703) *)
Fixpoint find_in_out_edges_inner (l : list HEEdge) (output : list HEEdge)
  : M (list HEEdge) :=
  match l with
  | [] => ret output
  | e :: l' =>
      w <- hedi.target e ;;
      gw <- vertex w ;;
      find_in_out_edges_inner l'
        (if bool_decide (status gw = OUT) then output ++ [e] else output)
  end.

Fixpoint find_in_out_edges_loop (vs : list HEVertex) (output : list HEEdge)
  : M (list HEEdge) :=
  match vs with
  | [] => ret output
  | v :: vs' =>
      gv <- vertex v ;;
      assert (bool_decide (status gv = IN)) ;;
      l <- hedi.out_edge_itr v ;;
      output <- find_in_out_edges_inner l output ;;
      find_in_out_edges_loop vs' output
  end.

Definition find_in_out_edges : M (list HEEdge) :=
  vs <- gets v0 ;;
  assert (negb (bool_decide (vs = []))) ;;
  output <- find_in_out_edges_loop vs [] ;;
  assert (negb (bool_decide (output = []))) ;;
  ret output.

(** *** [add_vertices] (lines 1233-1260) *)
Definition add_vertices (new_site : Site) : M unit :=
  vs <- gets v0 ;;
  assert (negb (bool_decide (vs = []))) ;;
  q_edges <- find_in_out_edges ;;
  foreach q_edges (fun q_edge =>
    gr <- gets g ;;
    let sl := vpos_position gr q_edge new_site in
    q <- add_new_vertex (sol_p sl) NEW NORMAL
           (Some (apex_point new_site (sol_p sl))) (sol_k3 sl) ;;
    modify (fun s => with_modified_vertices ({[q]} ∪ modified_vertices s) s) ;;
    hedi.add_vertex_in_edge q q_edge).

(** *** [add_face] (lines 1264-1273) *)
Definition add_face (s : Site) : M HEFace :=
  newface <- hedi.add_face ;;
  update_face newface (set_fsite (Some (site_set_face newface s))) ;;
  update_face newface (set_fstatus NONINCIDENT) ;;
  (if isPoint s then fgrid_add_face newface else ret tt) ;;
  ret newface.

(** *** [num_new_vertices] (lines 1765-1779) *)
Fixpoint num_new_vertices_loop (n : nat) (start current : HEEdge) (count : Z)
  : M Z :=
  match n with
  | O => fail OutOfFuel
  | S n' =>
      v <- hedi.target current ;;
      gv <- vertex v ;;
      let count :=
        if bool_decide (status gv = NEW) && negb (bool_decide (type gv = SEPPOINT))
        then (count + 1)%Z else count in
      x <- edge current ;;
      let current := next x in
      if bool_decide (current <> start)
      then num_new_vertices_loop n' start current count
      else ret count
  end.
Definition num_new_vertices (f : HEFace) : M Z :=
  fp <- face_props f ;;
  let current := fedge fp in
  let start := current in
  num_new_vertices_loop fuel start current 0.

(** *** [find_edge_data] (lines 1504-1586) *)
Record EdgeData : Type := mkEdgeData {
  v1 : HEVertex;
  v1_prv : HEEdge;
  v1_nxt : HEEdge;
  v2 : HEVertex;
  v2_prv : HEEdge;
  v2_nxt : HEEdge;
  ed_f : HEFace
}.

(** The first loop: the OUT-NEW-IN vertex [v1] with its edges, and the edge
    the walk stopped at. *)
Fixpoint find_edge_data_v1 (n : nat) (startverts : list HEVertex)
    (start_edge current_edge : HEEdge)
  : M (option (HEVertex * HEEdge * HEEdge) * HEEdge) :=
  match n with
  | O => fail OutOfFuel
  | S n' =>
      x <- edge current_edge ;;
      let next_edge := next x in
      previous_vertex <- hedi.source current_edge ;;
      current_vertex <- hedi.target current_edge ;;
      next_vertex <- hedi.target next_edge ;;
      gprev <- vertex previous_vertex ;;
      gcur <- vertex current_vertex ;;
      gnext <- vertex next_vertex ;;
      segment_start <- gets segment_start ;;
      segment_end <- gets segment_end ;;
      let found :=
        if bool_decide (status gcur = NEW) && negb (bool_decide (type gcur = SEPPOINT))
           && (((bool_decide (status gprev = OUT) || bool_decide (status gprev = UNDECIDED))
                && (bool_decide (previous_vertex <> segment_start)
                    && bool_decide (previous_vertex <> segment_end)))
               || (bool_decide (type gnext = ENDPOINT)
                   && (bool_decide (next_vertex = segment_start)
                       || bool_decide (next_vertex = segment_end))))
        then
          let not_found := negb (bool_decide (current_vertex ∈ startverts)) in
          if not_found then Some (current_vertex, current_edge, next x) else None
        else None in
      let current_edge := next x in
      if bool_decide (current_edge <> start_edge) && negb (bool_decide (is_Some found))
      then find_edge_data_v1 n' startverts start_edge current_edge
      else ret (found, current_edge)
  end.

(** The second loop: the IN-NEW-OUT vertex [v2], another NEW vertex. *)
Fixpoint find_edge_data_v2 (n : nat) (ed_v1 : HEVertex)
    (start_edge current_edge : HEEdge)
  : M (option (HEVertex * HEEdge * HEEdge)) :=
  match n with
  | O => fail OutOfFuel
  | S n' =>
      current_vertex <- hedi.target current_edge ;;
      gcur <- vertex current_vertex ;;
      x <- edge current_edge ;;
      let found :=
        if bool_decide (status gcur = NEW) && negb (bool_decide (type gcur = SEPPOINT))
        then
          if bool_decide (current_vertex <> ed_v1)
          then Some (current_vertex, current_edge, next x) else None
        else None in
      let current_edge := next x in
      if bool_decide (current_edge <> start_edge) && negb (bool_decide (is_Some found))
      then find_edge_data_v2 n' ed_v1 start_edge current_edge
      else ret found
  end.

Definition find_edge_data (f : HEFace) (startverts : list HEVertex) : M EdgeData :=
  fp <- face_props f ;;
  let current_edge := fedge fp in
  let start_edge := current_edge in
  r <- find_edge_data_v1 fuel startverts start_edge current_edge ;;
  let '(found, current_edge) := r in
  assert (bool_decide (is_Some found)) ;;
  first <- valid found ;;
  let '(ed_v1, ed_v1_prv, ed_v1_nxt) := first in
  let start_edge := current_edge in
  found <- find_edge_data_v2 fuel ed_v1 start_edge current_edge ;;
  assert (bool_decide (is_Some found)) ;;
  second <- valid found ;;
  let '(ed_v2, ed_v2_prv, ed_v2_nxt) := second in
  ret (mkEdgeData ed_v1 ed_v1_prv ed_v1_nxt ed_v2 ed_v2_prv ed_v2_nxt f).

(** *** [add_edge] (lines 1294-1450) *)
Definition add_edge (ed : EdgeData) (newface newface2 : HEFace) : M unit :=
  let new_previous := v1_prv ed in
  let new_source := v1 ed in
  let twin_next := v1_nxt ed in
  let twin_previous := v2_prv ed in
  let new_target := v2 ed in
  let new_next := v2_nxt ed in
  let f := ed_f ed in
  f_site <- face_site f ;;
  gsrc <- vertex new_source ;;
  sf <-
    (if bool_decide (k3 gsrc = 1%Z)
     then s <- face_site newface ;; ret (s, newface)
     else s <- face_site newface2 ;; ret (s, newface2)) ;;
  let '(new_site, new_face) := sf in
  gtrg <- vertex new_target ;;
  assert (bool_decide (k3 gtrg = k3 gsrc)) ;;
  (* check for potential apex-split *)
  signs <-
    match f_site, new_site with
    | PointSite fpos _, LineSite _ _ _ _ =>
        let pt1 := fpos in
        let pt2 := apex_point new_site pt1 in
        ret (is_right (position gsrc) pt1 pt2, is_right (position gtrg) pt1 pt2)
    | PointSite fpos _, PointSite npos _ =>
        ret (is_right (position gsrc) fpos npos, is_right (position gtrg) fpos npos)
    | LineSite fstart fend _ _, LineSite nstart nend _ _ =>
        (if negb (position gsrc =? position gtrg)%P
            && negb (position gsrc =? fstart)%P
            && negb (position gsrc =? fend)%P
            && negb (position gtrg =? fstart)%P
            && negb (position gtrg =? fend)%P
            && (Num.of_Q 1e-3 <?
                  norm (position gsrc - apex_point f_site (position gsrc))%P)%D
            && (Num.of_Q 1e-3 <?
                  norm (position gtrg - apex_point f_site (position gtrg))%P)%D
         then
           assert (negb (is_right (position gsrc) fstart fend)) ;;
           assert (negb (is_right (position gtrg) fstart fend)) ;;
           assert (negb (is_right (position gsrc) nstart nend)) ;;
           assert (negb (is_right (position gtrg) nstart nend))
         else ret tt) ;;
        ret (true, true)
    | LineSite _ _ _ _, PointSite _ _ =>
        assert false ;; ret (true, true)
    end ;;
  let '(src_sign, trg_sign) := signs in
  if eqb src_sign trg_sign
  then
    (* add a single src-trg edge *)
    p <- hedi.add_twin_edges new_source new_target ;;
    let '(e_new, e_twin) := p in
    update_edge e_new (set_next_ptr new_next) ;;
    xnext <- edge new_next ;;
    xprev <- edge new_previous ;;
    assert (bool_decide (ek xnext = ek xprev)) ;;
    update_edge e_new (set_ek (ek xnext)) ;;
    update_edge e_new (set_eface f) ;;
    update_edge new_previous (set_next_ptr e_new) ;;
    update_face f (set_fedge e_new) ;;
    set_parameters e_new f_site new_site (negb src_sign) ;;
    update_edge twin_previous (set_next_ptr e_twin) ;;
    update_edge e_twin (set_next_ptr twin_next) ;;
    gsrc <- vertex new_source ;;
    update_edge e_twin (set_ek (k3 gsrc)) ;;
    set_parameters e_twin new_site f_site src_sign ;;
    update_edge e_twin (set_eface new_face) ;;
    update_face new_face (set_fedge e_twin) ;;
    c1 <- vd_checker_check_edge e_new ;;
    c2 <- (if c1 then vd_checker_check_edge e_twin else ret false) ;;
    assert c2
  else
    (* apex-split *)
    apex <- add_new_vertex (mkPoint 0 0) NEW APEX None 0 ;;
    p1 <- hedi.add_twin_edges new_source apex ;;
    let '(e1, e1_tw) := p1 in
    p2 <- hedi.add_twin_edges apex new_target ;;
    let '(e2, e2_tw) := p2 in
    set_parameters e1 f_site new_site (negb src_sign) ;;
    set_parameters e2 f_site new_site (negb trg_sign) ;;
    xprev <- edge new_previous ;;
    xnext <- edge new_next ;;
    assert (bool_decide (eface xprev = f)) ;;
    assert (bool_decide (eface xnext = f)) ;;
    assert (bool_decide (ek xnext = ek xprev)) ;;
    hedi.set_next_chain_fk [new_previous; e1; e2; new_next] f (ek xnext) ;;
    set_parameters e1_tw new_site f_site src_sign ;;
    set_parameters e2_tw new_site f_site trg_sign ;;
    xtprev <- edge twin_previous ;;
    xtnext <- edge twin_next ;;
    assert (bool_decide (ek xtprev = ek xtnext)) ;;
    assert (bool_decide (eface xtprev = eface xtnext)) ;;
    hedi.set_next_chain [twin_previous; e2_tw; e1_tw; twin_next] ;;
    gsrc <- vertex new_source ;;
    update_edge e1_tw (set_ek (k3 gsrc)) ;;
    update_edge e2_tw (set_ek (k3 gsrc)) ;;
    update_face new_face (set_fedge e1_tw) ;;
    update_edge e1_tw (set_eface new_face) ;;
    update_edge e2_tw (set_eface new_face) ;;
    c1 <- vd_checker_check_edge e1 ;;
    c1' <- (if c1 then vd_checker_check_edge e1_tw else ret false) ;;
    assert c1' ;;
    c2 <- vd_checker_check_edge e2 ;;
    c2' <- (if c2 then vd_checker_check_edge e2_tw else ret false) ;;
    assert c2' ;;
    (* position the apex *)
    x1 <- edge e1 ;;
    let min_t := minimum_t x1 f_site new_site in
    update_vertex apex (set_position (point x1 min_t)) ;;
    gapex <- vertex apex ;;
    update_vertex apex (init_dist (apex_point f_site (position gapex))) ;;
    modify (fun s => with_modified_vertices ({[apex]} ∪ modified_vertices s) s)
  .

(** *** [add_edges] (lines 1277-1290) *)
Fixpoint add_edges_loop (new_pairs : nat) (newface f newface2 : HEFace)
    (startverts : list HEVertex) : M unit :=
  match new_pairs with
  | O => ret tt
  | S m =>
      ed <- find_edge_data f startverts ;;
      add_edge ed newface newface2 ;;
      add_edges_loop m newface f newface2 (startverts ++ [v1 ed])
  end.

Definition add_edges (newface f newface2 : HEFace) : M unit :=
  new_count <- num_new_vertices f ;;
  assert (0 <? new_count)%Z ;;
  assert (new_count mod 2 =? 0)%Z ;;
  let new_pairs := (new_count / 2)%Z in
  add_edges_loop (Z.to_nat new_pairs) newface f newface2 [].

(** *** [repair_face] (lines 1590-1663)

    The inner loop over the half-edges leaving [current_target]; it returns
    [found_next_edge]. *)
Fixpoint repair_face_candidates (f : HEFace) (current_edge : HEEdge)
    (current_source current_target : HEVertex) (l : list HEEdge)
    (found_next_edge : bool) : M bool :=
  match l with
  | [] => ret found_next_edge
  | e :: l' =>
      out_target <- hedi.target e ;;
      gout <- vertex out_target ;;
      found_next_edge <-
        (if bool_decide (out_target <> current_source)
            && (bool_decide (status gout = NEW)
                || bool_decide (type gout = ENDPOINT)
                || bool_decide (type gout = SEPPOINT))
         then
           xe <- edge e ;;
           xcur <- edge current_edge ;;
           gtrg <- vertex current_target ;;
           gsrc <- vertex current_source ;;
           segment_start <- gets segment_start ;;
           segment_end <- gets segment_end ;;
           null_face1 <- gets null_face1 ;;
           null_face2 <- gets null_face2 ;;
           zero_point_face <- gets zero_point_face ;;
           (if (bool_decide (etype xe = Some NULLEDGE)
                && negb (bool_decide (etype xcur = Some NULLEDGE))
                && ((bool_decide (type gtrg = SEPPOINT)
                       && bool_decide (type gout = ENDPOINT))
                    || (bool_decide (type gsrc = ENDPOINT)
                          && bool_decide (type gtrg = ENDPOINT))
                    || bool_decide (out_target = segment_start)
                    || bool_decide (out_target = segment_end))
                && negb (bool_decide (eface xe = null_face1))
                && negb (bool_decide (eface xe = null_face2)))
               || bool_decide (eface xe = zero_point_face)
            then
              update_edge e (set_eface f) ;;
              update_edge e (set_ek (ek xcur))
            else ret tt) ;;
           xe <- edge e ;;
           if bool_decide (eface xe = f)
           then
             update_edge current_edge (set_next_ptr e) ;;
             xcur <- edge current_edge ;;
             assert (bool_decide (ek xcur = ek xe)) ;;
             assertM (gets (fun s => current_face_equals_next_face (g s) current_edge)) ;;
             ret true
           else ret found_next_edge
         else ret found_next_edge) ;;
      repair_face_candidates f current_edge current_source current_target l'
        found_next_edge
  end.

Fixpoint repair_face_loop (n : nat) (f : HEFace) (start_edge current_edge : HEEdge)
  : M unit :=
  match n with
  | O => fail OutOfFuel
  | S n' =>
      assertM (vd_checker_check_edge current_edge) ;;
      current_target <- hedi.target current_edge ;;
      current_source <- hedi.source current_edge ;;
      l <- hedi.out_edge_itr current_target ;;
      found_next_edge <-
        repair_face_candidates f current_edge current_source current_target l false ;;
      assert found_next_edge ;;
      x <- edge current_edge ;;
      let current_edge := next x in
      if bool_decide (current_edge <> start_edge)
      then repair_face_loop n' f start_edge current_edge
      else ret tt
  end.

Definition repair_face (f : HEFace) : M unit :=
  fp <- face_props f ;;
  let current_edge := fedge fp in
  let start_edge := current_edge in
  repair_face_loop fuel f start_edge current_edge.

(** *** [remove_vertex_set] (lines 1666-1672) *)
Definition remove_vertex_set : M unit :=
  vs <- gets v0 ;;
  foreach vs (fun v =>
    gv <- vertex v ;;
    assert (bool_decide (status gv = IN)) ;;
    hedi.delete_vertex v ;;
    modify (fun s => with_modified_vertices (modified_vertices s ∖ {[v]}) s)).

(** *** [reset_status] (lines 1677-1687) *)
Definition reset_status : M unit :=
  mv <- gets modified_vertices ;;
  foreach (elements mv) (fun v => update_vertex v reset) ;;
  modify (with_modified_vertices ∅) ;;
  fs <- gets incident_faces ;;
  foreach fs (fun f => update_face f (set_fstatus NONINCIDENT)) ;;
  modify (with_incident_faces []) ;;
  modify (with_v0 []).

(** *** [find_split_vertex] (lines 1197-1206): the first SPLIT vertex on
    the ring of [f], if there is one. *)
Fixpoint find_split_vertex_loop (verts : list HEVertex) : M (option HEVertex) :=
  match verts with
  | [] => ret None
  | q :: verts' =>
      gq <- vertex q ;;
      if bool_decide (type gq = SPLIT) then ret (Some q)
      else find_split_vertex_loop verts'
  end.
Definition find_split_vertex (f : HEFace) : M (option HEVertex) :=
  verts <- hedi.face_vertices f ;;
  find_split_vertex_loop verts.

(** *** [remove_split_vertex] (lines 1209-1229) *)
Fixpoint remove_split_vertex_loop (n : nat) (f : HEFace) : M unit :=
  r <- find_split_vertex f ;;
  match r with
  | None => ret tt
  | Some v =>
      match n with
      | O => fail OutOfFuel
      | S n' =>
          gv <- vertex v ;;
          assert (bool_decide (type gv = SPLIT)) ;;
          hedi.remove_deg2_vertex v ;;
          modify (fun s => with_modified_vertices (modified_vertices s ∖ {[v]}) s) ;;
          assertM (vd_checker_face_ok f) ;;
          remove_split_vertex_loop n' f
      end
  end.
Definition remove_split_vertex (f : HEFace) : M unit :=
  assertM (vd_checker_face_ok f) ;;
  remove_split_vertex_loop fuel f ;;
  assertM (vd_checker_face_ok f).

(** *** [insert_point_site] (lines 160-194)

    [std::map::insert] keeps the entry of a key that is already there. *)
Definition vertex_map_insert (idx : Z) (v : HEVertex) : M unit :=
  modify (fun s =>
    match vertex_map s !! idx with
    | Some _ => s
    | None => with_vertex_map (<[idx := v]> (vertex_map s)) s
    end).

Definition insert_point_site (p : Point) (step : Z) : M Z :=
  modify (with_segment_start None) ;;
  modify (with_segment_end None) ;;
  modify (with_zero_point_face None) ;;
  modify (fun s => with_num_psites (num_psites s + 1)%Z s) ;;
  let current_step := 1%Z in
  far_radius <- gets far_radius ;;
  assert (norm p <? far_radius)%D ;;
  new_vert <- add_new_vertex p OUT POINTSITE None 0 ;;
  let new_site := PointSite p None in
  gnew <- vertex new_vert ;;
  vertex_map_insert (index gnew) new_vert ;;
  closest <- gets (fun s => grid_find_closest_face (fgrid s) p) ;;
  v_seed <- find_seed_vertex closest new_site ;;
  mark_vertex v_seed new_site ;;
  if (step =? current_step)%Z then ret (-1)%Z else
  let current_step := (current_step + 1)%Z in
  augment_vertex_set new_site ;;
  if (step =? current_step)%Z then ret (-1)%Z else
  let current_step := (current_step + 1)%Z in
  add_vertices new_site ;;
  if (step =? current_step)%Z then ret (-1)%Z else
  let current_step := (current_step + 1)%Z in
  newface <- add_face new_site ;;
  update_vertex new_vert (set_face newface) ;;
  fs <- gets incident_faces ;;
  foreach fs (fun f => add_edges newface f None) ;;
  if (step =? current_step)%Z then ret (-1)%Z else
  let current_step := (current_step + 1)%Z in
  repair_face newface ;;
  remove_vertex_set ;;
  if (step =? current_step)%Z then ret (-1)%Z else
  let current_step := (current_step + 1)%Z in
  reset_status ;;
  assertM (vd_checker_face_ok newface) ;;
  assertM vd_checker_is_valid ;;
  gnew <- vertex new_vert ;;
  ret (index gnew).

(** *** [find_pointsite_face] (lines 388-404) *)
Fixpoint find_pointsite_face_loop (n : nat) (start_e current_e : HEEdge)
    (start_face : HEFace) : M HEFace :=
  match n with
  | O => fail OutOfFuel
  | S n' =>
      x <- edge current_e ;;
      let twin := twin x in
      xt <- edge twin ;;
      let twin_f := eface xt in
      fp <- face_props twin_f ;;
      let start_face :=
        match fsite fp with
        | Some site => if isPoint site then twin_f else start_face
        | None => start_face
        end in
      let current_e := next x in
      if bool_decide (current_e <> start_e)
      then find_pointsite_face_loop n' start_e current_e start_face
      else ret start_face
  end.

Definition find_pointsite_face (start_edge : HEEdge) : M HEFace :=
  let current_e := start_edge in
  let start_e := current_e in
  x <- edge start_edge ;;
  xt <- edge (twin x) ;;
  let start_face := eface xt in
  find_pointsite_face_loop fuel start_e current_e start_face.

(** *** [add_linesite_edges] (lines 406-435) *)
Definition add_linesite_edges (seg_start seg_end : HEVertex)
    (linesite_k_sign : bool) : M (HEFace * HEFace) :=
  gstart <- vertex seg_start ;;
  gend <- vertex seg_end ;;
  r <-
    (if linesite_k_sign
     then
       p <- hedi.add_twin_edges seg_start seg_end ;;
       ret (LineSite (position gstart) (position gend) 1 None,
            LineSite (position gend) (position gstart) (-1) None, p)
     else
       p <- hedi.add_twin_edges seg_end seg_start ;;
       ret (LineSite (position gend) (position gstart) 1 None,
            LineSite (position gstart) (position gend) (-1) None, p)) ;;
  let '(pos_site, neg_site, (pos_edge, neg_edge)) := r in
  update_edge pos_edge (set_etype LINESITE) ;;
  update_edge neg_edge (set_etype LINESITE) ;;
  update_edge pos_edge (set_ek 1) ;;
  update_edge neg_edge (set_ek (-1)) ;;
  c1 <- vd_checker_check_edge pos_edge ;;
  c2 <- (if c1 then vd_checker_check_edge neg_edge else ret false) ;;
  assert c2 ;;
  pos_face <- add_face pos_site ;;
  neg_face <- add_face neg_site ;;
  update_face pos_face (set_fedge pos_edge) ;;
  update_face neg_face (set_fedge neg_edge) ;;
  update_edge pos_edge (set_eface pos_face) ;;
  update_edge neg_edge (set_eface neg_face) ;;
  ret (pos_face, neg_face).

(** *** [find_endpoints] (lines 439-445) *)
Definition find_endpoints (idx1 idx2 : Z) : M (HEVertex * HEVertex) :=
  vm <- gets vertex_map ;;
  let it_start := vm !! idx1 in
  let it_end := vm !! idx2 in
  assert (bool_decide (is_Some it_start) && bool_decide (is_Some it_end)) ;;
  a <- valid it_start ;;
  b <- valid it_end ;;
  ret (a, b).

(** *** [find_next_prev] (lines 448-470) *)
Fixpoint find_next_prev_loop (n : nat) (endp : HEVertex)
    (start_edge current next_edge prev_edge : HEEdge) : M (HEEdge * HEEdge) :=
  match n with
  | O => fail OutOfFuel
  | S n' =>
      src <- hedi.source current ;;
      trg <- hedi.target current ;;
      let next_edge := if bool_decide (src = endp) then current else next_edge in
      let prev_edge := if bool_decide (trg = endp) then current else prev_edge in
      x <- edge current ;;
      let current := next x in
      if bool_decide (current <> start_edge)
      then find_next_prev_loop n' endp start_edge current next_edge prev_edge
      else ret (next_edge, prev_edge)
  end.

Definition find_next_prev (null_face : HEFace) (endp : HEVertex)
  : M (HEEdge * HEEdge) :=
  fp <- face_props null_face ;;
  let current := fedge fp in
  let start_edge := current in
  r <- find_next_prev_loop fuel endp start_edge current None None ;;
  let '(next_edge, prev_edge) := r in
  assert (negb (bool_decide (next_edge = None))) ;;
  assert (negb (bool_decide (prev_edge = None))) ;;
  ret (next_edge, prev_edge).

(** *** [add_sep_point] (lines 715-724) *)
Definition add_sep_point (endp : HEVertex) (e : HEEdge) (sep_dir : Point)
  : M HEVertex :=
  gendp <- vertex endp ;;
  sep <- add_new_vertex (position gendp) OUT SEPPOINT None 0 ;;
  update_vertex sep (set_alfa sep_dir) ;;
  hedi.add_vertex_in_edge sep e ;;
  ret sep.

(** The case "identical SEPPOINT" of [process_next_null] and
    [process_prev_null]: the separator leaving [sp] is found, the face of
    its point-site side becomes the zero-point face, and its target is
    marked NEW. *)
Fixpoint last_separator (l : list HEEdge) (sep_edge : HEEdge) : M HEEdge :=
  match l with
  | [] => ret sep_edge
  | e :: l' =>
      x <- edge e ;;
      last_separator l' (if bool_decide (etype x = Some SEPARATOR) then e else sep_edge)
  end.

Definition identical_seppoint (sp : HEVertex) : M unit :=
  l <- hedi.out_edge_itr sp ;;
  sep_edge <- last_separator l None ;;
  assert (negb (bool_decide (sep_edge = None))) ;;
  xsep <- edge sep_edge ;;
  let sep_twin := twin xsep in
  let sep_face := eface xsep in
  sep_site <- face_site sep_face ;;
  xtw <- edge sep_twin ;;
  let sep_twin_face := eface xtw in
  sep_twin_site <- face_site sep_twin_face ;;
  let pointsite_edge : HEEdge := None in
  let pointsite_edge := if isPoint sep_site then sep_edge else pointsite_edge in
  let pointsite_edge := if isPoint sep_twin_site then sep_twin else pointsite_edge in
  xp <- edge pointsite_edge ;;
  modify (with_zero_point_face (eface xp)) ;;
  sep_target <- hedi.target sep_edge ;;
  update_vertex sep_target (set_status NEW) ;;
  modify (fun s => with_modified_vertices ({[sep_target]} ∪ modified_vertices s) s).

(** *** [process_next_null] (lines 476-592) *)
Definition process_next_null (dir : Point) (next_edge : HEEdge) (k3 : bool)
  : M HEVertex :=
  trg <- hedi.target next_edge ;;
  src <- hedi.source next_edge ;;
  gsrc <- vertex src ;;
  assert (bool_decide (type gsrc = ENDPOINT)) ;;
  let sep_point : HEVertex := None in
  let neg_sep_dir := xy_perp dir in
  let neg_sep_alfa := diangle (px neg_sep_dir) (py neg_sep_dir) in
  gtrg <- vertex trg ;;
  if bool_decide (type gtrg = ENDPOINT)
  then
    (if diangle_bracket (alfa gsrc) neg_sep_alfa (alfa gtrg)
     then assert false else ret tt) ;;
    new_v <- add_new_vertex (position gsrc) NEW NORMAL (Some (position gsrc)) 0 ;;
    let mid := diangle_mid (alfa gsrc) (alfa gtrg) in
    update_vertex new_v (set_alfa_value mid) ;;
    modify (fun s => with_modified_vertices ({[new_v]} ∪ modified_vertices s) s) ;;
    hedi.add_vertex_in_edge new_v next_edge ;;
    update_vertex new_v (set_k3 (if k3 then 1 else (-1))%Z) ;;
    ret sep_point
  else
    if (neg_sep_alfa =? alfa gtrg)%D && bool_decide (type gtrg = SEPPOINT)
    then
      identical_seppoint trg ;;
      ret None
    else
      x <- edge next_edge ;;
      xt <- edge (twin x) ;;
      let next_face := eface xt in
      fp <- face_props next_face ;;
      let next_edge_site := fsite fp in
      room <-
        (if diangle_bracket (alfa gsrc) neg_sep_alfa (alfa gtrg)
         then site <- valid next_edge_site ;; ret (isPoint site)
         else ret false) ;;
      if (room : bool)
      then
        sep_point <- add_sep_point src next_edge neg_sep_dir ;;
        update_vertex sep_point (set_k3 (if k3 then 1 else (-1))%Z) ;;
        ret sep_point
      else
        let next_next := next x in
        next_trg <- hedi.target next_next ;;
        gnext_trg <- vertex next_trg ;;
        let mid := diangle_mid (alfa gsrc) (alfa gnext_trg) in
        sep_point <-
          (if diangle_bracket neg_sep_alfa mid (alfa gnext_trg)
           then
             update_vertex trg (set_alfa_value neg_sep_alfa) ;;
             update_vertex trg (set_type SEPPOINT) ;;
             update_vertex trg (set_status NEW) ;;
             ret trg
           else
             update_vertex trg (set_alfa_value mid) ;;
             update_vertex trg (set_type NORMAL) ;;
             update_vertex trg (set_status NEW) ;;
             ret sep_point) ;;
        update_vertex trg (set_k3 (if k3 then 1 else (-1))%Z) ;;
        modify (fun s => with_modified_vertices ({[trg]} ∪ modified_vertices s) s) ;;
        ret sep_point.

(** *** [process_prev_null] (lines 594-713) *)
Definition process_prev_null (dir : Point) (prev_edge : HEEdge) (k3 : bool)
  : M HEVertex :=
  trg <- hedi.target prev_edge ;;
  src <- hedi.source prev_edge ;;
  gtrg <- vertex trg ;;
  assert (bool_decide (type gtrg = ENDPOINT)) ;;
  let sep_point : HEVertex := None in
  let pos_sep_dir := ((-1) * xy_perp dir)%P in
  let pos_sep_alfa := diangle (px pos_sep_dir) (py pos_sep_dir) in
  gsrc <- vertex src ;;
  if bool_decide (type gsrc = ENDPOINT)
  then
    (if diangle_bracket (alfa gsrc) pos_sep_alfa (alfa gtrg)
     then assert false else ret tt) ;;
    new_v <- add_new_vertex (position gsrc) NEW NORMAL None 0 ;;
    let mid := diangle_mid (alfa gsrc) (alfa gtrg) in
    update_vertex new_v (set_alfa_value mid) ;;
    modify (fun s => with_modified_vertices ({[new_v]} ∪ modified_vertices s) s) ;;
    hedi.add_vertex_in_edge new_v prev_edge ;;
    update_vertex new_v (set_k3 (if k3 then (-1) else 1)%Z) ;;
    ret sep_point
  else
    if (pos_sep_alfa =? alfa gsrc)%D && bool_decide (type gsrc = SEPPOINT)
    then
      identical_seppoint src ;;
      ret sep_point
    else
      if diangle_bracket (alfa gsrc) pos_sep_alfa (alfa gtrg)
      then
        sep_point <- add_sep_point src prev_edge pos_sep_dir ;;
        update_vertex sep_point (set_k3 (if k3 then (-1) else 1)%Z) ;;
        ret sep_point
      else
        prev_prev <- hedi.previous_edge prev_edge ;;
        prev_src <- hedi.source prev_prev ;;
        gprev_src <- vertex prev_src ;;
        let mid := diangle_mid (alfa gprev_src) (alfa gtrg) in
        sep_point <-
          (if diangle_bracket mid pos_sep_alfa (alfa gtrg)
           then
             update_vertex src (set_alfa_value pos_sep_alfa) ;;
             update_vertex src (set_type SEPPOINT) ;;
             update_vertex src (set_status NEW) ;;
             ret src
           else
             update_vertex src (set_alfa_value mid) ;;
             update_vertex src (set_type NORMAL) ;;
             update_vertex src (set_status NEW) ;;
             ret sep_point) ;;
        update_vertex src (set_k3 (if k3 then (-1) else 1)%Z) ;;
        modify (fun s => with_modified_vertices ({[src]} ∪ modified_vertices s) s) ;;
        ret sep_point.

(** *** [find_null_face] (lines 729-835)

    The search of the null edge whose alfa bracket holds the new endpoint. *)
Fixpoint find_insert_edge (n : nat) (a : double) (start_edge current : HEEdge)
    (insert_edge : HEEdge) : M HEEdge :=
  match n with
  | O => fail OutOfFuel
  | S n' =>
      src <- hedi.source current ;;
      trg <- hedi.target current ;;
      gsrc <- vertex src ;;
      gtrg <- vertex trg ;;
      let found := diangle_bracket (alfa gsrc) a (alfa gtrg) in
      let insert_edge := if found then current else insert_edge in
      x <- edge current ;;
      let current := next x in
      if bool_decide (current <> start_edge) && negb found
      then find_insert_edge n' a start_edge current insert_edge
      else ret insert_edge
  end.

Definition find_null_face (start other : HEVertex) (left : Point)
  : M (HEVertex * HEFace * HEVertex * HEVertex) :=
  gstart <- vertex start ;;
  gother <- vertex other ;;
  let dir := (position gother - position gstart)%P in
  let alfa := diangle (px dir) (py dir) in
  let k3_sign := is_right left (position gstart) (position gother) in
  if negb (bool_decide (null_face gstart = None))
  then
    (* there is an existing null face *)
    let start_null_face := null_face gstart in
    seg_start <- add_new_vertex (position gstart) OUT ENDPOINT None 0 ;;
    update_vertex seg_start zero_dist ;;
    fp <- face_props start_null_face ;;
    let current := fedge fp in
    let start_edge := current in
    update_vertex seg_start (set_alfa dir) ;;
    insert_edge <- find_insert_edge fuel alfa start_edge current None ;;
    assert (negb (bool_decide (insert_edge = None))) ;;
    hedi.add_vertex_in_edge seg_start insert_edge ;;
    np <- find_next_prev start_null_face seg_start ;;
    let '(next_edge, prev_edge) := np in
    xprev <- edge prev_edge ;;
    assert (bool_decide (next xprev = next_edge)) ;;
    neg_sep_start <- process_next_null dir next_edge k3_sign ;;
    pos_sep_start <- process_prev_null dir prev_edge k3_sign ;;
    ret (seg_start, start_null_face, pos_sep_start, neg_sep_start)
  else
    (* create a new null face at start *)
    start_null_face <- hedi.add_face ;;
    seg_start <- add_new_vertex (position gstart) OUT ENDPOINT None 0 ;;
    update_vertex seg_start zero_dist ;;
    update_vertex seg_start (set_alfa dir) ;;
    update_vertex seg_start (set_k3 0) ;;
    pos_sep_start <- add_new_vertex (position gstart) OUT SEPPOINT None 0 ;;
    neg_sep_start <- add_new_vertex (position gstart) OUT SEPPOINT None 0 ;;
    update_vertex pos_sep_start zero_dist ;;
    update_vertex neg_sep_start zero_dist ;;
    (if k3_sign
     then update_vertex pos_sep_start (set_k3 1) ;;
          update_vertex neg_sep_start (set_k3 (-1))
     else update_vertex pos_sep_start (set_k3 (-1)) ;;
          update_vertex neg_sep_start (set_k3 1)) ;;
    update_vertex pos_sep_start (set_alfa (1 * xy_perp dir)%P) ;;
    update_vertex neg_sep_start (set_alfa ((-1) * xy_perp dir)%P) ;;
    p1 <- hedi.add_twin_edges seg_start pos_sep_start ;;
    let '(e1, e1_tw) := p1 in
    p2 <- hedi.add_twin_edges pos_sep_start neg_sep_start ;;
    let '(e2, e2_tw) := p2 in
    p3 <- hedi.add_twin_edges neg_sep_start seg_start ;;
    let '(e3, e3_tw) := p3 in
    hedi.set_next_cycle [e1; e2; e3] start_null_face 1 ;;
    gstart <- vertex start ;;
    let start_face := face gstart in
    fp <- face_props start_face ;;
    let start_face_edge := fedge fp in
    hedi.set_next_cycle [e3_tw; e2_tw; e1_tw] (face gstart) 1 ;;
    update_face start_null_face (set_fedge e1) ;;
    update_face start_face (set_fedge start_face_edge) ;;
    update_edge e1 (set_etype NULLEDGE) ;;
    update_edge e2 (set_etype NULLEDGE) ;;
    update_edge e3 (set_etype NULLEDGE) ;;
    update_edge e1_tw (set_etype NULLEDGE) ;;
    update_edge e3_tw (set_etype NULLEDGE) ;;
    update_edge e2_tw (set_etype NULLEDGE) ;;
    update_vertex start (set_null_face start_null_face) ;;
    ret (seg_start, start_null_face, pos_sep_start, neg_sep_start).

(** *** [find_separator_target] (lines 1458-1499) *)
Fixpoint find_separator_target_loop (n : nat) (endp : HEVertex)
    (start_edge current_edge : HEEdge)
  : M (option (HEEdge * HEVertex * HEEdge * bool)) :=
  match n with
  | O => fail OutOfFuel
  | S n' =>
      x <- edge current_edge ;;
      let next_edge := next x in
      previous_vertex <- hedi.source current_edge ;;
      current_vertex <- hedi.target current_edge ;;
      next_vertex <- hedi.target next_edge ;;
      gprev <- vertex previous_vertex ;;
      gcur <- vertex current_vertex ;;
      gnext <- vertex next_vertex ;;
      gendp <- vertex endp ;;
      let out_new_in :=
        bool_decide (status gprev = OUT) && bool_decide (status gcur = NEW)
        && bool_decide (status gnext = IN) in
      let in_new_out :=
        bool_decide (status gprev = IN) && bool_decide (status gcur = NEW)
        && bool_decide (status gnext = OUT) in
      let found :=
        if out_new_in || in_new_out
        then
          if bool_decide (k3 gendp = k3 gcur) && bool_decide (endp <> current_vertex)
          then Some (current_edge, current_vertex, next_edge,
                     if out_new_in then true else false)
          else None
        else None in
      let current_edge := next x in
      if bool_decide (current_edge <> start_edge) && negb (bool_decide (is_Some found))
      then find_separator_target_loop n' endp start_edge current_edge
      else ret found
  end.

Definition find_separator_target (f : HEFace) (endp : HEVertex)
  : M (HEEdge * HEVertex * HEEdge * bool) :=
  if bool_decide (endp = None)
  then ret (None, None, None, false)
  else
    fp <- face_props f ;;
    let current_edge := fedge fp in
    let start_edge := current_edge in
    found <- find_separator_target_loop fuel endp start_edge current_edge ;;
    assert (bool_decide (is_Some found)) ;;
    valid found.

(** *** [add_separator] (lines 840-942) *)
Definition add_separator (f null_face : HEFace)
    (target : HEEdge * HEVertex * HEEdge * bool) (sep_endp : HEVertex)
    (s1 s2 : Site) : M unit :=
  if bool_decide (sep_endp = None)
  then ret tt
  else
    gsep <- vertex sep_endp ;;
    assert (bool_decide (k3 gsep = 1%Z) || bool_decide (k3 gsep = (-1)%Z)) ;;
    np <- find_next_prev null_face sep_endp ;;
    let '(endp_next_tw, endp_prev_tw) := np in
    xnt <- edge endp_next_tw ;;
    xpt <- edge endp_prev_tw ;;
    let endp_prev := twin xnt in
    let endp_next := twin xpt in
    assert (negb (bool_decide (endp_next = None))) ;;
    assert (negb (bool_decide (endp_prev = None))) ;;
    let '(v_previous, v_target, v_next, out_new_in) := target in
    gtarget <- vertex v_target ;;
    assert (bool_decide (k3 gtarget = 1%Z) || bool_decide (k3 gtarget = (-1)%Z)) ;;
    assert (bool_decide (k3 gsep = k3 gtarget)) ;;
    assert (in_region s1 (position gtarget)) ;;
    assert (in_region s2 (position gtarget)) ;;
    p <- hedi.add_twin_edges sep_endp v_target ;;
    let '(e2, e2_tw) := p in
    update_edge e2 (set_etype SEPARATOR) ;;
    update_edge e2_tw (set_etype SEPARATOR) ;;
    (if out_new_in
     then
       update_edge e2 (set_ek (k3 gtarget)) ;;
       update_edge e2_tw (set_ek 1) ;;
       update_edge e2_tw (set_eface f) ;;
       update_face f (set_fedge e2_tw) ;;
       update_edge endp_prev (set_ek (k3 gtarget)) ;;
       (if bool_decide (k3 gtarget = (-1)%Z)
        then
          update_edge e2 (set_eface (site_face s2)) ;;
          update_face (site_face s2) (set_fedge e2) ;;
          update_edge endp_prev (set_eface (site_face s2))
        else
          update_edge e2 (set_eface (site_face s1)) ;;
          update_face (site_face s1) (set_fedge e2) ;;
          update_edge endp_prev (set_eface (site_face s1))) ;;
       hedi.set_next v_previous e2_tw ;;
       hedi.set_next e2_tw endp_next ;;
       update_edge endp_next (set_eface f) ;;
       update_edge endp_next (set_ek 1) ;;
       hedi.set_next e2 v_next
     else
       update_edge e2 (set_ek 1) ;;
       update_edge e2_tw (set_ek (k3 gtarget)) ;;
       update_edge e2 (set_eface f) ;;
       update_face f (set_fedge e2) ;;
       update_edge endp_next (set_ek (k3 gtarget)) ;;
       (if bool_decide (k3 gtarget = (-1)%Z)
        then
          update_edge e2_tw (set_eface (site_face s2)) ;;
          update_face (site_face s2) (set_fedge e2_tw) ;;
          update_edge endp_next (set_eface (site_face s2))
        else
          update_edge e2_tw (set_eface (site_face s1)) ;;
          update_face (site_face s1) (set_fedge e2_tw) ;;
          update_edge endp_next (set_eface (site_face s1))) ;;
       hedi.set_next v_previous e2_tw ;;
       update_edge endp_prev (set_eface f) ;;
       update_edge endp_prev (set_ek 1) ;;
       hedi.set_next endp_prev e2 ;;
       hedi.set_next e2 v_next) ;;
    set_sep_parameters e2 (position gsep) (position gtarget) ;;
    set_sep_parameters e2_tw (position gsep) (position gtarget) ;;
    assertM (vd_checker_check_edge e2) ;;
    assertM (vd_checker_check_edge e2_tw).

(** *** [insert_line_site] (lines 198-385) *)
Definition insert_line_site (idx1 idx2 : Z) (step : Z) : M bool :=
  modify (with_zero_point_face None) ;;
  modify (fun s => with_num_lsites (num_lsites s + 1)%Z s) ;;
  let current_step := 1%Z in
  se <- find_endpoints idx1 idx2 ;;
  let '(start, end_) := se in
  gstart <- vertex start ;;
  gend <- vertex end_ ;;
  let src_se := position gstart in
  let trg_se := position gend in
  let left := (Num.of_Q 0.5 * (src_se + trg_se) + xy_perp (trg_se - src_se))%P in
  let linesite_k_sign := is_right left src_se trg_se in
  update_vertex start (set_status OUT) ;;
  update_vertex end_ (set_status OUT) ;;
  update_vertex start zero_dist ;;
  update_vertex end_ zero_dist ;;
  r1 <- find_null_face start end_ left ;;
  let '(seg_start, start_null_face, pos_sep_start, neg_sep_start) := r1 in
  r2 <- find_null_face end_ start left ;;
  let '(seg_end, end_null_face, pos_sep_end, neg_sep_end) := r2 in
  modify (with_null_face1 start_null_face) ;;
  modify (with_null_face2 end_null_face) ;;
  modify (with_segment_start seg_start) ;;
  modify (with_segment_end seg_end) ;;
  fp1 <- face_props start_null_face ;;
  let start_null_edge := fedge fp1 in
  fp2 <- face_props end_null_face ;;
  let end_null_edge := fedge fp2 in
  if (step =? current_step)%Z then ret false else
  let current_step := (current_step + 1)%Z in
  pn <- add_linesite_edges seg_start seg_end linesite_k_sign ;;
  let '(pos_face, neg_face) := pn in
  start_face <- find_pointsite_face start_null_edge ;;
  end_face <- find_pointsite_face end_null_edge ;;
  if (step =? current_step)%Z then ret false else
  let current_step := (current_step + 1)%Z in
  pos_site <- face_site pos_face ;;
  v_seed <- find_seed_vertex start_face pos_site ;;
  mark_vertex v_seed pos_site ;;
  zpf <- gets zero_point_face ;;
  (if negb (bool_decide (zpf = None))
   then update_face zpf (set_fedge start_null_edge) else ret tt) ;;
  if (step =? current_step)%Z then ret false else
  let current_step := (current_step + 1)%Z in
  augment_vertex_set pos_site ;;
  if (step =? current_step)%Z then ret false else
  let current_step := (current_step + 1)%Z in
  add_vertices pos_site ;;
  if (step =? current_step)%Z then ret false else
  let current_step := (current_step + 1)%Z in
  pos_start_target <- find_separator_target start_face pos_sep_start ;;
  neg_start_target <- find_separator_target start_face neg_sep_start ;;
  neg_site <- face_site neg_face ;;
  add_separator start_face start_null_face pos_start_target pos_sep_start
    pos_site neg_site ;;
  if (step =? current_step)%Z then ret false else
  let current_step := (current_step + 1)%Z in
  add_separator start_face start_null_face neg_start_target neg_sep_start
    pos_site neg_site ;;
  update_face start_face (set_fstatus NONINCIDENT) ;;
  assertM (vd_checker_face_ok start_face) ;;
  if (step =? current_step)%Z then ret false else
  let current_step := (current_step + 1)%Z in
  pos_end_target <- find_separator_target end_face pos_sep_end ;;
  neg_end_target <- find_separator_target end_face neg_sep_end ;;
  add_separator end_face end_null_face pos_end_target pos_sep_end
    pos_site neg_site ;;
  if (step =? current_step)%Z then ret false else
  let current_step := (current_step + 1)%Z in
  add_separator end_face end_null_face neg_end_target neg_sep_end
    pos_site neg_site ;;
  update_face end_face (set_fstatus NONINCIDENT) ;;
  assertM (vd_checker_face_ok end_face) ;;
  if (step =? current_step)%Z then ret false else
  let current_step := (current_step + 1)%Z in
  fs <- gets incident_faces ;;
  foreach fs (fun f =>
    fp <- face_props f ;;
    if bool_decide (fstatus fp = INCIDENT)
    then add_edges pos_face f neg_face
    else ret tt) ;;
  if (step =? current_step)%Z then ret false else
  let current_step := (current_step + 1)%Z in
  remove_vertex_set ;;
  repair_face pos_face ;;
  assertM (vd_checker_face_ok pos_face) ;;
  repair_face neg_face ;;
  assertM (vd_checker_face_ok neg_face) ;;
  if (step =? current_step)%Z then ret false else
  let current_step := (current_step + 1)%Z in
  fs <- gets incident_faces ;;
  foreach fs (fun f => remove_split_vertex f) ;;
  reset_status ;;
  assertM (vd_checker_face_ok start_face) ;;
  assertM (vd_checker_face_ok start_null_face) ;;
  assertM (vd_checker_face_ok end_face) ;;
  assertM (vd_checker_face_ok end_null_face) ;;
  assertM (vd_checker_face_ok pos_face) ;;
  assertM (vd_checker_face_ok neg_face) ;;
  assertM vd_checker_is_valid ;;
  ret true.

(** Modelled from the spec: the accessors [num_point_sites()] and
    [num_line_sites()] (declared in voronoidiagram.hpp, not among the
    sources) return the two counters. *)
Definition num_point_sites : M Z := gets num_psites.
Definition num_line_sites : M Z := gets num_lsites.

(** *** [num_split_vertices] (lines 1755-1762) *)
Fixpoint num_split_vertices_loop (l : list HEVertex) (count : Z) : M Z :=
  match l with
  | [] => ret count
  | v :: l' =>
      gv <- vertex v ;;
      num_split_vertices_loop l'
        (if bool_decide (type gv = SPLIT) then (count + 1)%Z else count)
  end.
Definition num_split_vertices : M Z :=
  l <- gets (fun s => (fun kv => Some (fst kv)) <$> map_to_list (vertices (g s))) ;;
  num_split_vertices_loop l 0.

(** *** [check] (lines 1781-1789) *)
Definition check : M bool :=
  b <- vd_checker_is_valid ;;
  if (b : bool) then ret true else ret false.

End Engine.

(** ** A concrete choice of the collaborators

    Exact Euclidean predicates, on squared distances: the sign of the
    in-circle value and every comparison with the far radius 1 are those of
    the true distances. *)
Module Demo.

(** The same number, its two fractions in lowest terms. *)
Definition red (x : double) : double :=
  Num.mk (Qred (Num.rat x)) (Qred (Num.irr x)).
Definition red_point (p : Point) : Point := mkPoint (red (px p)) (red (py p)).

Definition point_of_site (s : Site) : Point :=
  match s with PointSite p _ => p | LineSite a _ _ _ => a end.

(** The point at equal distance of three points. *)
Definition circumcenter (a b c : Point) : Point :=
  let d := (2 * (px a * (py b - py c) + px b * (py c - py a)
                 + px c * (py a - py b)))%D in
  red_point (mkPoint
    ((norm_sq a * (py b - py c) + norm_sq b * (py c - py a)
      + norm_sq c * (py a - py b)) / d)%D
    ((norm_sq a * (px c - px b) + norm_sq b * (px a - px c)
      + norm_sq c * (px b - px a)) / d)%D).

Definition site_of_edge (gr : HEGraph) (e : HEEdge) : option Site :=
  x ← graph_edge gr e; fp ← graph_face gr (eface x); fsite fp.

Definition position_on_edge (gr : HEGraph) (e : HEEdge) (s : Site) : Solution :=
  match site_of_edge gr e,
        (x ← graph_edge gr e; site_of_edge gr (twin x)) with
  | Some s1, Some s2 =>
      mkSolution (circumcenter (point_of_site s1) (point_of_site s2)
                               (point_of_site s)) 1
  | _, _ => mkSolution (mkPoint 0 0) 1
  end.

Fixpoint closest (l : list (HEFace * FaceProps)) (p : Point)
    (best : option (HEFace * double)) : HEFace :=
  match l with
  | [] => match best with Some (f, _) => f | None => None end
  | (f, fp) :: l' =>
      match fsite fp with
      | Some s =>
          let d := norm_sq (point_of_site s - p)%P in
          match best with
          | Some (_, d0) =>
              if (d <? d0)%D then closest l' p (Some (f, d)) else closest l' p best
          | None => closest l' p (Some (f, d))
          end
      | None => closest l' p best
      end
  end.

Definition apex_of_edge (x : HEdge) : Point :=
  match eparams x with
  | Parameters s1 s2 _ =>
      red_point (Num.of_Q 0.5 * (point_of_site s1 + point_of_site s2))%P
  | _ => mkPoint 0 0
  end.

(** [numeric::diangle]: a monotone surrogate of the polar angle, in [0,4). *)
Definition diangle_of (x y : double) : double :=
  red (if (0 <=? y)%D
       then (if (0 <=? x)%D
             then (if (x + y =? 0)%D then 0 else y / (x + y))
             else 1 - x / (- x + y))%D
       else (if (x <? 0)%D then 2 - y / (- x - y) else 3 + x / (x - y))%D).
(** [x] lies strictly between [a] and [b], walking counter-clockwise from
    [a]. *)
Definition bracket_of (a x b : double) : bool :=
  if (a <? b)%D then (a <? x)%D && (x <? b)%D
  else if (b <? a)%D then (a <? x)%D || (x <? b)%D
  else false.
Definition mid_of (a b : double) : double :=
  red (if (a <=? b)%D then ((a + b) / 2)%D
       else let m := ((a + b + 4) / 2)%D in
            if (4 <=? m)%D then (m - 4)%D else m).

(** The parameter of the foot of the perpendicular from [q] on the line
    through [a] and [b]. *)
Definition foot_t (a b q : Point) : double :=
  red (dot (q - a)%P (b - a)%P / dot (b - a)%P (b - a)%P)%D.

Definition ext : External := {|
  fuel := 100;
  norm := norm_sq;
  xy_perp := fun p => mkPoint (- py p)%D (px p);
  is_right := fun p p1 p2 => (cross (p2 - p1)%P (p - p1)%P <? 0)%D;
  diangle := diangle_of;
  diangle_bracket := bracket_of;
  diangle_mid := mid_of;
  in_circle := fun v p =>
    match generator v with
    | Some c => red (norm_sq (position v - p)%P - norm_sq (position v - c)%P)%D
    | None => 0%D
    end;
  dist := fun v =>
    match generator v with
    | Some c => red (norm_sq (position v - c)%P)
    | None => 0%D
    end;
  (* the foot of the perpendicular, kept on the segment *)
  line_apex_point := fun a b q =>
    let t := foot_t a b q in
    if (t <? 0)%D then a
    else if (1 <? t)%D then b
    else red_point (a + t * (b - a))%P;
  line_in_region := fun a b q =>
    (0 <=? foot_t a b q)%D && (foot_t a b q <=? 1)%D;
  line_a := fun a b => (py a - py b)%D;
  line_b := fun a b => (px b - px a)%D;
  point := fun x t => apex_of_edge x;
  minimum_t := fun x s1 s2 => 0%D;
  grid_find_closest_face := fun l p => closest l p None;
  vpos_position := position_on_edge;
  vpos_dist_error := fun gr e sl s => 0%D;
  is_valid := fun gr => true;
  face_ok := fun gr f => true;
  check_edge := fun gr e => true;
  current_face_equals_next_face := fun gr e => true;
  SplitPointError := fun gr e p1 p2 t => 0%D;
  toms748_solve := fun f a b => (a, b)
|}.

End Demo.

(** ** Notions the properties are stated with *)

(** The state a run stops in, and the value of a run that returns. *)
Definition state_of {A} (r : result A) : State :=
  match r with Done _ s => s | Failed _ s => s end.
Definition value_of {A} (r : result A) : option A :=
  match r with Done a _ => Some a | Failed _ _ => None end.

(** A Hoare triple over the returning runs of [m]. *)
Definition hoare {A} (P : State -> Prop) (m : M A) (Q : A -> State -> Prop)
  : Prop :=
  forall s a s', P s -> m s = Done a s' -> Q a s'.

(** [I] is kept by every returning run of [m]. *)
Definition stable {A} (I : State -> Prop) (m : M A) : Prop :=
  hoare I m (fun _ => I).

(** An update of the properties of a vertex that keeps its index and its
    status; of a face that keeps its status or clears it. *)
Definition keeps_vertex (f : VoronoiVertex -> VoronoiVertex) : Prop :=
  forall x, status (f x) = status x /\ index (f x) = index x.
Definition keeps_face (f : FaceProps -> FaceProps) : Prop :=
  forall x, fstatus (f x) = fstatus x \/ fstatus (f x) = NONINCIDENT.

(** A property of the state that the structural edits of an insertion cannot
    break: any change of the half-edges, of the transient members, of a
    vertex or face apart from its status, a new vertex that is neither IN nor
    NEW, a new NONINCIDENT face, a larger vertex counter, one more modified
    vertex or incident face. *)
Class Frame (I : State -> Prop) : Prop := {
  frame_edges : forall s ed,
    I s -> I (with_g (mkGraph (vertices (g s)) ed (faces (g s))) s);
  frame_face : forall s i x y,
    I s -> faces (g s) !! i = Some x ->
    fstatus y = fstatus x \/ fstatus y = NONINCIDENT ->
    I (with_g (put_face i y (g s)) s);
  frame_new_face : forall s y,
    I s -> fstatus y = NONINCIDENT ->
    I (with_g (put_face (fresh (dom (faces (g s)))) y (g s)) s);
  frame_vertex : forall s i x y,
    I s -> vertices (g s) !! i = Some x ->
    status y = status x -> index y = index x ->
    I (with_g (put_vertex i y (g s)) s);
  frame_new_vertex : forall s y,
    I s -> status y <> IN -> status y <> NEW ->
    I (with_g (put_vertex (fresh (dom (vertices (g s)))) y (g s)) s);
  frame_count : forall s c, I s -> (count s <= c)%Z -> I (with_count c s);
  frame_v0 : forall s x, I s -> I (with_v0 x s);
  frame_vertexQueue : forall s x, I s -> I (with_vertexQueue x s);
  frame_segment_start : forall s x, I s -> I (with_segment_start x s);
  frame_segment_end : forall s x, I s -> I (with_segment_end x s);
  frame_zero_point_face : forall s x, I s -> I (with_zero_point_face x s);
  frame_null_face1 : forall s x, I s -> I (with_null_face1 x s);
  frame_null_face2 : forall s x, I s -> I (with_null_face2 x s);
  frame_fgrid : forall s x, I s -> I (with_fgrid x s);
  frame_modified : forall s v,
    I s -> I (with_modified_vertices ({[v]} ∪ modified_vertices s) s);
  frame_incident : forall s f,
    I s -> I (with_incident_faces (incident_faces s ++ [f]) s)
}.

(** A frame property that does not look at the status of the faces nor at
    the list of incident faces. *)
Class FaceBlind (I : State -> Prop) : Prop := {
  faceblind_frame :: Frame I;
  faceblind_face : forall s i y, I s -> I (with_g (put_face i y (g s)) s);
  faceblind_incident : forall s x, I s -> I (with_incident_faces x s)
}.

(** An update of the properties of a vertex that keeps its index. *)
Definition keeps_index (f : VoronoiVertex -> VoronoiVertex) : Prop :=
  forall x, index (f x) = index x.

(** A property of the layout of the graph: which vertices there are and
    which index each has.  It looks neither at the status of a face or of a
    vertex nor at the set of modified vertices, and is kept when a vertex is
    added. *)
Class Layout (I : State -> Prop) : Prop := {
  layout_faceblind :: FaceBlind I;
  layout_vertex : forall s i x y,
    I s -> vertices (g s) !! i = Some x -> index y = index x ->
    I (with_g (put_vertex i y (g s)) s);
  layout_new_vertex : forall s y,
    I s -> I (with_g (put_vertex (fresh (dom (vertices (g s)))) y (g s)) s);
  layout_modified : forall s x, I s -> I (with_modified_vertices x s)
}.

(** A property of the members that outlive an insertion (the counters of
    sites, the vertex map, the far radius): it does not look at the graph or
    at the transient members, and survives a larger vertex counter. *)
Class Registry (I : State -> Prop) : Prop := {
  reg_g : forall s x, I s -> I (with_g x s);
  reg_count : forall s c, I s -> (count s <= c)%Z -> I (with_count c s);
  reg_v0 : forall s x, I s -> I (with_v0 x s);
  reg_incident_faces : forall s x, I s -> I (with_incident_faces x s);
  reg_modified_vertices : forall s x, I s -> I (with_modified_vertices x s);
  reg_vertexQueue : forall s x, I s -> I (with_vertexQueue x s);
  reg_segment_start : forall s x, I s -> I (with_segment_start x s);
  reg_segment_end : forall s x, I s -> I (with_segment_end x s);
  reg_zero_point_face : forall s x, I s -> I (with_zero_point_face x s);
  reg_null_face1 : forall s x, I s -> I (with_null_face1 x s);
  reg_null_face2 : forall s x, I s -> I (with_null_face2 x s);
  reg_fgrid : forall s x, I s -> I (with_fgrid x s)
}.

(** The values of the members that outlive an insertion; the vertex counter
    is only bounded from below. *)
Definition registry_is (np nl : Z) (vm : gmap Z HEVertex) (far : double)
    (c : Z) (s : State) : Prop :=
  num_psites s = np /\ num_lsites s = nl /\ vertex_map s = vm /\
  far_radius s = far /\ (c <= count s)%Z.

(** The vertex map after [vertex_map.insert] of the pair [(idx, v)]. *)
Definition vertex_map_with (idx : Z) (v : HEVertex) (vm : gmap Z HEVertex)
  : gmap Z HEVertex :=
  match vm !! idx with Some _ => vm | None => <[idx := v]> vm end.

(** The descriptor [g.add_vertex] returns in state [s]. *)
Definition next_vertex (s : State) : HEVertex :=
  Some (fresh (dom (vertices (g s)))).

(** The public mutating operations, and a session of them on one engine. *)
Inductive call : Type :=
  | point_call (p : Point) (step : Z)
  | line_call (idx1 idx2 : Z) (step : Z).

Definition perform `{External} (c : call) : M unit :=
  match c with
  | point_call p step => insert_point_site p step ;; ret tt
  | line_call idx1 idx2 step => insert_line_site idx1 idx2 step ;; ret tt
  end.

Fixpoint perform_all `{External} (l : list call) : M unit :=
  match l with
  | [] => ret tt
  | c :: l' => perform c ;; perform_all l'
  end.

Definition is_point_call (c : call) : bool :=
  match c with point_call _ _ => true | line_call _ _ _ => false end.
Definition is_line_call (c : call) : bool := negb (is_point_call c).
(** The number of calls of each kind in a session. *)
Fixpoint point_calls (l : list call) : nat :=
  match l with
  | [] => 0
  | c :: l' => (if is_point_call c then 1 else 0) + point_calls l'
  end.
Fixpoint line_calls (l : list call) : nat :=
  match l with
  | [] => 0
  | c :: l' => (if is_line_call c then 1 else 0) + line_calls l'
  end.

(** The engine states a session can reach from the constructor. *)
Definition constructed `{External} (s : State) : Prop :=
  exists far n_bins count0, VoronoiDiagram_new far n_bins (blank count0) = Done tt s.
Definition reachable `{External} (s : State) : Prop :=
  exists s0 calls, constructed s0 /\ perform_all calls s0 = Done tt s.

(** A call that no checkpoint of the test-suite stepping stops: the step
    argument is none of the phase numbers the function tests. *)
Definition completes (c : call) : Prop :=
  match c with
  | point_call _ step => ~ (1 <= step <= 5)%Z
  | line_call _ _ step => ~ (1 <= step <= 11)%Z
  end.

(** The vertex [v] is in the graph and has index [c]; the weaker form holds
    also when [v] has been removed. *)
Definition has_index (v : HEVertex) (c : Z) (s : State) : Prop :=
  exists x, graph_vertex (g s) v = Some x /\ index x = c.
Definition index_if_present (v : HEVertex) (c : Z) (s : State) : Prop :=
  forall x, graph_vertex (g s) v = Some x -> index x = c.

(** Every key of the vertex map is an index that the counter has passed. *)
Definition keys_below_count (s : State) : Prop :=
  forall k v, vertex_map s !! k = Some v -> (k < count s)%Z.

(** In the session that led to [s], a call of [insert_point_site] that ran
    to completion returned [idx], and [v] is the vertex that call added. *)
Definition created `{External} (s : State) (idx : Z) (v : HEVertex) : Prop :=
  exists s0 p step s1 calls,
    reachable s0 /\ ~ (1 <= step <= 5)%Z /\
    insert_point_site p step s0 = Done idx s1 /\
    v = next_vertex s0 /\
    perform_all calls s1 = Done tt s.

(** ** The predicates of the augment phase, read on a state *)

(** The vertex [w] is in the graph with status [st]; with one of the kinds
    [ts]. *)
Definition status_is (st : VoronoiVertexStatus) (s : State) (w : HEVertex)
  : bool :=
  match graph_vertex (g s) w with
  | Some x => bool_decide (status x = st)
  | None => false
  end.
Definition type_among (ts : list VoronoiVertexType) (s : State) (w : HEVertex)
  : bool :=
  match graph_vertex (g s) w with
  | Some x => bool_decide (type x ∈ ts)
  | None => false
  end.
Definition has_status (v : HEVertex) (st : VoronoiVertexStatus) (s : State)
  : Prop :=
  exists x, graph_vertex (g s) v = Some x /\ status x = st.

(** There is a half-edge from [w] to [v]. *)
Definition adjacent (s : State) (w v : HEVertex) : bool :=
  bool_decide (Exists (fun e => (etarget <$> graph_edge (g s) e) = Some v)
                      (hedi.out_edges (g s) w)).

(** The number of half-edges leaving [v] whose target is IN. *)
Definition target_in (s : State) (e : HEEdge) : bool :=
  match graph_edge (g s) e with
  | Some x => status_is IN s (etarget x)
  | None => false
  end.
Definition in_count (s : State) (v : HEVertex) : nat :=
  length (List.filter (target_in s) (hedi.out_edges (g s) v)).

(** The faces of the half-edges leaving [v] that are flagged INCIDENT. *)
Definition incident_among (s : State) (l : list HEEdge) : list HEFace :=
  omap (fun e =>
          match graph_edge (g s) e with
          | Some x =>
              match graph_face (g s) (eface x) with
              | Some fp =>
                  if bool_decide (fstatus fp = INCIDENT) then Some (eface x)
                  else None
              | None => None
              end
          | None => None
          end)
       l.
Definition incident_faces_at (s : State) (v : HEVertex) : list HEFace :=
  incident_among s (hedi.out_edges (g s) v).

(** Connectedness the way the claim words it: on the face [f], the vertex
    [v] is graph-adjacent to some other IN vertex of the ring of [f]. *)
Definition in_neighbour (s : State) (v w : HEVertex) : bool :=
  bool_decide (w <> v) && status_is IN s w && adjacent s w v.
Definition connected_on `{External} (s : State) (v : HEVertex) (f : HEFace)
  : bool :=
  match hedi.face_vertices f s with
  | Done ring _ => existsb (in_neighbour s v) ring
  | Failed _ _ => false
  end.

(** Connectedness the way [predicate_c5] tests it: a face is passed also
    when its ring holds, apart from [v], a vertex of kind ENDPOINT, APEX or
    SPLIT; a vertex [v] of kind APEX or SPLIT is passed at once. *)
Definition excuse (s : State) (v w : HEVertex) : bool :=
  in_neighbour s v w
  || (bool_decide (w <> v) && type_among [ENDPOINT; APEX; SPLIT] s w).
Definition excused_on `{External} (s : State) (v : HEVertex) (f : HEFace)
  : bool :=
  match hedi.face_vertices f s with
  | Done ring _ => existsb (excuse s v) ring
  | Failed _ _ => false
  end.
Definition c5_holds `{External} (s : State) (v : HEVertex) : bool :=
  type_among [APEX; SPLIT] s v
  || forallb (excused_on s v) (incident_faces_at s v).

(** ** A session on the concrete collaborators

    The engine constructed with far radius 1; two points inserted; the
    states the examples below start from. *)
Definition demo_frame : State :=
  state_of (VoronoiDiagram_new (H := Demo.ext) 1 10 (blank 0)).

Definition demo_point (x y : Q) : Point := mkPoint (Num.of_Q x) (Num.of_Q y).

Definition demo_session : list call :=
  [point_call (demo_point 0 0) 0; point_call (demo_point 0.5 0.25) 0;
   line_call 7 0 3].

Definition demo_final : State :=
  state_of (perform_all (H := Demo.ext) demo_session demo_frame).

(** The state in which [insert_line_site(7, 0)] searches its seed: the same
    session, the line insertion stopped after its phase 2; the positive line
    site of that insertion (the site of the face 7 it has just added), and
    the face of the point site (0.5, 0.25) that is searched. *)
Definition seed_search_state : State :=
  state_of (perform_all (H := Demo.ext)
    [point_call (demo_point 0 0) 0; point_call (demo_point 0.5 0.25) 0;
     line_call 7 0 2] demo_frame).
Definition seed_search_site : Site :=
  LineSite (demo_point 0 0) (demo_point 0.5 0.25) 1 (Some 7%nat).
Definition seed_search_face : HEFace := Some 4%nat.

(** A session whose line insertion is stopped after the seed is marked; the
    positive line site of that insertion; the state of its augment phase
    after one turn of the loop, when vertex 20 is at the top of the queue. *)
Definition augment_session : list call :=
  [point_call (demo_point 0.7 0) 0; point_call (demo_point 0.1 0.8) 0;
   line_call 7 0 3].
Definition augment_site : Site :=
  LineSite (demo_point 0.7 0) (demo_point 0.1 0.8) 1 (Some 7%nat).
Definition augment_state : State :=
  state_of (augment_vertex_set_loop (H := Demo.ext) 1 augment_site
              (state_of (perform_all (H := Demo.ext) augment_session
                           demo_frame))).

(** The states of the session after one and after two points; the second
    point insertion stopped after its phases 2, 3, 4 and 5. *)
Definition one_point_state : State :=
  state_of (perform_all (H := Demo.ext) [point_call (demo_point 0 0) 0]
              demo_frame).
Definition two_points_state : State :=
  state_of (perform_all (H := Demo.ext)
              [point_call (demo_point 0 0) 0;
               point_call (demo_point 0.5 0.25) 0] demo_frame).
Definition stepped_state (step : Z) : State :=
  state_of (insert_point_site (H := Demo.ext) (demo_point 0.5 0.25) step
              one_point_state).

(** A point outside the far radius. *)
Definition far_point : Point := demo_point 2 0.

(** ** The initial frame, as the specification describes it *)

Definition vertices_of_type (t : VoronoiVertexType) (gr : HEGraph)
  : list VoronoiVertex :=
  filter (fun x => type x = t) (snd <$> map_to_list (vertices gr)).
Definition edges_of_type (t : VoronoiEdgeType) (gr : HEGraph) : list HEdge :=
  filter (fun x => etype x = Some t) (snd <$> map_to_list (edges gr)).

(** The three generators, the three outer vertices, and the midpoint of two
    points. *)
Definition frame_gen1 (far : double) : Point := mkPoint 0 (3 * far).
Definition frame_gen2 (far : double) : Point :=
  mkPoint (-3 * Num.sqrt3 * far / 2) (-3 * far / 2).
Definition frame_gen3 (far : double) : Point :=
  mkPoint (3 * Num.sqrt3 * far / 2) (-3 * far / 2).
Definition frame_vd1 (far : double) : Point := mkPoint 0 (-3 * far * 6).
Definition frame_vd2 (far : double) : Point :=
  mkPoint (3 * Num.sqrt3 * far * 6 / 2) (3 * far * 6 / 2).
Definition frame_vd3 (far : double) : Point :=
  mkPoint (-3 * Num.sqrt3 * far * 6 / 2) (3 * far * 6 / 2).
Definition midpoint (p q : Point) : Point := (Num.of_Q 0.5 * (p + q))%P.

(** [p] lies at distance [d] from the origin (for [d] not negative). *)
Definition at_distance (d : double) (p : Point) : Prop :=
  (norm_sq p == d * d)%D.

(** A half-edge has a twin; it carries the bisector of two sites. *)
Definition has_twin (e : HEdge) : bool := negb (bool_decide (twin e = None)).
Definition is_bisector (e : HEdge) : bool :=
  match eparams e with Parameters _ _ _ => true | _ => false end.

(** ** Notions for the walks along a ring *)

(** The vertex counts for [num_new_vertices]: NEW and not a SEPPOINT. *)
Definition counts_as_new (s : State) (w : HEVertex) : bool :=
  status_is NEW s w && negb (type_among [SEPPOINT] s w).

(** The three tests of the seed search on a vertex [w] of the ring (lines
    955-957): [w] is considered when it is not OUT and of kind NORMAL; its
    in_circle value for the apex point of the site; whether it lies in the
    region of the site. *)
Definition seed_eligible (s : State) (w : HEVertex) : bool :=
  match graph_vertex (g s) w with
  | Some x =>
      negb (bool_decide (status x = OUT)) && bool_decide (type x = NORMAL)
  | None => false
  end.
Definition seed_value `{External} (site : Site) (s : State) (w : HEVertex)
  : double :=
  match graph_vertex (g s) w with
  | Some x => in_circle x (apex_point site (position x))
  | None => 0%D
  end.
Definition seed_in_region `{External} (site : Site) (s : State)
    (w : HEVertex) : bool :=
  match graph_vertex (g s) w with
  | Some x => in_region site (position x)
  | None => false
  end.

(** One turn of the loop of [find_seed_vertex] (lines 954-962) on the vertex
    [q], on the triple of [minPred], [minimalVertex] and [first]. *)
Definition seed_step `{External} (site : Site) (s : State)
    (acc : double * HEVertex * bool) (q : HEVertex)
  : double * HEVertex * bool :=
  let '(minPred, minimalVertex, first) := acc in
  if seed_eligible s q
  then
    let h := seed_value site s q in
    if first || ((h <? minPred)%D && seed_in_region site s q)
    then (h, q, false)
    else (minPred, minimalVertex, first)
  else (minPred, minimalVertex, first).

(** What the fold of [seed_step] has found on the vertices [seen]: nothing
    as long as no vertex was considered; else a considered vertex of [seen]
    with its in_circle value, which is in the region unless it is the first
    considered vertex, and below which no considered vertex of [seen] in the
    region lies. *)
Definition seed_found `{External} (site : Site) (s : State)
    (seen : list HEVertex) (acc : double * HEVertex * bool) : Prop :=
  let '(mp, mv, first) := acc in
  if first
  then (mp = 0%D /\ mv = None) /\
       forall w, w ∈ seen -> seed_eligible s w = false
  else mv ∈ seen /\ seed_eligible s mv = true /\
       mp = seed_value site s mv /\
       (seed_in_region site s mv = true \/
        exists pre post, seen = pre ++ mv :: post /\
          forall w, w ∈ pre -> seed_eligible s w = false) /\
       forall w, w ∈ seen -> seed_eligible s w = true ->
         seed_in_region site s w = true ->
         (seed_value site s w <? mp)%D = false.

(** The vertices of a ring are in the graph. *)
Definition in_graph (s : State) (ring : list HEVertex) : bool :=
  forallb (fun w => bool_decide (is_Some (graph_vertex (g s) w))) ring.



(** [0 < a + b sqrt 3], as a proposition on the two fractions. *)
Definition pos_value (a b : Q) : Prop :=
  (0 <= b /\ 0 <= a /\ ~ (a == 0 /\ b == 0))%Q \/
  (0 <= b /\ a < 0 /\ a * a < 3 * (b * b))%Q \/
  (b < 0 /\ 0 < a /\ 3 * (b * b) < a * a)%Q.

(** ** The phases of a point insertion

    [insert_point_site] (lines 160-194) is cut by its five checkpoints into
    five phases and a closing part.  What the phases hand on: the vertex of
    the site, the site, and the face of the site once phase 4 has made it. *)
Record insertion : Type := mkInsertion {
  ins_vert : HEVertex;
  ins_site : Site;
  ins_face : HEFace
}.

(** Phase 1 (lines 161-175): the vertex of the site is added and the seed
    is marked. *)
Definition point_phase1 `{External} (p : Point) : M insertion :=
  modify (with_segment_start None) ;;
  modify (with_segment_end None) ;;
  modify (with_zero_point_face None) ;;
  modify (fun s => with_num_psites (num_psites s + 1)%Z s) ;;
  far_radius <- gets far_radius ;;
  assert (norm p <? far_radius)%D ;;
  new_vert <- add_new_vertex p OUT POINTSITE None 0 ;;
  let new_site := PointSite p None in
  gnew <- vertex new_vert ;;
  vertex_map_insert (index gnew) new_vert ;;
  closest <- gets (fun s => grid_find_closest_face (fgrid s) p) ;;
  v_seed <- find_seed_vertex closest new_site ;;
  mark_vertex v_seed new_site ;;
  ret (mkInsertion new_vert new_site None).

(** Phase 2 (line 177) grows the set of IN vertices; phase 3 (line 179)
    adds the NEW vertices; phase 4 (lines 181-185) adds the face of the site
    and the NEW-NEW edges; phase 5 (lines 187-189) repairs the face and
    removes the IN vertices. *)
Definition point_phase `{External} (k : nat) (p : Point) (c : insertion)
  : M insertion :=
  match k with
  | 1%nat => point_phase1 p
  | 2%nat => augment_vertex_set (ins_site c) ;; ret c
  | 3%nat => add_vertices (ins_site c) ;; ret c
  | 4%nat =>
      newface <- add_face (ins_site c) ;;
      update_vertex (ins_vert c) (set_face newface) ;;
      fs <- gets incident_faces ;;
      foreach fs (fun f => add_edges newface f None) ;;
      ret (mkInsertion (ins_vert c) (ins_site c) newface)
  | 5%nat => repair_face (ins_face c) ;; remove_vertex_set ;; ret c
  | _ => ret c
  end.

(** The phases 1 to [n], one after the other. *)
Fixpoint point_phases `{External} (n : nat) (p : Point) : M insertion :=
  match n with
  | O => ret (mkInsertion None (PointSite p None) None)
  | S n' => c <- point_phases n' p ;; point_phase n p c
  end.

(** The closing part (lines 191-193): the marks are reset, the checks run,
    and the index of the vertex of the site is returned. *)
Definition point_close `{External} (c : insertion) : M Z :=
  reset_status ;;
  assertM (vd_checker_face_ok (ins_face c)) ;;
  assertM vd_checker_is_valid ;;
  gnew <- vertex (ins_vert c) ;;
  ret (index gnew).

(** The half-edges from [v] to an OUT vertex. *)
Definition target_out (s : State) (e : HEEdge) : bool :=
  match graph_edge (g s) e with
  | Some x => status_is OUT s (etarget x)
  | None => false
  end.
Definition in_out_edges (s : State) (v : HEVertex) : list HEEdge :=
  List.filter (target_out s) (hedi.out_edges (g s) v).

(** ** The effect of [reset_status] and of [remove_vertex_set] *)

(** The graph after [reset_status]: the vertices of [modified_vertices] are
    reset, the faces of [incident_faces] are NONINCIDENT, the half-edges are
    as they were. *)
Definition reset_graph (s : State) : HEGraph :=
  mkGraph
    (map_imap (fun i x =>
       Some (if bool_decide (Some i ∈ modified_vertices s) then reset x else x))
       (vertices (g s)))
    (edges (g s))
    (map_imap (fun i x =>
       Some (if bool_decide (Some i ∈ incident_faces s)
             then set_fstatus NONINCIDENT x else x))
       (faces (g s))).
Definition reset_state (s : State) : State :=
  with_v0 [] (with_incident_faces []
    (with_modified_vertices ∅ (with_g (reset_graph s) s))).

(** Every vertex of [modified_vertices] and face of [incident_faces] is in
    the graph. *)
Definition no_dangling (s : State) : bool :=
  forallb (fun v => bool_decide (is_Some (graph_vertex (g s) v)))
          (elements (modified_vertices s))
  && forallb (fun f => bool_decide (is_Some (graph_face (g s) f)))
             (incident_faces s).

(** The graph without the vertices [vs] and the half-edges at them. *)
Definition without_vertices (vs : list HEVertex) (gr : HEGraph) : HEGraph :=
  mkGraph
    (filter (fun kv => Some (fst kv) ∉ vs) (vertices gr))
    (filter (fun ke => (esource (snd ke) ∉ vs) /\ (etarget (snd ke) ∉ vs))
            (edges gr))
    (faces gr).

(** One turn of the loop of [remove_vertex_set]. *)
Definition remove_vertex_body (v : HEVertex) : M unit :=
  gv <- vertex v ;;
  assert (bool_decide (status gv = IN)) ;;
  hedi.delete_vertex v ;;
  modify (fun s => with_modified_vertices (modified_vertices s ∖ {[v]}) s).

(** ** Well-formedness of the half-edge structure

    Twins are paired: the twin of a half-edge is in the graph, points back,
    runs the opposite way and lies on another face; a half-edge without twin
    is an OUTEDGE. *)
Definition twin_paired (gr : HEGraph) (ke : nat * HEdge) : bool :=
  match twin (snd ke) with
  | None => bool_decide (etype (snd ke) = Some OUTEDGE)
  | Some t =>
      match edges gr !! t with
      | Some e' =>
          bool_decide (twin e' = Some (fst ke))
          && bool_decide (esource e' = etarget (snd ke))
          && bool_decide (etarget e' = esource (snd ke))
          && negb (bool_decide (eface e' = eface (snd ke)))
      | None => false
      end
  end.
Definition twins_paired (gr : HEGraph) : bool :=
  forallb (twin_paired gr) (map_to_list (edges gr)).

(** The next pointer of a half-edge stays on its face and starts where the
    half-edge ends; the face is in the graph. *)
Definition next_linked (gr : HEGraph) (ke : nat * HEdge) : bool :=
  match graph_edge gr (next (snd ke)), graph_face gr (eface (snd ke)) with
  | Some e', Some _ =>
      bool_decide (eface e' = eface (snd ke))
      && bool_decide (esource e' = etarget (snd ke))
  | _, _ => false
  end.
Definition rings_linked (gr : HEGraph) : bool :=
  forallb (next_linked gr) (map_to_list (edges gr)).

(** The half-edge [n] steps of [next] after [e]. *)
Fixpoint next_iter (gr : HEGraph) (n : nat) (e : HEEdge) : HEEdge :=
  match n with
  | O => e
  | S n' =>
      match graph_edge gr e with
      | Some x => next_iter gr n' (next x)
      | None => None
      end
  end.

(** The edge of every face lies on the face, and its ring closes after [n]
    steps. *)
Definition face_ring_closes (gr : HEGraph) (n : nat) (kf : nat * FaceProps)
  : bool :=
  match graph_edge gr (fedge (snd kf)) with
  | Some x =>
      bool_decide (eface x = Some (fst kf))
      && bool_decide (next_iter gr n (fedge (snd kf)) = fedge (snd kf))
  | None => false
  end.
Definition rings_close (gr : HEGraph) (n : nat) : bool :=
  forallb (face_ring_closes gr n) (map_to_list (faces gr)).

(** The two ends of every half-edge are vertices of the graph. *)
Definition ends_present (gr : HEGraph) : bool :=
  forallb (fun ke : nat * HEdge =>
             bool_decide (is_Some (graph_vertex gr (esource (snd ke))))
             && bool_decide (is_Some (graph_vertex gr (etarget (snd ke)))))
          (map_to_list (edges gr)).

(** ** The marks of an insertion

    Every vertex that is IN or NEW is in [modified_vertices] (or in the set
    [X] of vertices about to be entered there), and every INCIDENT face is in
    [incident_faces]: what [reset_status] relies on. *)
Definition marks_tracked (X : gset HEVertex) (s : State) : Prop :=
  (forall i x, vertices (g s) !! i = Some x ->
     status x = IN \/ status x = NEW ->
     Some i ∈ modified_vertices s \/ Some i ∈ X) /\
  (forall i f, faces (g s) !! i = Some f ->
     fstatus f = INCIDENT -> Some i ∈ incident_faces s).

(** No mark is left: every vertex is UNDECIDED or OUT, every face
    NONINCIDENT. *)
Definition settled (s : State) : Prop :=
  (forall i x, vertices (g s) !! i = Some x ->
     status x = UNDECIDED \/ status x = OUT) /\
  (forall i f, faces (g s) !! i = Some f -> fstatus f = NONINCIDENT).

(** An update of a vertex that keeps its index and sets no mark: the status
    stays, or becomes OUT or UNDECIDED. *)
Definition tames (f : VoronoiVertex -> VoronoiVertex) : Prop :=
  forall x, index (f x) = index x /\
            (status (f x) = status x \/ status (f x) = OUT \/
             status (f x) = UNDECIDED).

(** The vertices of a ring, from the walk of its half-edges. *)
Definition ring_targets (s : State) (l : list HEEdge) : list HEVertex :=
  omap (fun e => etarget <$> graph_edge (g s) e) l.

(** ** What an edit adds to the graph

    The part of a half-edge that says where it runs and which half-edge is
    its twin, and the kind and status of a vertex. *)
Definition ends (x : HEdge) : HEVertex * HEVertex * HEEdge :=
  (esource x, etarget x, twin x).
Definition skeleton (s : State) : gmap nat (HEVertex * HEVertex * HEEdge) :=
  ends <$> edges (g s).
Definition kind (x : VoronoiVertex) : VoronoiVertexType * VoronoiVertexStatus :=
  (type x, status x).
Definition kinds (s : State)
  : gmap nat (VoronoiVertexType * VoronoiVertexStatus) :=
  kind <$> vertices (g s).

(** An update of a half-edge that moves neither end nor the twin. *)
Definition keeps_ends (f : HEdge -> HEdge) : Prop :=
  forall x, ends (f x) = ends x.

(** The half-edges after [add_twin_edges(u,w)]: two new handles, the
    half-edge [u -> w] and the half-edge [w -> u], each the twin of the
    other. *)
Definition add_pair (u w : HEVertex)
    (E : gmap nat (HEVertex * HEVertex * HEEdge))
  : gmap nat (HEVertex * HEVertex * HEEdge) :=
  let e1 := fresh (dom E) in
  let e2 := fresh (dom (<[e1 := (u, w, None)]> E)) in
  <[e2 := (w, u, Some e1)]> (<[e1 := (u, w, Some e2)]> E).

(** The vertices, seen through [fv], and the ends of the half-edges. *)
Definition seen {A} (fv : VoronoiVertex -> A)
    (V : gmap nat A) (E : gmap nat (HEVertex * HEVertex * HEEdge))
    (s : State) : Prop :=
  fv <$> vertices (g s) = V /\ skeleton s = E.

(** The test of [add_edge] for an apex-split: the two signs it computes
    differ.  Both are [true] for two line sites. *)
Definition opposite_sides `{External} (f_site new_site : Site)
    (src trg : Point) : bool :=
  match f_site, new_site with
  | PointSite fpos _, LineSite _ _ _ _ =>
      let pt2 := apex_point new_site fpos in
      negb (eqb (is_right src fpos pt2) (is_right trg fpos pt2))
  | PointSite fpos _, PointSite npos _ =>
      negb (eqb (is_right src fpos npos) (is_right trg fpos npos))
  | LineSite _ _ _ _, _ => false
  end.

(** From [K], [E] to [K'], [E']: nothing that was there is changed, every
    new vertex is an APEX with status NEW, and there are [pairs] new twin
    pairs and one more for every new vertex. *)
Definition grown_by (pairs : nat)
    (K K' : gmap nat (VoronoiVertexType * VoronoiVertexStatus))
    (E E' : gmap nat (HEVertex * HEVertex * HEEdge)) : Prop :=
  K ⊆ K' /\ E ⊆ E' /\
  (forall i k, K' !! i = Some k -> K !! i = None -> k = (APEX, NEW)) /\
  size E' = size E + 2 * pairs + 2 * (size K' - size K).

(** The members an edit of the half-edges and faces leaves alone. *)
Definition vertex_side (V : gmap nat VoronoiVertex) (c : Z) (M : gset HEVertex)
    (s : State) : Prop :=
  vertices (g s) = V /\ count s = c /\ modified_vertices s = M.

(** From [s0] to [s], [n] vertices were added by [add_vertices]. *)
Definition vertices_added (n : nat) (s0 s : State) : Prop :=
  vertices (g s0) ⊆ vertices (g s) /\
  (forall i x, vertices (g s) !! i = Some x -> vertices (g s0) !! i = None ->
     type x = NORMAL /\ status x = NEW /\
     (count s0 <= index x < count s)%Z /\ Some i ∈ modified_vertices s) /\
  size (vertices (g s)) = size (vertices (g s0)) + n /\
  count s = (count s0 + Z.of_nat n)%Z /\
  modified_vertices s0 ⊆ modified_vertices s.

(** What [repair_face] leaves of a half-edge: everything but its next
    pointer, its face and its k. *)
Definition outline (x : HEdge)
  : HEVertex * HEVertex * HEEdge * option VoronoiEdgeType * EdgeParams :=
  (esource x, etarget x, twin x, etype x, eparams x).
(** The state without its half-edges. *)
Definition edges_aside (s : State) : State :=
  with_g (mkGraph (vertices (g s)) ∅ (faces (g s))) s.
Definition rewired (S0 : State)
    (O : gmap nat (HEVertex * HEVertex * HEEdge * option VoronoiEdgeType
                   * EdgeParams))
    (s : State) : Prop :=
  edges_aside s = S0 /\ outline <$> edges (g s) = O.

(** The half-edge [e] ends in [v], a NEW vertex that is no SEPPOINT, and
    [nx] is the next half-edge after [e]. *)
Definition new_at (s : State) (v : HEVertex) (e nx : HEEdge) : Prop :=
  exists x gv,
    graph_edge (g s) e = Some x /\ etarget x = v /\ next x = nx /\
    graph_vertex (g s) v = Some gv /\ status gv = NEW /\ type gv <> SEPPOINT.

(** The faces of [added] flagged INCIDENT, in turn. *)
Definition flag_incident (f : HEFace) (F : gmap nat FaceProps)
  : gmap nat FaceProps :=
  match f with
  | Some i => alter (set_fstatus INCIDENT) i F
  | None => F
  end.
Definition flag_all (added : list HEFace) (F : gmap nat FaceProps)
  : gmap nat FaceProps :=
  foldl (fun F f => flag_incident f F) F added.
(** The state after the faces of [added] were flagged and pushed. *)
Definition faces_marked (added : list HEFace) (s : State) : State :=
  with_incident_faces (incident_faces s ++ added)
    (with_g (mkGraph (vertices (g s)) (edges (g s))
               (flag_all added (faces (g s)))) s).
(** The face [f] is in the graph and not flagged INCIDENT. *)
Definition not_incident (s : State) (f : HEFace) : Prop :=
  exists fp, graph_face (g s) f = Some fp /\ fstatus fp <> INCIDENT.
(** [f] is the face of one of the half-edges [l]. *)
Definition face_of_some (s : State) (l : list HEEdge) (f : HEFace) : Prop :=
  exists e x, e ∈ l /\ graph_edge (g s) e = Some x /\ eface x = f.

(** The seed vertex of the second point insertion flagged IN, before its
    faces are marked. *)
Definition mark_faces_state : State :=
  state_of (update_vertex (Some 12%nat) (set_status IN) one_point_state).

(** The handles of the faces and the face grid. *)
Definition face_side (D : gset nat) (G : list (HEFace * FaceProps))
    (s : State) : Prop :=
  dom (faces (g s)) = D /\ fgrid s = G.

(** From [s0] to [s], [n] SPLIT vertices were added by [add_split_vertex]. *)
Definition splits_added (n : nat) (s0 s : State) : Prop :=
  vertices (g s0) ⊆ vertices (g s) /\
  (forall i x, vertices (g s) !! i = Some x -> vertices (g s0) !! i = None ->
     type x = SPLIT /\ status x = UNDECIDED /\
     (count s0 <= index x < count s)%Z) /\
  size (vertices (g s)) = size (vertices (g s0)) + n /\
  count s = (count s0 + Z.of_nat n)%Z /\
  modified_vertices s = modified_vertices s0.

(** From [s0] to [s] only SPLIT vertices were removed. *)
Definition splits_removed (s0 s : State) : Prop :=
  vertices (g s) ⊆ vertices (g s0) /\
  (forall i x, vertices (g s0) !! i = Some x -> vertices (g s) !! i = None ->
     type x = SPLIT) /\
  count s = count s0 /\
  modified_vertices s ⊆ modified_vertices s0.

(** A second set of collaborators for the runs that place SPLIT vertices:
    as [Demo.ext], with an error functor that changes sign between the
    distances of the two ends of the half-edge, and a solver that returns
    their mean. *)
Definition split_error (gr : HEGraph) (e : HEEdge) (p1 p2 : Point)
    (t : double) : double :=
  match graph_edge gr e with
  | Some x =>
      match graph_vertex gr (esource x), graph_vertex gr (etarget x) with
      | Some a, Some b =>
          (t - (dist (External := Demo.ext) a
                + dist (External := Demo.ext) b) / 2)%D
      | _, _ => 0%D
      end
  | None => 0%D
  end.
Definition split_ext : External := {|
  fuel := fuel (External := Demo.ext);
  norm := norm (External := Demo.ext);
  xy_perp := xy_perp (External := Demo.ext);
  is_right := is_right (External := Demo.ext);
  diangle := diangle (External := Demo.ext);
  diangle_bracket := diangle_bracket (External := Demo.ext);
  diangle_mid := diangle_mid (External := Demo.ext);
  in_circle := in_circle (External := Demo.ext);
  dist := dist (External := Demo.ext);
  line_apex_point := line_apex_point (External := Demo.ext);
  line_in_region := line_in_region (External := Demo.ext);
  line_a := line_a (External := Demo.ext);
  line_b := line_b (External := Demo.ext);
  point := point (External := Demo.ext);
  minimum_t := minimum_t (External := Demo.ext);
  grid_find_closest_face := grid_find_closest_face (External := Demo.ext);
  vpos_position := vpos_position (External := Demo.ext);
  vpos_dist_error := vpos_dist_error (External := Demo.ext);
  is_valid := is_valid (External := Demo.ext);
  face_ok := face_ok (External := Demo.ext);
  check_edge := check_edge (External := Demo.ext);
  current_face_equals_next_face :=
    current_face_equals_next_face (External := Demo.ext);
  SplitPointError := split_error;
  toms748_solve := fun f a b => (((a + b) / 2)%D, ((a + b) / 2)%D)
|}.

(** Three point sites, before a line site is inserted between the first
    two. *)
Definition split_state : State :=
  state_of (perform_all (H := Demo.ext)
              [point_call (demo_point 0.7 0) 0;
               point_call (demo_point 0.1 0.8) 0;
               point_call (demo_point 0.6 0.6) 0] demo_frame).

(** The same state after [add_split_vertex] has placed two SPLIT vertices
    on the ring of face 5. *)
Definition split_placed_state : State :=
  state_of (add_split_vertex (H := split_ext) (Some 5%nat) augment_site
              split_state).

(** The second point insertion of the session, stopped after [add_face]:
    the state [add_edges] starts from, and the data of its first pair. *)
Definition add_edge_state : State :=
  state_of (add_face (PointSite (demo_point 0.5 0.25) None)
              (stepped_state 3)).
Definition add_edge_data : EdgeData :=
  mkEdgeData (Some 19%nat) (Some 46%nat) (Some 44%nat)
             (Some 20%nat) (Some 47%nat) (Some 49%nat) (Some 3%nat).

(** ** The order of the numbers

    [Num.ltb] is a strict total order: what the comparisons of in_circle
    values rest on. *)





Section Order.
Local Open Scope Q_scope.

Lemma sq_le x y : 0 <= x -> 0 <= y -> x * x <= y * y -> x <= y.
Proof. intros. destruct (Qlt_le_dec y x); [|assumption]. nra. Qed.

Lemma cross_le x y u v :
  0 <= x -> 0 <= y -> 0 <= u -> 0 <= v ->
  x * x <= 3 * (u * u) -> y * y <= 3 * (v * v) -> x * y <= 3 * (u * v).
Proof.
  intros Hx Hy Hu Hv H1 H2. apply sq_le; [nra | nra |].
  assert (E1 : (x * x) * (y * y) <= (3 * (u * u)) * (y * y)) by nra.
  assert (E2 : (3 * (u * u)) * (y * y) <= (3 * (u * u)) * (3 * (v * v))) by nra.
  nra.
Qed.

Lemma cross_ge x y u v :
  0 <= x -> 0 <= y -> 0 <= u -> 0 <= v ->
  3 * (u * u) <= x * x -> 3 * (v * v) <= y * y -> 3 * (u * v) <= x * y.
Proof.
  intros Hx Hy Hu Hv H1 H2. apply sq_le; [nra | nra |].
  assert (E1 : (3 * (u * u)) * (3 * (v * v)) <= (x * x) * (3 * (v * v))) by nra.
  assert (E2 : (x * x) * (3 * (v * v)) <= (x * x) * (y * y)) by nra.
  nra.
Qed.

Lemma positive_compat a b a' b' :
  a == a' -> b == b' -> pos_value a b -> pos_value a' b'.
Proof.
  unfold pos_value. intros Ha Hb [(H1 & H2 & H3)|[(H1 & H2 & H3)|(H1 & H2 & H3)]].
  - left. repeat split;
      first [lra | intros [? ?]; apply H3; split; lra].
  - right; left. repeat split;
      first [lra | rewrite <- Ha, <- Hb; exact H3].
  - right; right. repeat split;
      first [lra | rewrite <- Ha, <- Hb; exact H3].
Qed.

Lemma positive_add a b c d :
  pos_value a b -> pos_value c d -> pos_value (a + c) (b + d).
Proof.
  unfold pos_value.
  intros [(Hb & Ha & Hn)|[(Hb & Ha & Hs)|(Hb & Ha & Hs)]]
         [(Hd & Hc & Hm)|[(Hd & Hc & Hs')|(Hd & Hc & Hs')]];
  destruct (Qlt_le_dec (b + d) 0); destruct (Qlt_le_dec (a + c) 0);
  first [ exfalso; nra
        | left; solve [repeat split; first [lra | nra]]
        | right; left; solve [repeat split; first [lra | nra]]
        | right; right; solve [repeat split; first [lra | nra]]
        | idtac ].
  all: try (left; repeat split; try lra; intros [H1 H2];
            apply Hn; split; lra).
  all: try (left; repeat split; try lra; intros [H1 H2];
            apply Hm; split; lra).
  - right; left. repeat split; try lra.
    pose proof (cross_le (- a) (- c) b d). nra.
  - assert (Hlt : 3 * ((b + d) * (b + d)) < (a + c) * (a + c)).
    { destruct (Qlt_le_dec (3 * ((b + d) * (b + d))) ((a + c) * (a + c)));
        [assumption|exfalso].
      pose proof (cross_le (a + c) (- a) (- (b + d)) b). nra. }
    right; right. repeat split; try lra. nra.
  - assert (Hlt : (a + c) * (a + c) < 3 * ((b + d) * (b + d))).
    { destruct (Qlt_le_dec ((a + c) * (a + c)) (3 * ((b + d) * (b + d))));
        [assumption|exfalso].
      pose proof (cross_ge (- (a + c)) c (b + d) (- d)). nra. }
    right; left. repeat split; try lra.
  - assert (Hlt : 3 * ((b + d) * (b + d)) < (a + c) * (a + c)).
    { destruct (Qlt_le_dec (3 * ((b + d) * (b + d))) ((a + c) * (a + c)));
        [assumption|exfalso].
      pose proof (cross_le (a + c) (- c) (- (b + d)) d). nra. }
    right; right. repeat split; try lra. nra.
  - assert (Hlt : (a + c) * (a + c) < 3 * ((b + d) * (b + d))).
    { destruct (Qlt_le_dec ((a + c) * (a + c)) (3 * ((b + d) * (b + d))));
        [assumption|exfalso].
      pose proof (cross_ge (- (a + c)) a (b + d) (- b)). nra. }
    right; left. repeat split; try lra.
  - right; right. repeat split; try lra.
    pose proof (cross_ge a c (- b) (- d)). nra.
Qed.

Lemma Qltb_lt p q : Num.Qltb p q = true <-> p < q.
Proof.
  unfold Num.Qltb. rewrite negb_true_iff. split.
  - intros Hf. apply Qnot_le_lt. intros Hle.
    apply Qle_bool_iff in Hle. congruence.
  - intros Hlt. destruct (Qle_bool q p) eqn:Hb; [|reflexivity].
    apply Qle_bool_iff in Hb. lra.
Qed.

Lemma is_pos_positive x :
  Num.is_pos x = true <-> pos_value (Num.rat x) (Num.irr x).
Proof.
  unfold Num.is_pos, pos_value. cbv zeta.
  destruct (Qle_bool 0 (Num.irr x)) eqn:Hb.
  - apply Qle_bool_iff in Hb.
    destruct (Qle_bool 0 (Num.rat x)) eqn:Ha.
    + apply Qle_bool_iff in Ha. rewrite negb_true_iff, andb_false_iff.
      split.
      * intros Hz. left. repeat split; try assumption. intros [E1 E2].
        apply Qeq_bool_iff in E1, E2. destruct Hz; congruence.
      * intros Hp.
        destruct (Qeq_bool (Num.rat x) 0) eqn:E1; [|auto].
        destruct (Qeq_bool (Num.irr x) 0) eqn:E2; [|auto].
        apply Qeq_bool_iff in E1, E2.
        destruct Hp as [(_ & _ & Hn)|[(_ & Hc & _)|(Hc & _ & _)]];
          [tauto | lra | lra].
    + assert (Hlt : Num.rat x < 0).
      { apply Qnot_le_lt. intros Hle. apply Qle_bool_iff in Hle. congruence. }
      rewrite Qltb_lt. split.
      * intros Hs. right; left. auto.
      * intros [(_ & Hc & _)|[(_ & _ & Hs)|(Hc & _ & _)]];
          [lra | exact Hs | lra].
  - assert (Hlt : Num.irr x < 0).
    { apply Qnot_le_lt. intros Hle. apply Qle_bool_iff in Hle. congruence. }
    rewrite andb_true_iff, !Qltb_lt. split.
    + intros [H1 H2]. right; right. auto.
    + intros [(Hc & _ & _)|[(Hc & _ & _)|(_ & H1 & H2)]];
        [lra | lra | auto].
Qed.
End Order.

Lemma ltb_irrefl x : Num.ltb x x = false.
Proof.
  destruct (Num.ltb x x) eqn:Hl; [|reflexivity].
  apply is_pos_positive in Hl. simpl in Hl. unfold pos_value in Hl.
  destruct Hl as [(_ & _ & Hn)|[(_ & Hc & _)|(Hc & _ & _)]];
    [destruct Hn; split; lra | lra | lra].
Qed.

Lemma ltb_trans x y z :
  Num.ltb x y = true -> Num.ltb y z = true -> Num.ltb x z = true.
Proof.
  unfold Num.ltb. rewrite !is_pos_positive. simpl. intros H1 H2.
  eapply positive_compat; [| |exact (positive_add _ _ _ _ H1 H2)]; lra.
Qed.


(** ** Reasoning about runs *)

(** When a member function applied to a state is compared with the sequence
    of calls it stands for, the function is unfolded, not the sequencing. *)
Strategy 100 [bind].

Lemma bind_Done {A B} (m : M A) (k : A -> M B) s b s' :
  bind m k s = Done b s' ->
  exists a s1, m s = Done a s1 /\ k a s1 = Done b s'.
Proof.
  unfold bind. destruct (m s) as [a s1|e s1]; [eauto | discriminate].
Qed.

Lemma bind_run {A B} (m : M A) (k : A -> M B) s a s1 :
  m s = Done a s1 -> bind m k s = k a s1.
Proof. intros Hm. unfold bind. rewrite Hm. reflexivity. Qed.

Lemma hoare_bind {A B} (P : State -> Prop) (Q : A -> State -> Prop)
    (R : B -> State -> Prop) (m : M A) (k : A -> M B) :
  hoare P m Q -> (forall a, hoare (Q a) (k a) R) -> hoare P (bind m k) R.
Proof.
  intros Hm Hk s b s' HP Hrun.
  apply bind_Done in Hrun as (a & s1 & H1 & H2).
  eapply Hk; [eapply Hm|]; eauto.
Qed.

Lemma hoare_conseq {A} (P P' : State -> Prop) (Q Q' : A -> State -> Prop) m :
  hoare P' m Q' -> (forall s, P s -> P' s) -> (forall a s, Q' a s -> Q a s) ->
  hoare P m Q.
Proof. intros H HP HQ s a s' Hs Hrun. eauto. Qed.

Lemma stable_bind {A B} I (m : M A) (k : A -> M B) :
  stable I m -> (forall a, stable I (k a)) -> stable I (bind m k).
Proof. intros. eapply hoare_bind; eauto. Qed.

Lemma stable_ret {A} I (a : A) : stable I (ret a).
Proof. intros s b s' HI [= _ <-]. exact HI. Qed.

Lemma stable_fail {A} I e : stable I (@fail A e).
Proof. intros s b s' _ [=]. Qed.

Lemma stable_get I : stable I get.
Proof. intros s b s' HI [= _ <-]. exact HI. Qed.

Lemma stable_gets {A} I (f : State -> A) : stable I (gets f).
Proof. intros s b s' HI [= _ <-]. exact HI. Qed.

Lemma stable_assert I b : stable I (assert b).
Proof. destruct b; [apply stable_ret | apply stable_fail]. Qed.

Lemma stable_valid {A} I (o : option A) : stable I (valid o).
Proof. destruct o; [apply stable_ret | apply stable_fail]. Qed.

Lemma stable_modify I (f : State -> State) :
  (forall s, I s -> I (f s)) -> stable I (modify f).
Proof. intros Hf s b s' HI [= _ <-]. auto. Qed.

Lemma stable_foreach {A} I (l : list A) (body : A -> M unit) :
  (forall x, stable I (body x)) -> stable I (foreach l body).
Proof.
  intros Hb. induction l as [|x l IH]; simpl.
  - apply stable_ret.
  - apply stable_bind; auto.
Qed.

Lemma stable_assertM I (m : M bool) : stable I m -> stable I (assertM m).
Proof.
  intros. unfold assertM. apply stable_bind; [assumption|].
  intros b. apply stable_assert.
Qed.

Create HintDb stable discriminated.
#[export] Hint Resolve stable_ret stable_fail stable_get stable_gets
  stable_assert stable_valid stable_assertM : stable.

(** One step of a stability proof: split a [bind], decide a test, or close
    the goal with a lemma of the database. *)
Ltac stable_step :=
  lazymatch goal with
  | |- stable _ (bind _ _) => simple apply stable_bind; [| intros ?]
  | |- stable _ (foreach _ _) => simple apply stable_foreach; intros ?
  | |- stable _ (if ?b then _ else _) => destruct b
  | |- stable _ (match ?x with _ => _ end) => destruct x
  | |- stable _ (let _ := _ in _) => cbv zeta
  | |- forall _, _ => intros ?
  | |- _ => solve [eauto with stable]
  end.
Ltac stable_auto := repeat stable_step.

(** *** Inversion of the runs of the primitives *)

Lemma ret_Done {A} (a b : A) s s' : ret a s = Done b s' -> b = a /\ s' = s.
Proof. intros [= -> ->]. auto. Qed.
Lemma fail_Done {A} e (b : A) s s' : fail e s = Done b s' -> False.
Proof. intros [=]. Qed.
Lemma get_Done x s s' : get s = Done x s' -> x = s /\ s' = s.
Proof. intros [= -> ->]. auto. Qed.
Lemma gets_Done {A} (f : State -> A) x s s' :
  gets f s = Done x s' -> x = f s /\ s' = s.
Proof. intros [= <- <-]. auto. Qed.
Lemma modify_Done f u s s' : modify f s = Done u s' -> s' = f s.
Proof. intros [= _ <-]. auto. Qed.
Lemma assert_Done b u s s' : assert b s = Done u s' -> b = true /\ s' = s.
Proof. destruct b; intros [=]; auto. Qed.
Lemma valid_Done {A} (o : option A) a s s' :
  valid o s = Done a s' -> o = Some a /\ s' = s.
Proof. destruct o; intros [=]; subst; auto. Qed.

(** Takes a returning run apart, primitive by primitive. *)
Ltac inv_run_step :=
  match goal with
  | H : bind _ _ _ = Done _ _ |- _ =>
      apply bind_Done in H as (? & ? & H & ?)
  | H : ret _ _ = Done _ _ |- _ => apply ret_Done in H as [? ?]; subst
  | H : fail _ _ = Done _ _ |- _ => destruct (fail_Done _ _ _ _ H)
  | H : get _ = Done _ _ |- _ => apply get_Done in H as [? ?]; subst
  | H : gets _ _ = Done _ _ |- _ => apply gets_Done in H as [? ?]; subst
  | H : modify _ _ = Done _ _ |- _ => apply modify_Done in H; subst
  | H : assert _ _ = Done _ _ |- _ => apply assert_Done in H as [? ?]; subst
  | H : valid _ _ = Done _ _ |- _ => apply valid_Done in H as [? ?]; subst
  end.
Ltac inv_run := repeat inv_run_step.

Lemma vertex_Done v x s s' :
  vertex v s = Done x s' -> graph_vertex (g s) v = Some x /\ s' = s.
Proof. unfold vertex. intros Hr. inv_run. auto. Qed.
Lemma edge_Done e x s s' :
  edge e s = Done x s' -> graph_edge (g s) e = Some x /\ s' = s.
Proof. unfold edge. intros Hr. inv_run. auto. Qed.
Lemma face_props_Done f x s s' :
  face_props f s = Done x s' -> graph_face (g s) f = Some x /\ s' = s.
Proof. unfold face_props. intros Hr. inv_run. auto. Qed.


Lemma update_vertex_Done v f u s s' :
  update_vertex v f s = Done u s' ->
  exists i x, v = Some i /\ vertices (g s) !! i = Some x /\
              s' = with_g (put_vertex i (f x) (g s)) s.
Proof.
  unfold update_vertex. intros Hr. inv_run.
  apply vertex_Done in Hr as [Hv ->]. inv_run. simpl in Hv. eauto.
Qed.
Lemma update_edge_Done e f u s s' :
  update_edge e f s = Done u s' ->
  exists i x, e = Some i /\ edges (g s) !! i = Some x /\
              s' = with_g (put_edge i (f x) (g s)) s.
Proof.
  unfold update_edge. intros Hr. inv_run.
  apply edge_Done in Hr as [Hv ->]. inv_run. simpl in Hv. eauto.
Qed.
Lemma update_face_Done fc f u s s' :
  update_face fc f s = Done u s' ->
  exists i x, fc = Some i /\ faces (g s) !! i = Some x /\
              s' = with_g (put_face i (f x) (g s)) s.
Proof.
  unfold update_face. intros Hr. inv_run.
  apply face_props_Done in Hr as [Hv ->]. inv_run. simpl in Hv. eauto.
Qed.

(** *** Stability of the graph accessors and updates *)

Lemma keeps_set_position p : keeps_vertex (set_position p).
Proof. intros x. auto. Qed.
Lemma keeps_set_type t : keeps_vertex (set_type t).
Proof. intros x. auto. Qed.
Lemma keeps_set_k3 k : keeps_vertex (set_k3 k).
Proof. intros x. auto. Qed.
Lemma keeps_set_alfa_value a : keeps_vertex (set_alfa_value a).
Proof. intros x. auto. Qed.
Lemma keeps_set_alfa `{External} d : keeps_vertex (set_alfa d).
Proof. intros x. auto. Qed.
Lemma keeps_set_in_queue b : keeps_vertex (set_in_queue b).
Proof. intros x. auto. Qed.
Lemma keeps_set_null_face f : keeps_vertex (set_null_face f).
Proof. intros x. auto. Qed.
Lemma keeps_set_face f : keeps_vertex (set_face f).
Proof. intros x. auto. Qed.
Lemma keeps_zero_dist : keeps_vertex zero_dist.
Proof. intros x. auto. Qed.
Lemma keeps_init_dist p : keeps_vertex (init_dist p).
Proof. intros x. auto. Qed.
Lemma keeps_set_fedge e : keeps_face (set_fedge e).
Proof. intros x. auto. Qed.
Lemma keeps_set_fsite s : keeps_face (set_fsite s).
Proof. intros x. auto. Qed.
Lemma keeps_set_fstatus_NONINCIDENT : keeps_face (set_fstatus NONINCIDENT).
Proof. intros x. auto. Qed.

#[export] Hint Resolve keeps_set_position keeps_set_type keeps_set_k3
  keeps_set_alfa_value keeps_set_alfa keeps_set_in_queue keeps_set_null_face
  keeps_set_face keeps_zero_dist keeps_init_dist keeps_set_fedge
  keeps_set_fsite keeps_set_fstatus_NONINCIDENT : stable.

Section Stability.

Context `{External}.
Context (I : State -> Prop) `{!Frame I}.

Lemma stable_vertex v : stable I (vertex v).
Proof. unfold vertex. stable_auto. Qed.
Lemma stable_edge e : stable I (edge e).
Proof. unfold edge. stable_auto. Qed.
Lemma stable_face_props f : stable I (face_props f).
Proof. unfold face_props. stable_auto. Qed.

Lemma stable_update_vertex v f :
  keeps_vertex f -> stable I (update_vertex v f).
Proof.
  intros Hf s a s' HI Hr.
  apply update_vertex_Done in Hr as (i & x & -> & Hx & ->).
  destruct (Hf x). eapply frame_vertex; eauto.
Qed.
Lemma stable_update_edge e f : stable I (update_edge e f).
Proof.
  intros s a s' HI Hr.
  apply update_edge_Done in Hr as (i & x & -> & Hx & ->).
  apply (frame_edges s (<[i := f x]> (edges (g s))) HI).
Qed.
Lemma stable_update_face fc f : keeps_face f -> stable I (update_face fc f).
Proof.
  intros Hf s a s' HI Hr.
  apply update_face_Done in Hr as (i & x & -> & Hx & ->).
  eapply frame_face; eauto.
Qed.

Lemma stable_with_count_succ :
  stable I (c <- gets count ;; modify (with_count (c + 1)%Z)).
Proof.
  intros s a s' HI Hr. inv_run. apply frame_count; [assumption | lia].
Qed.

#[local] Hint Resolve stable_vertex stable_edge stable_face_props
  stable_update_vertex stable_update_edge stable_update_face : stable.

Lemma stable_VoronoiVertex_new p st t d k :
  stable I (VoronoiVertex_new p st t d k).
Proof.
  unfold VoronoiVertex_new. intros s a s' HI Hr. inv_run.
  apply frame_count; [assumption | lia].
Qed.

Lemma VoronoiVertex_new_Done p st t d k x s s' :
  VoronoiVertex_new p st t d k s = Done x s' ->
  x = mkVertex (count s) st t p k (-1)%D false None None d /\
  s' = with_count (count s + 1)%Z s.
Proof. unfold VoronoiVertex_new. intros Hr. inv_run. auto. Qed.

Lemma add_vertex_Done x v s s' :
  hedi.add_vertex x s = Done v s' ->
  v = Some (fresh (dom (vertices (g s)))) /\
  s' = with_g (put_vertex (fresh (dom (vertices (g s)))) x (g s)) s.
Proof. unfold hedi.add_vertex. intros Hr. inv_run. auto. Qed.

Lemma stable_add_vertex x :
  status x <> IN -> status x <> NEW -> stable I (hedi.add_vertex x).
Proof.
  intros H1 H2 s a s' HI Hr. apply add_vertex_Done in Hr as [-> ->].
  apply frame_new_vertex; assumption.
Qed.

Lemma stable_add_new_vertex p st t d k :
  st <> IN -> st <> NEW -> stable I (add_new_vertex p st t d k).
Proof.
  intros H1 H2. unfold add_new_vertex.
  eapply hoare_bind with (Q := fun x s => I s /\ status x = st).
  - intros s a s' HI Hr. split.
    + eapply stable_VoronoiVertex_new; eauto.
    + apply VoronoiVertex_new_Done in Hr as [-> _]. reflexivity.
  - intros x s a s' [HI Hst] Hr.
    eapply stable_add_vertex; eauto; congruence.
Qed.

Lemma stable_out_edge_itr v : stable I (hedi.out_edge_itr v).
Proof. unfold hedi.out_edge_itr. stable_auto. Qed.
Lemma stable_source e : stable I (hedi.source e).
Proof. unfold hedi.source. stable_auto. Qed.
Lemma stable_target e : stable I (hedi.target e).
Proof. unfold hedi.target. stable_auto. Qed.
Lemma stable_has_edge w v : stable I (hedi.has_edge w v).
Proof. unfold hedi.has_edge. stable_auto. Qed.

Lemma stable_hedi_add_edge u w : stable I (hedi.add_edge u w).
Proof.
  unfold hedi.add_edge. intros s a s' HI Hr. inv_run.
  apply (frame_edges s (<[fresh (dom (edges (g s))) :=
           mkEdge u w None None None None 0%Z NoParameters]> (edges (g s))) HI).
Qed.
#[local] Hint Resolve stable_out_edge_itr stable_source stable_target
  stable_has_edge stable_hedi_add_edge : stable.

Lemma stable_twin_edges e1 e2 : stable I (hedi.twin_edges e1 e2).
Proof. unfold hedi.twin_edges. stable_auto. Qed.
#[local] Hint Resolve stable_twin_edges : stable.

Lemma stable_add_twin_edges u w : stable I (hedi.add_twin_edges u w).
Proof. unfold hedi.add_twin_edges. stable_auto. Qed.

Lemma stable_hedi_add_face : stable I hedi.add_face.
Proof.
  unfold hedi.add_face. intros s a s' HI Hr. inv_run.
  apply frame_new_face; auto.
Qed.

Lemma stable_set_next e1 e2 : stable I (hedi.set_next e1 e2).
Proof. unfold hedi.set_next. stable_auto. Qed.
#[local] Hint Resolve stable_add_twin_edges stable_hedi_add_face
  stable_set_next : stable.

Lemma stable_link l o : stable I (hedi.link l o).
Proof.
  induction l as [|e l IH]; simpl; [stable_auto|].
  destruct l; [destruct o; stable_auto|]. stable_auto.
Qed.
#[local] Hint Resolve stable_link : stable.

Lemma stable_set_next_cycle l f k : stable I (hedi.set_next_cycle l f k).
Proof. unfold hedi.set_next_cycle. stable_auto. Qed.
Lemma stable_set_next_chain_fk l f k : stable I (hedi.set_next_chain_fk l f k).
Proof. unfold hedi.set_next_chain_fk. stable_auto. Qed.
Lemma stable_set_next_chain l : stable I (hedi.set_next_chain l).
Proof. unfold hedi.set_next_chain. stable_auto. Qed.

Lemma stable_previous_edge_loop n e p : stable I (hedi.previous_edge_loop n e p).
Proof. revert p. induction n; simpl; stable_auto. Qed.
#[local] Hint Resolve stable_previous_edge_loop : stable.
Lemma stable_previous_edge e : stable I (hedi.previous_edge e).
Proof. unfold hedi.previous_edge. stable_auto. Qed.

Lemma stable_ring_loop n st c : stable I (hedi.ring_loop n st c).
Proof. revert c. induction n; simpl; stable_auto. Qed.
#[local] Hint Resolve stable_ring_loop : stable.
Lemma stable_face_edges f : stable I (hedi.face_edges f).
Proof. unfold hedi.face_edges. stable_auto. Qed.
#[local] Hint Resolve stable_face_edges : stable.
Lemma stable_face_vertices f : stable I (hedi.face_vertices f).
Proof. unfold hedi.face_vertices. stable_auto. Qed.
Lemma stable_adjacent_faces v : stable I (hedi.adjacent_faces v).
Proof. unfold hedi.adjacent_faces. stable_auto. Qed.

Lemma stable_remove_edge e : stable I (hedi.remove_edge e).
Proof.
  unfold hedi.remove_edge. intros s a s' HI Hr. inv_run.
  match goal with |- I (with_g (mkGraph _ ?ed _) _) => apply (frame_edges s ed HI) end.
Qed.
#[local] Hint Resolve stable_set_next_cycle stable_set_next_chain_fk
  stable_set_next_chain stable_previous_edge stable_face_vertices
  stable_adjacent_faces stable_remove_edge : stable.

Lemma stable_add_vertex_in_edge v e : stable I (hedi.add_vertex_in_edge v e).
Proof. unfold hedi.add_vertex_in_edge. stable_auto. Qed.
#[local] Hint Resolve stable_add_vertex_in_edge : stable.

(** *** Stability of the member functions that only edit the structure *)

Lemma stable_set_parameters e s1 s2 b : stable I (set_parameters e s1 s2 b).
Proof. unfold set_parameters. stable_auto. Qed.
Lemma stable_set_sep_parameters e p q : stable I (set_sep_parameters e p q).
Proof. unfold set_sep_parameters. stable_auto. Qed.
Lemma stable_face_site f : stable I (face_site f).
Proof. unfold face_site. stable_auto. Qed.
Lemma stable_fgrid_add_face f : stable I (fgrid_add_face f).
Proof.
  unfold fgrid_add_face. stable_auto. apply stable_modify.
  intros. apply frame_fgrid. assumption.
Qed.
Lemma stable_vd_checker_is_valid : stable I vd_checker_is_valid.
Proof. unfold vd_checker_is_valid. stable_auto. Qed.
Lemma stable_vd_checker_face_ok f : stable I (vd_checker_face_ok f).
Proof. unfold vd_checker_face_ok. stable_auto. Qed.
Lemma stable_vd_checker_check_edge e : stable I (vd_checker_check_edge e).
Proof. unfold vd_checker_check_edge. stable_auto. Qed.
#[local] Hint Resolve stable_set_parameters stable_set_sep_parameters
  stable_face_site stable_fgrid_add_face stable_vd_checker_is_valid
  stable_vd_checker_face_ok stable_vd_checker_check_edge : stable.

Lemma stable_find_seed_vertex_loop n site st c mp mv fi :
  stable I (find_seed_vertex_loop n site st c mp mv fi).
Proof. revert c mp mv fi. induction n; simpl; stable_auto. Qed.
#[local] Hint Resolve stable_find_seed_vertex_loop : stable.
Lemma stable_find_seed_vertex f site : stable I (find_seed_vertex f site).
Proof. unfold find_seed_vertex. stable_auto. Qed.

Lemma stable_predicate_c4_loop l c : stable I (predicate_c4_loop l c).
Proof. revert c. induction l; simpl; stable_auto. Qed.
#[local] Hint Resolve stable_predicate_c4_loop : stable.
Lemma stable_predicate_c4 v : stable I (predicate_c4 v).
Proof. unfold predicate_c4. stable_auto. Qed.

Lemma stable_predicate_c5_ring n v st c b : stable I (predicate_c5_ring n v st c b).
Proof. revert c b. induction n; simpl; stable_auto. Qed.
#[local] Hint Resolve stable_predicate_c5_ring : stable.
Lemma stable_predicate_c5_faces v l b : stable I (predicate_c5_faces v l b).
Proof. revert b. induction l; simpl; stable_auto. Qed.
Lemma stable_adjacent_incident l : stable I (adjacent_incident l).
Proof. induction l; simpl; stable_auto. Qed.
#[local] Hint Resolve stable_predicate_c5_faces stable_adjacent_incident : stable.
Lemma stable_predicate_c5 v : stable I (predicate_c5 v).
Proof. unfold predicate_c5. stable_auto. Qed.

Lemma stable_find_split_edges_loop n p1 p2 st c out :
  stable I (find_split_edges_loop n p1 p2 st c out).
Proof. revert c out. induction n; simpl; stable_auto. Qed.
#[local] Hint Resolve stable_find_split_edges_loop : stable.
Lemma stable_find_split_edges f p1 p2 : stable I (find_split_edges f p1 p2).
Proof. unfold find_split_edges. stable_auto. Qed.
#[local] Hint Resolve stable_find_split_edges : stable.

Lemma stable_add_split_vertex_loop fpos p1 p2 l :
  stable I (add_split_vertex_loop fpos p1 p2 l).
Proof.
  induction l; simpl; stable_auto.
  apply stable_add_new_vertex; discriminate.
Qed.
#[local] Hint Resolve stable_add_split_vertex_loop : stable.
Lemma stable_add_split_vertex f s : stable I (add_split_vertex f s).
Proof. unfold add_split_vertex. stable_auto. Qed.

Lemma stable_find_in_out_edges_inner l out :
  stable I (find_in_out_edges_inner l out).
Proof. revert out. induction l; simpl; stable_auto. Qed.
#[local] Hint Resolve stable_find_in_out_edges_inner : stable.
Lemma stable_find_in_out_edges_loop vs out :
  stable I (find_in_out_edges_loop vs out).
Proof. revert out. induction vs; simpl; stable_auto. Qed.
#[local] Hint Resolve stable_find_in_out_edges_loop : stable.
Lemma stable_find_in_out_edges : stable I find_in_out_edges.
Proof. unfold find_in_out_edges. stable_auto. Qed.

Lemma stable_add_face s : stable I (add_face s).
Proof. unfold add_face. stable_auto. Qed.

Lemma stable_num_new_vertices_loop n st c k :
  stable I (num_new_vertices_loop n st c k).
Proof. revert c k. induction n; simpl; stable_auto. Qed.
#[local] Hint Resolve stable_num_new_vertices_loop : stable.
Lemma stable_num_new_vertices f : stable I (num_new_vertices f).
Proof. unfold num_new_vertices. stable_auto. Qed.

Lemma stable_find_edge_data_v1 n sv st c : stable I (find_edge_data_v1 n sv st c).
Proof. revert c. induction n; simpl; stable_auto. Qed.
Lemma stable_find_edge_data_v2 n v st c : stable I (find_edge_data_v2 n v st c).
Proof. revert c. induction n; simpl; stable_auto. Qed.
#[local] Hint Resolve stable_find_edge_data_v1 stable_find_edge_data_v2 : stable.
Lemma stable_find_edge_data f sv : stable I (find_edge_data f sv).
Proof. unfold find_edge_data. stable_auto. Qed.

Lemma stable_repair_face_candidates f ce cs ct l b :
  stable I (repair_face_candidates f ce cs ct l b).
Proof. revert b. induction l; simpl; stable_auto. Qed.
#[local] Hint Resolve stable_repair_face_candidates : stable.
Lemma stable_repair_face_loop n f st c : stable I (repair_face_loop n f st c).
Proof. revert c. induction n; simpl; stable_auto. Qed.
#[local] Hint Resolve stable_repair_face_loop : stable.
Lemma stable_repair_face f : stable I (repair_face f).
Proof. unfold repair_face. stable_auto. Qed.

Lemma stable_find_split_vertex_loop l : stable I (find_split_vertex_loop l).
Proof. induction l; simpl; stable_auto. Qed.
#[local] Hint Resolve stable_find_split_vertex_loop : stable.
Lemma stable_find_split_vertex f : stable I (find_split_vertex f).
Proof. unfold find_split_vertex. stable_auto. Qed.

Lemma stable_find_pointsite_face_loop n st c f :
  stable I (find_pointsite_face_loop n st c f).
Proof. revert c f. induction n; simpl; stable_auto. Qed.
#[local] Hint Resolve stable_find_pointsite_face_loop : stable.
Lemma stable_find_pointsite_face e : stable I (find_pointsite_face e).
Proof. unfold find_pointsite_face. stable_auto. Qed.

#[local] Hint Resolve stable_add_face : stable.
Lemma stable_add_linesite_edges a b k : stable I (add_linesite_edges a b k).
Proof. unfold add_linesite_edges. stable_auto. Qed.

Lemma stable_find_endpoints i j : stable I (find_endpoints i j).
Proof. unfold find_endpoints. stable_auto. Qed.

Lemma stable_find_next_prev_loop n endp st c ne pe :
  stable I (find_next_prev_loop n endp st c ne pe).
Proof. revert c ne pe. induction n; simpl; stable_auto. Qed.
#[local] Hint Resolve stable_find_next_prev_loop : stable.
Lemma stable_find_next_prev f v : stable I (find_next_prev f v).
Proof. unfold find_next_prev. stable_auto. Qed.

Lemma stable_add_sep_point v e d : stable I (add_sep_point v e d).
Proof.
  unfold add_sep_point. stable_auto.
  apply stable_add_new_vertex; discriminate.
Qed.

Lemma stable_last_separator l e : stable I (last_separator l e).
Proof. revert e. induction l; simpl; stable_auto. Qed.

Lemma stable_find_insert_edge n a st c ie : stable I (find_insert_edge n a st c ie).
Proof. revert c ie. induction n; simpl; stable_auto. Qed.

Lemma stable_find_separator_target_loop n v st c :
  stable I (find_separator_target_loop n v st c).
Proof. revert c. induction n; simpl; stable_auto. Qed.
#[local] Hint Resolve stable_find_separator_target_loop stable_find_next_prev : stable.
Lemma stable_find_separator_target f v : stable I (find_separator_target f v).
Proof. unfold find_separator_target. stable_auto. Qed.

Lemma stable_add_separator f nf t v s1 s2 : stable I (add_separator f nf t v s1 s2).
Proof. unfold add_separator. stable_auto. Qed.

End Stability.

#[export] Hint Resolve stable_vertex stable_edge stable_face_props
  stable_update_vertex stable_update_edge stable_update_face
  stable_out_edge_itr stable_source stable_target stable_has_edge
  stable_hedi_add_edge stable_twin_edges stable_add_twin_edges
  stable_hedi_add_face stable_set_next stable_link stable_set_next_cycle
  stable_set_next_chain_fk stable_set_next_chain stable_previous_edge
  stable_face_edges stable_face_vertices stable_adjacent_faces
  stable_remove_edge stable_add_vertex_in_edge
  stable_set_parameters stable_set_sep_parameters stable_face_site
  stable_fgrid_add_face stable_vd_checker_is_valid stable_vd_checker_face_ok
  stable_vd_checker_check_edge stable_find_seed_vertex stable_predicate_c4
  stable_predicate_c5 stable_find_split_edges stable_add_split_vertex
  stable_find_in_out_edges stable_add_face stable_num_new_vertices
  stable_find_edge_data stable_repair_face stable_find_split_vertex
  stable_find_pointsite_face stable_add_linesite_edges stable_find_endpoints
  stable_find_next_prev stable_add_sep_point stable_last_separator
  stable_find_insert_edge stable_find_separator_target stable_add_separator
  : stable.

(** ** The members that outlive an insertion *)

Lemma Registry_Frame I : Registry I -> Frame I.
Proof.
  intros R. split; intros.
  - apply reg_g; assumption.
  - apply reg_g; assumption.
  - apply reg_g; assumption.
  - apply reg_g; assumption.
  - apply reg_g; assumption.
  - apply reg_count; assumption.
  - apply reg_v0; assumption.
  - apply reg_vertexQueue; assumption.
  - apply reg_segment_start; assumption.
  - apply reg_segment_end; assumption.
  - apply reg_zero_point_face; assumption.
  - apply reg_null_face1; assumption.
  - apply reg_null_face2; assumption.
  - apply reg_fgrid; assumption.
  - apply reg_modified_vertices; assumption.
  - apply reg_incident_faces; assumption.
Qed.

#[export] Instance Registry_Layout I : Registry I -> Layout I.
Proof.
  intros R. split; [split; [apply Registry_Frame; assumption | |] | | |];
    intros.
  - apply reg_g; assumption.
  - apply reg_incident_faces; assumption.
  - apply reg_g; assumption.
  - apply reg_g; assumption.
  - apply reg_modified_vertices; assumption.
Qed.

#[export] Hint Extern 1 (Frame _) => typeclasses eauto : stable.
#[export] Hint Extern 1 (FaceBlind _) => typeclasses eauto : stable.
#[export] Hint Extern 1 (Layout _) => typeclasses eauto : stable.
#[export] Hint Extern 1 (Registry _) => typeclasses eauto : stable.

(** The update of one transient member keeps a property that does not look
    at it. *)
Ltac member_field :=
  intros; cbv beta;
  lazymatch goal with
  | |- _ (with_g _ _) => simple apply reg_g
  | |- _ (with_v0 _ _) => simple apply frame_v0
  | |- _ (with_incident_faces (incident_faces _ ++ [_]) _) =>
      simple apply frame_incident
  | |- _ (with_incident_faces _ _) => simple apply faceblind_incident
  | |- _ (with_modified_vertices ({[_]} ∪ modified_vertices _) _) =>
      simple apply frame_modified
  | |- _ (with_modified_vertices _ _) => simple apply layout_modified
  | |- _ (with_vertexQueue _ _) => simple apply frame_vertexQueue
  | |- _ (with_segment_start _ _) => simple apply frame_segment_start
  | |- _ (with_segment_end _ _) => simple apply frame_segment_end
  | |- _ (with_zero_point_face _ _) => simple apply frame_zero_point_face
  | |- _ (with_null_face1 _ _) => simple apply frame_null_face1
  | |- _ (with_null_face2 _ _) => simple apply frame_null_face2
  | |- _ (with_fgrid _ _) => simple apply frame_fgrid
  end;
  assumption.

#[export] Hint Extern 3 (stable _ (modify _)) =>
  (apply stable_modify; member_field) : stable.

Lemma keeps_vertex_index f : keeps_vertex f -> keeps_index f.
Proof. intros Hf x. apply Hf. Qed.
Lemma keeps_index_set_status st : keeps_index (set_status st).
Proof. intros x. reflexivity. Qed.
Lemma keeps_index_reset : keeps_index reset.
Proof. intros x. reflexivity. Qed.
#[export] Hint Resolve keeps_vertex_index keeps_index_set_status
  keeps_index_reset : stable.

Section FaceBlindStability.

Context `{External}.
Context (I : State -> Prop) `{!FaceBlind I}.

Lemma faceblind_update_face fc f : stable I (update_face fc f).
Proof.
  intros s a s' HI Hr.
  apply update_face_Done in Hr as (i & x & -> & Hx & ->).
  apply faceblind_face. assumption.
Qed.
#[local] Hint Resolve faceblind_update_face : stable.

Lemma faceblind_mark_adjacent_faces_p v site :
  stable I (mark_adjacent_faces_p v site).
Proof. unfold mark_adjacent_faces_p. stable_auto. Qed.
Lemma faceblind_mark_adjacent_faces v site :
  stable I (mark_adjacent_faces v site).
Proof. unfold mark_adjacent_faces. stable_auto. Qed.

End FaceBlindStability.

#[export] Hint Resolve faceblind_update_face faceblind_mark_adjacent_faces_p
  faceblind_mark_adjacent_faces : stable.

Section LayoutStability.

Context `{External}.
Context (I : State -> Prop) `{!Layout I}.

Lemma layout_update_vertex v f : keeps_index f -> stable I (update_vertex v f).
Proof.
  intros Hf s a s' HI Hr.
  apply update_vertex_Done in Hr as (i & x & -> & Hx & ->).
  eapply layout_vertex; eauto.
Qed.
Lemma layout_add_new_vertex p st t d k : stable I (add_new_vertex p st t d k).
Proof.
  unfold add_new_vertex. apply stable_bind.
  - apply stable_VoronoiVertex_new. typeclasses eauto.
  - intros x s a s' HI Hr. apply add_vertex_Done in Hr as [-> ->].
    apply layout_new_vertex. assumption.
Qed.
#[local] Hint Resolve layout_update_vertex layout_add_new_vertex : stable.

Lemma layout_mark_vertex v site : stable I (mark_vertex v site).
Proof. unfold mark_vertex. stable_auto. Qed.
#[local] Hint Resolve layout_mark_vertex : stable.

Lemma layout_augment_vertex_set_body site v h :
  stable I (augment_vertex_set_body site v h).
Proof. unfold augment_vertex_set_body. stable_auto. Qed.
#[local] Hint Resolve layout_augment_vertex_set_body : stable.
Lemma layout_augment_vertex_set_loop n site :
  stable I (augment_vertex_set_loop n site).
Proof. induction n; simpl; stable_auto. Qed.
#[local] Hint Resolve layout_augment_vertex_set_loop : stable.
Lemma layout_augment_vertex_set site : stable I (augment_vertex_set site).
Proof. unfold augment_vertex_set. stable_auto. Qed.

Lemma layout_add_vertices site : stable I (add_vertices site).
Proof. unfold add_vertices. stable_auto. Qed.

Lemma layout_add_edge ed f1 f2 : stable I (add_edge ed f1 f2).
Proof. unfold add_edge. stable_auto. Qed.
#[local] Hint Resolve layout_add_edge : stable.
Lemma layout_add_edges_loop n f1 f f2 sv :
  stable I (add_edges_loop n f1 f f2 sv).
Proof. revert sv. induction n; simpl; stable_auto. Qed.
#[local] Hint Resolve layout_add_edges_loop : stable.
Lemma layout_add_edges f1 f f2 : stable I (add_edges f1 f f2).
Proof. unfold add_edges. stable_auto. Qed.

Lemma layout_reset_status : stable I reset_status.
Proof. unfold reset_status. stable_auto. Qed.

Lemma layout_identical_seppoint v : stable I (identical_seppoint v).
Proof. unfold identical_seppoint. stable_auto. Qed.
#[local] Hint Resolve layout_identical_seppoint : stable.
Lemma layout_process_next_null d e k : stable I (process_next_null d e k).
Proof. unfold process_next_null. stable_auto. Qed.
Lemma layout_process_prev_null d e k : stable I (process_prev_null d e k).
Proof. unfold process_prev_null. stable_auto. Qed.
#[local] Hint Resolve layout_process_next_null layout_process_prev_null
  : stable.
Lemma layout_find_null_face a b l : stable I (find_null_face a b l).
Proof. unfold find_null_face. stable_auto. Qed.

End LayoutStability.

#[export] Hint Resolve layout_update_vertex layout_add_new_vertex
  layout_mark_vertex layout_augment_vertex_set layout_add_vertices
  layout_add_edges layout_reset_status layout_find_null_face : stable.

Section RegistryStability.

Context `{External}.
Context (I : State -> Prop) `{!Registry I}.

Lemma reg_delete_vertex v : stable I (hedi.delete_vertex v).
Proof. unfold hedi.delete_vertex. stable_auto. Qed.
#[local] Hint Resolve reg_delete_vertex : stable.

Lemma reg_remove_deg2_vertex v : stable I (hedi.remove_deg2_vertex v).
Proof. unfold hedi.remove_deg2_vertex. stable_auto. Qed.
#[local] Hint Resolve reg_remove_deg2_vertex : stable.

Lemma reg_remove_vertex_set : stable I remove_vertex_set.
Proof. unfold remove_vertex_set. stable_auto. Qed.

Lemma reg_remove_split_vertex_loop n f : stable I (remove_split_vertex_loop n f).
Proof. induction n; simpl; stable_auto. Qed.
#[local] Hint Resolve reg_remove_split_vertex_loop : stable.
Lemma reg_remove_split_vertex f : stable I (remove_split_vertex f).
Proof. unfold remove_split_vertex. stable_auto. Qed.

End RegistryStability.

#[export] Hint Resolve reg_remove_vertex_set reg_remove_split_vertex : stable.

#[export] Instance registry_is_Registry np nl vm far c :
  Registry (registry_is np nl vm far c).
Proof.
  split; intros s x (? & ? & ? & ? & ?); try (repeat split; assumption).
  intros Hle. repeat split; try assumption. simpl. lia.
Qed.

Lemma hoare_bind_stable {A B} I (Q : B -> State -> Prop) (m : M A) (k : A -> M B) :
  stable I m -> (forall a, hoare I (k a) Q) -> hoare I (bind m k) Q.
Proof. intros. eapply hoare_bind; eauto. Qed.

Lemma hoare_ret {A} (P : State -> Prop) (Q : A -> State -> Prop) a :
  (forall s, P s -> Q a s) -> hoare P (ret a) Q.
Proof. intros HQ s b s' HP [= <- <-]. auto. Qed.

(** Carries the invariant [I] along the calls already taken apart. *)
Ltac stable_fwd I :=
  repeat match goal with
  | Hr : ?m ?s1 = Done ?a ?s2, HI : I ?s1 |- _ =>
      lazymatch goal with
      | _ : I s2 |- _ => fail
      | _ => idtac
      end;
      let Hst := fresh "Hst" in
      assert (Hst : stable I m) by stable_auto;
      pose proof (Hst _ _ _ HI Hr); clear Hst
  end.

(** One step of a proof that a tail of calls keeps [I] and ends with a value
    that satisfies the postcondition. *)
Ltac hoare_tail_step :=
  lazymatch goal with
  | |- hoare _ (bind _ _) _ =>
      simple apply hoare_bind_stable; [solve [stable_auto] | intros ?]
  | |- hoare _ (ret _) _ => apply hoare_ret; intros ? ?
  | |- hoare _ (let _ := _ in _) _ => cbv zeta
  | |- hoare _ (match ?x with _ => _ end) _ => destruct x eqn:?
  end.
Ltac hoare_tail := repeat hoare_tail_step.

(** The tests on [step] met along a run, as facts about [step]. *)
Ltac step_facts :=
  repeat match goal with
  | H : (_ =? _)%Z = true |- _ => apply Z.eqb_eq in H
  | H : (_ =? _)%Z = false |- _ => apply Z.eqb_neq in H
  end.

Section Insertions.

Context `{External}.

Lemma insert_point_site_registry p step s r s' :
  insert_point_site p step s = Done r s' ->
  registry_is (num_psites s + 1) (num_lsites s)
    (vertex_map_with (count s) (next_vertex s) (vertex_map s))
    (far_radius s) (count s + 1) s' /\
  ((1 <= step <= 5)%Z -> r = (-1)%Z).
Proof.
  intros Hr. unfold insert_point_site in Hr.
  apply bind_Done in Hr as (? & s1 & H1 & Hr); apply modify_Done in H1; subst s1.
  apply bind_Done in Hr as (? & s1 & H1 & Hr); apply modify_Done in H1; subst s1.
  apply bind_Done in Hr as (? & s1 & H1 & Hr); apply modify_Done in H1; subst s1.
  apply bind_Done in Hr as (? & s1 & H1 & Hr); apply modify_Done in H1; subst s1.
  cbv zeta in Hr.
  apply bind_Done in Hr as (? & s1 & H1 & Hr); apply gets_Done in H1 as [-> ->].
  apply bind_Done in Hr as (? & s1 & H1 & Hr); apply assert_Done in H1 as [_ ->].
  apply bind_Done in Hr as (new_vert & s1 & Hnew & Hr).
  unfold add_new_vertex in Hnew.
  apply bind_Done in Hnew as (xv & s2 & Hx & Hadd).
  apply VoronoiVertex_new_Done in Hx as [-> ->].
  apply add_vertex_Done in Hadd as [-> ->].
  apply bind_Done in Hr as (gnew & s1 & Hg & Hr).
  apply vertex_Done in Hg as [Hg ->]. simpl in Hg.
  rewrite lookup_insert_eq in Hg. injection Hg as <-.
  apply bind_Done in Hr as (? & s1 & Hvm & Hr).
  unfold vertex_map_insert in Hvm. apply modify_Done in Hvm. simpl in Hvm.
  set (I := registry_is (num_psites s + 1) (num_lsites s)
    (vertex_map_with (count s) (next_vertex s) (vertex_map s))
    (far_radius s) (count s + 1)).
  assert (HI : I s1).
  { subst s1. unfold I, registry_is, vertex_map_with, next_vertex.
    destruct (vertex_map s !! count s); simpl; repeat split; lia. }
  assert (HR : Registry I) by (unfold I; typeclasses eauto).
  clearbody I. clear Hvm.
  match type of Hr with
  | ?m _ = _ =>
      assert (Hh : hoare I m
                (fun r s' => I s' /\ ((1 <= step <= 5)%Z -> r = (-1)%Z)));
      [clear Hr | exact (Hh _ _ _ HI Hr)]
  end.
  hoare_tail; step_facts; (split; [assumption|]); intros;
    first [reflexivity | exfalso; lia].
Qed.

Lemma insert_line_site_registry idx1 idx2 step s r s' :
  insert_line_site idx1 idx2 step s = Done r s' ->
  registry_is (num_psites s) (num_lsites s + 1) (vertex_map s)
    (far_radius s) (count s) s' /\
  ((1 <= step <= 11)%Z -> r = false) /\
  (~ (1 <= step <= 11)%Z -> r = true).
Proof.
  intros Hr. unfold insert_line_site in Hr.
  apply bind_Done in Hr as (? & s1 & H1 & Hr); apply modify_Done in H1; subst s1.
  apply bind_Done in Hr as (? & s1 & H1 & Hr); apply modify_Done in H1.
  cbv zeta in Hr.
  set (I := registry_is (num_psites s) (num_lsites s + 1) (vertex_map s)
    (far_radius s) (count s)).
  assert (HI : I s1).
  { subst s1. unfold I, registry_is. simpl. repeat split; lia. }
  assert (HR : Registry I) by (unfold I; typeclasses eauto).
  clearbody I. clear H1.
  match type of Hr with
  | ?m _ = _ =>
      assert (Hh : hoare I m
                (fun r s' => I s' /\ ((1 <= step <= 11)%Z -> r = false) /\
                             (~ (1 <= step <= 11)%Z -> r = true)));
      [clear Hr | exact (Hh _ _ _ HI Hr)]
  end.
  hoare_tail; step_facts; (split; [assumption|]); split; intros;
    first [reflexivity | exfalso; lia].
Qed.

Lemma reg_initialize I `{!Registry I} : stable I initialize.
Proof. unfold initialize. stable_auto. Qed.

Lemma VoronoiDiagram_new_registry far n_bins s0 s :
  VoronoiDiagram_new far n_bins s0 = Done tt s ->
  registry_is 3 0 (vertex_map s0) far 0 s.
Proof.
  intros Hr. unfold VoronoiDiagram_new in Hr.
  apply bind_Done in Hr as (? & s1 & H1 & Hr); apply modify_Done in H1; subst s1.
  apply bind_Done in Hr as (? & s1 & H1 & Hr); apply modify_Done in H1; subst s1.
  apply bind_Done in Hr as (? & s1 & H1 & Hr).
  assert (HI : registry_is (num_psites s0) (num_lsites s0) (vertex_map s0) far
                 (count s0) s1).
  { refine (reg_initialize (registry_is (num_psites s0) (num_lsites s0)
              (vertex_map s0) far (count s0)) _ _ _ _ H1).
    repeat split. simpl. lia. }
  apply bind_Done in Hr as (? & s2 & H2 & Hr); apply modify_Done in H2; subst s2.
  apply bind_Done in Hr as (? & s2 & H2 & Hr); apply modify_Done in H2; subst s2.
  apply modify_Done in Hr; subst s.
  destruct HI as (? & ? & ? & ? & ?). repeat split; simpl; auto. lia.
Qed.

Lemma perform_registry c s s' :
  perform c s = Done tt s' ->
  num_psites s' = (num_psites s + if is_point_call c then 1 else 0)%Z /\
  num_lsites s' = (num_lsites s + if is_line_call c then 1 else 0)%Z /\
  far_radius s' = far_radius s /\ (count s <= count s')%Z.
Proof.
  destruct c as [p step|idx1 idx2 step]; simpl; intros Hr;
    apply bind_Done in Hr as (r & s1 & H1 & Hr); apply ret_Done in Hr as [_ ->].
  - apply insert_point_site_registry in H1 as [(? & ? & ? & ? & ?) _].
    repeat split; try assumption; lia.
  - apply insert_line_site_registry in H1 as [(? & ? & ? & ? & ?) _].
    repeat split; try assumption; lia.
Qed.

Lemma perform_all_counters calls s s' :
  perform_all calls s = Done tt s' ->
  num_psites s' = (num_psites s + Z.of_nat (point_calls calls))%Z /\
  num_lsites s' = (num_lsites s + Z.of_nat (line_calls calls))%Z.
Proof.
  revert s. induction calls as [|c calls IH]; simpl; intros s Hr.
  - apply ret_Done in Hr as [_ ->]. lia.
  - apply bind_Done in Hr as ([] & s1 & H1 & Hr).
    apply perform_registry in H1 as (Hp & Hl & _ & _).
    apply IH in Hr as [-> ->]. rewrite Hp, Hl.
    destruct c; simpl; lia.
Qed.

End Insertions.

(** ** The initial frame *)

Lemma if_Done {A} (b : bool) (a a' : A) e S s :
  (if b then (fun x => Done a x) else (fun x => Failed e x)) S = Done a' s ->
  a' = a /\ s = S.
Proof. destruct b; intros [=]; auto. Qed.

Lemma frame_gen_distance far :
  at_distance (3 * far) (frame_gen1 far) /\
  at_distance (3 * far) (frame_gen2 far) /\
  at_distance (3 * far) (frame_gen3 far).
Proof.
  destruct far as [a b].
  unfold at_distance, Num.eq, norm_sq, frame_gen1, frame_gen2, frame_gen3.
  cbn -[Qplus Qmult Qdiv Qminus Qopp Qinv].
  repeat split; field.
Qed.

Lemma frame_vd_distance far :
  at_distance (3 * 6 * far) (frame_vd1 far) /\
  at_distance (3 * 6 * far) (frame_vd2 far) /\
  at_distance (3 * 6 * far) (frame_vd3 far).
Proof.
  destruct far as [a b].
  unfold at_distance, Num.eq, norm_sq, frame_vd1, frame_vd2, frame_vd3.
  cbn -[Qplus Qmult Qdiv Qminus Qopp Qinv].
  repeat split; field.
Qed.

(** The graph [initialize] builds, read off the run of the constructor with
    the nine points kept symbolic. *)
Lemma initial_frame_graph `{External} far n_bins count0 s :
  VoronoiDiagram_new far n_bins (blank count0) = Done tt s ->
  let gr := g s in
  position <$> vertices_of_type POINTSITE gr
    = [frame_gen3 far; frame_gen1 far; frame_gen2 far] /\
  position <$> vertices_of_type OUTER gr
    = [frame_vd2 far; frame_vd3 far; frame_vd1 far] /\
  position <$> vertices_of_type NORMAL gr = [mkPoint 0 0] /\
  position <$> vertices_of_type APEX gr
    = [midpoint (frame_gen1 far) (frame_gen3 far);
       midpoint (frame_gen1 far) (frame_gen2 far);
       midpoint (frame_gen2 far) (frame_gen3 far)] /\
  size (vertices gr) = 10 /\
  size (edges gr) = 15 /\
  length (edges_of_type OUTEDGE gr) = 3 /\
  forallb (fun e => negb (has_twin e)) (edges_of_type OUTEDGE gr) = true /\
  length (edges_of_type LINE gr) = 12 /\
  forallb (fun e => has_twin e && is_bisector e) (edges_of_type LINE gr) = true /\
  size (faces gr) = 3 /\
  forallb (fun v => bool_decide (status v = UNDECIDED))
    (vertices_of_type NORMAL gr ++ vertices_of_type APEX gr) = true /\
  forallb (fun v => bool_decide (status v = OUT))
    (vertices_of_type OUTER gr ++ vertices_of_type POINTSITE gr) = true /\
  forallb (fun f => bool_decide (fstatus f = NONINCIDENT))
    (snd <$> map_to_list (faces gr)) = true.
Proof.
  intros Hr. unfold VoronoiDiagram_new in Hr.
  apply bind_Done in Hr as (? & s1 & H1 & Hr); apply modify_Done in H1; subst s1.
  apply bind_Done in Hr as (? & s1 & H1 & Hr); apply modify_Done in H1; subst s1.
  apply bind_Done in Hr as (? & s1 & H1 & Hr).
  apply bind_Done in Hr as (? & s2 & H2 & Hr); apply modify_Done in H2; subst s2.
  apply bind_Done in Hr as (? & s2 & H2 & Hr); apply modify_Done in H2; subst s2.
  apply modify_Done in Hr; subst s.
  unfold initialize in H1.
  apply bind_Done in H1 as (fr & s2 & H2 & H1). apply gets_Done in H2 as [-> ->].
  simpl far_radius in H1. cbv beta zeta in H1.
  unfold midpoint, frame_gen1, frame_gen2, frame_gen3, frame_vd1, frame_vd2,
    frame_vd3.
  remember (mkPoint 0 (3 * far)) as gen1 eqn:Hgen1.
  remember (mkPoint (-3 * Num.sqrt3 * far / 2) (-3 * far / 2)) as gen2 eqn:Hgen2.
  remember (mkPoint (3 * Num.sqrt3 * far / 2) (-3 * far / 2)) as gen3 eqn:Hgen3.
  remember (mkPoint 0 (-3 * far * 6)) as vd1 eqn:Hvd1.
  remember (mkPoint (3 * Num.sqrt3 * far * 6 / 2) (3 * far * 6 / 2)) as vd2
    eqn:Hvd2.
  remember (mkPoint (-3 * Num.sqrt3 * far * 6 / 2) (3 * far * 6 / 2)) as vd3
    eqn:Hvd3.
  remember (Num.of_Q 0.5 * (gen2 + gen3))%P as m23 eqn:Hm23.
  remember (Num.of_Q 0.5 * (gen1 + gen3))%P as m13 eqn:Hm13.
  remember (Num.of_Q 0.5 * (gen1 + gen2))%P as m12 eqn:Hm12.
  clear Hgen1 Hgen2 Hgen3 Hvd1 Hvd2 Hvd3 Hm23 Hm13 Hm12.
  destruct H.
  vm_compute in H1.
  apply if_Done in H1 as [_ ->].
  vm_compute. repeat split.
Qed.

(** ** The index of a site and the vertex map *)

#[export] Instance has_index_Layout v c : Layout (has_index v c).
Proof.
  split; [split; [split|..]|..]; intros s; intros;
    try (match goal with Hs : has_index _ _ _ |- _ => exact Hs end).
  - (* a vertex updated, its index kept *)
    destruct H as (x0 & Hv & Hc). unfold has_index. simpl.
    destruct v as [j|]; [|discriminate]. simpl in *.
    destruct (decide (j = i)) as [->|Hne].
    + rewrite lookup_insert_eq. eexists; split; [reflexivity|]. congruence.
    + rewrite lookup_insert_ne by congruence. eauto.
  - (* a new vertex *)
    destruct H as (x0 & Hv & Hc). unfold has_index. simpl.
    destruct v as [j|]; [|discriminate]. simpl in *.
    rewrite lookup_insert_ne; [eauto|].
    intros <-. apply elem_of_dom_2 in Hv. exact (is_fresh _ Hv).
  - (* a vertex updated *)
    destruct H as (x0 & Hv & Hc). unfold has_index. simpl.
    destruct v as [j|]; [|discriminate]. simpl in *.
    destruct (decide (j = i)) as [->|Hne].
    + rewrite lookup_insert_eq. eexists; split; [reflexivity|]. congruence.
    + rewrite lookup_insert_ne by congruence. eauto.
  - (* a new vertex *)
    destruct H as (x0 & Hv & Hc). unfold has_index. simpl.
    destruct v as [j|]; [|discriminate]. simpl in *.
    rewrite lookup_insert_ne; [eauto|].
    intros <-. apply elem_of_dom_2 in Hv. exact (is_fresh _ Hv).
Qed.

Lemma has_index_weaken v c s : has_index v c s -> index_if_present v c s.
Proof. intros (x & Hx & Hc) y Hy. congruence. Qed.

Section IndexKept.

Context `{External}.
Variables (v : HEVertex) (c : Z).

Lemma index_update_vertex w f :
  keeps_index f -> stable (index_if_present v c) (update_vertex w f).
Proof.
  intros Hf s a s' HI Hr.
  apply update_vertex_Done in Hr as (i & x & -> & Hx & ->).
  intros y. simpl. destruct v as [j|]; [|discriminate]. simpl.
  destruct (decide (j = i)) as [->|Hne].
  - rewrite lookup_insert_eq. intros [= <-]. rewrite Hf. apply HI. exact Hx.
  - rewrite lookup_insert_ne by congruence. apply HI.
Qed.

Lemma index_update_face fc f :
  stable (index_if_present v c) (update_face fc f).
Proof.
  intros s a s' HI Hr.
  apply update_face_Done in Hr as (i & x & -> & Hx & ->). exact HI.
Qed.

Lemma index_delete_vertex w :
  stable (index_if_present v c) (hedi.delete_vertex w).
Proof.
  unfold hedi.delete_vertex. intros s a s' HI Hr. inv_run.
  match goal with Hv : vertex _ _ = Done _ _ |- _ =>
    apply vertex_Done in Hv as [_ ->] end.
  inv_run. intros y. simpl. destruct v as [j|]; [|discriminate]. simpl.
  intros Hy. apply lookup_delete_Some in Hy as [_ Hy]. apply HI. exact Hy.
Qed.

#[local] Hint Resolve index_update_vertex index_update_face
  index_delete_vertex : stable.
#[local] Hint Extern 3 (stable (index_if_present _ _) (modify _)) =>
  (apply stable_modify; intros ? Hs; exact Hs) : stable.
#[local] Hint Extern 3 (stable (index_if_present _ _) (vertex _)) =>
  (unfold vertex) : stable.

Lemma index_vertex w : stable (index_if_present v c) (vertex w).
Proof. unfold vertex. stable_auto. Qed.
#[local] Hint Resolve index_vertex : stable.

Lemma index_remove_vertex_set : stable (index_if_present v c) remove_vertex_set.
Proof. unfold remove_vertex_set. stable_auto. Qed.

Lemma index_reset_status : stable (index_if_present v c) reset_status.
Proof. unfold reset_status. stable_auto. Qed.

Lemma index_checker (m : State -> bool) :
  stable (index_if_present v c) (assertM (gets m)).
Proof. stable_auto. Qed.

End IndexKept.

Section InsertedIndex.

Context `{External}.

(** A call of [insert_point_site] that runs to completion returns the value
    the vertex counter had at the call; the vertex it added is in the graph
    and has that index. *)
Lemma insert_point_site_index p step s r s' :
  insert_point_site p step s = Done r s' ->
  ~ (1 <= step <= 5)%Z ->
  r = count s /\ has_index (next_vertex s) r s'.
Proof.
  intros Hr Hstep. unfold insert_point_site in Hr.
  apply bind_Done in Hr as (? & s1 & H1 & Hr); apply modify_Done in H1; subst s1.
  apply bind_Done in Hr as (? & s1 & H1 & Hr); apply modify_Done in H1; subst s1.
  apply bind_Done in Hr as (? & s1 & H1 & Hr); apply modify_Done in H1; subst s1.
  apply bind_Done in Hr as (? & s1 & H1 & Hr); apply modify_Done in H1; subst s1.
  cbv zeta in Hr.
  apply bind_Done in Hr as (? & s1 & H1 & Hr); apply gets_Done in H1 as [-> ->].
  apply bind_Done in Hr as (? & s1 & H1 & Hr); apply assert_Done in H1 as [_ ->].
  apply bind_Done in Hr as (new_vert & s1 & Hnew & Hr).
  unfold add_new_vertex in Hnew.
  apply bind_Done in Hnew as (xv & s2 & Hx & Hadd).
  apply VoronoiVertex_new_Done in Hx as [-> ->].
  apply add_vertex_Done in Hadd as [-> ->].
  apply bind_Done in Hr as (gnew & s1 & Hg & Hr).
  apply vertex_Done in Hg as [Hg ->]. simpl in Hg.
  rewrite lookup_insert_eq in Hg. injection Hg as <-.
  apply bind_Done in Hr as (? & s1 & Hvm & Hr).
  unfold vertex_map_insert in Hvm. apply modify_Done in Hvm. simpl in Hvm.
  set (nv := Some (fresh (dom (vertices (g _))))) in *.
  change (next_vertex s) with nv.
  set (c := count s) in *.
  assert (HI : has_index nv c s1).
  { subst s1. unfold has_index, nv.
    destruct (vertex_map s !! c); simpl; rewrite lookup_insert_eq;
      eexists; split; reflexivity. }
  clearbody nv c. clear Hvm.
  match type of Hr with
  | ?m _ = _ =>
      assert (Hh : hoare (has_index nv c) m
                (fun r s' => r = c /\ has_index nv r s'));
      [clear Hr | exact (Hh _ _ _ HI Hr)]
  end.
  hoare_tail; step_facts; try (exfalso; lia).
  eapply hoare_bind with (Q := fun _ => index_if_present nv c).
  { intros s0 a9 s2 Hs0 Hrun.
    eapply index_remove_vertex_set; [apply has_index_weaken|]; eassumption. }
  intros ?. cbv beta. destruct (step =? 1 + 1 + 1 + 1 + 1)%Z eqn:Hs5;
    [step_facts; exfalso; lia|].
  eapply hoare_bind; [apply index_reset_status|]. intros ?.
  eapply hoare_bind; [apply index_checker|]. intros ?.
  eapply hoare_bind; [apply index_checker|]. intros ?.
  intros s0 r0 s2 Hs0 Hrun.
  apply bind_Done in Hrun as (gnew' & s3 & Hv & Hrun).
  apply vertex_Done in Hv as [Hv ->]. apply ret_Done in Hrun as [-> ->].
  split; [apply Hs0; exact Hv|]. exists gnew'. split; [exact Hv | reflexivity].
Qed.

Lemma perform_vertex_map c s s' :
  perform c s = Done tt s' ->
  vertex_map s ⊆ vertex_map s' /\
  (keys_below_count s -> keys_below_count s').
Proof.
  unfold keys_below_count.
  destruct c as [p step|idx1 idx2 step]; simpl; intros Hr;
    apply bind_Done in Hr as (r & s1 & H1 & Hr); apply ret_Done in Hr as [_ ->].
  - apply insert_point_site_registry in H1 as [(_ & _ & Hvm & _ & Hc) _].
    rewrite Hvm. unfold vertex_map_with.
    destruct (vertex_map s !! count s) eqn:Hl.
    + split; [reflexivity|]. intros Hk k v Hkv. apply Hk in Hkv. lia.
    + split; [apply insert_subseteq; exact Hl|].
      intros Hk k v Hkv. apply lookup_insert_Some in Hkv as [[<- _]|[_ Hkv]].
      * lia.
      * apply Hk in Hkv. lia.
  - apply insert_line_site_registry in H1 as [(_ & _ & Hvm & _ & Hc) _].
    rewrite Hvm. split; [reflexivity|].
    intros Hk k v Hkv. apply Hk in Hkv. lia.
Qed.

Lemma perform_all_vertex_map calls s s' :
  perform_all calls s = Done tt s' ->
  vertex_map s ⊆ vertex_map s' /\
  (keys_below_count s -> keys_below_count s').
Proof.
  revert s. induction calls as [|c calls IH]; simpl; intros s Hr.
  - apply ret_Done in Hr as [_ ->]. split; [reflexivity | auto].
  - apply bind_Done in Hr as ([] & s1 & H1 & Hr).
    apply perform_vertex_map in H1 as [Hsub Hk].
    apply IH in Hr as [Hsub' Hk'].
    split; [etrans; eassumption | auto].
Qed.

Lemma reachable_keys_below_count s : reachable s -> keys_below_count s.
Proof.
  intros (s0 & calls & (far & n_bins & count0 & Hnew) & Hcalls).
  apply perform_all_vertex_map in Hcalls as [_ Hk]. apply Hk.
  apply VoronoiDiagram_new_registry in Hnew as (_ & _ & Hvm & _ & _).
  intros k v. rewrite Hvm. simpl. rewrite lookup_empty. discriminate.
Qed.

(** The index a completed insertion returns is entered in the vertex map
    with the vertex the insertion added, and the entry stays. *)
Lemma created_vertex_map s idx v :
  created s idx v -> vertex_map s !! idx = Some v.
Proof.
  intros (s0 & p & step & s1 & calls & Hreach & Hstep & Hins & -> & Hcalls).
  apply perform_all_vertex_map in Hcalls as [Hsub _].
  eapply lookup_weaken; [|exact Hsub].
  pose proof (insert_point_site_index _ _ _ _ _ Hins Hstep) as [-> _].
  apply insert_point_site_registry in Hins as [(_ & _ & Hvm & _ & _) _].
  rewrite Hvm. unfold vertex_map_with.
  destruct (vertex_map s0 !! count s0) eqn:Hl.
  - apply reachable_keys_below_count in Hl; [lia | exact Hreach].
  - apply lookup_insert_eq.
Qed.

Lemma find_endpoints_lookup idx1 idx2 v1 v2 s :
  vertex_map s !! idx1 = Some v1 -> vertex_map s !! idx2 = Some v2 ->
  find_endpoints idx1 idx2 s = Done (v1, v2) s.
Proof.
  intros H1 H2. unfold find_endpoints, bind, gets. rewrite H1, H2.
  rewrite !bool_decide_eq_true_2 by eauto. reflexivity.
Qed.

End InsertedIndex.

(** ** The decision of the augment phase *)

Lemma target_Done e w s s' :
  hedi.target e s = Done w s' ->
  exists x, graph_edge (g s) e = Some x /\ w = etarget x /\ s' = s.
Proof.
  unfold hedi.target. intros Hr.
  apply bind_Done in Hr as (x & s1 & Hx & Hr).
  apply edge_Done in Hx as [Hx ->]. apply ret_Done in Hr as [-> ->]. eauto.
Qed.

Lemma out_edge_itr_Done v l s s' :
  hedi.out_edge_itr v s = Done l s' -> l = hedi.out_edges (g s) v /\ s' = s.
Proof.
  unfold hedi.out_edge_itr. intros Hr.
  apply bind_Done in Hr as (x & s1 & Hx & Hr).
  apply vertex_Done in Hx as [_ ->]. apply gets_Done in Hr. exact Hr.
Qed.

Lemma has_edge_Done w v b s s' :
  hedi.has_edge w v s = Done b s' -> b = adjacent s w v /\ s' = s.
Proof. unfold hedi.has_edge. intros Hr. apply gets_Done in Hr. exact Hr. Qed.

Section Predicates.

Context `{External}.

(** [predicate_c4] answers whether two or more of the half-edges leaving
    the vertex end in an IN vertex. *)
Lemma predicate_c4_loop_spec l k s b s' :
  (k <= 1)%Z ->
  predicate_c4_loop l k s = Done b s' ->
  s' = s /\
  b = (2 <=? k + Z.of_nat (length (List.filter (target_in s) l)))%Z.
Proof.
  revert k. induction l as [|e l IH]; simpl; intros k Hk Hr.
  - apply ret_Done in Hr as [-> ->]. split; [reflexivity|].
    symmetry. apply Z.leb_gt. lia.
  - apply bind_Done in Hr as (w & s1 & Hw & Hr).
    apply target_Done in Hw as (x & Hx & -> & ->).
    apply bind_Done in Hr as (gw & s1 & Hgw & Hr).
    apply vertex_Done in Hgw as [Hgw ->].
    unfold target_in at 1, status_is. rewrite Hx, Hgw.
    destruct (bool_decide (status gw = IN)); simpl length.
    + destruct (k + 1 >=? 2)%Z eqn:Hge.
      * apply ret_Done in Hr as [-> ->]. split; [reflexivity|].
        symmetry. apply Z.leb_le. lia.
      * apply IH in Hr as [-> ->]; [|lia]. split; [reflexivity|].
        f_equal. lia.
    + apply IH in Hr as [-> ->]; [|lia]. split; reflexivity.
Qed.

Lemma predicate_c4_spec v s b s' :
  predicate_c4 v s = Done b s' ->
  s' = s /\ b = (2 <=? in_count s v)%nat.
Proof.
  unfold predicate_c4. intros Hr.
  apply bind_Done in Hr as (l & s1 & Hl & Hr).
  apply out_edge_itr_Done in Hl as [-> ->].
  apply predicate_c4_loop_spec in Hr as [-> ->]; [|lia].
  split; [reflexivity|]. unfold in_count.
  destruct (2 <=? _)%nat eqn:Hn.
  - apply Z.leb_le. apply Nat.leb_le in Hn. lia.
  - apply Z.leb_gt. apply Nat.leb_gt in Hn. lia.
Qed.

(** The walk of [predicate_c5] along a ring visits the vertices of the
    ring and answers whether one of them excuses the face. *)
Lemma predicate_c5_ring_spec n v start cur acc s b s' :
  predicate_c5_ring n v start cur acc s = Done b s' ->
  s' = s /\
  exists l,
    hedi.ring_loop n start cur s = Done l s /\
    b = acc || existsb (excuse s v)
                 (omap (fun e => etarget <$> graph_edge (g s) e) l).
Proof.
  revert cur acc. induction n as [|n IH]; simpl; intros cur acc Hr;
    [discriminate|].
  apply bind_Done in Hr as (w & s1 & Hw & Hr).
  apply target_Done in Hw as (x & Hx & -> & ->).
  apply bind_Done in Hr as (gw & s1 & Hgw & Hr).
  apply vertex_Done in Hgw as [Hgw ->].
  apply bind_Done in Hr as (adj & s1 & Hadj & Hr).
  apply has_edge_Done in Hadj as [-> ->].
  apply bind_Done in Hr as (x' & s1 & Hx' & Hr).
  apply edge_Done in Hx' as [Hx' ->].
  assert (x' = x) as -> by congruence.
  assert (Hacc :
    (if bool_decide (etarget x <> v) && bool_decide (status gw = IN)
        && adjacent s (etarget x) v
     then true
     else if bool_decide (etarget x <> v) &&
             (bool_decide (type gw = ENDPOINT) || bool_decide (type gw = APEX)
              || bool_decide (type gw = SPLIT))
     then true else acc) = excuse s v (etarget x) || acc).
  { unfold excuse, in_neighbour, status_is, type_among. rewrite Hgw.
    assert (Ht : bool_decide (type gw ∈ [ENDPOINT; APEX; SPLIT])
                 = bool_decide (type gw = ENDPOINT) || bool_decide (type gw = APEX)
                   || bool_decide (type gw = SPLIT)).
    { destruct (type gw); reflexivity. }
    rewrite Ht.
    destruct (bool_decide (etarget x <> v)), (bool_decide (status gw = IN)),
      (adjacent s (etarget x) v), (bool_decide (type gw = ENDPOINT)),
      (bool_decide (type gw = APEX)), (bool_decide (type gw = SPLIT)), acc;
      reflexivity. }
  rewrite Hacc in Hr. clear Hacc.
  unfold bind at 1. unfold edge, bind, get, valid. rewrite Hx. cbn [ret].
  destruct (decide (next x = start)) as [Heq|Hne].
  - rewrite bool_decide_eq_false_2 in Hr by (intros Hc; apply Hc; exact Heq).
    apply ret_Done in Hr as [-> ->]. split; [reflexivity|].
    rewrite bool_decide_eq_true_2 by exact Heq.
    eexists. split; [reflexivity|]. simpl. rewrite Hx. simpl.
    destruct (excuse s v (etarget x)), acc; reflexivity.
  - rewrite bool_decide_eq_true_2 in Hr by exact Hne.
    apply IH in Hr as (-> & l & Hl & ->). split; [reflexivity|].
    rewrite bool_decide_eq_false_2 by exact Hne.
    fold (bind (hedi.ring_loop n start (next x))
            (fun l => ret (cur :: l)) s).
    unfold bind. rewrite Hl. eexists. split; [reflexivity|].
    simpl. rewrite Hx. simpl.
    destruct (excuse s v (etarget x)), acc; reflexivity.
Qed.

Lemma predicate_c5_faces_spec v l acc s b s' :
  predicate_c5_faces v l acc s = Done b s' ->
  s' = s /\ b = acc && forallb (excused_on s v) l.
Proof.
  revert acc. induction l as [|f l IH]; simpl; intros acc Hr.
  - apply ret_Done in Hr as [-> ->]. split; [reflexivity|].
    destruct acc; reflexivity.
  - apply bind_Done in Hr as (fp & s1 & Hfp & Hr).
    pose proof Hfp as Hfp'. apply face_props_Done in Hfp as [_ ->].
    apply bind_Done in Hr as (ok & s1 & Hok & Hr).
    apply predicate_c5_ring_spec in Hok as (-> & ring & Hring & ->).
    apply IH in Hr as [-> ->]. split; [reflexivity|].
    assert (Hex : excused_on s v f
                  = existsb (excuse s v)
                      (omap (fun e => etarget <$> graph_edge (g s) e) ring)).
    { unfold excused_on, hedi.face_vertices, hedi.face_edges, bind.
      rewrite Hfp', Hring. reflexivity. }
    rewrite Hex. simpl.
    destruct (existsb _ _), acc; reflexivity.
Qed.

Lemma adjacent_incident_spec l s fs s' :
  adjacent_incident l s = Done fs s' -> s' = s /\ fs = incident_among s l.
Proof.
  revert fs s'. induction l as [|e l IH]; simpl; intros fs s' Hr.
  - apply ret_Done in Hr as [-> ->]. auto.
  - apply bind_Done in Hr as (x & s1 & Hx & Hr).
    apply edge_Done in Hx as [Hx ->].
    apply bind_Done in Hr as (fp & s1 & Hfp & Hr).
    apply face_props_Done in Hfp as [Hfp ->].
    apply bind_Done in Hr as (rest & s1 & Hrest & Hr).
    apply IH in Hrest as [-> ->]. apply ret_Done in Hr as [-> ->].
    split; [reflexivity|]. rewrite Hx, Hfp.
    destruct (bool_decide (fstatus fp = INCIDENT)); reflexivity.
Qed.

(** [predicate_c5] answers [c5_holds]. *)
Lemma predicate_c5_spec v s b s' :
  predicate_c5 v s = Done b s' -> s' = s /\ b = c5_holds s v.
Proof.
  unfold predicate_c5. intros Hr.
  apply bind_Done in Hr as (gv & s1 & Hgv & Hr).
  apply vertex_Done in Hgv as [Hgv ->].
  assert (Ht : type_among [APEX; SPLIT] s v
               = bool_decide (type gv = APEX) || bool_decide (type gv = SPLIT)).
  { unfold type_among. rewrite Hgv. destruct (type gv); reflexivity. }
  unfold c5_holds. rewrite Ht.
  destruct (bool_decide (type gv = APEX) || bool_decide (type gv = SPLIT)).
  - apply ret_Done in Hr as [-> ->]. auto.
  - apply bind_Done in Hr as (l & s1 & Hl & Hr).
    apply out_edge_itr_Done in Hl as [-> ->].
    apply bind_Done in Hr as (fs & s1 & Hfs & Hr).
    apply adjacent_incident_spec in Hfs as [-> ->].
    apply bind_Done in Hr as (? & s1 & Ha & Hr).
    apply assert_Done in Ha as [_ ->].
    apply predicate_c5_faces_spec in Hr as [-> ->]. auto.
Qed.

(** [predicate_c5] returns only for a vertex of kind APEX or SPLIT or with
    an INCIDENT face at it. *)
Lemma predicate_c5_incident v s b s' :
  predicate_c5 v s = Done b s' ->
  type_among [APEX; SPLIT] s v = true \/ incident_faces_at s v <> [].
Proof.
  unfold predicate_c5. intros Hr.
  apply bind_Done in Hr as (gv & s1 & Hgv & Hr).
  apply vertex_Done in Hgv as [Hgv ->].
  assert (Ht : type_among [APEX; SPLIT] s v
               = bool_decide (type gv = APEX) || bool_decide (type gv = SPLIT)).
  { unfold type_among. rewrite Hgv. destruct (type gv); reflexivity. }
  rewrite Ht.
  destruct (bool_decide (type gv = APEX) || bool_decide (type gv = SPLIT));
    [left; reflexivity | right].
  apply bind_Done in Hr as (l & s1 & Hl & Hr).
  apply out_edge_itr_Done in Hl as [-> ->].
  apply bind_Done in Hr as (fs & s1 & Hfs & Hr).
  apply adjacent_incident_spec in Hfs as [-> ->].
  apply bind_Done in Hr as (? & s1 & Ha & Hr).
  apply assert_Done in Ha as [Hne ->].
  apply negb_true_iff, bool_decide_eq_false in Hne. exact Hne.
Qed.

End Predicates.

#[export] Instance has_status_FaceBlind v st : FaceBlind (has_status v st).
Proof.
  split; [split|..]; intros s; intros;
    try (match goal with Hs : has_status _ _ _ |- _ => exact Hs end).
  - destruct H as (x0 & Hv & Hc). unfold has_status. simpl.
    destruct v as [j|]; [|discriminate]. simpl in *.
    destruct (decide (j = i)) as [->|Hne].
    + rewrite lookup_insert_eq. eexists; split; [reflexivity|]. congruence.
    + rewrite lookup_insert_ne by congruence. eauto.
  - destruct H as (x0 & Hv & Hc). unfold has_status. simpl.
    destruct v as [j|]; [|discriminate]. simpl in *.
    rewrite lookup_insert_ne; [eauto|].
    intros <-. apply elem_of_dom_2 in Hv. exact (is_fresh _ Hv).
Qed.

Lemma update_vertex_status v st :
  hoare (fun _ => True) (update_vertex v (set_status st))
    (fun _ => has_status v st).
Proof.
  intros s a s' _ Hr.
  apply update_vertex_Done in Hr as (i & x & -> & Hx & ->).
  exists (set_status st x). simpl. rewrite lookup_insert_eq. auto.
Qed.

Section Decision.

Context `{External}.

Lemma mark_vertex_marks v site :
  hoare (fun _ => True) (mark_vertex v site) (fun _ => has_status v IN).
Proof.
  unfold mark_vertex.
  eapply hoare_bind; [apply update_vertex_status|]. intros ?.
  change (stable (has_status v IN)
    (modify (fun s => with_v0 (v0 s ++ [v]) s) ;;
     modify (fun s => with_modified_vertices ({[v]} ∪ modified_vertices s) s) ;;
     (if isPoint site
      then mark_adjacent_faces_p v site
      else mark_adjacent_faces v site) ;;
     l <- hedi.out_edge_itr v ;;
     foreach l (fun e =>
       w <- hedi.target e ;;
       gw <- vertex w ;;
       if bool_decide (status gw = UNDECIDED) && negb (in_queue gw)
       then
         modify (fun s =>
           with_vertexQueue
             (vertexQueue s ++ [(w, in_circle gw (apex_point site (position gw)))]) s) ;;
         update_vertex w (set_in_queue true)
       else ret tt))).
  stable_auto.
Qed.

(** One turn of the augment loop decides the popped vertex: it is IN when
    its in_circle value is negative, fewer than two half-edges leaving it end
    in an IN vertex, [predicate_c5] holds and the site's region has its
    position; it is OUT otherwise. *)
Lemma augment_vertex_set_body_spec site v h s s' :
  augment_vertex_set_body site v h s = Done tt s' ->
  let s1 := with_vertexQueue (queue_pop (vertexQueue s)) s in
  exists gv,
    graph_vertex (g s) v = Some gv /\ status gv = UNDECIDED /\
    if (h <? 0)%D && (in_count s1 v <? 2)%nat && c5_holds s1 v
       && in_region site (position gv)
    then has_status v IN s' else has_status v OUT s'.
Proof.
  intros Hr s1. unfold augment_vertex_set_body in Hr.
  apply bind_Done in Hr as (gv & s2 & Hgv & Hr).
  apply vertex_Done in Hgv as [Hgv ->].
  apply bind_Done in Hr as (? & s2 & Ha & Hr).
  apply assert_Done in Ha as [Hst ->]. apply bool_decide_eq_true in Hst.
  apply bind_Done in Hr as (? & s2 & Hq & Hr).
  apply modify_Done in Hq. cbv beta in Hq. fold s1 in Hq. subst s2.
  exists gv. split; [exact Hgv|]. split; [exact Hst|].
  apply bind_Done in Hr as (? & s2 & Hd & Hr).
  apply modify_Done in Hr. subst s'.
  assert (Hkeep : forall st, has_status v st s2 ->
            has_status v st
              (with_modified_vertices ({[v]} ∪ modified_vertices s2) s2)).
  { intros st Hs. exact Hs. }
  destruct (h <? 0)%D; simpl andb.
  - apply bind_Done in Hd as (c4 & s3 & Hc4 & Hd).
    apply predicate_c4_spec in Hc4 as [-> ->].
    assert (Hlt : (in_count s1 v <? 2)%nat = negb (2 <=? in_count s1 v)%nat).
    { destruct (2 <=? _)%nat eqn:Hn.
      - apply Nat.leb_le in Hn. apply Nat.ltb_ge. exact Hn.
      - apply Nat.leb_gt in Hn. apply Nat.ltb_lt. exact Hn. }
    rewrite Hlt.
    apply bind_Done in Hd as (violated & s3 & Hv & Hd).
    destruct (2 <=? in_count s1 v)%nat; simpl negb; simpl andb.
    + apply ret_Done in Hv as [-> ->].
      apply Hkeep. eapply update_vertex_status; eauto.
    + apply bind_Done in Hv as (c5 & s4 & Hc5 & Hv).
      apply predicate_c5_spec in Hc5 as [-> ->].
      destruct (c5_holds s1 v); simpl negb in Hv; simpl andb.
      * apply ret_Done in Hv as [-> ->].
        destruct (in_region site (position gv));
          cbv beta iota delta [negb] in Hd.
        -- apply Hkeep. eapply mark_vertex_marks; eauto.
        -- apply Hkeep. eapply update_vertex_status; eauto.
      * apply ret_Done in Hv as [-> ->].
        apply Hkeep. eapply update_vertex_status; eauto.
  - apply Hkeep. eapply update_vertex_status; eauto.
Qed.

End Decision.

(** ** Walks along the ring of a face *)

Section Rings.

Context `{External}.

Lemma face_vertices_of_ring f fp l s :
  face_props f s = Done fp s ->
  hedi.ring_loop fuel (fedge fp) (fedge fp) s = Done l s ->
  hedi.face_vertices f s = Done (ring_targets s l) s.
Proof.
  intros Hfp Hring.
  unfold hedi.face_vertices, hedi.face_edges, bind. rewrite Hfp, Hring.
  reflexivity.
Qed.

(** The walks read the graph only. *)
Lemma ring_loop_Done n start cur l s s' :
  hedi.ring_loop n start cur s = Done l s' -> s' = s.
Proof.
  revert cur l s'. induction n as [|n IH]; simpl; intros cur l s' Hl;
    [discriminate|].
  apply bind_Done in Hl as (x & s1 & Hx & Hl).
  apply edge_Done in Hx as [_ ->].
  destruct (bool_decide (next x = start)).
  - apply ret_Done in Hl as [_ ->]. reflexivity.
  - apply bind_Done in Hl as (l' & s2 & Hl' & Hl).
    apply IH in Hl'. subst. apply ret_Done in Hl as [_ ->]. reflexivity.
Qed.

Lemma face_vertices_Done f ring s s' :
  hedi.face_vertices f s = Done ring s' ->
  s' = s /\ hedi.face_vertices f s = Done ring s.
Proof.
  intros Hring. pose proof Hring as Hring'.
  unfold hedi.face_vertices in Hring.
  apply bind_Done in Hring as (l & s2 & Hl & Hring).
  unfold hedi.face_edges in Hl.
  apply bind_Done in Hl as (fp & s3 & Hfp & Hl).
  apply face_props_Done in Hfp as [_ ->].
  apply ring_loop_Done in Hl as ->.
  apply bind_Done in Hring as (? & s3 & Hg & Hring).
  apply get_Done in Hg as [-> ->]. apply ret_Done in Hring as [_ ->].
  split; [reflexivity | exact Hring'].
Qed.

(** One step of a walk: the edge is read, and the ring either closes or
    goes on. *)
Lemma ring_loop_step n start cur x s :
  graph_edge (g s) cur = Some x ->
  hedi.ring_loop (S n) start cur s
  = if bool_decide (next x = start) then Done [cur] s
    else match hedi.ring_loop n start (next x) s with
         | Done l s' => Done (cur :: l) s'
         | Failed e s' => Failed e s'
         end.
Proof.
  intros Hx. simpl. unfold bind at 1. unfold edge, bind, get, valid.
  rewrite Hx. cbn [ret].
  destruct (bool_decide (next x = start)); reflexivity.
Qed.

Lemma ring_targets_cons s cur x l :
  graph_edge (g s) cur = Some x ->
  ring_targets s (cur :: l) = etarget x :: ring_targets s l.
Proof. intros Hx. unfold ring_targets. simpl. rewrite Hx. reflexivity. Qed.

(** [num_new_vertices] counts the vertices of the ring that are NEW and no
    SEPPOINT. *)
Lemma num_new_vertices_loop_spec n start cur k s r s' :
  num_new_vertices_loop n start cur k s = Done r s' ->
  s' = s /\
  exists l,
    hedi.ring_loop n start cur s = Done l s /\
    r = (k + Z.of_nat (length (List.filter (counts_as_new s)
                                 (ring_targets s l))))%Z.
Proof.
  revert cur k. induction n as [|n IH]; simpl num_new_vertices_loop;
    intros cur k Hr; [discriminate|].
  apply bind_Done in Hr as (w & s1 & Hw & Hr).
  apply target_Done in Hw as (x & Hx & -> & ->).
  apply bind_Done in Hr as (gw & s1 & Hgw & Hr).
  apply vertex_Done in Hgw as [Hgw ->].
  apply bind_Done in Hr as (x' & s1 & Hx' & Hr).
  apply edge_Done in Hx' as [Hx' ->].
  assert (x' = x) as -> by congruence.
  assert (Hc : counts_as_new s (etarget x)
               = bool_decide (status gw = NEW)
                 && negb (bool_decide (type gw = SEPPOINT))).
  { unfold counts_as_new, status_is, type_among. rewrite Hgw.
    destruct (type gw); reflexivity. }
  rewrite <- Hc in Hr. rewrite (ring_loop_step _ _ _ _ _ Hx).
  destruct (decide (next x = start)) as [Heq|Hne].
  - rewrite bool_decide_eq_false_2 in Hr by (intros Hc'; apply Hc'; exact Heq).
    apply ret_Done in Hr as [-> ->]. split; [reflexivity|].
    rewrite bool_decide_eq_true_2 by exact Heq.
    eexists. split; [reflexivity|].
    rewrite (ring_targets_cons _ _ _ _ Hx). simpl.
    destruct (counts_as_new s (etarget x)); simpl; lia.
  - rewrite bool_decide_eq_true_2 in Hr by exact Hne.
    apply IH in Hr as (-> & l & Hl & ->). split; [reflexivity|].
    rewrite bool_decide_eq_false_2 by exact Hne. rewrite Hl.
    eexists. split; [reflexivity|].
    rewrite (ring_targets_cons _ _ _ _ Hx). simpl.
    destruct (counts_as_new s (etarget x)); simpl; lia.
Qed.

Lemma num_new_vertices_spec f s r s' :
  num_new_vertices f s = Done r s' ->
  s' = s /\
  exists ring,
    hedi.face_vertices f s = Done ring s /\
    r = Z.of_nat (length (List.filter (counts_as_new s) ring)).
Proof.
  unfold num_new_vertices. intros Hr.
  apply bind_Done in Hr as (fp & s1 & Hfp & Hr).
  pose proof Hfp as Hfp'. apply face_props_Done in Hfp as [_ ->].
  apply num_new_vertices_loop_spec in Hr as (-> & l & Hl & ->).
  split; [reflexivity|]. eexists. split.
  - eapply face_vertices_of_ring; eassumption.
  - lia.
Qed.

(** [find_split_vertex] returns the first SPLIT vertex of the ring. *)
Lemma find_split_vertex_loop_spec verts s r s' :
  find_split_vertex_loop verts s = Done r s' ->
  s' = s /\
  match r with
  | Some v =>
      exists pre post, verts = pre ++ v :: post /\
        forallb (fun w => negb (type_among [SPLIT] s w)) pre = true /\
        type_among [SPLIT] s v = true
  | None => forallb (fun w => negb (type_among [SPLIT] s w)) verts = true
  end.
Proof.
  revert r. induction verts as [|q verts IH]; simpl; intros r Hr.
  - apply ret_Done in Hr as [-> ->]. auto.
  - apply bind_Done in Hr as (gq & s1 & Hgq & Hr).
    apply vertex_Done in Hgq as [Hgq ->].
    assert (Ht : type_among [SPLIT] s q = bool_decide (type gq = SPLIT)).
    { unfold type_among. rewrite Hgq. destruct (type gq); reflexivity. }
    destruct (bool_decide (type gq = SPLIT)) eqn:Hsplit.
    + apply ret_Done in Hr as [-> ->]. split; [reflexivity|].
      exists [], verts. auto.
    + apply IH in Hr as [-> Hr]. split; [reflexivity|].
      destruct r as [v|].
      * destruct Hr as (pre & post & -> & Hpre & Hv).
        exists (q :: pre), post. simpl. rewrite Ht, Hpre. auto.
      * rewrite Ht. simpl. exact Hr.
Qed.

Lemma find_split_vertex_spec f s r s' :
  find_split_vertex f s = Done r s' ->
  s' = s /\
  exists ring,
    hedi.face_vertices f s = Done ring s /\
    match r with
    | Some v =>
        exists pre post, ring = pre ++ v :: post /\
          forallb (fun w => negb (type_among [SPLIT] s w)) pre = true /\
          type_among [SPLIT] s v = true
    | None => forallb (fun w => negb (type_among [SPLIT] s w)) ring = true
    end.
Proof.
  unfold find_split_vertex. intros Hr.
  apply bind_Done in Hr as (ring & s1 & Hring & Hr).
  apply face_vertices_Done in Hring as [-> Hring].
  apply find_split_vertex_loop_spec in Hr as [-> Hr].
  split; [reflexivity|]. exists ring. split; assumption.
Qed.

(** When [remove_split_vertex] returns, the last search of the ring has
    found no SPLIT vertex. *)
Lemma remove_split_vertex_loop_spec n f s s' :
  remove_split_vertex_loop n f s = Done tt s' ->
  find_split_vertex f s' = Done None s'.
Proof.
  revert s. induction n as [|n IH]; intros s Hr.
  - simpl in Hr. apply bind_Done in Hr as (r & s1 & Hf & Hr).
    pose proof Hf as Hf'. apply find_split_vertex_spec in Hf as [-> _].
    destruct r as [v|]; [discriminate|].
    apply ret_Done in Hr as [_ ->]. exact Hf'.
  - simpl in Hr. apply bind_Done in Hr as (r & s1 & Hf & Hr).
    pose proof Hf as Hf'. apply find_split_vertex_spec in Hf as [-> _].
    destruct r as [v|].
    + apply bind_Done in Hr as (? & s1 & _ & Hr).
      apply bind_Done in Hr as (? & s2 & _ & Hr).
      apply bind_Done in Hr as (? & s3 & _ & Hr).
      apply bind_Done in Hr as (? & s4 & _ & Hr).
      apply bind_Done in Hr as ([] & s5 & _ & Hr).
      eapply IH. exact Hr.
    + apply ret_Done in Hr as [_ ->]. exact Hf'.
Qed.

(** The loop of [find_seed_vertex] is [seed_step] folded over the ring. *)
Lemma find_seed_vertex_loop_fold n site start cur acc s mp' mv' s' :
  find_seed_vertex_loop n site start cur (acc.1.1) (acc.1.2) (acc.2) s
    = Done (mp', mv') s' ->
  s' = s /\
  exists l,
    hedi.ring_loop n start cur s = Done l s /\
    in_graph s (ring_targets s l) = true /\
    (fold_left (seed_step site s) (ring_targets s l) acc).1 = (mp', mv').
Proof.
  revert cur acc. induction n as [|n IH]; simpl find_seed_vertex_loop;
    intros cur acc Hr; [discriminate|].
  apply bind_Done in Hr as (q & s1 & Hq & Hr).
  apply target_Done in Hq as (x & Hx & -> & ->).
  apply bind_Done in Hr as (gq & s1 & Hgq & Hr).
  apply vertex_Done in Hgq as [Hgq ->].
  set (e := if negb (bool_decide (status gq = OUT)) && _ then _ else _) in Hr.
  assert (He : e = seed_step site s acc (etarget x)).
  { subst e. destruct acc as [[mp mv] first].
    unfold seed_step, seed_eligible, seed_value, seed_in_region.
    rewrite Hgq. reflexivity. }
  clearbody e. destruct e as [[mp1 mv1] first1].
  apply bind_Done in Hr as (x' & s1 & Hx' & Hr).
  apply edge_Done in Hx' as [Hx' ->].
  assert (x' = x) as -> by congruence.
  rewrite (ring_loop_step _ _ _ _ _ Hx).
  assert (Hq : bool_decide (is_Some (graph_vertex (g s) (etarget x))) = true).
  { apply bool_decide_eq_true. eauto. }
  destruct (decide (next x = start)) as [Heq|Hne].
  - rewrite bool_decide_eq_false_2 in Hr by (intros Hc'; apply Hc'; exact Heq).
    apply ret_Done in Hr as [Hr ->]. injection Hr as -> ->.
    split; [reflexivity|].
    rewrite bool_decide_eq_true_2 by exact Heq.
    eexists. split; [reflexivity|].
    rewrite (ring_targets_cons _ _ _ _ Hx).
    change (ring_targets s []) with (@nil HEVertex). simpl.
    rewrite Hq, <- He. auto.
  - rewrite bool_decide_eq_true_2 in Hr by exact Hne.
    apply (IH _ (mp1, mv1, first1)) in Hr as (-> & l & Hl & Hg & Hres).
    split; [reflexivity|].
    rewrite bool_decide_eq_false_2 by exact Hne. rewrite Hl.
    eexists. split; [reflexivity|].
    rewrite (ring_targets_cons _ _ _ _ Hx). simpl.
    rewrite Hq, <- He. auto.
Qed.


Lemma elem_of_one {A} (w q : A) : w ∈ [q] -> w = q.
Proof.
  intros Hw. apply elem_of_cons in Hw as [->|Hw]; [reflexivity|].
  inversion Hw.
Qed.

Lemma seed_step_found site s seen acc q :
  seed_found site s seen acc ->
  seed_found site s (seen ++ [q]) (seed_step site s acc q).
Proof.
  destruct acc as [[mp mv] first]. unfold seed_found, seed_step.
  destruct (seed_eligible s q) eqn:Hel.
  - destruct first; simpl orb; cbv iota zeta.
    + intros [_ Hnone]. split; [apply elem_of_app; right; left|]. split; [exact Hel|].
      split; [reflexivity|]. split.
      * right. exists seen, []. auto.
      * intros w Hw Hwe _. apply elem_of_app in Hw as [Hw|Hw].
        -- rewrite (Hnone w Hw) in Hwe. discriminate.
        -- apply elem_of_one in Hw as ->. apply ltb_irrefl.
    + intros (Hin & Hmv & -> & Hreg & Hmin).
      destruct ((seed_value site s q <? seed_value site s mv)%D
                && seed_in_region site s q) eqn:Hc.
      * apply andb_true_iff in Hc as [Hlt Hq].
        split; [apply elem_of_app; right; left|]. split; [exact Hel|].
        split; [reflexivity|].
        split; [left; exact Hq|].
        intros w Hw Hwe Hwr. apply elem_of_app in Hw as [Hw|Hw].
        -- destruct (seed_value site s w <? seed_value site s q)%D eqn:Hwq;
             [|reflexivity].
           rewrite <- (Hmin w Hw Hwe Hwr). symmetry.
           eapply ltb_trans; eassumption.
        -- apply elem_of_one in Hw as ->. apply ltb_irrefl.
      * split; [apply elem_of_app; left; exact Hin|]. split; [exact Hmv|].
        split; [reflexivity|].
        split.
        -- destruct Hreg as [Hreg|(pre & post & -> & Hpre)]; [left; exact Hreg|].
           right. exists pre, (post ++ [q]). split; [|exact Hpre].
           rewrite <- app_assoc. reflexivity.
        -- intros w Hw Hwe Hwr. apply elem_of_app in Hw as [Hw|Hw];
             [apply Hmin; assumption|].
           apply elem_of_one in Hw as ->.
           rewrite Hwr, andb_true_r in Hc. exact Hc.
  - destruct first.
    + intros [Hini Hnone]. split; [exact Hini|].
      intros w Hw. apply elem_of_app in Hw as [Hw|Hw]; [auto|].
      apply elem_of_one in Hw as ->. exact Hel.
    + intros (Hin & Hmv & -> & Hreg & Hmin).
      split; [apply elem_of_app; left; exact Hin|]. split; [exact Hmv|].
      split; [reflexivity|].
      split.
      * destruct Hreg as [Hreg|(pre & post & -> & Hpre)]; [left; exact Hreg|].
        right. exists pre, (post ++ [q]). split; [|exact Hpre].
        rewrite <- app_assoc. reflexivity.
      * intros w Hw Hwe Hwr. apply elem_of_app in Hw as [Hw|Hw];
          [apply Hmin; assumption|].
        apply elem_of_one in Hw as ->. congruence.
Qed.

Lemma seed_fold_found site s ring seen acc :
  seed_found site s seen acc ->
  seed_found site s (seen ++ ring) (fold_left (seed_step site s) ring acc).
Proof.
  revert seen acc. induction ring as [|q ring IH]; intros seen acc Hacc.
  - rewrite app_nil_r. exact Hacc.
  - simpl. replace (seen ++ q :: ring) with ((seen ++ [q]) ++ ring)
      by (rewrite <- app_assoc; reflexivity).
    apply IH, seed_step_found, Hacc.
Qed.


(** What [find_seed_vertex] has found when it returns. *)
Lemma find_seed_vertex_found f site s v s' :
  find_seed_vertex f site s = Done v s' ->
  s' = s /\
  exists ring mp,
    hedi.face_vertices f s = Done ring s /\ in_graph s ring = true /\
    seed_found site s ring (mp, v, false) /\ (mp <? 0)%D = true.
Proof.
  unfold find_seed_vertex. intros Hr.
  apply bind_Done in Hr as (fp & s1 & Hfp & Hr).
  pose proof Hfp as Hfp'. apply face_props_Done in Hfp as [_ ->].
  apply bind_Done in Hr as ([mp' mv'] & s1 & Hloop & Hr).
  apply (find_seed_vertex_loop_fold _ _ _ _ (0%D, None, true)) in Hloop
    as (-> & l & Hl & Hg & Hres).
  apply bind_Done in Hr as (? & s1 & Ha & Hr).
  apply assert_Done in Ha as [Hneg ->]. apply ret_Done in Hr as [-> ->].
  split; [reflexivity|]. exists (ring_targets s l), mp'.
  split; [eapply face_vertices_of_ring; eassumption|].
  split; [exact Hg|]. split; [|exact Hneg].
  assert (Hf : seed_found site s ([] ++ ring_targets s l)
                 (fold_left (seed_step site s) (ring_targets s l)
                    (0%D, None, true))).
  { apply seed_fold_found. simpl. split; [split; reflexivity|].
    intros w Hw. inversion Hw. }
  simpl in Hf.
  destruct (fold_left _ _ _) as [[mp mv] first]. simpl in Hres.
  injection Hres as -> ->.
  destruct first; [|exact Hf].
  destruct Hf as [[-> ->] _]. vm_compute in Hneg. discriminate.
Qed.


Lemma seed_eligible_vertex s w x :
  graph_vertex (g s) w = Some x ->
  seed_eligible s w = true <-> type x = NORMAL /\ status x <> OUT.
Proof.
  intros Hx. unfold seed_eligible. rewrite Hx.
  rewrite andb_true_iff, negb_true_iff, bool_decide_eq_false,
    bool_decide_eq_true. tauto.
Qed.


(** [find_in_out_edges] collects, vertex by vertex of [v0], the half-edges
    that leave it for an OUT vertex. *)
Lemma find_in_out_edges_inner_spec l out s r s' :
  find_in_out_edges_inner l out s = Done r s' ->
  s' = s /\ r = out ++ List.filter (target_out s) l.
Proof.
  revert out. induction l as [|e l IH]; simpl; intros out Hr.
  - apply ret_Done in Hr as [-> ->]. rewrite app_nil_r. auto.
  - apply bind_Done in Hr as (w & s1 & Hw & Hr).
    apply target_Done in Hw as (x & Hx & -> & ->).
    apply bind_Done in Hr as (gw & s1 & Hgw & Hr).
    apply vertex_Done in Hgw as [Hgw ->].
    apply IH in Hr as [-> ->]. split; [reflexivity|].
    unfold target_out at 2, status_is. rewrite Hx, Hgw.
    destruct (bool_decide (status gw = OUT)).
    + rewrite <- app_assoc. reflexivity.
    + reflexivity.
Qed.

Lemma find_in_out_edges_loop_spec vs out s r s' :
  find_in_out_edges_loop vs out s = Done r s' ->
  s' = s /\ r = out ++ flat_map (in_out_edges s) vs /\
  forallb (status_is IN s) vs = true.
Proof.
  revert out. induction vs as [|v vs IH]; simpl; intros out Hr.
  - apply ret_Done in Hr as [-> ->]. rewrite app_nil_r. auto.
  - apply bind_Done in Hr as (gv & s1 & Hgv & Hr).
    apply vertex_Done in Hgv as [Hgv ->].
    apply bind_Done in Hr as (? & s1 & Ha & Hr).
    apply assert_Done in Ha as [Hin ->].
    apply bind_Done in Hr as (l & s1 & Hl & Hr).
    apply out_edge_itr_Done in Hl as [-> ->].
    apply bind_Done in Hr as (out' & s1 & Hout & Hr).
    apply find_in_out_edges_inner_spec in Hout as [-> ->].
    apply IH in Hr as (-> & -> & Hall). split; [reflexivity|].
    split.
    + unfold in_out_edges at 2. rewrite <- app_assoc. reflexivity.
    + unfold status_is at 1. rewrite Hgv, Hin. exact Hall.
Qed.

Lemma find_in_out_edges_spec s r s' :
  find_in_out_edges s = Done r s' ->
  s' = s /\ r = flat_map (in_out_edges s) (v0 s) /\ r <> [] /\
  v0 s <> [] /\ forallb (status_is IN s) (v0 s) = true.
Proof.
  unfold find_in_out_edges. intros Hr.
  apply bind_Done in Hr as (vs & s1 & Hvs & Hr).
  apply gets_Done in Hvs as [-> ->].
  apply bind_Done in Hr as (? & s1 & Ha & Hr).
  apply assert_Done in Ha as [Hne ->].
  apply bind_Done in Hr as (out & s1 & Hout & Hr).
  apply find_in_out_edges_loop_spec in Hout as (-> & -> & Hall).
  apply bind_Done in Hr as (? & s1 & Ha & Hr).
  apply assert_Done in Ha as [Hne' ->]. apply ret_Done in Hr as [-> ->].
  apply negb_true_iff, bool_decide_eq_false in Hne.
  apply negb_true_iff, bool_decide_eq_false in Hne'.
  simpl in Hne'. auto.
Qed.

End Rings.

(** ** The sets an insertion leaves behind *)

Lemma with_g_same s :
  with_g (mkGraph (vertices (g s)) (edges (g s)) (faces (g s))) s = s.
Proof. destruct s as [[? ? ?] ? ? ? ? ? ? ? ? ? ? ? ? ? ? ?]. reflexivity. Qed.

Lemma reset_idempotent x : reset (reset x) = reset x.
Proof. reflexivity. Qed.
Lemma set_fstatus_idempotent st x : set_fstatus st (set_fstatus st x) = set_fstatus st x.
Proof. reflexivity. Qed.

(** A loop of updates of vertices: each vertex of the list is in the graph
    and is updated, the other vertices and members are untouched. *)
Lemma foreach_update_vertex_spec f l s s' :
  (forall x, f (f x) = f x) ->
  foreach l (fun v => update_vertex v f) s = Done tt s' ->
  (forall v, v ∈ l -> is_Some (graph_vertex (g s) v)) /\
  exists V,
    s' = with_g (mkGraph V (edges (g s)) (faces (g s))) s /\
    forall i, V !! i = if bool_decide (Some i ∈ l)
                       then f <$> vertices (g s) !! i
                       else vertices (g s) !! i.
Proof.
  intros Hf. revert s. induction l as [|v l IH]; simpl; intros s Hr.
  - apply ret_Done in Hr as [_ ->]. split.
    + intros v Hv. apply elem_of_nil in Hv. destruct Hv.
    + exists (vertices (g s)). split; [symmetry; apply with_g_same|].
      intros i. reflexivity.
  - apply bind_Done in Hr as ([] & s1 & Hu & Hr).
    apply update_vertex_Done in Hu as (j & x & -> & Hx & ->).
    apply IH in Hr as (Hall & V & -> & HV). split.
    + intros v Hv. apply elem_of_cons in Hv as [->|Hv].
      * simpl. rewrite Hx. eauto.
      * specialize (Hall v Hv). destruct v as [k|]; simpl in *;
          [|destruct Hall; discriminate].
        destruct (decide (j = k)) as [->|Hne].
        -- rewrite Hx. eauto.
        -- rewrite lookup_insert_ne in Hall by exact Hne. exact Hall.
    + exists V. split; [reflexivity|]. intros i. rewrite HV. simpl.
      destruct (decide (i = j)) as [->|Hne].
      * rewrite lookup_insert_eq, Hx.
        rewrite (bool_decide_eq_true_2 (Some j ∈ Some j :: l))
          by (apply elem_of_cons; left; reflexivity).
        destruct (bool_decide (Some j ∈ l)); simpl; [rewrite Hf|]; reflexivity.
      * rewrite lookup_insert_ne by congruence.
        destruct (bool_decide (Some i ∈ l)) eqn:Hin.
        -- apply bool_decide_eq_true in Hin.
           rewrite bool_decide_eq_true_2;
             [reflexivity | apply elem_of_cons; right; exact Hin].
        -- apply bool_decide_eq_false in Hin.
           rewrite bool_decide_eq_false_2; [reflexivity|].
           intros Hc. apply elem_of_cons in Hc as [Hc|Hc]; [congruence | contradiction].
Qed.

Lemma foreach_update_vertex_total f l s :
  (forall v, v ∈ l -> is_Some (graph_vertex (g s) v)) ->
  exists s', foreach l (fun v => update_vertex v f) s = Done tt s'.
Proof.
  revert s. induction l as [|v l IH]; simpl; intros s Hall.
  - eexists. reflexivity.
  - destruct (Hall v) as [x Hx]; [apply elem_of_cons; left; reflexivity|].
    destruct v as [j|]; [|discriminate]. simpl in Hx.
    assert (Hu : update_vertex (Some j) f s
                 = Done tt (with_g (put_vertex j (f x) (g s)) s)).
    { unfold update_vertex, vertex, bind, get, valid. simpl. rewrite Hx.
      reflexivity. }
    destruct (IH (with_g (put_vertex j (f x) (g s)) s)) as [s' Hs'].
    + intros w Hw. specialize (Hall w (proj2 (elem_of_cons _ _ _) (or_intror Hw))).
      destruct w as [k|]; simpl in *; [|exact Hall].
      destruct (decide (j = k)) as [->|Hne].
      * rewrite lookup_insert_eq. eauto.
      * rewrite lookup_insert_ne by exact Hne. exact Hall.
    + exists s'. unfold bind. rewrite Hu. exact Hs'.
Qed.

Lemma foreach_update_face_spec f l s s' :
  (forall x, f (f x) = f x) ->
  foreach l (fun fc => update_face fc f) s = Done tt s' ->
  (forall v, v ∈ l -> is_Some (graph_face (g s) v)) /\
  exists F,
    s' = with_g (mkGraph (vertices (g s)) (edges (g s)) F) s /\
    forall i, F !! i = if bool_decide (Some i ∈ l)
                       then f <$> faces (g s) !! i
                       else faces (g s) !! i.
Proof.
  intros Hf. revert s. induction l as [|v l IH]; simpl; intros s Hr.
  - apply ret_Done in Hr as [_ ->]. split.
    + intros v Hv. apply elem_of_nil in Hv. destruct Hv.
    + exists (faces (g s)). split; [symmetry; apply with_g_same|].
      intros i. reflexivity.
  - apply bind_Done in Hr as ([] & s1 & Hu & Hr).
    apply update_face_Done in Hu as (j & x & -> & Hx & ->).
    apply IH in Hr as (Hall & V & -> & HV). split.
    + intros v Hv. apply elem_of_cons in Hv as [->|Hv].
      * simpl. rewrite Hx. eauto.
      * specialize (Hall v Hv). destruct v as [k|]; simpl in *;
          [|destruct Hall; discriminate].
        destruct (decide (j = k)) as [->|Hne].
        -- rewrite Hx. eauto.
        -- rewrite lookup_insert_ne in Hall by exact Hne. exact Hall.
    + exists V. split; [reflexivity|]. intros i. rewrite HV. simpl.
      destruct (decide (i = j)) as [->|Hne].
      * rewrite lookup_insert_eq, Hx.
        rewrite (bool_decide_eq_true_2 (Some j ∈ Some j :: l))
          by (apply elem_of_cons; left; reflexivity).
        destruct (bool_decide (Some j ∈ l)); simpl; [rewrite Hf|]; reflexivity.
      * rewrite lookup_insert_ne by congruence.
        destruct (bool_decide (Some i ∈ l)) eqn:Hin.
        -- apply bool_decide_eq_true in Hin.
           rewrite bool_decide_eq_true_2;
             [reflexivity | apply elem_of_cons; right; exact Hin].
        -- apply bool_decide_eq_false in Hin.
           rewrite bool_decide_eq_false_2; [reflexivity|].
           intros Hc. apply elem_of_cons in Hc as [Hc|Hc]; [congruence | contradiction].
Qed.

Lemma foreach_update_face_total f l s :
  (forall v, v ∈ l -> is_Some (graph_face (g s) v)) ->
  exists s', foreach l (fun fc => update_face fc f) s = Done tt s'.
Proof.
  revert s. induction l as [|v l IH]; simpl; intros s Hall.
  - eexists. reflexivity.
  - destruct (Hall v) as [x Hx]; [apply elem_of_cons; left; reflexivity|].
    destruct v as [j|]; [|discriminate]. simpl in Hx.
    assert (Hu : update_face (Some j) f s
                 = Done tt (with_g (put_face j (f x) (g s)) s)).
    { unfold update_face, face_props, bind, get, valid. simpl. rewrite Hx.
      reflexivity. }
    destruct (IH (with_g (put_face j (f x) (g s)) s)) as [s' Hs'].
    + intros w Hw. specialize (Hall w (proj2 (elem_of_cons _ _ _) (or_intror Hw))).
      destruct w as [k|]; simpl in *; [|exact Hall].
      destruct (decide (j = k)) as [->|Hne].
      * rewrite lookup_insert_eq. eauto.
      * rewrite lookup_insert_ne by exact Hne. exact Hall.
    + exists s'. unfold bind. rewrite Hu. exact Hs'.
Qed.

(** [reset_status] returns exactly when no descriptor it visits dangles, and
    then the state is [reset_state]. *)
Lemma no_dangling_true s :
  no_dangling s = true <->
  (forall v, v ∈ modified_vertices s -> is_Some (graph_vertex (g s) v)) /\
  (forall f, f ∈ incident_faces s -> is_Some (graph_face (g s) f)).
Proof.
  unfold no_dangling. rewrite andb_true_iff, !forallb_forall.
  split; intros [Hv Hf]; split.
  - intros v Hin. eapply bool_decide_eq_true_1. apply Hv.
    apply list_elem_of_In, elem_of_elements. exact Hin.
  - intros f Hin. eapply bool_decide_eq_true_1. apply Hf.
    apply list_elem_of_In. exact Hin.
  - intros v Hin. apply bool_decide_eq_true_2. apply Hv.
    apply elem_of_elements, list_elem_of_In. exact Hin.
  - intros f Hin. apply bool_decide_eq_true_2. apply Hf.
    apply list_elem_of_In. exact Hin.
Qed.

Lemma reset_status_Done s s' :
  reset_status s = Done tt s' -> no_dangling s = true /\ s' = reset_state s.
Proof.
  unfold reset_status. intros Hr.
  apply bind_Done in Hr as (mv & s1 & Hmv & Hr).
  apply gets_Done in Hmv as [-> ->].
  apply bind_Done in Hr as ([] & s1 & Hv & Hr).
  apply foreach_update_vertex_spec in Hv as (Hvall & V & -> & HV);
    [|exact reset_idempotent].
  apply bind_Done in Hr as ([] & s1 & Hm & Hr). apply modify_Done in Hm.
  subst s1.
  apply bind_Done in Hr as (fs & s1 & Hfs & Hr).
  apply gets_Done in Hfs as [-> ->].
  apply bind_Done in Hr as ([] & s1 & Hf & Hr).
  apply foreach_update_face_spec in Hf as (Hfall & F & -> & HF);
    [|exact (set_fstatus_idempotent NONINCIDENT)].
  apply bind_Done in Hr as ([] & s1 & Hm & Hr). apply modify_Done in Hm.
  subst s1. apply modify_Done in Hr. subst s'.
  simpl in *. split.
  - apply no_dangling_true. split.
    + intros v Hv. apply Hvall. apply elem_of_elements. exact Hv.
    + exact Hfall.
  - unfold reset_state, reset_graph.
    assert (HVeq : V = map_imap (fun i x =>
       Some (if bool_decide (Some i ∈ modified_vertices s) then reset x else x))
       (vertices (g s))).
    { apply map_eq. intros i. rewrite HV, map_lookup_imap.
      destruct (vertices (g s) !! i) as [x|] eqn:Hx; simpl.
      - destruct (bool_decide (Some i ∈ elements (modified_vertices s))) eqn:Hin.
        + apply bool_decide_eq_true, elem_of_elements in Hin.
          rewrite bool_decide_eq_true_2 by exact Hin. reflexivity.
        + apply bool_decide_eq_false in Hin.
          rewrite bool_decide_eq_false_2; [reflexivity|].
          intros Hc. apply Hin, elem_of_elements. exact Hc.
      - destruct (bool_decide _); reflexivity. }
    assert (HFeq : F = map_imap (fun i x =>
       Some (if bool_decide (Some i ∈ incident_faces s)
             then set_fstatus NONINCIDENT x else x)) (faces (g s))).
    { apply map_eq. intros i. rewrite HF, map_lookup_imap.
      destruct (faces (g s) !! i) as [x|] eqn:Hx; simpl.
      - destruct (bool_decide (Some i ∈ incident_faces s)); reflexivity.
      - destruct (bool_decide _); reflexivity. }
    rewrite HVeq, HFeq. reflexivity.
Qed.

Lemma reset_status_total s :
  no_dangling s = true -> reset_status s = Done tt (reset_state s).
Proof.
  intros Hd. apply no_dangling_true in Hd as [Hv Hf].
  destruct (foreach_update_vertex_total reset (elements (modified_vertices s)) s)
    as [s1 H1].
  { intros v Hin. apply Hv, elem_of_elements. exact Hin. }
  pose proof H1 as H1'.
  apply foreach_update_vertex_spec in H1' as (_ & V & -> & HV);
    [|exact reset_idempotent].
  set (s2 := with_modified_vertices ∅
               (with_g (mkGraph V (edges (g s)) (faces (g s))) s)).
  destruct (foreach_update_face_total (set_fstatus NONINCIDENT)
              (incident_faces s) s2) as [s3 H3].
  { intros f Hin. exact (Hf f Hin). }
  assert (Hrun : exists s', reset_status s = Done tt s').
  { eexists. unfold reset_status, bind, gets, modify. rewrite H1.
    fold s2. change (incident_faces s2) with (incident_faces s).
    rewrite H3. reflexivity. }
  destruct Hrun as [s' Hrun]. pose proof Hrun as Hrun'.
  apply reset_status_Done in Hrun' as [_ ->]. exact Hrun.
Qed.

(** [g.delete_vertex(v)] on a vertex of the graph. *)
Lemma delete_vertex_Done v u s s' :
  hedi.delete_vertex v s = Done u s' ->
  exists i x, v = Some i /\ vertices (g s) !! i = Some x /\
    s' = with_g (mkGraph (delete i (vertices (g s)))
                   (filter (fun ke => esource (snd ke) <> v /\
                                      etarget (snd ke) <> v) (edges (g s)))
                   (faces (g s))) s.
Proof.
  unfold hedi.delete_vertex. intros Hr.
  apply bind_Done in Hr as (i & s1 & Hi & Hr).
  apply valid_Done in Hi as [-> ->].
  apply bind_Done in Hr as (x & s1 & Hx & Hr).
  apply vertex_Done in Hx as [Hx ->]. apply modify_Done in Hr.
  exists i, x. auto.
Qed.

Lemma without_vertices_nil gr : without_vertices [] gr = gr.
Proof.
  destruct gr as [V E F]. unfold without_vertices. simpl. f_equal.
  - apply map_filter_id. intros i x _. apply not_elem_of_nil.
  - apply map_filter_id. intros i x _. split; apply not_elem_of_nil.
Qed.

Lemma without_vertices_cons i vs gr :
  without_vertices vs
    (mkGraph (delete i (vertices gr))
       (filter (fun ke => esource (snd ke) <> Some i /\
                          etarget (snd ke) <> Some i) (edges gr))
       (faces gr))
  = without_vertices (Some i :: vs) gr.
Proof.
  unfold without_vertices. simpl. f_equal.
  - apply map_eq. intros k. apply option_eq. intros x.
    rewrite !map_lookup_filter_Some, lookup_delete_Some. simpl.
    rewrite not_elem_of_cons. split.
    + intros [[Hne Hx] Hin]. repeat split; [assumption | congruence | assumption].
    + intros [Hx [Hne Hin]]. repeat split; [congruence | assumption..].
  - apply map_eq. intros k. apply option_eq. intros x.
    rewrite !map_lookup_filter_Some. simpl. rewrite !not_elem_of_cons.
    tauto.
Qed.

Section RemoveVertexSet.

Context `{External}.

Lemma remove_vertex_loop_Done vs s s' :
  foreach vs remove_vertex_body s = Done tt s' ->
  NoDup vs /\ forallb (status_is IN s) vs = true /\
  s' = with_modified_vertices (modified_vertices s ∖ list_to_set vs)
         (with_g (without_vertices vs (g s)) s).
Proof.
  revert s s'. induction vs as [|v vs IH]; simpl; intros s s' Hr.
  - apply ret_Done in Hr as [_ ->].
    split; [constructor|]. split; [reflexivity|].
    rewrite without_vertices_nil, difference_empty_L.
    destruct s as [[? ? ?] ? ? ? ? ? ? ? ? ? ? ? ? ? ? ?]. reflexivity.
  - apply bind_Done in Hr as ([] & s1 & Hb & Hr).
    unfold remove_vertex_body in Hb.
    apply bind_Done in Hb as (gv & s2 & Hgv & Hb).
    apply vertex_Done in Hgv as [Hgv ->].
    apply bind_Done in Hb as (? & s2 & Ha & Hb).
    apply assert_Done in Ha as [Hin ->].
    apply bind_Done in Hb as (? & s2 & Hd & Hb).
    apply delete_vertex_Done in Hd as (i & xv & -> & Hx & ->).
    apply modify_Done in Hb. subst s1.
    apply IH in Hr as (Hnd & Hall & ->). simpl in *.
    assert (Hfresh : Some i ∉ vs).
    { intros Hc. rewrite forallb_forall in Hall.
      specialize (Hall (Some i) (proj1 (list_elem_of_In _ _) Hc)).
      unfold status_is in Hall. simpl in Hall.
      rewrite lookup_delete_eq in Hall. discriminate. }
    split; [constructor; assumption|]. split.
    + unfold status_is at 1. simpl. rewrite Hgv, Hin. simpl.
      apply forallb_forall. intros w Hw.
      rewrite forallb_forall in Hall. specialize (Hall w Hw).
      unfold status_is in *. simpl in Hall.
      destruct w as [k|]; simpl in *; [|discriminate].
      destruct (delete i (vertices (g s)) !! k) as [y|] eqn:Hy; [|discriminate].
      apply lookup_delete_Some in Hy as [_ ->]. exact Hall.
    + rewrite without_vertices_cons.
      unfold with_modified_vertices, with_g. simpl. f_equal.
      apply set_eq. intros w.
      rewrite !elem_of_difference, ?list_to_set_cons, elem_of_union,
        elem_of_singleton. tauto.
Qed.

Lemma remove_vertex_loop_total vs s :
  NoDup vs -> forallb (status_is IN s) vs = true ->
  exists s', foreach vs remove_vertex_body s = Done tt s'.
Proof.
  revert s. induction vs as [|v vs IH]; simpl; intros s Hnd Hall.
  - eexists. reflexivity.
  - apply andb_true_iff in Hall as [Hv Hall].
    apply NoDup_cons in Hnd as [Hfresh Hnd].
    unfold status_is in Hv.
    destruct (graph_vertex (g s) v) as [x|] eqn:Hx; [|discriminate].
    destruct v as [i|]; [|discriminate]. simpl in Hx.
    set (s1 := with_modified_vertices (modified_vertices s ∖ {[Some i]})
      (with_g (mkGraph (delete i (vertices (g s)))
                 (filter (fun ke => esource (snd ke) <> Some i /\
                                    etarget (snd ke) <> Some i) (edges (g s)))
                 (faces (g s))) s)).
    assert (Hvert : vertex (Some i) s = Done x s).
    { unfold vertex, bind, get, valid. simpl. rewrite Hx. reflexivity. }
    assert (Hb : remove_vertex_body (Some i) s = Done tt s1).
    { unfold remove_vertex_body.
      rewrite (bind_run _ _ _ _ _ Hvert), Hv.
      rewrite (bind_run _ _ s tt s eq_refl).
      unfold hedi.delete_vertex.
      rewrite (bind_run (hedi.delete_vertex (Some i)) _ s tt
                 (with_g (mkGraph (delete i (vertices (g s)))
                   (filter (fun ke => esource (snd ke) <> Some i /\
                                      etarget (snd ke) <> Some i) (edges (g s)))
                   (faces (g s))) s)); [reflexivity|].
      unfold hedi.delete_vertex.
      rewrite (bind_run (valid (Some i)) _ s i s eq_refl).
      rewrite (bind_run _ _ _ _ _ Hvert). reflexivity. }
    destruct (IH s1 Hnd) as [s' Hs'].
    + apply forallb_forall. intros w Hw.
      rewrite forallb_forall in Hall. specialize (Hall w Hw).
      unfold status_is in *. simpl.
      destruct w as [k|]; simpl in *; [|discriminate].
      rewrite lookup_delete_ne; [exact Hall|].
      intros ->. apply Hfresh. apply list_elem_of_In. exact Hw.
    + exists s'. unfold bind. rewrite Hb. exact Hs'.
Qed.

Lemma remove_vertex_set_Done s s' :
  remove_vertex_set s = Done tt s' ->
  NoDup (v0 s) /\ forallb (status_is IN s) (v0 s) = true /\
  s' = with_modified_vertices (modified_vertices s ∖ list_to_set (v0 s))
         (with_g (without_vertices (v0 s) (g s)) s).
Proof.
  unfold remove_vertex_set. intros Hr.
  apply bind_Done in Hr as (vs & s1 & Hvs & Hr).
  apply gets_Done in Hvs as [-> ->].
  apply remove_vertex_loop_Done. exact Hr.
Qed.

Lemma remove_vertex_set_total s :
  NoDup (v0 s) -> forallb (status_is IN s) (v0 s) = true ->
  remove_vertex_set s
  = Done tt (with_modified_vertices (modified_vertices s ∖ list_to_set (v0 s))
               (with_g (without_vertices (v0 s) (g s)) s)).
Proof.
  intros Hnd Hall.
  destruct (remove_vertex_loop_total (v0 s) s Hnd Hall) as [s' Hs'].
  pose proof Hs' as Hs''. apply remove_vertex_loop_Done in Hs'' as (_ & _ & ->).
  exact Hs'.
Qed.

End RemoveVertexSet.

(** ** Sessions: the checker, unknown indices, the order of the indices *)

Lemma bind_fail {A B} (m : M A) (k : A -> M B) s e s1 :
  m s = Failed e s1 -> bind m k s = Failed e s1.
Proof. intros Hm. unfold bind. rewrite Hm. reflexivity. Qed.

(** Walks a run down to its closing call of the checker, keeping nothing of
    the calls before it. *)
Ltac to_closing_check :=
  repeat lazymatch goal with
  | |- hoare _ (bind (assertM vd_checker_is_valid) _) _ => fail
  | |- hoare _ (bind _ _) _ =>
      eapply hoare_bind with (Q := fun _ _ => True);
      [intros ? ? ? _ _; exact I | intros ?]
  | |- hoare _ (let _ := _ in _) _ => cbv zeta
  | |- hoare _ (if ?b then _ else _) _ => destruct b eqn:?
  | |- hoare _ (match ?x with _ => _ end) _ => destruct x
  end.

Section Sessions.

Context `{External}.

Lemma check_valid s : is_valid (g s) = true -> check s = Done true s.
Proof.
  intros Hv. unfold check, vd_checker_is_valid, bind, gets. rewrite Hv.
  reflexivity.
Qed.

Lemma assert_valid_Done u s s' :
  assertM vd_checker_is_valid s = Done u s' ->
  s' = s /\ is_valid (g s) = true.
Proof.
  unfold assertM, vd_checker_is_valid. intros Hr.
  apply bind_Done in Hr as (b & s1 & Hb & Hr). apply gets_Done in Hb as [-> ->].
  apply assert_Done in Hr as [-> ->]. auto.
Qed.

Lemma initialize_valid s s' :
  initialize s = Done tt s' -> is_valid (g s') = true.
Proof.
  intros Hr.
  assert (Hh : hoare (fun _ => True) initialize
                 (fun _ s' => is_valid (g s') = true)).
  { unfold initialize. to_closing_check.
    intros s0 u s1 _ Hrun. apply assert_valid_Done in Hrun as [-> Hv].
    exact Hv. }
  exact (Hh _ _ _ I Hr).
Qed.

Lemma VoronoiDiagram_new_Done far n_bins s0 s :
  VoronoiDiagram_new far n_bins s0 = Done tt s ->
  count s = 0%Z /\ is_valid (g s) = true.
Proof.
  intros Hr. unfold VoronoiDiagram_new in Hr.
  apply bind_Done in Hr as (? & s1 & H1 & Hr); apply modify_Done in H1; subst s1.
  apply bind_Done in Hr as (? & s1 & H1 & Hr); apply modify_Done in H1; subst s1.
  apply bind_Done in Hr as ([] & s1 & H1 & Hr).
  apply initialize_valid in H1.
  apply bind_Done in Hr as (? & s2 & H2 & Hr); apply modify_Done in H2; subst s2.
  apply bind_Done in Hr as (? & s2 & H2 & Hr); apply modify_Done in H2; subst s2.
  apply modify_Done in Hr; subst s. split; [reflexivity | exact H1].
Qed.

Lemma perform_all_count calls s s' :
  perform_all calls s = Done tt s' -> (count s <= count s')%Z.
Proof.
  revert s. induction calls as [|c calls IH]; simpl; intros s Hr.
  - apply ret_Done in Hr as [_ ->]. lia.
  - apply bind_Done in Hr as ([] & s1 & H1 & Hr).
    apply perform_registry in H1 as (_ & _ & _ & Hc).
    apply IH in Hr. lia.
Qed.

(** [find_endpoints] stops on its assertion when an index is not a key of
    the vertex map. *)
Lemma find_endpoints_missing idx1 idx2 s :
  vertex_map s !! idx1 = None \/ vertex_map s !! idx2 = None ->
  find_endpoints idx1 idx2 s = Failed AssertionFailed s.
Proof.
  intros Hm. unfold find_endpoints, bind, gets.
  destruct Hm as [Hm|Hm]; rewrite Hm.
  - rewrite (bool_decide_eq_false_2 (is_Some None))
      by (intros [? ?]; discriminate).
    reflexivity.
  - rewrite (bool_decide_eq_false_2 (is_Some None))
      by (intros [? ?]; discriminate).
    rewrite andb_false_r. reflexivity.
Qed.

Lemma insert_line_site_missing idx1 idx2 step s :
  vertex_map s !! idx1 = None \/ vertex_map s !! idx2 = None ->
  insert_line_site idx1 idx2 step s
  = Failed AssertionFailed
      (with_num_lsites (num_lsites s + 1)%Z (with_zero_point_face None s)).
Proof.
  intros Hm. unfold insert_line_site.
  rewrite (bind_run _ _ s tt (with_zero_point_face None s) eq_refl).
  rewrite (bind_run _ _ (with_zero_point_face None s) tt
             (with_num_lsites (num_lsites s + 1)%Z (with_zero_point_face None s))
             eq_refl).
  cbv zeta. apply bind_fail. apply find_endpoints_missing. exact Hm.
Qed.

End Sessions.

(** ** The half-edge structure of the initial frame *)

(** [num_split_vertices] visits every vertex of the graph once. *)
Lemma num_split_vertices_loop_run `{External} (kvs : list (nat * VoronoiVertex))
    k s :
  Forall (fun kv => vertices (g s) !! fst kv = Some (snd kv)) kvs ->
  num_split_vertices_loop ((fun kv => Some (fst kv)) <$> kvs) k s
  = Done (k + Z.of_nat (length (filter (fun x => type x = SPLIT)
                                  (snd <$> kvs))))%Z s.
Proof.
  revert k. induction kvs as [|[i x] kvs IH]; intros k Hall.
  - simpl. unfold ret. f_equal. lia.
  - apply Forall_cons in Hall as [Hx Hall]. cbn [fst snd] in Hx.
    assert (Hv : vertex (Some i) s = Done x s).
    { unfold vertex, bind, get, valid. simpl. rewrite Hx. reflexivity. }
    rewrite !fmap_cons. cbn [num_split_vertices_loop fst snd].
    rewrite (bind_run _ _ _ _ _ Hv). rewrite IH by exact Hall.
    f_equal. rewrite filter_cons.
    destruct (decide (type x = SPLIT)) as [Ht|Ht].
    + rewrite bool_decide_eq_true_2 by exact Ht. rewrite length_cons. lia.
    + rewrite bool_decide_eq_false_2 by exact Ht. lia.
Qed.

(** The structure [initialize] builds, read off the run of the constructor
    with the nine points kept symbolic. *)
Lemma initial_frame_structure `{External} far n_bins count0 s :
  VoronoiDiagram_new far n_bins (blank count0) = Done tt s ->
  twins_paired (g s) = true /\ rings_linked (g s) = true /\
  rings_close (g s) 5 = true /\ ends_present (g s) = true /\
  length (vertices_of_type SPLIT (g s)) = 0 /\
  length (fgrid s) = 3 /\
  v0 s = [] /\ incident_faces s = [] /\ modified_vertices s = ∅ /\
  vertexQueue s = [] /\ vertex_map s = ∅.
Proof.
  intros Hr. unfold VoronoiDiagram_new in Hr.
  apply bind_Done in Hr as (? & s1 & H1 & Hr); apply modify_Done in H1; subst s1.
  apply bind_Done in Hr as (? & s1 & H1 & Hr); apply modify_Done in H1; subst s1.
  apply bind_Done in Hr as (? & s1 & H1 & Hr).
  apply bind_Done in Hr as (? & s2 & H2 & Hr); apply modify_Done in H2; subst s2.
  apply bind_Done in Hr as (? & s2 & H2 & Hr); apply modify_Done in H2; subst s2.
  apply modify_Done in Hr; subst s.
  unfold initialize in H1.
  apply bind_Done in H1 as (fr & s2 & H2 & H1). apply gets_Done in H2 as [-> ->].
  simpl far_radius in H1. cbv beta zeta in H1.
  remember (mkPoint 0 (3 * far)) as gen1 eqn:Hgen1.
  remember (mkPoint (-3 * Num.sqrt3 * far / 2) (-3 * far / 2)) as gen2 eqn:Hgen2.
  remember (mkPoint (3 * Num.sqrt3 * far / 2) (-3 * far / 2)) as gen3 eqn:Hgen3.
  remember (mkPoint 0 (-3 * far * 6)) as vd1 eqn:Hvd1.
  remember (mkPoint (3 * Num.sqrt3 * far * 6 / 2) (3 * far * 6 / 2)) as vd2
    eqn:Hvd2.
  remember (mkPoint (-3 * Num.sqrt3 * far * 6 / 2) (3 * far * 6 / 2)) as vd3
    eqn:Hvd3.
  remember (Num.of_Q 0.5 * (gen2 + gen3))%P as m23 eqn:Hm23.
  remember (Num.of_Q 0.5 * (gen1 + gen3))%P as m13 eqn:Hm13.
  remember (Num.of_Q 0.5 * (gen1 + gen2))%P as m12 eqn:Hm12.
  clear Hgen1 Hgen2 Hgen3 Hvd1 Hvd2 Hvd3 Hm23 Hm13 Hm12.
  destruct H.
  vm_compute in H1.
  apply if_Done in H1 as [_ ->].
  vm_compute. repeat split.
Qed.

(** ** The marks of an insertion are tracked *)

#[export] Instance marks_tracked_Frame X : Frame (marks_tracked X).
Proof.
  split; intros s; intros;
    try (match goal with Hs : marks_tracked _ _ |- _ => exact Hs end).
  - (* a face updated *)
    destruct H as [Hv Hf]. split; [exact Hv|]. simpl. intros j f Hj Hinc.
    destruct (decide (j = i)) as [->|Hne].
    + rewrite lookup_insert_eq in Hj. injection Hj as <-.
      apply (Hf i x H0). destruct H1 as [<-|H1]; congruence.
    + rewrite lookup_insert_ne in Hj by congruence. eauto.
  - (* a new face *)
    destruct H as [Hv Hf]. split; [exact Hv|]. simpl. intros j f Hj Hinc.
    destruct (decide (j = fresh (dom (faces (g s))))) as [->|Hne].
    + rewrite lookup_insert_eq in Hj. injection Hj as <-. congruence.
    + rewrite lookup_insert_ne in Hj by congruence. eauto.
  - (* a vertex updated, its status kept *)
    destruct H as [Hv Hf]. split; [|exact Hf]. simpl. intros j z Hj Hst.
    destruct (decide (j = i)) as [->|Hne].
    + rewrite lookup_insert_eq in Hj. injection Hj as <-.
      apply (Hv i x H0). congruence.
    + rewrite lookup_insert_ne in Hj by congruence. eauto.
  - (* a new vertex without mark *)
    destruct H as [Hv Hf]. split; [|exact Hf]. simpl. intros j z Hj Hst.
    destruct (decide (j = fresh (dom (vertices (g s))))) as [->|Hne].
    + rewrite lookup_insert_eq in Hj. injection Hj as <-.
      destruct Hst; contradiction.
    + rewrite lookup_insert_ne in Hj by congruence. eauto.
  - (* one more modified vertex *)
    destruct H as [Hv Hf]. split; [|exact Hf]. simpl. intros j z Hj Hst.
    destruct (Hv j z Hj Hst) as [Hin|Hin]; [left | right; exact Hin].
    apply elem_of_union. right. exact Hin.
  - (* one more incident face *)
    destruct H as [Hv Hf]. split; [exact Hv|]. simpl. intros j z Hj Hst.
    apply elem_of_app. left. eauto.
Qed.

#[export] Instance settled_Frame : Frame settled.
Proof.
  split; intros s; intros;
    try (match goal with Hs : settled _ |- _ => exact Hs end).
  - destruct H as [Hv Hf]. split; [exact Hv|]. simpl. intros j f Hj.
    destruct (decide (j = i)) as [->|Hne].
    + rewrite lookup_insert_eq in Hj. injection Hj as <-.
      destruct H1 as [H1|H1]; [rewrite H1; eauto | exact H1].
    + rewrite lookup_insert_ne in Hj by congruence. eauto.
  - destruct H as [Hv Hf]. split; [exact Hv|]. simpl. intros j f Hj.
    destruct (decide (j = fresh (dom (faces (g s))))) as [->|Hne].
    + rewrite lookup_insert_eq in Hj. injection Hj as <-. assumption.
    + rewrite lookup_insert_ne in Hj by congruence. eauto.
  - destruct H as [Hv Hf]. split; [|exact Hf]. simpl. intros j z Hj.
    destruct (decide (j = i)) as [->|Hne].
    + rewrite lookup_insert_eq in Hj. injection Hj as <-.
      rewrite H1. eauto.
    + rewrite lookup_insert_ne in Hj by congruence. eauto.
  - destruct H as [Hv Hf]. split; [|exact Hf]. simpl. intros j z Hj.
    destruct (decide (j = fresh (dom (vertices (g s))))) as [->|Hne].
    + rewrite lookup_insert_eq in Hj. injection Hj as <-.
      destruct (status y); auto; contradiction.
    + rewrite lookup_insert_ne in Hj by congruence. eauto.
Qed.

Lemma settled_marks_tracked X s : settled s -> marks_tracked X s.
Proof.
  intros [Hv Hf]. split.
  - intros i x Hx Hst. destruct (Hv i x Hx), Hst; congruence.
  - intros i f Hi Hst. rewrite (Hf i f Hi) in Hst. discriminate.
Qed.

Lemma marks_tracked_mono X Y s :
  X ⊆ Y -> marks_tracked X s -> marks_tracked Y s.
Proof.
  intros Hsub [Hv Hf]. split; [|exact Hf]. intros i x Hx Hst.
  destruct (Hv i x Hx Hst) as [Hin|Hin]; [left; exact Hin | right].
  apply Hsub. exact Hin.
Qed.

Lemma tames_keeps f : keeps_vertex f -> tames f.
Proof. intros Hf x. destruct (Hf x) as [Hs Hi]. auto. Qed.
Lemma tames_set_status_OUT : tames (set_status OUT).
Proof. intros x. simpl. auto. Qed.
Lemma tames_reset : tames reset.
Proof. intros x. simpl. auto. Qed.

Create HintDb marks discriminated.
#[export] Hint Resolve tames_keeps tames_set_status_OUT tames_reset : marks.

Section Marks.

Context `{External}.

Lemma marks_update_tame X v f :
  tames f -> stable (marks_tracked X) (update_vertex v f).
Proof.
  intros Hf s a s' [Hv Hfc] Hr.
  apply update_vertex_Done in Hr as (i & x & -> & Hx & ->).
  split; [|exact Hfc]. simpl. intros j z Hj Hst.
  destruct (decide (j = i)) as [->|Hne].
  - rewrite lookup_insert_eq in Hj. injection Hj as <-.
    apply (Hv i x Hx). destruct (Hf x) as [_ [Hs|[Hs|Hs]]];
      rewrite Hs in Hst; [exact Hst | destruct Hst; discriminate..].
  - rewrite lookup_insert_ne in Hj by congruence. eauto.
Qed.

Lemma marks_update_mark X v st :
  hoare (marks_tracked X) (update_vertex v (set_status st))
    (fun _ => marks_tracked ({[v]} ∪ X)).
Proof.
  intros s a s' [Hv Hfc] Hr.
  apply update_vertex_Done in Hr as (i & x & -> & Hx & ->).
  split; [|exact Hfc]. simpl. intros j z Hj Hst.
  destruct (decide (j = i)) as [->|Hne].
  - right. apply elem_of_union. left. apply elem_of_singleton. reflexivity.
  - rewrite lookup_insert_ne in Hj by congruence.
    destruct (Hv j z Hj Hst) as [Hin|Hin]; [left; exact Hin | right].
    apply elem_of_union. right. exact Hin.
Qed.

Lemma marks_absorb X v :
  hoare (marks_tracked ({[v]} ∪ X))
    (modify (fun s =>
       with_modified_vertices ({[v]} ∪ modified_vertices s) s))
    (fun _ => marks_tracked X).
Proof.
  intros s a s' [Hv Hfc] Hr. apply modify_Done in Hr. subst s'.
  split; [|exact Hfc]. simpl. intros j z Hj Hst.
  destruct (Hv j z Hj Hst) as [Hin|Hin].
  - left. apply elem_of_union. right. exact Hin.
  - apply elem_of_union in Hin as [Hin|Hin]; [left | right; exact Hin].
    apply elem_of_union. left. exact Hin.
Qed.

Lemma marks_new_vertex X p st t d k :
  hoare (marks_tracked X) (add_new_vertex p st t d k)
    (fun q => marks_tracked ({[q]} ∪ X)).
Proof.
  unfold add_new_vertex. intros s q s' HJ Hr.
  apply bind_Done in Hr as (x & s1 & Hx & Hr).
  apply VoronoiVertex_new_Done in Hx as [-> ->].
  apply add_vertex_Done in Hr as [-> ->].
  destruct HJ as [Hv Hfc]. split; [|exact Hfc]. simpl. intros j z Hj Hst.
  destruct (decide (j = fresh (dom (vertices (g s))))) as [->|Hne].
  - right. apply elem_of_union. left. apply elem_of_singleton. reflexivity.
  - rewrite lookup_insert_ne in Hj by congruence.
    destruct (Hv j z Hj Hst) as [Hin|Hin]; [left; exact Hin | right].
    apply elem_of_union. right. exact Hin.
Qed.

Lemma marks_face_incident X f :
  stable (marks_tracked X)
    (update_face f (set_fstatus INCIDENT) ;;
     modify (fun s => with_incident_faces (incident_faces s ++ [f]) s)).
Proof.
  intros s a s' [Hv Hfc] Hr.
  apply bind_Done in Hr as (u & s1 & Hu & Hr).
  apply update_face_Done in Hu as (i & x & -> & Hx & ->).
  apply modify_Done in Hr. subst s'.
  split; [exact Hv|]. simpl. intros j z Hj Hst. apply elem_of_app.
  destruct (decide (j = i)) as [->|Hne].
  - right. apply elem_of_cons. left. reflexivity.
  - rewrite lookup_insert_ne in Hj by congruence. left. eauto.
Qed.

Lemma marks_delete_vertex X v :
  hoare (marks_tracked X) (hedi.delete_vertex v)
    (fun _ s => marks_tracked X s /\ graph_vertex (g s) v = None).
Proof.
  intros s a s' [Hv Hfc] Hr.
  apply delete_vertex_Done in Hr as (i & x & -> & Hx & ->).
  split; [split; [|exact Hfc] |].
  - simpl. intros j z Hj Hst.
    apply lookup_delete_Some in Hj as [_ Hj]. eauto.
  - simpl. apply lookup_delete_eq.
Qed.

Lemma marks_erase X v :
  hoare (fun s => marks_tracked X s /\ graph_vertex (g s) v = None)
    (modify (fun s =>
       with_modified_vertices (modified_vertices s ∖ {[v]}) s))
    (fun _ => marks_tracked X).
Proof.
  intros s a s' [[Hv Hfc] Habs] Hr. apply modify_Done in Hr. subst s'.
  split; [|exact Hfc]. simpl. intros j z Hj Hst.
  destruct (Hv j z Hj Hst) as [Hin|Hin]; [left | right; exact Hin].
  apply elem_of_difference. split; [exact Hin|].
  intros Hc. apply elem_of_singleton in Hc. subst v. simpl in Habs.
  congruence.
Qed.

End Marks.

#[export] Hint Resolve marks_update_tame marks_face_incident : marks.

#[export] Hint Extern 2 (stable _ (add_new_vertex _ OUT _ _ _)) =>
  (apply stable_add_new_vertex; first [discriminate | typeclasses eauto])
  : marks.
#[export] Hint Extern 2 (stable _ (add_new_vertex _ UNDECIDED _ _ _)) =>
  (apply stable_add_new_vertex; first [discriminate | typeclasses eauto])
  : marks.
#[export] Hint Extern 5 (stable (marks_tracked _) (modify _)) =>
  (apply stable_modify; intros ? Hs; exact Hs) : marks.

(** One step of a proof that a sequence of calls keeps the marks tracked: a
    lemma on the whole sequence where there is one, else the first call. *)
Ltac marks_step := first [ solve [eauto 4 with marks] | stable_step ].
Ltac marks_auto := repeat marks_step.

(** Follows the marks through a sequence of calls: a vertex that is marked
    or added with a mark joins the pending set, and leaves it when it is
    entered in [modified_vertices]. *)
Ltac marks_fwd :=
  cbv beta;
  lazymatch goal with
  | |- hoare _ (bind reset_status _) _ => idtac
  | |- hoare _ (bind (update_vertex _ (set_status NEW)) _) _ =>
      eapply hoare_bind; [apply marks_update_mark | intros ?]; marks_fwd
  | |- hoare _ (bind (update_vertex _ (set_status IN)) _) _ =>
      eapply hoare_bind; [apply marks_update_mark | intros ?]; marks_fwd
  | |- hoare _ (bind (add_new_vertex _ NEW _ _ _) _) _ =>
      eapply hoare_bind; [apply marks_new_vertex | intros ?]; marks_fwd
  | |- hoare _ (bind (modify _) _) _ =>
      first [ eapply hoare_bind; [apply marks_absorb | intros ?]; marks_fwd
            | simple apply hoare_bind_stable; [solve [marks_auto] | intros ?];
              marks_fwd
            | idtac ]
  | |- hoare _ (modify _) _ =>
      first [ apply marks_absorb
            | lazymatch goal with
              | |- hoare ?I ?m (fun _ => ?I) =>
                  change (stable I m); solve [marks_auto]
              end
            | idtac ]
  | |- hoare _ (bind _ _) _ =>
      first [ simple apply hoare_bind_stable; [solve [marks_auto] | intros ?];
              marks_fwd
            | idtac ]
  | |- hoare _ (ret _) _ => apply hoare_ret; intros ? ?; try assumption
  | |- hoare _ (let _ := _ in _) _ => cbv zeta; marks_fwd
  | |- hoare _ (if ?b then _ else _) _ => destruct b eqn:?; marks_fwd
  | |- hoare _ (match ?x with _ => _ end) _ => destruct x eqn:?; marks_fwd
  | |- hoare ?I ?m (fun _ => ?I) =>
      change (stable I m); try solve [marks_auto]
  | |- _ => idtac
  end.

Section MarksStability.

Context `{External}.

Lemma marks_mark_adjacent_faces_p X v site :
  stable (marks_tracked X) (mark_adjacent_faces_p v site).
Proof. unfold mark_adjacent_faces_p. marks_auto. Qed.
Lemma marks_mark_adjacent_faces X v site :
  stable (marks_tracked X) (mark_adjacent_faces v site).
Proof. unfold mark_adjacent_faces. marks_auto. Qed.
#[local] Hint Resolve marks_mark_adjacent_faces_p marks_mark_adjacent_faces
  : marks.

Lemma marks_mark_vertex X v site :
  stable (marks_tracked X) (mark_vertex v site).
Proof. unfold mark_vertex, stable. marks_fwd. Qed.
#[local] Hint Resolve marks_mark_vertex : marks.

Lemma marks_augment_vertex_set_body X site v h :
  stable (marks_tracked X) (augment_vertex_set_body site v h).
Proof. unfold augment_vertex_set_body. marks_auto. Qed.
#[local] Hint Resolve marks_augment_vertex_set_body : marks.
Lemma marks_augment_vertex_set_loop X n site :
  stable (marks_tracked X) (augment_vertex_set_loop n site).
Proof. induction n; simpl; marks_auto. Qed.
#[local] Hint Resolve marks_augment_vertex_set_loop : marks.
Lemma marks_augment_vertex_set X site :
  stable (marks_tracked X) (augment_vertex_set site).
Proof. unfold augment_vertex_set. marks_auto. Qed.

Lemma marks_add_vertices X site :
  stable (marks_tracked X) (add_vertices site).
Proof.
  unfold add_vertices, stable. marks_fwd.
  apply stable_foreach. intros q_edge. unfold stable. marks_fwd.
Qed.

Lemma marks_add_edge X ed f1 f2 :
  stable (marks_tracked X) (add_edge ed f1 f2).
Proof. unfold add_edge, stable. marks_fwd. Qed.
#[local] Hint Resolve marks_add_edge : marks.
Lemma marks_add_edges_loop X n f1 f f2 sv :
  stable (marks_tracked X) (add_edges_loop n f1 f f2 sv).
Proof. revert sv. induction n; simpl; marks_auto. Qed.
#[local] Hint Resolve marks_add_edges_loop : marks.
Lemma marks_add_edges X f1 f f2 :
  stable (marks_tracked X) (add_edges f1 f f2).
Proof. unfold add_edges. marks_auto. Qed.

Lemma marks_remove_vertex_set X : stable (marks_tracked X) remove_vertex_set.
Proof.
  unfold remove_vertex_set, stable. marks_fwd.
  apply stable_foreach. intros v. unfold stable. marks_fwd.
  eapply hoare_bind; [apply marks_delete_vertex | intros ?].
  apply marks_erase.
Qed.

Lemma marks_remove_deg2_vertex X v :
  hoare (marks_tracked X) (hedi.remove_deg2_vertex v)
    (fun _ s => marks_tracked X s /\ graph_vertex (g s) v = None).
Proof.
  unfold hedi.remove_deg2_vertex. marks_fwd. apply marks_delete_vertex.
Qed.

Lemma marks_remove_split_vertex_loop X n f :
  stable (marks_tracked X) (remove_split_vertex_loop n f).
Proof.
  induction n as [|n IH]; simpl; unfold stable; marks_fwd.
  eapply hoare_bind; [apply marks_remove_deg2_vertex | intros ?].
  eapply hoare_bind; [apply marks_erase | intros ?].
  marks_fwd.
Qed.
#[local] Hint Resolve marks_remove_split_vertex_loop : marks.
Lemma marks_remove_split_vertex X f :
  stable (marks_tracked X) (remove_split_vertex f).
Proof. unfold remove_split_vertex. marks_auto. Qed.

(** After [reset_status] no mark is left. *)
Lemma reset_state_settled s : marks_tracked ∅ s -> settled (reset_state s).
Proof.
  intros [Hv Hf]. split; simpl.
  - intros i z Hz. rewrite map_lookup_imap in Hz.
    destruct (vertices (g s) !! i) as [x|] eqn:Hx; [|discriminate].
    simpl in Hz. injection Hz as <-.
    destruct (bool_decide (Some i ∈ modified_vertices s)) eqn:Hin.
    + left. reflexivity.
    + apply bool_decide_eq_false in Hin.
      destruct (status x) eqn:Hst; auto.
      * destruct (Hv i x Hx (or_introl Hst)) as [Hc|Hc];
          [contradiction | apply elem_of_empty in Hc; destruct Hc].
      * destruct (Hv i x Hx (or_intror Hst)) as [Hc|Hc];
          [contradiction | apply elem_of_empty in Hc; destruct Hc].
  - intros i z Hz. rewrite map_lookup_imap in Hz.
    destruct (faces (g s) !! i) as [x|] eqn:Hx; [|discriminate].
    simpl in Hz. injection Hz as <-.
    destruct (bool_decide (Some i ∈ incident_faces s)) eqn:Hin.
    + reflexivity.
    + apply bool_decide_eq_false in Hin.
      destruct (fstatus x) eqn:Hst; auto.
      exfalso. apply Hin. eauto.
Qed.

Lemma reset_status_settles :
  hoare (marks_tracked ∅) reset_status (fun _ => settled).
Proof.
  intros s [] s' HJ Hr. apply reset_status_Done in Hr as [_ ->].
  apply reset_state_settled. exact HJ.
Qed.

Lemma marks_reset_status : stable (marks_tracked ∅) reset_status.
Proof.
  intros s a s' HJ Hr. apply settled_marks_tracked.
  eapply reset_status_settles; eassumption.
Qed.

Lemma marks_identical_seppoint X v :
  stable (marks_tracked X) (identical_seppoint v).
Proof. unfold identical_seppoint, stable. marks_fwd. Qed.
#[local] Hint Resolve marks_identical_seppoint : marks.

(** The block of [process_next_null] and [process_prev_null] that turns a
    vertex of the null face into a NEW vertex: both branches mark it. *)
Ltac marks_block :=
  lazymatch goal with
  | |- hoare (marks_tracked ?X0)
         (bind (if _ then
                  bind _ (fun _ => bind _ (fun _ =>
                    bind (update_vertex ?v (set_status NEW)) _))
                else _) _) _ =>
      eapply hoare_bind with (Q := fun _ => marks_tracked ({[v]} ∪ X0));
      [marks_fwd | intros ?; marks_fwd]
  end.

Lemma marks_process_next_null X d e k :
  stable (marks_tracked X) (process_next_null d e k).
Proof. unfold process_next_null, stable. marks_fwd. marks_block. Qed.
Lemma marks_process_prev_null X d e k :
  stable (marks_tracked X) (process_prev_null d e k).
Proof. unfold process_prev_null, stable. marks_fwd. marks_block. Qed.
#[local] Hint Resolve marks_process_next_null marks_process_prev_null : marks.

Lemma marks_find_null_face X a b l :
  stable (marks_tracked X) (find_null_face a b l).
Proof. unfold find_null_face. marks_auto. Qed.

Lemma marks_vertex_map_insert X idx v :
  stable (marks_tracked X) (vertex_map_insert idx v).
Proof.
  unfold vertex_map_insert. apply stable_modify. intros s Hs.
  destruct (vertex_map s !! idx); exact Hs.
Qed.
#[local] Hint Resolve marks_find_null_face marks_vertex_map_insert
  marks_augment_vertex_set marks_add_vertices marks_add_edges
  marks_remove_vertex_set marks_remove_split_vertex marks_reset_status
  : marks.

(** Both insertions keep the marks tracked, at whatever checkpoint they
    return. *)
Lemma marks_insert_point_site p step :
  stable (marks_tracked ∅) (insert_point_site p step).
Proof. unfold insert_point_site. marks_auto. Qed.

Lemma marks_insert_line_site idx1 idx2 step :
  stable (marks_tracked ∅) (insert_line_site idx1 idx2 step).
Proof. unfold insert_line_site. marks_auto. Qed.

(** A call that runs to completion ends with [reset_status]: no mark is
    left. *)
Lemma insert_point_site_settles p step :
  hoare (marks_tracked ∅) (insert_point_site p step)
    (fun _ s' => ~ (1 <= step <= 5)%Z -> settled s').
Proof.
  unfold insert_point_site. marks_fwd;
    try (step_facts; intros; exfalso; lia).
  eapply hoare_bind; [apply reset_status_settles | intros ?].
  hoare_tail. intros _. assumption.
Qed.

Lemma insert_line_site_settles idx1 idx2 step :
  hoare (marks_tracked ∅) (insert_line_site idx1 idx2 step)
    (fun _ s' => ~ (1 <= step <= 11)%Z -> settled s').
Proof.
  unfold insert_line_site. marks_fwd;
    try (step_facts; intros; exfalso; lia).
  eapply hoare_bind; [apply reset_status_settles | intros ?].
  hoare_tail. intros _. assumption.
Qed.

Lemma marks_perform c : stable (marks_tracked ∅) (perform c).
Proof.
  destruct c; simpl; apply stable_bind;
    first [apply marks_insert_point_site | apply marks_insert_line_site
          | intros; apply stable_ret].
Qed.

Lemma marks_perform_all calls : stable (marks_tracked ∅) (perform_all calls).
Proof.
  induction calls as [|c calls IH]; simpl.
  - apply stable_ret.
  - apply stable_bind; [apply marks_perform | intros; exact IH].
Qed.

Lemma stable_initialize I `{!Frame I} : stable I initialize.
Proof. unfold initialize. marks_auto. Qed.

Lemma constructed_settled s : constructed s -> settled s.
Proof.
  intros (far & n_bins & count0 & Hr). unfold VoronoiDiagram_new in Hr.
  apply bind_Done in Hr as (? & s1 & H1 & Hr); apply modify_Done in H1; subst s1.
  apply bind_Done in Hr as (? & s1 & H1 & Hr); apply modify_Done in H1; subst s1.
  apply bind_Done in Hr as (? & s1 & H1 & Hr).
  apply bind_Done in Hr as (? & s2 & H2 & Hr); apply modify_Done in H2; subst s2.
  apply bind_Done in Hr as (? & s2 & H2 & Hr); apply modify_Done in H2; subst s2.
  apply modify_Done in Hr; subst s.
  assert (Hs : settled s1).
  { eapply (stable_initialize settled); [|exact H1].
    split; simpl; intros i z Hz; rewrite lookup_empty in Hz; discriminate. }
  exact Hs.
Qed.

End MarksStability.
(** ** What [add_vertices], [add_edge] and [add_edges] add to the graph *)

Lemma hoare_pure {A} (P : Prop) (Q : State -> Prop) (m : M A) R :
  (P -> hoare Q m R) -> hoare (fun s => P /\ Q s) m R.
Proof. intros Hm s a s' [HP HQ] Hr. exact (Hm HP s a s' HQ Hr). Qed.

Lemma hoare_foreach_count {A} (J : nat -> State -> Prop) (l : list A)
    (body : A -> M unit) n :
  (forall k x, hoare (J k) (body x) (fun _ => J (S k))) ->
  hoare (J n) (foreach l body) (fun _ => J (n + length l)).
Proof.
  intros Hb. revert n. induction l as [|x l IH]; intros n; simpl.
  - apply hoare_ret. intros s Hs. rewrite Nat.add_0_r. exact Hs.
  - eapply hoare_bind; [apply Hb|]. intros ?. cbv beta.
    replace (n + S (length l)) with (S n + length l) by lia. apply IH.
Qed.

Lemma face_site_Done f x s s' :
  face_site f s = Done x s' -> face_site f s = Done x s /\ s' = s.
Proof.
  intros Hr. pose proof Hr as Hr'. unfold face_site in Hr'.
  apply bind_Done in Hr' as (fp & s1 & H1 & H2).
  apply face_props_Done in H1 as [_ ->]. apply valid_Done in H2 as [_ ->].
  auto.
Qed.
Lemma vertex_same v x s s' :
  vertex v s = Done x s' -> vertex v s = Done x s /\ s' = s.
Proof.
  intros Hr. pose proof Hr as Hr'. apply vertex_Done in Hr' as [_ ->]. auto.
Qed.

Lemma keeps_ends_next n : keeps_ends (set_next_ptr n).
Proof. intros []. reflexivity. Qed.
Lemma keeps_ends_ek k : keeps_ends (set_ek k).
Proof. intros []. reflexivity. Qed.
Lemma keeps_ends_eface f : keeps_ends (set_eface f).
Proof. intros []. reflexivity. Qed.
Lemma keeps_ends_eparams p : keeps_ends (set_eparams p).
Proof. intros []. reflexivity. Qed.
Lemma keeps_ends_ek_eface k f : keeps_ends (fun x => set_ek k (set_eface f x)).
Proof. intros []. reflexivity. Qed.

Lemma add_pair_grows u w E :
  E ⊆ add_pair u w E /\ size (add_pair u w E) = size E + 2.
Proof.
  unfold add_pair.
  set (e1 := fresh (dom E)).
  set (e2 := fresh (dom (<[e1 := (u, w, None)]> E))).
  assert (H1 : E !! e1 = None).
  { apply not_elem_of_dom, is_fresh. }
  assert (H2 : <[e1 := (u, w, None)]> E !! e2 = None).
  { apply not_elem_of_dom, is_fresh. }
  assert (Hne : e1 <> e2).
  { intros Heq. rewrite <- Heq, lookup_insert_eq in H2. discriminate. }
  rewrite lookup_insert_ne in H2 by congruence.
  split.
  - etrans; [apply (insert_subseteq E e1 (u, w, Some e2)); exact H1|].
    apply insert_subseteq. rewrite lookup_insert_ne by congruence. exact H2.
  - rewrite !map_size_insert_None; [lia | exact H1 |].
    rewrite lookup_insert_ne by congruence. exact H2.
Qed.

Lemma grown_by_refl K E : grown_by 0 K K E E.
Proof. repeat split; try reflexivity; [congruence | lia]. Qed.

Lemma grown_by_trans a b K K1 K2 E E1 E2 :
  grown_by a K K1 E E1 -> grown_by b K1 K2 E1 E2 ->
  grown_by (a + b) K K2 E E2.
Proof.
  intros (HK & HE & Hn & Hs) (HK' & HE' & Hn' & Hs').
  split; [|split; [|split]].
  - etrans; eassumption.
  - etrans; eassumption.
  - intros i k Hi Hnone. destruct (K1 !! i) as [k1|] eqn:H1.
    + pose proof (Hn i k1 H1 Hnone).
      pose proof (lookup_weaken _ _ _ _ H1 HK') as H2. congruence.
    + eauto.
  - pose proof (map_subseteq_size _ _ HK).
    pose proof (map_subseteq_size _ _ HK'). lia.
Qed.

Section Shape.
Context `{External}.
Context {A : Type} (fv : VoronoiVertex -> A).
Implicit Types (V : gmap nat A) (E : gmap nat (HEVertex * HEVertex * HEEdge)).

Lemma seen_update_edge V E e f :
  keeps_ends f -> stable (seen fv V E) (update_edge e f).
Proof.
  intros Hf s u s' [HV HE] Hr.
  apply update_edge_Done in Hr as (i & x & -> & Hx & ->).
  split; [exact HV|]. unfold skeleton in *. simpl.
  rewrite fmap_insert, Hf, <- HE. apply insert_id.
  rewrite lookup_fmap, Hx. reflexivity.
Qed.

Lemma seen_update_vertex V E v f :
  (forall x, fv (f x) = fv x) -> stable (seen fv V E) (update_vertex v f).
Proof.
  intros Hf s u s' [HV HE] Hr.
  apply update_vertex_Done in Hr as (i & x & -> & Hx & ->).
  split; [|exact HE]. simpl.
  rewrite fmap_insert, Hf, <- HV. apply insert_id.
  rewrite lookup_fmap, Hx. reflexivity.
Qed.

Lemma seen_update_face V E fc f : stable (seen fv V E) (update_face fc f).
Proof.
  intros s u s' HI Hr.
  apply update_face_Done in Hr as (i & x & -> & Hx & ->). exact HI.
Qed.

Lemma seen_vertex V E v : stable (seen fv V E) (vertex v).
Proof. unfold vertex. stable_auto. Qed.
Lemma seen_edge V E e : stable (seen fv V E) (edge e).
Proof. unfold edge. stable_auto. Qed.
Lemma seen_face_site V E f : stable (seen fv V E) (face_site f).
Proof. unfold face_site, face_props. stable_auto. Qed.
Lemma seen_check_edge V E e : stable (seen fv V E) (vd_checker_check_edge e).
Proof. unfold vd_checker_check_edge. stable_auto. Qed.

Lemma seen_link V E l o : stable (seen fv V E) (hedi.link l o).
Proof.
  revert o. induction l as [|e l IH]; intros o; [apply stable_ret|].
  destruct l as [|e' l].
  - simpl. destruct o; [|apply stable_ret].
    apply seen_update_edge, keeps_ends_next.
  - change (hedi.link (e :: e' :: l) o)
      with (bind (hedi.set_next e e') (fun _ => hedi.link (e' :: l) o)).
    apply stable_bind; [|intros _; apply IH].
    apply seen_update_edge, keeps_ends_next.
Qed.

Lemma seen_set_next_chain V E l : stable (seen fv V E) (hedi.set_next_chain l).
Proof. apply seen_link. Qed.

Lemma seen_set_next_chain_fk V E l f k :
  stable (seen fv V E) (hedi.set_next_chain_fk l f k).
Proof.
  unfold hedi.set_next_chain_fk.
  apply stable_bind; [apply stable_valid|]. intros first.
  apply stable_bind; [apply seen_update_face|]. intros _.
  apply stable_bind; [|intros _; apply seen_link].
  apply stable_foreach. intros e. apply seen_update_edge, keeps_ends_ek_eface.
Qed.

Lemma seen_set_parameters V E e s1 s2 b :
  stable (seen fv V E) (set_parameters e s1 s2 b).
Proof. apply seen_update_edge, keeps_ends_eparams. Qed.

Lemma seen_modified V E f :
  stable (seen fv V E) (modify (fun s => with_modified_vertices (f s) s)).
Proof. apply stable_modify. intros s Hs. exact Hs. Qed.

Lemma seen_hedi_add_edge V E u w :
  hoare (seen fv V E) (hedi.add_edge u w)
    (fun e s => e = Some (fresh (dom E)) /\
                seen fv V (<[fresh (dom E) := (u, w, None)]> E) s).
Proof.
  intros s e s' Hs Hr. unfold hedi.add_edge in Hr. inv_run.
  destruct Hs as [<- <-].
  unfold seen, skeleton. cbn [g with_g put_edge edges vertices].
  rewrite fmap_insert, dom_fmap_L. auto.
Qed.

Lemma seen_set_twin V E i a b c t :
  E !! i = Some (a, b, c) ->
  hoare (seen fv V E) (update_edge (Some i) (set_twin t))
    (fun _ => seen fv V (<[i := (a, b, t)]> E)).
Proof.
  intros Hi s e s' Hs Hr.
  apply update_edge_Done in Hr as (j & x & [= <-] & Hx & ->).
  destruct Hs as [<- <-].
  unfold seen, skeleton in *. cbn [g with_g put_edge edges vertices].
  split; [reflexivity|]. rewrite fmap_insert. f_equal.
  rewrite lookup_fmap, Hx in Hi. injection Hi as <- <- <-.
  reflexivity.
Qed.

Lemma seen_add_twin_edges V E u w :
  hoare (seen fv V E) (hedi.add_twin_edges u w)
    (fun _ => seen fv V (add_pair u w E)).
Proof.
  unfold hedi.add_twin_edges, hedi.twin_edges, add_pair.
  set (e1 := fresh (dom E)).
  set (e2 := fresh (dom (<[e1 := (u, w, None)]> E))).
  assert (Hne : e1 <> e2).
  { intros Heq. apply (is_fresh (dom (<[e1 := (u, w, None)]> E))).
    fold e2. rewrite <- Heq, dom_insert_L.
    apply elem_of_union_l, elem_of_singleton. reflexivity. }
  eapply hoare_bind; [apply seen_hedi_add_edge|]. intros a.
  apply hoare_pure. intros ->.
  eapply hoare_bind; [apply seen_hedi_add_edge|]. intros a.
  apply hoare_pure. intros ->. fold e1 e2.
  eapply hoare_bind.
  { eapply hoare_bind.
    - apply (seen_set_twin _ _ e1 u w None).
      rewrite lookup_insert_ne by congruence. apply lookup_insert_eq.
    - intros ?. apply (seen_set_twin _ _ e2 w u None).
      rewrite lookup_insert_ne by congruence. apply lookup_insert_eq. }
  intros ?. apply hoare_ret. intros s Hs.
  replace (<[e2:=(w, u, Some e1)]> (<[e1:=(u, w, Some e2)]> E))
    with (<[e2:=(w, u, Some e1)]> (<[e1:=(u, w, Some e2)]>
           (<[e2:=(w, u, None)]> (<[e1:=(u, w, None)]> E)))); [exact Hs|].
  rewrite (insert_insert_ne _ e1 e2) by congruence.
  rewrite !insert_insert_eq. reflexivity.
Qed.

End Shape.

Lemma seen_add_new_vertex `{External} K E p st t d k :
  hoare (seen kind K E) (add_new_vertex p st t d k)
    (fun v s => v = Some (fresh (dom K)) /\
                seen kind (<[fresh (dom K) := (t, st)]> K) E s).
Proof.
  intros s v s' Hs Hr. unfold add_new_vertex in Hr.
  apply bind_Done in Hr as (x & s1 & Hx & Hr).
  apply VoronoiVertex_new_Done in Hx as [-> ->].
  apply add_vertex_Done in Hr as [-> ->].
  destruct Hs as [<- <-].
  unfold seen, skeleton. cbn [g with_g with_count put_vertex edges vertices].
  rewrite fmap_insert, dom_fmap_L. auto.
Qed.

Create HintDb shape discriminated.
#[export] Hint Resolve stable_ret stable_fail stable_get stable_gets
  stable_assert stable_valid seen_update_face seen_vertex seen_edge
  seen_face_site seen_check_edge seen_set_next_chain seen_set_next_chain_fk
  seen_set_parameters seen_modified : shape.
#[export] Hint Extern 1 (stable (seen _ _ _) (update_edge _ _)) =>
  apply seen_update_edge; intros []; reflexivity : shape.
#[export] Hint Extern 1 (stable (seen _ _ _) (update_vertex _ _)) =>
  apply seen_update_vertex; intros []; reflexivity : shape.

(** One step along a run that adds twin pairs and vertices. *)
Ltac shape_step :=
  lazymatch goal with
  | |- hoare _ (bind (hedi.add_twin_edges _ _) _) _ =>
      eapply hoare_bind; [apply seen_add_twin_edges | intros ?]
  | |- hoare _ (bind (add_new_vertex _ _ _ _ _) _) _ =>
      eapply hoare_bind;
      [apply seen_add_new_vertex | intros ?; apply hoare_pure; intros ->]
  | |- hoare _ (bind _ _) _ =>
      apply hoare_bind_stable; [solve [stable_auto; eauto with shape] | intros ?]
  | |- hoare _ (let '(_, _) := ?p in _) _ => destruct p
  | |- hoare _ (let _ := _ in _) _ => cbv zeta
  | |- hoare ?I ?m (fun _ => ?I) =>
      change (stable I m); solve [stable_auto; eauto with shape]
  end.

Section AddEdge.
Context `{External}.

(** [add_edge]: the reads of its first lines, and what each branch adds. *)
Lemma add_edge_shape ed newface newface2 s s' :
  add_edge ed newface newface2 s = Done tt s' ->
  exists f_site new_site gsrc gtrg,
    face_site (ed_f ed) s = Done f_site s /\
    vertex (v1 ed) s = Done gsrc s /\
    vertex (v2 ed) s = Done gtrg s /\
    face_site (if bool_decide (k3 gsrc = 1%Z) then newface else newface2) s
      = Done new_site s /\
    k3 gtrg = k3 gsrc /\
    if opposite_sides f_site new_site (position gsrc) (position gtrg)
    then
      let apex := fresh (dom (vertices (g s))) in
      kinds s' = <[apex := (APEX, NEW)]> (kinds s) /\
      skeleton s' = add_pair (Some apex) (v2 ed)
                      (add_pair (v1 ed) (Some apex) (skeleton s))
    else
      vertices (g s') = vertices (g s) /\
      skeleton s' = add_pair (v1 ed) (v2 ed) (skeleton s).
Proof.
  intros Hr. unfold add_edge in Hr. cbv zeta in Hr.
  apply bind_Done in Hr as (f_site & s1 & Hfs & Hr).
  apply face_site_Done in Hfs as [Hfs ->].
  apply bind_Done in Hr as (gsrc & s1 & Hsrc & Hr).
  apply vertex_same in Hsrc as [Hsrc ->].
  apply bind_Done in Hr as ([new_site new_face] & s1 & Hns & Hr).
  assert (Hns' : face_site (if bool_decide (k3 gsrc = 1%Z) then newface
                            else newface2) s = Done new_site s /\ s1 = s).
  { destruct (bool_decide (k3 gsrc = 1%Z));
      apply bind_Done in Hns as (x & s2 & H1 & H2);
      apply face_site_Done in H1 as [H1 ->];
      apply ret_Done in H2 as [[= <- <-] ->]; auto. }
  clear Hns. destruct Hns' as [Hns ->].
  apply bind_Done in Hr as (gtrg & s1 & Htrg & Hr).
  apply vertex_same in Htrg as [Htrg ->].
  apply bind_Done in Hr as ([] & s1 & Hk & Hr).
  apply assert_Done in Hk as [Hk ->]. apply bool_decide_eq_true in Hk.
  exists f_site, new_site, gsrc, gtrg. repeat (split; [assumption|]).
  apply bind_Done in Hr as ([src_sign trg_sign] & s1 & Hsg & Hr).
  assert (Hsig : s1 = s /\
            opposite_sides f_site new_site (position gsrc) (position gtrg)
            = negb (eqb src_sign trg_sign)).
  { unfold opposite_sides.
    destruct f_site as [fpos ?|fstart fend ? ?],
             new_site as [npos ?|nstart nend ? ?].
    - apply ret_Done in Hsg as [[= -> ->] ->]. auto.
    - apply ret_Done in Hsg as [[= -> ->] ->]. auto.
    - apply bind_Done in Hsg as (? & ? & Hf & _).
      apply assert_Done in Hf as [[=] _].
    - apply bind_Done in Hsg as (? & s2 & Hc & Hret).
      apply ret_Done in Hret as [[= -> ->] ->].
      split; [|reflexivity].
      match type of Hc with (if ?c then _ else _) _ = _ => destruct c end;
        inv_run; reflexivity. }
  destruct Hsig as [-> ->].
  destruct (eqb src_sign trg_sign); cbn [negb].
  - assert (Hs : seen id (vertices (g s))
                   (add_pair (v1 ed) (v2 ed) (skeleton s)) s').
    { refine ((_ : hoare (seen id (vertices (g s)) (skeleton s)) _
                     (fun _ => seen id (vertices (g s))
                                 (add_pair (v1 ed) (v2 ed) (skeleton s))))
                s tt s' _ Hr).
      - repeat shape_step.
      - split; [apply map_fmap_id | reflexivity]. }
    destruct Hs as [Hv He]. rewrite map_fmap_id in Hv. auto.
  - cbv zeta.
    assert (Hs : seen kind (<[fresh (dom (kinds s)) := (APEX, NEW)]> (kinds s))
                   (add_pair (Some (fresh (dom (kinds s)))) (v2 ed)
                      (add_pair (v1 ed) (Some (fresh (dom (kinds s))))
                         (skeleton s))) s').
    { refine ((_ : hoare (seen kind (kinds s) (skeleton s)) _
                     (fun _ => seen kind _ _)) s tt s' _ Hr).
      - repeat shape_step.
      - split; reflexivity. }
    destruct Hs as [Hk' He]. unfold kinds in *.
    rewrite dom_fmap_L in Hk', He. auto.
Qed.

Lemma add_edge_grows K E ed newface newface2 :
  hoare (seen kind K E) (add_edge ed newface newface2)
    (fun _ s => exists K' E', seen kind K' E' s /\ grown_by 1 K K' E E').
Proof.
  intros s [] s' [<- <-] Hr.
  apply add_edge_shape in Hr as (fs & ns & a & b & _ & _ & _ & _ & _ & Hr).
  exists (kinds s'), (skeleton s'). split; [split; reflexivity|].
  destruct (opposite_sides fs ns (position a) (position b)).
  - cbv zeta in Hr. destruct Hr as [Hk He].
    fold (kinds s). rewrite Hk, He.
    set (apex := fresh (dom (vertices (g s)))).
    assert (Hfresh : kinds s !! apex = None).
    { unfold kinds. rewrite lookup_fmap.
      rewrite (proj1 (not_elem_of_dom (vertices (g s)) apex)); [reflexivity|].
      apply is_fresh. }
    pose proof (add_pair_grows (v1 ed) (Some apex) (skeleton s)) as [Hs1 Hn1].
    pose proof (add_pair_grows (Some apex) (v2 ed)
                  (add_pair (v1 ed) (Some apex) (skeleton s))) as [Hs2 Hn2].
    split; [|split; [|split]].
    + apply insert_subseteq. exact Hfresh.
    + etrans; eassumption.
    + intros i k Hi Hnone. destruct (decide (i = apex)) as [->|Hne].
      * rewrite lookup_insert_eq in Hi. congruence.
      * rewrite lookup_insert_ne in Hi by congruence. congruence.
    + rewrite map_size_insert_None by exact Hfresh. lia.
  - destruct Hr as [Hv He]. unfold kinds at 1. rewrite Hv. fold (kinds s).
    rewrite He.
    pose proof (add_pair_grows (v1 ed) (v2 ed) (skeleton s)) as [Hs1 Hn1].
    split; [|split; [|split]];
      [reflexivity | assumption | congruence | lia].
Qed.

Lemma seen_find_edge_data_v1 {A} (fv : VoronoiVertex -> A) V E n sv st c :
  stable (seen fv V E) (find_edge_data_v1 n sv st c).
Proof.
  revert c. induction n as [|n IH]; intros c; simpl; [apply stable_fail|].
  unfold hedi.source, hedi.target.
  repeat (apply stable_bind; [solve [stable_auto; eauto with shape] | intros ?]).
  destruct (_ && _); [apply IH | apply stable_ret].
Qed.

Lemma seen_find_edge_data_v2 {A} (fv : VoronoiVertex -> A) V E n v st c :
  stable (seen fv V E) (find_edge_data_v2 n v st c).
Proof.
  revert c. induction n as [|n IH]; intros c; simpl; [apply stable_fail|].
  unfold hedi.target.
  repeat (apply stable_bind; [solve [stable_auto; eauto with shape] | intros ?]).
  destruct (_ && _); [apply IH | apply stable_ret].
Qed.

Lemma seen_find_edge_data {A} (fv : VoronoiVertex -> A) V E f sv :
  stable (seen fv V E) (find_edge_data f sv).
Proof.
  unfold find_edge_data, face_props.
  pose proof (seen_find_edge_data_v1 fv V E).
  pose proof (seen_find_edge_data_v2 fv V E).
  repeat first [ progress stable_auto
               | match goal with
                 | |- stable _ (let '(_, _) := ?p in _) => destruct p
                 end ];
  eauto with shape.
Qed.

Lemma add_edges_loop_grows K E m newface f newface2 sv :
  hoare (seen kind K E) (add_edges_loop m newface f newface2 sv)
    (fun _ s => exists K' E', seen kind K' E' s /\ grown_by m K K' E E').
Proof.
  revert K E sv. induction m as [|m IH]; intros K E sv; simpl.
  - apply hoare_ret. intros s Hs. exists K, E. split; [exact Hs|].
    apply grown_by_refl.
  - apply hoare_bind_stable; [apply seen_find_edge_data|]. intros ed.
    eapply hoare_bind; [apply add_edge_grows|]. intros [].
    intros s [] s' (K1 & E1 & Hs & Hg) Hr.
    destruct (IH K1 E1 _ s tt s' Hs Hr) as (K2 & E2 & Hs2 & Hg2).
    exists K2, E2. split; [exact Hs2|].
    exact (grown_by_trans 1 m _ _ _ _ _ _ Hg Hg2).
Qed.

End AddEdge.

Section VertexSide.
Context `{External}.
Implicit Types (V : gmap nat VoronoiVertex) (M : gset HEVertex).

Lemma side_update_edge V c M e f : stable (vertex_side V c M) (update_edge e f).
Proof.
  intros s u s' Hs Hr.
  apply update_edge_Done in Hr as (i & x & -> & Hx & ->). exact Hs.
Qed.
Lemma side_update_face V c M fc f : stable (vertex_side V c M) (update_face fc f).
Proof.
  intros s u s' Hs Hr.
  apply update_face_Done in Hr as (i & x & -> & Hx & ->). exact Hs.
Qed.
Lemma side_hedi_add_edge V c M u w : stable (vertex_side V c M) (hedi.add_edge u w).
Proof.
  unfold hedi.add_edge. stable_auto. apply stable_modify. intros s Hs. exact Hs.
Qed.
Lemma side_remove_edge V c M e : stable (vertex_side V c M) (hedi.remove_edge e).
Proof.
  unfold hedi.remove_edge. stable_auto. apply stable_modify. intros s Hs. exact Hs.
Qed.
Lemma side_previous_edge_loop V c M n e p :
  stable (vertex_side V c M) (hedi.previous_edge_loop n e p).
Proof.
  revert p. induction n as [|n IH]; intros p; simpl; [apply stable_fail|].
  unfold edge. stable_auto.
Qed.
Lemma side_add_vertex_in_edge V c M v e :
  stable (vertex_side V c M) (hedi.add_vertex_in_edge v e).
Proof.
  unfold hedi.add_vertex_in_edge, hedi.previous_edge, hedi.twin_edges,
    hedi.set_next, edge.
  pose proof side_update_edge. pose proof side_update_face.
  pose proof side_hedi_add_edge. pose proof side_remove_edge.
  pose proof side_previous_edge_loop.
  stable_auto; eauto.
Qed.

Lemma add_vertices_body site s0 n q_edge :
  hoare (vertices_added n s0)
    (gr <- gets g ;;
     let sl := vpos_position gr q_edge site in
     q <- add_new_vertex (sol_p sl) NEW NORMAL
            (Some (apex_point site (sol_p sl))) (sol_k3 sl) ;;
     modify (fun s => with_modified_vertices ({[q]} ∪ modified_vertices s) s) ;;
     hedi.add_vertex_in_edge q q_edge)
    (fun _ => vertices_added (S n) s0).
Proof.
  intros s [] s' (Hsub & Hnew & Hsize & Hcount & Hmod) Hr.
  apply bind_Done in Hr as (gr & s1 & Hg & Hr).
  apply gets_Done in Hg as [-> ->]. cbv zeta in Hr.
  apply bind_Done in Hr as (q & s1 & Hq & Hr).
  unfold add_new_vertex in Hq.
  apply bind_Done in Hq as (x & s2 & Hx & Hq).
  apply VoronoiVertex_new_Done in Hx as [-> ->].
  apply add_vertex_Done in Hq as [-> ->].
  apply bind_Done in Hr as ([] & s1 & Hm & Hr).
  apply modify_Done in Hm. subst s1.
  eapply (side_add_vertex_in_edge _ _ _ _ _ _ tt s') in Hr;
    [|repeat split].
  destruct Hr as (Hv & Hc & Hm). cbn in Hv, Hc, Hm.
  set (i := fresh (dom (vertices (g s)))) in *.
  assert (Hfresh : vertices (g s) !! i = None).
  { apply not_elem_of_dom, is_fresh. }
  unfold vertices_added. rewrite Hv, Hc, Hm.
  split; [|split; [|split; [|split]]].
  - etrans; [exact Hsub|]. apply insert_subseteq. exact Hfresh.
  - intros j y Hj Hnone. destruct (decide (j = i)) as [->|Hne].
    + rewrite lookup_insert_eq in Hj. injection Hj as <-. simpl.
      repeat split; try lia.
      apply elem_of_union_l, elem_of_singleton. reflexivity.
    + rewrite lookup_insert_ne in Hj by congruence.
      destruct (Hnew _ _ Hj Hnone) as (Ht & Hst & Hi & Hin).
      repeat split; try assumption; try lia.
      apply elem_of_union_r. exact Hin.
  - rewrite map_size_insert_None by exact Hfresh. lia.
  - lia.
  - etrans; [exact Hmod|]. apply union_subseteq_r.
Qed.

End VertexSide.

Lemma rewired_update_edge S0 O e f :
  (forall x, outline (f x) = outline x) ->
  stable (rewired S0 O) (update_edge e f).
Proof.
  intros Hf s u s' [HS HO] Hr.
  apply update_edge_Done in Hr as (i & x & -> & Hx & ->).
  split; [exact HS|]. simpl.
  rewrite fmap_insert, Hf, <- HO. apply insert_id.
  rewrite lookup_fmap, Hx. reflexivity.
Qed.

(** One step of a run that only rewires half-edges. *)
Ltac rewired_step :=
  first [ apply rewired_update_edge; intros []; reflexivity | stable_step ].

Section RepairFace.
Context `{External}.

Lemma rewired_candidates S0 O f ce cs ct l b :
  stable (rewired S0 O) (repair_face_candidates f ce cs ct l b).
Proof.
  revert b. induction l as [|e l IH]; intros b; simpl; [apply stable_ret|].
  unfold hedi.target, edge, vertex, assertM.
  repeat rewired_step.
Qed.

Lemma rewired_loop S0 O n f st c :
  stable (rewired S0 O) (repair_face_loop n f st c).
Proof.
  revert c. induction n as [|n IH]; intros c; simpl; [apply stable_fail|].
  pose proof (rewired_candidates S0 O).
  unfold hedi.target, hedi.source, hedi.out_edge_itr, edge, vertex, assertM,
    vd_checker_check_edge.
  repeat rewired_step.
Qed.

End RepairFace.

Section FindEdgeData.
Context `{External}.

Lemma source_Done e w s s' :
  hedi.source e s = Done w s' ->
  exists x, graph_edge (g s) e = Some x /\ w = esource x /\ s' = s.
Proof.
  unfold hedi.source. intros Hr.
  apply bind_Done in Hr as (x & s1 & Hx & Hr).
  apply edge_Done in Hx as [Hx ->]. apply ret_Done in Hr as [-> ->]. eauto.
Qed.

Lemma find_edge_data_v1_spec n sv st c s r s' :
  find_edge_data_v1 n sv st c s = Done r s' ->
  s' = s /\
  match fst r with
  | Some (v, e, nx) => new_at s v e nx /\ v ∉ sv
  | None => True
  end.
Proof.
  revert c. induction n as [|n IH]; intros c Hr; simpl in Hr; [discriminate|].
  apply bind_Done in Hr as (x & s1 & Hx & Hr).
  apply edge_Done in Hx as [Hx ->].
  apply bind_Done in Hr as (pv & s1 & Hpv & Hr).
  apply source_Done in Hpv as (? & _ & _ & ->).
  apply bind_Done in Hr as (cv & s1 & Hcv & Hr).
  apply target_Done in Hcv as (xc & Hxc & -> & ->).
  apply bind_Done in Hr as (nv & s1 & Hnv & Hr).
  apply target_Done in Hnv as (? & _ & _ & ->).
  apply bind_Done in Hr as (gprev & s1 & Hgp & Hr).
  apply vertex_Done in Hgp as [_ ->].
  apply bind_Done in Hr as (gcur & s1 & Hgc & Hr).
  apply vertex_Done in Hgc as [Hgc ->].
  apply bind_Done in Hr as (gnext & s1 & Hgn & Hr).
  apply vertex_Done in Hgn as [_ ->].
  apply bind_Done in Hr as (ss & s1 & Hss & Hr).
  apply gets_Done in Hss as [-> ->].
  apply bind_Done in Hr as (se & s1 & Hse & Hr).
  apply gets_Done in Hse as [-> ->].
  cbv zeta in Hr.
  match type of Hr with
  | (if _ && negb (bool_decide (is_Some ?fd)) then _ else _) _ = _ =>
      set (found := fd) in Hr
  end.
  destruct (_ && negb _) eqn:Hgo in Hr.
  - apply IH in Hr. exact Hr.
  - apply ret_Done in Hr as [-> ->]. split; [reflexivity|]. simpl.
    assert (Hx' : xc = x) by congruence. subst xc.
    clear Hgo. subst found.
    destruct (bool_decide (status gcur = NEW)) eqn:Hst; simpl; [|exact I].
    destruct (bool_decide (type gcur = SEPPOINT)) eqn:Hty; simpl; [exact I|].
    destruct (_ || _); simpl; [|exact I].
    destruct (bool_decide (etarget x ∈ sv)) eqn:Hin; simpl; [exact I|].
    apply bool_decide_eq_true in Hst. apply bool_decide_eq_false in Hty.
    apply bool_decide_eq_false in Hin.
    split; [|exact Hin]. exists x, gcur. auto 10.
Qed.

Lemma find_edge_data_v2_spec n v1 st c s r s' :
  find_edge_data_v2 n v1 st c s = Done r s' ->
  s' = s /\
  match r with
  | Some (v, e, nx) => new_at s v e nx /\ v <> v1
  | None => True
  end.
Proof.
  revert c. induction n as [|n IH]; intros c Hr; simpl in Hr; [discriminate|].
  apply bind_Done in Hr as (cv & s1 & Hcv & Hr).
  apply target_Done in Hcv as (xc & Hxc & -> & ->).
  apply bind_Done in Hr as (gcur & s1 & Hgc & Hr).
  apply vertex_Done in Hgc as [Hgc ->].
  apply bind_Done in Hr as (x & s1 & Hx & Hr).
  apply edge_Done in Hx as [Hx ->].
  cbv zeta in Hr.
  match type of Hr with
  | (if _ && negb (bool_decide (is_Some ?fd)) then _ else _) _ = _ =>
      set (found := fd) in Hr
  end.
  destruct (_ && negb _) eqn:Hgo in Hr.
  - apply IH in Hr. exact Hr.
  - apply ret_Done in Hr as [-> ->]. split; [reflexivity|].
    assert (Hx' : xc = x) by congruence. subst xc.
    clear Hgo. subst found.
    destruct (bool_decide (status gcur = NEW)) eqn:Hst; simpl; [|exact I].
    destruct (bool_decide (type gcur = SEPPOINT)) eqn:Hty; simpl; [exact I|].
    destruct (bool_decide (etarget x <> v1)) eqn:Hne; simpl; [|exact I].
    apply bool_decide_eq_true in Hst. apply bool_decide_eq_false in Hty.
    apply bool_decide_eq_true in Hne.
    split; [|exact Hne]. exists x, gcur. auto 10.
Qed.

End FindEdgeData.

Section LineSiteEdges.
Context `{External}.

Lemma face_side_update_edge D G e f : stable (face_side D G) (update_edge e f).
Proof.
  intros s u s' Hs Hr.
  apply update_edge_Done in Hr as (i & x & -> & Hx & ->). exact Hs.
Qed.
Lemma face_side_update_face D G fc f : stable (face_side D G) (update_face fc f).
Proof.
  intros s u s' [HD HG] Hr.
  apply update_face_Done in Hr as (i & x & -> & Hx & ->).
  split; [|exact HG]. simpl. rewrite dom_insert_L, <- HD.
  apply elem_of_dom_2 in Hx. apply set_eq. intros j.
  rewrite elem_of_union, elem_of_singleton.
  split; [intros [->|Hj]; assumption | auto].
Qed.
Lemma face_side_hedi_add_edge D G u w : stable (face_side D G) (hedi.add_edge u w).
Proof.
  unfold hedi.add_edge. stable_auto. apply stable_modify. intros s Hs. exact Hs.
Qed.
Lemma face_side_add_twin_edges D G u w :
  stable (face_side D G) (hedi.add_twin_edges u w).
Proof.
  unfold hedi.add_twin_edges, hedi.twin_edges.
  pose proof face_side_update_edge. pose proof face_side_hedi_add_edge.
  stable_auto; eauto.
Qed.
Lemma face_side_hedi_add_face D G :
  hoare (face_side D G) hedi.add_face
    (fun f s => f = Some (fresh D) /\ face_side ({[fresh D]} ∪ D) G s).
Proof.
  intros s f s' Hs Hr. unfold hedi.add_face in Hr. inv_run.
  destruct Hs as [<- <-]. split; [reflexivity|].
  split; [|reflexivity]. simpl. apply dom_insert_L.
Qed.
Lemma face_side_add_face D G site :
  isPoint site = false ->
  hoare (face_side D G) (add_face site)
    (fun f s => f = Some (fresh D) /\ face_side ({[fresh D]} ∪ D) G s).
Proof.
  intros Hp. unfold add_face. rewrite Hp.
  eapply hoare_bind; [apply face_side_hedi_add_face|]. intros f.
  apply hoare_pure. intros ->.
  apply hoare_bind_stable; [apply face_side_update_face|]. intros ?.
  apply hoare_bind_stable; [apply face_side_update_face|]. intros ?.
  apply hoare_bind_stable; [apply stable_ret|]. intros ?.
  apply hoare_ret. auto.
Qed.

Lemma seen_add_face {A} (fv : VoronoiVertex -> A) V E site :
  stable (seen fv V E) (add_face site).
Proof.
  unfold add_face, hedi.add_face, fgrid_add_face, face_props.
  stable_auto; eauto with shape; apply stable_modify; intros s Hs; exact Hs.
Qed.

End LineSiteEdges.

Lemma splits_added_refl s : splits_added 0 s s.
Proof.
  split; [reflexivity|]. split; [|split; [lia|split; [lia|reflexivity]]].
  intros i x Hx Hn. congruence.
Qed.

Lemma splits_added_trans a b s0 s1 s2 :
  splits_added a s0 s1 -> splits_added b s1 s2 -> splits_added (a + b) s0 s2.
Proof.
  intros (Hs & Hn & Hz & Hc & Hm) (Hs' & Hn' & Hz' & Hc' & Hm').
  split; [etrans; eassumption|].
  split; [|split; [lia|split; [lia|congruence]]].
  intros i x Hx Hnone. destruct (vertices (g s1) !! i) as [y|] eqn:Hy.
  - pose proof (lookup_weaken _ _ _ _ Hy Hs') as Hy'.
    assert (x = y) by congruence. subst y.
    destruct (Hn _ _ Hy Hnone) as (? & ? & ?). repeat split; try assumption; lia.
  - destruct (Hn' _ _ Hx Hy) as (? & ? & ?). repeat split; try assumption; lia.
Qed.

Section AddSplitVertex.
Context `{External}.

Lemma find_split_edges_loop_same s0 n pt1 pt2 st c out :
  stable (fun s => s = s0) (find_split_edges_loop n pt1 pt2 st c out).
Proof.
  revert c out. induction n as [|n IH]; intros c out; simpl;
    [apply stable_fail|].
  unfold hedi.target, hedi.source, edge, vertex, assertM,
    vd_checker_check_edge.
  stable_auto.
Qed.

Lemma find_split_edges_same f pt1 pt2 s l s' :
  find_split_edges f pt1 pt2 s = Done l s' -> s' = s.
Proof.
  intros Hr.
  refine ((_ : stable (fun x => x = s) _) s l s' eq_refl Hr).
  unfold find_split_edges, assertM, vd_checker_face_ok, face_props.
  pose proof (find_split_edges_loop_same s).
  stable_auto.
Qed.

Lemma add_split_vertex_loop_spec fpos pt1 pt2 l s s' :
  add_split_vertex_loop fpos pt1 pt2 l s = Done tt s' ->
  exists n, n <= length l /\ splits_added n s s'.
Proof.
  revert s. induction l as [|e l IH]; intros s Hr; simpl in Hr.
  - apply ret_Done in Hr as [_ ->]. exists 0. split; [lia|].
    apply splits_added_refl.
  - apply bind_Done in Hr as (x & s1 & Hx & Hr).
    apply edge_Done in Hx as [Hx ->].
    destruct (_ || _) in Hr.
    { apply ret_Done in Hr as [_ ->]. exists 0. split; [lia|].
      apply splits_added_refl. }
    apply bind_Done in Hr as (src & s1 & Hs & Hr).
    apply source_Done in Hs as (? & _ & _ & ->).
    apply bind_Done in Hr as (trg & s1 & Ht & Hr).
    apply target_Done in Ht as (? & _ & _ & ->).
    apply bind_Done in Hr as (gsrc & s1 & Hs & Hr).
    apply vertex_Done in Hs as [_ ->].
    apply bind_Done in Hr as (gtrg & s1 & Ht & Hr).
    apply vertex_Done in Ht as [_ ->].
    apply bind_Done in Hr as (gr & s1 & Hg & Hr).
    apply gets_Done in Hg as [-> ->]. cbv zeta in Hr.
    destruct (_ <=? _)%D in Hr.
    { apply ret_Done in Hr as [_ ->]. exists 0. split; [lia|].
      apply splits_added_refl. }
    apply bind_Done in Hr as (v & s1 & Hv & Hr).
    unfold add_new_vertex in Hv.
    apply bind_Done in Hv as (y & s2 & Hy & Hv).
    apply VoronoiVertex_new_Done in Hy as [-> ->].
    apply add_vertex_Done in Hv as [-> ->].
    apply bind_Done in Hr as ([] & s1 & Hc & Hr).
    unfold assertM, vd_checker_check_edge in Hc.
    apply bind_Done in Hc as (b & s2 & Hb & Hc).
    apply gets_Done in Hb as [_ ->]. apply assert_Done in Hc as [_ ->].
    apply bind_Done in Hr as ([] & s1 & Hin & Hr).
    eapply (side_add_vertex_in_edge _ _ _ _ _ _ tt s1) in Hin;
      [|repeat split].
    destruct Hin as (Hv & Hc & Hm). cbn in Hv, Hc, Hm.
    destruct (IH _ Hr) as (n & Hle & Hn).
    exists (1 + n). split; [simpl; lia|].
    refine (splits_added_trans 1 n s s1 s' _ Hn).
    set (i := fresh (dom (vertices (g s)))) in *.
    assert (Hfresh : vertices (g s) !! i = None).
    { apply not_elem_of_dom, is_fresh. }
    unfold splits_added. rewrite Hv, Hc, Hm.
    split; [apply insert_subseteq; exact Hfresh|].
    split; [|split; [|split; [lia|reflexivity]]].
    + intros j z Hj Hnone. destruct (decide (j = i)) as [->|Hne].
      * rewrite lookup_insert_eq in Hj. injection Hj as <-. simpl.
        repeat split; lia.
      * rewrite lookup_insert_ne in Hj by congruence. congruence.
    + rewrite map_size_insert_None by exact Hfresh. lia.
Qed.

Lemma add_split_vertex_shape f site s s' :
  add_split_vertex f site s = Done tt s' ->
  (exists n, splits_added n s s') /\
  (isPoint site = true -> s' = s) /\
  (forall fs, face_site f s = Done fs s -> isPoint fs = false -> s' = s).
Proof.
  intros Hr. unfold add_split_vertex in Hr.
  destruct (isPoint site) eqn:Hp.
  { apply ret_Done in Hr as [_ ->].
    split; [exists 0; apply splits_added_refl|]. auto. }
  apply bind_Done in Hr as (fs & s1 & Hfs & Hr).
  apply face_site_Done in Hfs as [Hfs ->].
  split; [|split; [discriminate|]].
  - destruct fs as [fpos ?|? ? ? ?], site as [?|s_start s_end ? ?];
      try (apply ret_Done in Hr as [_ ->]; exists 0; apply splits_added_refl).
    destruct (_ || _) in Hr;
      [apply ret_Done in Hr as [_ ->]; exists 0; apply splits_added_refl|].
    destruct (in_region _ _) in Hr;
      [|apply ret_Done in Hr as [_ ->]; exists 0; apply splits_added_refl].
    cbv zeta in Hr.
    apply bind_Done in Hr as ([] & s1 & Ha & Hr).
    apply assert_Done in Ha as [_ ->].
    apply bind_Done in Hr as (l & s1 & Hl & Hr).
    apply find_split_edges_same in Hl as ->.
    apply add_split_vertex_loop_spec in Hr as (n & _ & Hn). eauto.
  - intros fs' Hfs' Hline. assert (fs' = fs) by congruence. subst fs'.
    destruct fs as [fpos ?|? ? ? ?]; [discriminate|].
    destruct site; apply ret_Done in Hr as [_ ->]; reflexivity.
Qed.

End AddSplitVertex.

Lemma splits_removed_refl s : splits_removed s s.
Proof.
  split; [reflexivity|]. split; [|split; reflexivity].
  intros i x Hx Hn. congruence.
Qed.

Lemma splits_removed_trans s0 s1 s2 :
  splits_removed s0 s1 -> splits_removed s1 s2 -> splits_removed s0 s2.
Proof.
  intros (Hs & Hn & Hc & Hm) (Hs' & Hn' & Hc' & Hm').
  split; [etrans; eassumption|].
  split; [|split; [congruence | etrans; eassumption]].
  intros i x Hx Hnone. destruct (vertices (g s1) !! i) as [y|] eqn:Hy.
  - pose proof (lookup_weaken _ _ _ _ Hy Hs) as Hy'.
    assert (x = y) by congruence. subst y. eauto.
  - eauto.
Qed.

Section RemoveSplitVertex.
Context `{External}.

Lemma side_remove_deg2_vertex V c M v :
  hoare (vertex_side V c M) (hedi.remove_deg2_vertex v)
    (fun _ s => exists i, v = Some i /\ vertex_side (delete i V) c M s).
Proof.
  unfold hedi.remove_deg2_vertex, hedi.out_edge_itr, hedi.previous_edge,
    hedi.set_next, hedi.add_twin_edges, hedi.twin_edges, edge, vertex.
  pose proof side_update_edge. pose proof side_update_face.
  pose proof side_hedi_add_edge. pose proof side_previous_edge_loop.
  repeat lazymatch goal with
  | |- hoare _ (bind _ _) _ =>
      apply hoare_bind_stable; [solve [stable_auto; eauto] | intros ?]
  | |- hoare _ (let _ := _ in _) _ => cbv zeta
  end.
  intros s u s' (HV & Hc & HM) Hr.
  apply delete_vertex_Done in Hr as (i & x & -> & Hx & ->).
  exists i. split; [reflexivity|]. unfold vertex_side. simpl.
  rewrite HV. auto.
Qed.

Lemma remove_split_vertex_loop_removes n f s s' :
  remove_split_vertex_loop n f s = Done tt s' -> splits_removed s s'.
Proof.
  revert s. induction n as [|n IH]; intros s Hr; simpl in Hr;
    apply bind_Done in Hr as (r & s1 & Hf & Hr);
    apply find_split_vertex_spec in Hf as [-> _];
    (destruct r as [v|];
     [|apply ret_Done in Hr as [_ ->]; apply splits_removed_refl]);
    [discriminate|].
  apply bind_Done in Hr as (gv & s1 & Hv & Hr).
  apply vertex_Done in Hv as [Hv ->].
  apply bind_Done in Hr as ([] & s1 & Ha & Hr).
  apply assert_Done in Ha as [Ha ->]. apply bool_decide_eq_true in Ha.
  apply bind_Done in Hr as ([] & s1 & Hd & Hr).
  apply (side_remove_deg2_vertex (vertices (g s)) (count s)
           (modified_vertices s) _ s tt s1) in Hd; [|repeat split].
  destruct Hd as (i & -> & HV & Hc & HM).
  apply bind_Done in Hr as ([] & s2 & Hm & Hr).
  apply modify_Done in Hm. subst s2.
  apply bind_Done in Hr as ([] & s2 & Hok & Hr).
  unfold assertM, vd_checker_face_ok in Hok.
  apply bind_Done in Hok as (b & s3 & Hb & Hok).
  apply gets_Done in Hb as [_ ->]. apply assert_Done in Hok as [_ ->].
  apply IH in Hr.
  refine (splits_removed_trans _ _ _ _ Hr).
  simpl in Hv. unfold splits_removed. simpl. rewrite HV, Hc, HM.
  split; [apply delete_subseteq|].
  split; [|split; [reflexivity|apply subseteq_difference_l; reflexivity]].
  intros j y Hy Hnone. destruct (decide (j = i)) as [->|Hne].
  - congruence.
  - rewrite lookup_delete_ne in Hnone by congruence. congruence.
Qed.

End RemoveSplitVertex.
(** ** The faces [mark_adjacent_faces_p] flags *)

Lemma faces_marked_nil s : faces_marked [] s = s.
Proof.
  unfold faces_marked, flag_all. simpl. rewrite app_nil_r.
  destruct s as [[? ? ?] ? ? ? ? ? ? ? ? ? ? ? ? ? ? ?]. reflexivity.
Qed.

Lemma faces_marked_cons f added s :
  faces_marked (f :: added) s = faces_marked added (faces_marked [f] s).
Proof.
  unfold faces_marked, flag_all. simpl. rewrite <- app_assoc. reflexivity.
Qed.

Lemma flag_all_lookup added F i :
  flag_all added F !! i
  = if bool_decide (Some i ∈ added) then set_fstatus INCIDENT <$> F !! i
    else F !! i.
Proof.
  revert F. induction added as [|f added IH]; intros F.
  - reflexivity.
  - unfold flag_all in *. simpl. rewrite IH.
    destruct (decide (f = Some i)) as [->|Hne].
    + simpl. rewrite lookup_alter_eq.
      rewrite (bool_decide_eq_true_2 (Some i ∈ Some i :: added))
        by (apply elem_of_cons; auto).
      destruct (bool_decide (Some i ∈ added)); [|reflexivity].
      destruct (F !! i); reflexivity.
    + assert (Hl : flag_incident f F !! i = F !! i).
      { destruct f as [j|]; [|reflexivity]. simpl.
        apply lookup_alter_ne. intros ->. apply Hne. reflexivity. }
      rewrite Hl.
      destruct (decide (Some i ∈ added)) as [Hin|Hin].
      * rewrite !bool_decide_eq_true_2; [reflexivity | | exact Hin].
        apply elem_of_cons; auto.
      * rewrite !bool_decide_eq_false_2; [reflexivity | | exact Hin].
        rewrite elem_of_cons. intros [?|?]; [congruence | contradiction].
Qed.

Section MarkFaces.
Context `{External}.

(** The loop of [mark_adjacent_faces_p]. *)
Lemma mark_faces_loop l s s' :
  foreach l (fun e =>
    x <- edge e ;;
    let adj_face := eface x in
    fp <- face_props adj_face ;;
    if negb (bool_decide (fstatus fp = INCIDENT))
    then update_face adj_face (set_fstatus INCIDENT) ;;
         modify (fun s => with_incident_faces (incident_faces s ++ [adj_face]) s)
    else ret tt) s = Done tt s' ->
  exists added,
    NoDup added /\
    (forall f, f ∈ added <-> face_of_some s l f /\ not_incident s f) /\
    (forall f, face_of_some s l f -> is_Some (graph_face (g s) f)) /\
    s' = faces_marked added s.
Proof.
  revert s. induction l as [|e l IH]; intros s Hr; simpl in Hr.
  - apply ret_Done in Hr as [_ ->]. exists []. split; [constructor|].
    split; [|split; [|symmetry; apply faces_marked_nil]].
    + intros f. split; [intros Hin; inversion Hin|].
      intros [(e & x & He & _) _]. inversion He.
    + intros f (e & x & He & _). inversion He.
  - apply bind_Done in Hr as ([] & s1 & Hb & Hr).
    apply bind_Done in Hb as (x & s2 & Hx & Hb).
    apply edge_Done in Hx as [Hx ->]. cbv zeta in Hb.
    apply bind_Done in Hb as (fp & s2 & Hfp & Hb).
    apply face_props_Done in Hfp as [Hfp ->].
    destruct (bool_decide (fstatus fp = INCIDENT)) eqn:Hst; simpl in Hb.
    + apply ret_Done in Hb as [_ ->]. apply bool_decide_eq_true in Hst.
      destruct (IH _ Hr) as (added & Hnd & Hchar & Hall & ->).
      exists added. split; [exact Hnd|]. split; [|split; [|reflexivity]].
      * intros f. rewrite Hchar. split.
        -- intros [(e' & x' & He' & Hx' & Hf) Hn]. split; [|exact Hn].
           exists e', x'. rewrite elem_of_cons. auto.
        -- intros [(e' & x' & He' & Hx' & Hf) Hn]. split; [|exact Hn].
           apply elem_of_cons in He' as [->|He']; [|exists e', x'; auto].
           destruct Hn as (fp' & Hfp' & Hn). exfalso. apply Hn.
           assert (x' = x) by congruence. subst. congruence.
      * intros f (e' & x' & He' & Hx' & Hf).
        apply elem_of_cons in He' as [->|He'].
        -- assert (x' = x) by congruence. subst. eauto.
        -- apply Hall. exists e', x'. auto.
    + apply bool_decide_eq_false in Hst.
      apply bind_Done in Hb as ([] & s2 & Hu & Hm).
      apply update_face_Done in Hu as (i & fp' & Hi & Hfp' & ->).
      apply modify_Done in Hm. subst s1. simpl in Hfp.
      rewrite Hi in Hfp. simpl in Hfp.
      assert (fp' = fp) by congruence. subst fp'.
      set (s1 := with_incident_faces _ _) in Hr.
      assert (Hs1 : s1 = faces_marked [eface x] s).
      { unfold s1, faces_marked, flag_all. simpl. rewrite Hi. simpl.
        unfold with_incident_faces, with_g, put_face. simpl. f_equal. f_equal.
        apply map_eq. intros j. destruct (decide (j = i)) as [->|Hne].
        - rewrite lookup_insert_eq, lookup_alter_eq, Hfp. reflexivity.
        - rewrite lookup_insert_ne, lookup_alter_ne by congruence.
          reflexivity. }
      destruct (IH _ Hr) as (added & Hnd & Hchar & Hall & ->).
      assert (Hinc : forall f, not_incident s1 f <->
                               not_incident s f /\ f <> eface x).
      { intros f. unfold not_incident. rewrite Hi.
        destruct f as [j|]; simpl.
        - destruct (decide (j = i)) as [->|Hne].
          + rewrite lookup_insert_eq. split.
            * intros (? & [= <-] & Hn). destruct Hn. reflexivity.
            * intros [_ Hn]. destruct Hn. reflexivity.
          + rewrite lookup_insert_ne by congruence. split.
            * intros Hn. split; [exact Hn|congruence].
            * intros [Hn _]. exact Hn.
        - split; [intros (? & [=] & _) | intros [(? & [=] & _) _]]. }
      exists (eface x :: added). split; [|split; [|split]].
      * constructor; [|exact Hnd]. rewrite Hchar, Hinc. tauto.
      * intros f. rewrite elem_of_cons, Hchar, Hinc. split.
        -- intros [->|[(e' & x' & He' & Hx' & Hf) [Hn _]]].
           ++ split; [exists e, x; rewrite elem_of_cons; auto|].
              exists fp. rewrite Hi. auto.
           ++ split; [|exact Hn]. exists e', x'. rewrite elem_of_cons. auto.
        -- intros [(e' & x' & He' & Hx' & Hf) Hn].
           destruct (decide (f = eface x)) as [->|Hne]; [auto|]. right.
           split; [|auto].
           apply elem_of_cons in He' as [->|He']; [|exists e', x'; auto].
           congruence.
      * intros f (e' & x' & He' & Hx' & Hf).
        apply elem_of_cons in He' as [->|He'].
        -- assert (x' = x) by congruence. subst. rewrite Hi. simpl. eauto.
        -- assert (Hp : is_Some (graph_face (g s1) f))
             by (apply Hall; exists e', x'; auto).
           destruct f as [j|]; [|destruct Hp as [? [=]]]. simpl in *.
           destruct (decide (j = i)) as [->|Hne]; [eauto|].
           unfold s1 in Hp. simpl in Hp.
           rewrite lookup_insert_ne in Hp by congruence. exact Hp.
      * rewrite Hs1. symmetry. apply faces_marked_cons.
Qed.

End MarkFaces.

(** ** A point insertion, phase by phase *)

(** Two computations that start alike go on alike. *)
Lemma bind_cong {A B} (m : M A) (k k' : A -> M B) s :
  (forall a s1, k a s1 = k' a s1) -> bind m k s = bind m k' s.
Proof. intros Hk. unfold bind. destruct (m s); [apply Hk | reflexivity]. Qed.
Lemma bind_assoc {A B C} (m : M A) (k : A -> M B) (k' : B -> M C) s :
  bind (bind m k) k' s = bind m (fun a => bind (k a) k') s.
Proof. unfold bind. destruct (m s); reflexivity. Qed.
Lemma bind_ret {A B} (a : A) (k : A -> M B) s : bind (ret a) k s = k a s.
Proof. reflexivity. Qed.

(** One step along two computations that start alike, the phases on the
    right opened as they come. *)
Ltac phases_step :=
  repeat (first [ rewrite bind_assoc | rewrite bind_ret ];
          cbv beta; cbn [ins_vert ins_site ins_face]);
  lazymatch goal with
  | |- bind ?m _ _ = bind ?m _ _ => apply bind_cong; intros ? ?
  | |- ?x = ?x => reflexivity
  end.

Section Phases.
Context `{External}.

(** With [step] in 1..5 a point insertion is the phases 1 to [step] and the
    return of -1. *)
Lemma insert_point_site_phases p step s :
  (1 <= step <= 5)%Z ->
  insert_point_site p step s
  = (c <- point_phases (Z.to_nat step) p ;; ret (-1)%Z) s.
Proof.
  intros Hstep.
  assert (Hc : (step = 1 \/ step = 2 \/ step = 3 \/ step = 4 \/ step = 5)%Z)
    by lia.
  destruct Hc as [->|[->|[->|[->| ->]]]];
    cbv [insert_point_site Z.to_nat Pos.to_nat Pos.iter_op Init.Nat.add
         Z.eqb Z.add Pos.eqb Pos.add Pos.succ point_phases point_phase
         point_phase1];
    repeat phases_step.
Qed.

(** With any other [step] it is the five phases and the closing part. *)
Lemma insert_point_site_completes p step s :
  ~ (1 <= step <= 5)%Z ->
  insert_point_site p step s = (c <- point_phases 5 p ;; point_close c) s.
Proof.
  intros Hstep.
  assert (E1 : (step =? 1)%Z = false) by lia.
  assert (E2 : (step =? 2)%Z = false) by lia.
  assert (E3 : (step =? 3)%Z = false) by lia.
  assert (E4 : (step =? 4)%Z = false) by lia.
  assert (E5 : (step =? 5)%Z = false) by lia.
  cbv [insert_point_site Z.add Pos.add Pos.succ point_phases point_phase
       point_phase1 point_close].
  repeat (rewrite ?E1, ?E2, ?E3, ?E4, ?E5; phases_step).
Qed.

End Phases.


(** ** The properties of the specification *)

(** C4. For every freshly constructed engine, after a session with N calls
    of [insert_point_site] and M calls of [insert_line_site] (in any order,
    each returning), [num_point_sites()] returns N+3 and [num_line_sites()]
    returns M. *)
Theorem num_sites_after_calls `{External} far n_bins count0 calls s0 s :
  VoronoiDiagram_new far n_bins (blank count0) = Done tt s0 ->
  perform_all calls s0 = Done tt s ->
  num_point_sites s = Done (Z.of_nat (point_calls calls) + 3)%Z s /\
  num_line_sites s = Done (Z.of_nat (line_calls calls)) s.
Proof.
  intros Hnew Hcalls.
  apply VoronoiDiagram_new_registry in Hnew as (Hp & Hl & _).
  apply perform_all_counters in Hcalls as [Hp' Hl'].
  unfold num_point_sites, num_line_sites, gets.
  rewrite Hp', Hl', Hp, Hl. split; f_equal; lia.
Qed.

Lemma num_sites_after_calls_witness :
  num_point_sites demo_final = Done 5%Z demo_final /\
  num_line_sites demo_final = Done 1%Z demo_final.
Proof.
  apply (num_sites_after_calls (H := Demo.ext) 1 10 0 demo_session demo_frame
           demo_final).
  - vm_compute. reflexivity.
  - vm_compute. reflexivity.
Defined.

(** C8 (as amended). For a point [p] whose norm is not below the far radius,
    [insert_point_site] stops on the failed precondition before a vertex is
    added or an entry is made in [vertex_map]: the graph, the vertex counter
    and [vertex_map] are those of the call state.  The counter [num_psites]
    has already been incremented, and [segment_start], [segment_end] and
    [zero_point_face] have been cleared. *)
Theorem insert_point_site_outside_far_radius `{External} p step s :
  (norm p <? far_radius s)%D = false ->
  exists s1,
    insert_point_site p step s = Failed AssertionFailed s1 /\
    g s1 = g s /\ count s1 = count s /\ vertex_map s1 = vertex_map s /\
    num_lsites s1 = num_lsites s /\
    num_psites s1 = (num_psites s + 1)%Z /\
    segment_start s1 = None /\ segment_end s1 = None /\
    zero_point_face s1 = None.
Proof.
  intros Hfar. eexists. split.
  - unfold insert_point_site.
    unfold bind at 1, modify at 1. unfold bind at 1, modify at 1.
    unfold bind at 1, modify at 1. unfold bind at 1, modify at 1.
    cbv zeta. unfold bind at 1, gets at 1. simpl far_radius.
    unfold bind at 1. rewrite Hfar. reflexivity.
  - repeat split.
Qed.

Lemma insert_point_site_outside_far_radius_witness :
  exists s1,
    insert_point_site (H := Demo.ext) far_point 0 demo_frame
      = Failed AssertionFailed s1 /\
    g s1 = g demo_frame /\ count s1 = count demo_frame /\
    vertex_map s1 = vertex_map demo_frame /\
    num_lsites s1 = num_lsites demo_frame /\
    num_psites s1 = (num_psites demo_frame + 1)%Z /\
    segment_start s1 = None /\ segment_end s1 = None /\
    zero_point_face s1 = None.
Proof.
  apply (insert_point_site_outside_far_radius (H := Demo.ext) far_point 0
           demo_frame).
  vm_compute. reflexivity.
Defined.

(** C8, the claim as stated fails: on the frame of far radius 1 the call
    [insert_point_site((2,0))] stops on the precondition, and the counter of
    point sites has changed from 3 to 4. *)
Lemma insert_point_site_far_point_changes_counter :
  (norm (External := Demo.ext) far_point <? far_radius demo_frame)%D = false /\
  value_of (insert_point_site (H := Demo.ext) far_point 0 demo_frame) = None /\
  num_psites demo_frame = 3%Z /\
  num_psites (state_of (insert_point_site (H := Demo.ext) far_point 0 demo_frame))
    = 4%Z.
Proof. vm_compute. repeat split. Qed.

(** C9 (as amended). After construction with far radius [far] the initial
    frame contains exactly three generator points (POINTSITE vertices) at
    distance [3 far] from the origin, three OUTER vertices at distance
    [3 * 6 * far] (the far multiplier is 6), one NORMAL vertex at the origin
    and three APEX vertices at the midpoints of the generator pairs; of the
    fifteen half-edges (five around each of the three faces) exactly three
    are of type OUTEDGE and have no twin, and the remaining twelve are of
    type LINE, twinned, and carry the bisector of two generators.  Numbers
    are exact: rounding is not modelled. *)
Theorem initial_frame `{External} far n_bins count0 s :
  VoronoiDiagram_new far n_bins (blank count0) = Done tt s ->
  let gr := g s in
  position <$> vertices_of_type POINTSITE gr
    ≡ₚ [frame_gen1 far; frame_gen2 far; frame_gen3 far] /\
  Forall (at_distance (3 * far))
    [frame_gen1 far; frame_gen2 far; frame_gen3 far] /\
  position <$> vertices_of_type OUTER gr
    ≡ₚ [frame_vd1 far; frame_vd2 far; frame_vd3 far] /\
  Forall (at_distance (3 * 6 * far))
    [frame_vd1 far; frame_vd2 far; frame_vd3 far] /\
  position <$> vertices_of_type NORMAL gr = [mkPoint 0 0] /\
  position <$> vertices_of_type APEX gr
    ≡ₚ [midpoint (frame_gen2 far) (frame_gen3 far);
        midpoint (frame_gen1 far) (frame_gen3 far);
        midpoint (frame_gen1 far) (frame_gen2 far)] /\
  size (vertices gr) = 10 /\
  size (faces gr) = 3 /\
  size (edges gr) = 15 /\
  length (edges_of_type OUTEDGE gr) = 3 /\
  Forall (fun e => twin e = None) (edges_of_type OUTEDGE gr) /\
  length (edges_of_type LINE gr) = 12 /\
  Forall (fun e => twin e <> None /\ is_bisector e = true)
    (edges_of_type LINE gr).
Proof.
  intros Hr gr.
  destruct (initial_frame_graph _ _ _ _ Hr)
    as (Hp & Ho & Hn & Ha & Hv & He & Hlo & Hto & Hll & Htl & Hf & _).
  fold gr in Hp, Ho, Hn, Ha, Hv, He, Hlo, Hto, Hll, Htl, Hf.
  destruct (frame_gen_distance far) as (? & ? & ?).
  destruct (frame_vd_distance far) as (? & ? & ?).
  split. { rewrite Hp. apply (Permutation_cons_append [_; _]). }
  split.
  { constructor; [assumption|]. constructor; [assumption|].
    constructor; [assumption|]. constructor. }
  split. { rewrite Ho. symmetry. apply (Permutation_cons_append [_; _]). }
  split.
  { constructor; [assumption|]. constructor; [assumption|].
    constructor; [assumption|]. constructor. }
  split. { exact Hn. }
  split. { rewrite Ha. symmetry. apply (Permutation_cons_append [_; _]). }
  split. { exact Hv. }
  split. { exact Hf. }
  split. { exact He. }
  split. { exact Hlo. }
  split.
  { apply Forall_forall. intros e He'. apply list_elem_of_In in He'.
    rewrite forallb_forall in Hto. specialize (Hto e He').
    unfold has_twin in Hto. rewrite negb_involutive in Hto.
    apply bool_decide_eq_true in Hto. exact Hto. }
  split. { exact Hll. }
  apply Forall_forall. intros e He'. apply list_elem_of_In in He'.
  rewrite forallb_forall in Htl. specialize (Htl e He').
  apply andb_true_iff in Htl as [Ht Hb]. split; [|exact Hb].
  unfold has_twin in Ht. apply negb_true_iff, bool_decide_eq_false in Ht.
  exact Ht.
Qed.

Lemma initial_frame_witness :
  size (edges (g demo_frame)) = 15 /\
  length (edges_of_type LINE (g demo_frame)) = 12.
Proof.
  pose proof (initial_frame (H := Demo.ext) 1 10 0 demo_frame) as Hf.
  assert (Hnew : VoronoiDiagram_new (H := Demo.ext) 1 10 (blank 0)
                 = Done tt demo_frame) by (vm_compute; reflexivity).
  specialize (Hf Hnew). cbv zeta in Hf.
  destruct Hf as (_ & _ & _ & _ & _ & _ & _ & _ & He & _ & _ & Hl & _).
  split; assumption.
Defined.

(** C9, the claim as stated fails: the frame of far radius 1 has fifteen
    half-edges, not nine, and twelve of them, not six, are of type LINE. *)
Lemma initial_frame_not_nine_half_edges :
  size (edges (g demo_frame)) <> 9 /\
  length (edges_of_type LINE (g demo_frame)) <> 6 /\
  length (edges_of_type OUTEDGE (g demo_frame)) = 3.
Proof. vm_compute. repeat split; discriminate. Qed.



(** C7 (as amended).  With [step] in 1..5 the call
    [insert_point_site(p, step)] is the phases 1 to [step] of the insertion,
    one after the other, and then the return of -1: it returns exactly when
    these phases complete, in the state they leave, and what it returns is
    -1.  With any other [step], 6 included, no checkpoint is taken: the call
    is the five phases and the closing part (reset, checks), and when it
    returns it returns the index of the site, which is the value the vertex
    counter had at the call and the index of the vertex the call added. *)
Theorem insert_point_site_step_returns `{External} p step s :
  ((1 <= step <= 5)%Z ->
   insert_point_site p step s
   = (c <- point_phases (Z.to_nat step) p ;; ret (-1)%Z) s) /\
  (~ (1 <= step <= 5)%Z ->
   insert_point_site p step s = (c <- point_phases 5 p ;; point_close c) s /\
   forall r s',
     insert_point_site p step s = Done r s' ->
     r = count s /\ has_index (next_vertex s) r s').
Proof.
  split.
  - apply insert_point_site_phases.
  - intros Hstep. split; [apply insert_point_site_completes; exact Hstep|].
    intros r s' Hr. eapply insert_point_site_index; eassumption.
Qed.

Lemma insert_point_site_step_returns_witness :
  let H := Demo.ext in
  let p := demo_point 0 0 in
  let s3 := state_of (point_phases 3 p demo_frame) in
  point_phases 3 p demo_frame
    = Done (mkInsertion (next_vertex demo_frame) (PointSite p None) None) s3 /\
  insert_point_site p 3 demo_frame = Done (-1)%Z s3.
Proof.
  intros H p s3. split; [vm_compute; reflexivity|].
  etransitivity;
    [apply (proj1 (insert_point_site_step_returns (H := Demo.ext) p 3
                     demo_frame)); lia|].
  vm_compute. reflexivity.
Defined.

(** C7, the claim as stated fails for [step = 6]: on the frame of far radius
    1 the call [insert_point_site((0,0), 6)] of the valid point (0,0) returns
    the index 0 of the site, not -1. *)
Lemma insert_point_site_step_six_returns_index :
  (norm (External := Demo.ext) (demo_point 0 0) <? far_radius demo_frame)%D
    = true /\
  value_of (insert_point_site (H := Demo.ext) (demo_point 0 0) 6 demo_frame)
    = Some 0%Z /\
  value_of (insert_point_site (H := Demo.ext) (demo_point 0 0) 6 demo_frame)
    <> Some (-1)%Z.
Proof. vm_compute. repeat split. discriminate. Qed.

(** C10.  When two calls of [insert_point_site] of a session ran to
    completion and returned [idx1] and [idx2], then in every later state of
    the session [vertex_map] holds under each index the vertex its call
    added, and [find_endpoints(idx1, idx2)] returns exactly that pair of
    vertex descriptors. *)
Theorem find_endpoints_of_created `{External} s idx1 v1 idx2 v2 :
  created s idx1 v1 -> created s idx2 v2 ->
  vertex_map s !! idx1 = Some v1 /\
  vertex_map s !! idx2 = Some v2 /\
  find_endpoints idx1 idx2 s = Done (v1, v2) s.
Proof.
  intros H1 H2.
  apply created_vertex_map in H1. apply created_vertex_map in H2.
  repeat split; try assumption.
  apply find_endpoints_lookup; assumption.
Qed.

Lemma find_endpoints_of_created_witness :
  let s1 := state_of (perform_all (H := Demo.ext)
                        [point_call (demo_point 0 0) 0] demo_frame) in
  vertex_map demo_final !! 0%Z = Some (next_vertex demo_frame) /\
  vertex_map demo_final !! 7%Z = Some (next_vertex s1) /\
  find_endpoints 0 7 demo_final
    = Done (next_vertex demo_frame, next_vertex s1) demo_final.
Proof.
  intros s1.
  assert (Hframe : constructed (H := Demo.ext) demo_frame).
  { exists 1%D, 10%nat, 0%Z. vm_compute. reflexivity. }
  apply (find_endpoints_of_created (H := Demo.ext)).
  - exists demo_frame, (demo_point 0 0), 0%Z, s1,
      [point_call (demo_point 0.5 0.25) 0; line_call 7 0 3].
    split; [exists demo_frame, []; split; [exact Hframe | reflexivity]|].
    split; [lia|].
    split; [vm_compute; reflexivity|].
    split; [reflexivity | vm_compute; reflexivity].
  - exists s1, (demo_point 0.5 0.25), 0%Z,
      (state_of (perform_all (H := Demo.ext)
         [point_call (demo_point 0 0) 0; point_call (demo_point 0.5 0.25) 0]
         demo_frame)),
      [line_call 7 0 3].
    split; [exists demo_frame, [point_call (demo_point 0 0) 0];
            split; [exact Hframe | vm_compute; reflexivity]|].
    split; [lia|].
    split; [vm_compute; reflexivity|].
    split; [reflexivity | vm_compute; reflexivity].
Defined.

(** ** Further properties of the engine *)

(** X1.  One turn of the augment loop, on the vertex [v] popped
    with in_circle value [h]: [v] is marked IN if and only if (a) [h] is
    negative, (b) [predicate_c4] is false: fewer than two of the half-edges
    leaving [v] end in an IN vertex, (c) [predicate_c5] is true: [v] is of
    kind APEX or SPLIT, or the ring of every INCIDENT face at [v] holds,
    apart from [v], an IN vertex with an edge to [v] or a vertex of kind
    ENDPOINT, APEX or SPLIT, and (d) the region of the new site has the
    position of [v]; in every other case [v] is marked OUT.  The predicates
    are read on the state in which the loop has popped [v]. *)
Theorem augment_vertex_set_body_decides `{External} site v h s s' :
  augment_vertex_set_body site v h s = Done tt s' ->
  let s1 := with_vertexQueue (queue_pop (vertexQueue s)) s in
  exists gv gv',
    graph_vertex (g s) v = Some gv /\ graph_vertex (g s') v = Some gv' /\
    (status gv' = IN <->
     (h <? 0)%D = true /\ (in_count s1 v < 2)%nat /\ c5_holds s1 v = true /\
     in_region site (position gv) = true) /\
    (status gv' <> IN -> status gv' = OUT).
Proof.
  intros Hr s1.
  apply augment_vertex_set_body_spec in Hr as (gv & Hgv & _ & Hd).
  fold s1 in Hd. exists gv. revert Hd.
  destruct (h <? 0)%D, (Nat.ltb_spec (in_count s1 v) 2) as [Hc4|Hc4],
    (c5_holds s1 v), (in_region site (position gv)); simpl;
    intros (gv' & Hgv' & Hst); exists gv';
    (split; [exact Hgv|]); (split; [exact Hgv'|]); rewrite Hst;
    (split; [split|]);
    try solve [ discriminate | congruence
              | intros (? & ? & ? & ?); first [congruence | lia]
              | intros; repeat split; first [reflexivity | assumption] ].
Qed.

Lemma augment_vertex_set_body_decides_witness :
  let H := Demo.ext in
  let h := Num.mk (-1 # 4) 0 in
  let s := augment_state in
  let s' := state_of (augment_vertex_set_body augment_site (Some 20%nat) h s) in
  let s1 := with_vertexQueue (queue_pop (vertexQueue s)) s in
  exists gv gv',
    graph_vertex (g s) (Some 20%nat) = Some gv /\
    graph_vertex (g s') (Some 20%nat) = Some gv' /\
    (status gv' = IN <->
     (h <? 0)%D = true /\ (in_count s1 (Some 20%nat) < 2)%nat /\
     c5_holds s1 (Some 20%nat) = true /\
     in_region augment_site (position gv) = true) /\
    (status gv' <> IN -> status gv' = OUT).
Proof.
  intros H h s s'.
  apply (augment_vertex_set_body_decides (H := Demo.ext) augment_site
           (Some 20%nat) h s s').
  vm_compute. reflexivity.
Defined.

(** X2.  [predicate_c4] leaves the state as it is and answers true exactly
    when two or more of the half-edges leaving the vertex end in a vertex
    that is IN. *)
Theorem predicate_c4_counts `{External} v s b s' :
  predicate_c4 v s = Done b s' ->
  s' = s /\ (b = true <-> (2 <= in_count s v)%nat).
Proof.
  intros Hr. apply predicate_c4_spec in Hr as [-> ->].
  split; [reflexivity|]. apply Nat.leb_le.
Qed.

Lemma predicate_c4_counts_witness :
  let s := with_vertexQueue (queue_pop (vertexQueue augment_state))
             augment_state in
  s = s /\ (false = true <-> (2 <= in_count s (Some 20%nat))%nat).
Proof.
  intros s.
  apply (predicate_c4_counts (H := Demo.ext) (Some 20%nat) s false s).
  vm_compute. reflexivity.
Defined.

(** X3.  [predicate_c5] leaves the state as it is.  It returns only for a
    vertex of kind APEX or SPLIT or with an INCIDENT face at it (otherwise
    its assertion stops it), and it answers true exactly when the vertex is
    of kind APEX or SPLIT or the ring of every INCIDENT face at the vertex
    holds, apart from the vertex, an IN vertex with an edge to it or a vertex
    of kind ENDPOINT, APEX or SPLIT. *)
Theorem predicate_c5_excuses `{External} v s b s' :
  predicate_c5 v s = Done b s' ->
  s' = s /\ b = c5_holds s v /\
  (type_among [APEX; SPLIT] s v = true \/ incident_faces_at s v <> []).
Proof.
  intros Hr. pose proof (predicate_c5_incident _ _ _ _ Hr) as Hinc.
  apply predicate_c5_spec in Hr as [-> ->]. auto.
Qed.

Lemma predicate_c5_excuses_witness :
  let H := Demo.ext in
  let s := with_vertexQueue (queue_pop (vertexQueue augment_state))
             augment_state in
  s = s /\ true = c5_holds s (Some 20%nat) /\
  (type_among [APEX; SPLIT] s (Some 20%nat) = true \/
   incident_faces_at s (Some 20%nat) <> []).
Proof.
  intros H s.
  apply (predicate_c5_excuses (H := Demo.ext) (Some 20%nat) s true s).
  vm_compute. reflexivity.
Defined.

(** X4.  A returning call [insert_line_site(idx1, idx2, step)] returns true
    exactly when [step] is none of the checkpoints 1..11.  Both indices are
    keys of the vertex map; the call adds one to [num_lsites] and leaves
    [num_psites], the vertex map and the far radius as they were. *)
Theorem insert_line_site_returns `{External} idx1 idx2 step s r s' :
  insert_line_site idx1 idx2 step s = Done r s' ->
  (r = true <-> ~ (1 <= step <= 11)%Z) /\
  num_lsites s' = (num_lsites s + 1)%Z /\
  num_psites s' = num_psites s /\
  vertex_map s' = vertex_map s /\
  far_radius s' = far_radius s /\
  is_Some (vertex_map s !! idx1) /\ is_Some (vertex_map s !! idx2).
Proof.
  intros Hr.
  assert (Hkeys : is_Some (vertex_map s !! idx1) /\
                  is_Some (vertex_map s !! idx2)).
  { destruct (vertex_map s !! idx1) eqn:H1, (vertex_map s !! idx2) eqn:H2;
      try (split; eauto; fail);
      rewrite (insert_line_site_missing idx1 idx2 step s) in Hr
        by (first [left; exact H1 | right; exact H2]);
      discriminate. }
  apply insert_line_site_registry in Hr as [(Hp & Hl & Hvm & Hfar & _) [Hf Ht]].
  repeat split; try assumption; try tauto.
  intros -> Hc. specialize (Hf Hc). discriminate.
Qed.

Lemma insert_line_site_returns_witness :
  let s := two_points_state in
  let s' := state_of (insert_line_site (H := Demo.ext) 7 0 3 s) in
  (false = true <-> ~ (1 <= 3 <= 11)%Z) /\
  num_lsites s' = (num_lsites s + 1)%Z /\
  num_psites s' = num_psites s /\
  vertex_map s' = vertex_map s /\
  far_radius s' = far_radius s /\
  is_Some (vertex_map s !! 7%Z) /\ is_Some (vertex_map s !! 0%Z).
Proof.
  intros s s'.
  apply (insert_line_site_returns (H := Demo.ext) 7 0 3 s false s').
  vm_compute. reflexivity.
Defined.

(** X5.  No call of a session removes or changes an entry of the vertex
    map: what [vertex_map] holds under a key before a sequence of returning
    calls of [insert_point_site] and [insert_line_site] (stepped or not), it
    holds after it. *)
Theorem vertex_map_entries_stay `{External} calls s s' k v :
  perform_all calls s = Done tt s' ->
  vertex_map s !! k = Some v ->
  vertex_map s' !! k = Some v.
Proof.
  intros Hr Hk. apply perform_all_vertex_map in Hr as [Hsub _].
  eapply lookup_weaken; eassumption.
Qed.

Lemma vertex_map_entries_stay_witness :
  let calls := [point_call (demo_point 0.5 0.25) 0; line_call 7 0 3] in
  let s' := state_of (perform_all (H := Demo.ext) calls one_point_state) in
  vertex_map s' !! 0%Z = Some (Some 10%nat).
Proof.
  intros calls s'.
  apply (vertex_map_entries_stay (H := Demo.ext) calls one_point_state s').
  - vm_compute. reflexivity.
  - vm_compute. reflexivity.
Defined.

(** X6.  The indices of the sites of a session increase: a call of
    [insert_point_site] that runs to completion returns a larger index than
    every completed call before it, whatever calls lie between the two. *)
Theorem site_indices_increase `{External} p1 step1 s1 r1 s1' calls s2
    p2 step2 r2 s2' :
  insert_point_site p1 step1 s1 = Done r1 s1' ->
  ~ (1 <= step1 <= 5)%Z ->
  perform_all calls s1' = Done tt s2 ->
  insert_point_site p2 step2 s2 = Done r2 s2' ->
  ~ (1 <= step2 <= 5)%Z ->
  (r1 < r2)%Z.
Proof.
  intros H1 Hs1 Hcalls H2 Hs2.
  pose proof (insert_point_site_index _ _ _ _ _ H1 Hs1) as [-> _].
  pose proof (insert_point_site_index _ _ _ _ _ H2 Hs2) as [-> _].
  apply insert_point_site_registry in H1 as [(_ & _ & _ & _ & Hc) _].
  apply perform_all_count in Hcalls. lia.
Qed.

Lemma site_indices_increase_witness : (0 < 7)%Z.
Proof.
  apply (site_indices_increase (H := Demo.ext)
           (demo_point 0 0) 0 demo_frame 0 one_point_state []
           one_point_state (demo_point 0.5 0.25) 0 7 two_points_state).
  - vm_compute. reflexivity.
  - lia.
  - reflexivity.
  - vm_compute. reflexivity.
  - lia.
Defined.

(** X7.  The constructor resets the vertex counter after it has built the
    initial frame: on a freshly constructed engine the first call of
    [insert_point_site] that runs to completion returns the index 0. *)
Theorem first_site_index `{External} far n_bins count0 s p step r s' :
  VoronoiDiagram_new far n_bins (blank count0) = Done tt s ->
  insert_point_site p step s = Done r s' ->
  ~ (1 <= step <= 5)%Z ->
  r = 0%Z.
Proof.
  intros Hnew Hr Hstep.
  apply VoronoiDiagram_new_Done in Hnew as [Hc _].
  pose proof (insert_point_site_index _ _ _ _ _ Hr Hstep) as [-> _].
  exact Hc.
Qed.

Lemma first_site_index_witness : 0%Z = 0%Z.
Proof.
  apply (first_site_index (H := Demo.ext) 1 10 0 demo_frame (demo_point 0 0) 0
           0 one_point_state).
  - vm_compute. reflexivity.
  - vm_compute. reflexivity.
  - lia.
Defined.

(** X8.  When one of the two indices is not a key of the vertex map,
    [insert_line_site] stops on the assertion of [find_endpoints] before it
    touches the graph: the graph, the vertex map, the vertex counter and
    [num_psites] are those of the call state; [num_lsites] has already been
    incremented and [zero_point_face] cleared. *)
Theorem insert_line_site_unknown_index `{External} idx1 idx2 step s :
  vertex_map s !! idx1 = None \/ vertex_map s !! idx2 = None ->
  exists s1,
    insert_line_site idx1 idx2 step s = Failed AssertionFailed s1 /\
    g s1 = g s /\ vertex_map s1 = vertex_map s /\ count s1 = count s /\
    num_psites s1 = num_psites s /\
    num_lsites s1 = (num_lsites s + 1)%Z /\
    zero_point_face s1 = None.
Proof.
  intros Hm. eexists. split.
  - apply insert_line_site_missing. exact Hm.
  - repeat split.
Qed.

Lemma insert_line_site_unknown_index_witness :
  exists s1,
    insert_line_site (H := Demo.ext) 0 1 0 demo_frame
      = Failed AssertionFailed s1 /\
    g s1 = g demo_frame /\ vertex_map s1 = vertex_map demo_frame /\
    count s1 = count demo_frame /\
    num_psites s1 = num_psites demo_frame /\
    num_lsites s1 = (num_lsites demo_frame + 1)%Z /\
    zero_point_face s1 = None.
Proof.
  apply (insert_line_site_unknown_index (H := Demo.ext) 0 1 0 demo_frame).
  left. vm_compute. reflexivity.
Defined.

(** X9.  When [remove_split_vertex(f)] returns, the ring of [f] holds no
    vertex of kind SPLIT. *)
Theorem remove_split_vertex_clears_ring `{External} f s s' :
  remove_split_vertex f s = Done tt s' ->
  exists ring,
    hedi.face_vertices f s' = Done ring s' /\
    forallb (fun w => negb (type_among [SPLIT] s' w)) ring = true.
Proof.
  unfold remove_split_vertex. intros Hr.
  apply bind_Done in Hr as (? & s1 & _ & Hr).
  apply bind_Done in Hr as ([] & s2 & Hloop & Hr).
  apply remove_split_vertex_loop_spec in Hloop.
  unfold assertM, vd_checker_face_ok in Hr.
  apply bind_Done in Hr as (b & s3 & Hb & Hr).
  apply gets_Done in Hb as [_ ->]. apply assert_Done in Hr as [_ ->].
  apply find_split_vertex_spec in Hloop as (_ & ring & Hring & Hnone).
  exists ring. auto.
Qed.

Lemma remove_split_vertex_clears_ring_witness :
  let H := split_ext in
  let s' := state_of (remove_split_vertex (Some 5%nat) split_placed_state) in
  exists ring,
    hedi.face_vertices (Some 5%nat) s' = Done ring s' /\
    forallb (fun w => negb (type_among [SPLIT] s' w)) ring = true.
Proof.
  intros H s'.
  apply (remove_split_vertex_clears_ring (H := split_ext) (Some 5%nat)
           split_placed_state s').
  vm_compute. reflexivity.
Defined.

(** X10.  [find_split_vertex(f)] does not change the state; it returns the
    first vertex of kind SPLIT on the ring of [f], and reports none exactly
    when the ring has no SPLIT vertex. *)
Theorem find_split_vertex_first `{External} f s r s' :
  find_split_vertex f s = Done r s' ->
  s' = s /\
  exists ring,
    hedi.face_vertices f s = Done ring s /\
    match r with
    | Some v =>
        exists pre post, ring = pre ++ v :: post /\
          forallb (fun w => negb (type_among [SPLIT] s w)) pre = true /\
          type_among [SPLIT] s v = true
    | None => forallb (fun w => negb (type_among [SPLIT] s w)) ring = true
    end.
Proof. apply find_split_vertex_spec. Qed.

Lemma find_split_vertex_first_witness :
  let H := split_ext in
  let s := split_placed_state in
  let v := Some 32%nat in
  s = s /\
  exists ring,
    hedi.face_vertices (Some 5%nat) s = Done ring s /\
    exists pre post, ring = pre ++ v :: post /\
      forallb (fun w => negb (type_among [SPLIT] s w)) pre = true /\
      type_among [SPLIT] s v = true.
Proof.
  intros H s v.
  apply (find_split_vertex_first (H := split_ext) (Some 5%nat) s (Some v) s).
  vm_compute. reflexivity.
Defined.

(** X11.  [num_new_vertices(f)] does not change the state and returns the
    number of vertices on the ring of [f] that have status NEW and are not
    of kind SEPPOINT. *)
Theorem num_new_vertices_counts `{External} f s n s' :
  num_new_vertices f s = Done n s' ->
  s' = s /\
  exists ring,
    hedi.face_vertices f s = Done ring s /\
    n = Z.of_nat (length (List.filter (counts_as_new s) ring)).
Proof. apply num_new_vertices_spec. Qed.

Lemma num_new_vertices_counts_witness :
  let H := Demo.ext in
  let s := stepped_state 3 in
  s = s /\
  exists ring,
    hedi.face_vertices (Some 3%nat) s = Done ring s /\
    2%Z = Z.of_nat (length (List.filter (counts_as_new s) ring)).
Proof.
  intros H s.
  apply (num_new_vertices_counts (H := Demo.ext) (Some 3%nat) s 2 s).
  vm_compute. reflexivity.
Defined.

(** X12.  What the seed search guarantees whatever the predicates say:
    [find_seed_vertex(f, site)] does not change the state, and the vertex it
    returns is on the ring of [f], of kind NORMAL, not OUT, and has a
    negative in_circle value for the site (the closing assertion).  It lies
    in the region of the site unless it is the first vertex of the ring that
    is NORMAL and not OUT, which line 957 takes without the region test; and
    no NORMAL vertex of the ring that is not OUT and lies in the region has
    a smaller in_circle value. *)
Theorem find_seed_vertex_candidate `{External} f site s v s' :
  find_seed_vertex f site s = Done v s' ->
  s' = s /\
  exists ring x,
    hedi.face_vertices f s = Done ring s /\ v ∈ ring /\
    graph_vertex (g s) v = Some x /\ type x = NORMAL /\ status x <> OUT /\
    (in_circle x (apex_point site (position x)) <? 0)%D = true /\
    (in_region site (position x) = true \/
     exists pre post,
       ring = pre ++ v :: post /\
       forall w, w ∈ pre -> seed_eligible s w = false) /\
    forall w y,
      w ∈ ring -> graph_vertex (g s) w = Some y ->
      type y = NORMAL -> status y <> OUT ->
      in_region site (position y) = true ->
      (in_circle x (apex_point site (position x))
       <=? in_circle y (apex_point site (position y)))%D = true.
Proof.
  intros Hr.
  apply find_seed_vertex_found in Hr
    as (-> & ring & mp & Hring & _ & Hf & Hneg).
  destruct Hf as (Hin & Hel & -> & Hreg & Hmin).
  assert (Hx : is_Some (graph_vertex (g s) v)).
  { unfold seed_eligible in Hel. destruct (graph_vertex (g s) v); [eauto|].
    discriminate. }
  destruct Hx as [x Hx].
  pose proof (proj1 (seed_eligible_vertex s v x Hx) Hel) as [Hty Hst].
  unfold seed_value in Hneg, Hmin. unfold seed_in_region in Hreg.
  rewrite Hx in Hneg, Hmin, Hreg.
  split; [reflexivity|]. exists ring, x. repeat (split; [assumption|]).
  intros w y Hw Hy Hwt Hws Hwr. unfold Num.leb.
  specialize (Hmin w Hw (proj2 (seed_eligible_vertex s w y Hy)
                           (conj Hwt Hws))).
  unfold seed_in_region, seed_value in Hmin. rewrite Hy in Hmin.
  rewrite (Hmin Hwr). reflexivity.
Qed.

Lemma find_seed_vertex_candidate_witness :
  let H := Demo.ext in
  let s := seed_search_state in
  let site := seed_search_site in
  s = s /\
  exists ring x,
    hedi.face_vertices seed_search_face s = Done ring s /\
    Some 20%nat ∈ ring /\
    graph_vertex (g s) (Some 20%nat) = Some x /\ type x = NORMAL /\
    status x <> OUT /\
    (in_circle x (apex_point site (position x)) <? 0)%D = true /\
    (in_region site (position x) = true \/
     exists pre post,
       ring = pre ++ Some 20%nat :: post /\
       forall w, w ∈ pre -> seed_eligible s w = false) /\
    forall w y,
      w ∈ ring -> graph_vertex (g s) w = Some y ->
      type y = NORMAL -> status y <> OUT ->
      in_region site (position y) = true ->
      (in_circle x (apex_point site (position x))
       <=? in_circle y (apex_point site (position y)))%D = true.
Proof.
  intros H s site.
  apply (find_seed_vertex_candidate (H := Demo.ext) seed_search_face
           site s (Some 20%nat) s).
  vm_compute. reflexivity.
Defined.

(** X13.  [reset_status] returns exactly when every vertex of
    [modified_vertices] and every face of [incident_faces] is still in the
    graph.  It then resets those vertices (status UNDECIDED, not in the
    queue), makes those faces NONINCIDENT, empties [modified_vertices],
    [incident_faces] and [v0], and changes nothing else. *)
Theorem reset_status_effect `{External} s s' :
  reset_status s = Done tt s' <->
  no_dangling s = true /\ s' = reset_state s.
Proof.
  split.
  - apply reset_status_Done.
  - intros [Hd ->]. apply reset_status_total. exact Hd.
Qed.

Lemma reset_status_effect_witness :
  let s := stepped_state 5 in
  reset_status s = Done tt (reset_state s).
Proof.
  intros s. apply (proj2 (reset_status_effect (H := Demo.ext) s (reset_state s))).
  split; [vm_compute; reflexivity | reflexivity].
Defined.

(** X14.  [remove_vertex_set] returns exactly when the vertices of [v0] are
    distinct and each is in the graph with status IN.  It then removes these
    vertices and every half-edge at one of them from the graph, erases them
    from [modified_vertices], and changes nothing else. *)
Theorem remove_vertex_set_effect `{External} s s' :
  remove_vertex_set s = Done tt s' <->
  NoDup (v0 s) /\ forallb (status_is IN s) (v0 s) = true /\
  s' = with_modified_vertices (modified_vertices s ∖ list_to_set (v0 s))
         (with_g (without_vertices (v0 s) (g s)) s).
Proof.
  split.
  - apply remove_vertex_set_Done.
  - intros (Hnd & Hall & ->). apply remove_vertex_set_total; assumption.
Qed.

Lemma remove_vertex_set_effect_witness :
  let s := stepped_state 4 in
  remove_vertex_set s
  = Done tt (with_modified_vertices
               (modified_vertices s ∖ list_to_set (v0 s))
               (with_g (without_vertices (v0 s) (g s)) s)).
Proof.
  intros s.
  apply (proj2 (remove_vertex_set_effect (H := Demo.ext) s _)).
  split; [|split; [vm_compute; reflexivity | reflexivity]].
  apply (bool_decide_unpack _). vm_compute. exact I.
Defined.

(** X15.  [find_in_out_edges] does not change the state.  It returns only
    when [v0] is not empty, all its vertices are IN and some half-edge leaves
    one of them for an OUT vertex; the result lists, vertex by vertex of
    [v0], exactly the half-edges that leave it for an OUT vertex. *)
Theorem find_in_out_edges_collects `{External} s r s' :
  find_in_out_edges s = Done r s' ->
  s' = s /\ r = flat_map (in_out_edges s) (v0 s) /\ r <> [] /\
  v0 s <> [] /\ forallb (status_is IN s) (v0 s) = true.
Proof. apply find_in_out_edges_spec. Qed.

Lemma find_in_out_edges_collects_witness :
  let s := stepped_state 2 in
  let r := [Some 21; Some 37; Some 32]%nat in
  s = s /\ r = flat_map (in_out_edges s) (v0 s) /\ r <> [] /\
  v0 s <> [] /\ forallb (status_is IN s) (v0 s) = true.
Proof.
  intros s r.
  apply (find_in_out_edges_collects (H := Demo.ext) s r s).
  vm_compute. reflexivity.
Defined.

(** X17.  [num_split_vertices()] never fails, leaves the state as it is and
    returns the number of vertices of the graph that are of kind SPLIT. *)
Theorem num_split_vertices_counts `{External} s :
  num_split_vertices s
  = Done (Z.of_nat (length (vertices_of_type SPLIT (g s)))) s.
Proof.
  unfold num_split_vertices. unfold bind at 1, gets at 1. cbv beta.
  rewrite num_split_vertices_loop_run; [reflexivity|].
  apply Forall_forall. intros [i x] Hin.
  apply elem_of_map_to_list in Hin. exact Hin.
Qed.

(** X18.  The frame the constructor builds is a well-formed half-edge
    structure, whatever the far radius: twins are paired (each twin points
    back, runs the opposite way and lies on another face; only the three
    OUTEDGEs have none), every [next] pointer stays on its face and starts
    where its half-edge ends, the ring of each of the three faces closes
    after five half-edges, and both ends of every half-edge are in the graph.
    No vertex is SPLIT, the vertex counter is back at 0, the face grid holds
    the three faces, the vertex map and the working sets are empty, no vertex
    or face carries a mark, and [check()] returns true. *)
Theorem initial_frame_well_formed `{External} far n_bins count0 s :
  VoronoiDiagram_new far n_bins (blank count0) = Done tt s ->
  twins_paired (g s) = true /\ rings_linked (g s) = true /\
  rings_close (g s) 5 = true /\ ends_present (g s) = true /\
  num_split_vertices s = Done 0%Z s /\
  check s = Done true s /\
  count s = 0%Z /\ length (fgrid s) = 3 /\ vertex_map s = ∅ /\
  v0 s = [] /\ incident_faces s = [] /\ modified_vertices s = ∅ /\
  vertexQueue s = [] /\ settled s.
Proof.
  intros Hr.
  pose proof (initial_frame_structure _ _ _ _ Hr)
    as (Ht & Hl & Hc & He & Hs & Hg & Hv0 & Hi & Hm & Hq & Hvm).
  pose proof (VoronoiDiagram_new_Done _ _ _ _ Hr) as [Hcount Hvalid].
  assert (Hset : settled s) by (apply constructed_settled; red; eauto).
  repeat split; try assumption.
  - unfold num_split_vertices. unfold bind at 1, gets at 1. cbv beta.
    rewrite num_split_vertices_loop_run.
    + unfold vertices_of_type in Hs. rewrite Hs. reflexivity.
    + apply Forall_forall. intros [i x] Hin.
      apply elem_of_map_to_list in Hin. exact Hin.
  - apply check_valid. exact Hvalid.
  - apply Hset.
  - apply Hset.
Qed.

Lemma initial_frame_well_formed_witness :
  let H := Demo.ext in
  let s := demo_frame in
  twins_paired (g s) = true /\ rings_linked (g s) = true /\
  rings_close (g s) 5 = true /\ ends_present (g s) = true /\
  num_split_vertices s = Done 0%Z s /\
  check s = Done true s /\
  count s = 0%Z /\ length (fgrid s) = 3 /\ vertex_map s = ∅ /\
  v0 s = [] /\ incident_faces s = [] /\ modified_vertices s = ∅ /\
  vertexQueue s = [] /\ settled s.
Proof.
  intros H s.
  apply (initial_frame_well_formed (H := Demo.ext) 1 10 0 demo_frame).
  vm_compute. reflexivity.
Defined.

(** X19.  After every call of [insert_point_site] or [insert_line_site]
    that runs to completion in a session, no mark of the insertion is left:
    every vertex of the graph has status UNDECIDED or OUT (none is IN or
    NEW) and every face is NONINCIDENT. *)
Theorem settled_after_completed_call `{External} c s s' :
  reachable s ->
  completes c ->
  perform c s = Done tt s' ->
  settled s'.
Proof.
  intros (s0 & calls & Hc0 & Hr0) Hc Hr.
  assert (Hreach : marks_tracked ∅ s).
  { eapply marks_perform_all; [|exact Hr0].
    apply settled_marks_tracked, constructed_settled. exact Hc0. }
  destruct c as [p step|idx1 idx2 step]; simpl in *;
    apply bind_Done in Hr as (r & s1 & H1 & Hr); apply ret_Done in Hr as [_ ->].
  - exact (insert_point_site_settles p step _ _ _ Hreach H1 Hc).
  - exact (insert_line_site_settles idx1 idx2 step _ _ _ Hreach H1 Hc).
Qed.

Lemma settled_after_completed_call_witness : settled two_points_state.
Proof.
  apply (settled_after_completed_call (H := Demo.ext)
           (point_call (demo_point 0.5 0.25) 0) one_point_state
           two_points_state).
  - exists demo_frame, [point_call (demo_point 0 0) 0]. split.
    + exists 1%D, 10%nat, 0%Z. vm_compute. reflexivity.
    + vm_compute. reflexivity.
  - simpl. lia.
  - vm_compute. reflexivity.
Defined.

(** X20.  In every state a session can reach, also between the stepped
    calls of the test suite, the marks are tracked: every vertex that is IN
    or NEW is in [modified_vertices] and every INCIDENT face is in
    [incident_faces], so [reset_status] reaches every mark. *)
Theorem marks_tracked_in_session `{External} s :
  reachable s -> marks_tracked ∅ s.
Proof.
  intros (s0 & calls & Hc & Hr).
  eapply marks_perform_all; [|exact Hr].
  apply settled_marks_tracked, constructed_settled. exact Hc.
Qed.

Lemma marks_tracked_in_session_witness : marks_tracked ∅ (stepped_state 3).
Proof.
  apply (marks_tracked_in_session (H := Demo.ext)).
  exists demo_frame,
    [point_call (demo_point 0 0) 0; point_call (demo_point 0.5 0.25) 3].
  split.
  - exists 1%D, 10%nat, 0%Z. vm_compute. reflexivity.
  - vm_compute. reflexivity.
Defined.

(** X21.  [add_edge] joins the two NEW vertices [v1] and [v2] of its edge
    data.  It returns only when both have the same [k3].  When the two signs
    it computes are equal (the vertices lie on the same side of the line from
    the point site of the face to the new site, or both sites are line
    sites), no vertex is added or changed and exactly one twin pair
    [v1 -> v2], [v2 -> v1] is added.  When the signs differ, exactly one
    vertex is added, an APEX with status NEW, and exactly two twin pairs,
    [v1 -> apex] and [apex -> v2] with their twins.  In both cases every
    half-edge that was there keeps its ends and its twin, and every vertex
    that was there its kind and status. *)
Theorem add_edge_apex_split `{External} ed newface newface2 s s' :
  add_edge ed newface newface2 s = Done tt s' ->
  exists f_site new_site gsrc gtrg,
    face_site (ed_f ed) s = Done f_site s /\
    vertex (v1 ed) s = Done gsrc s /\
    vertex (v2 ed) s = Done gtrg s /\
    face_site (if bool_decide (k3 gsrc = 1%Z) then newface else newface2) s
      = Done new_site s /\
    k3 gtrg = k3 gsrc /\
    if opposite_sides f_site new_site (position gsrc) (position gtrg)
    then
      let apex := fresh (dom (vertices (g s))) in
      kinds s' = <[apex := (APEX, NEW)]> (kinds s) /\
      skeleton s' = add_pair (Some apex) (v2 ed)
                      (add_pair (v1 ed) (Some apex) (skeleton s))
    else
      vertices (g s') = vertices (g s) /\
      skeleton s' = add_pair (v1 ed) (v2 ed) (skeleton s).
Proof.
  intros Hr.
  apply add_edge_shape in Hr as (f_site & new_site & gsrc & gtrg & Hr).
  exists f_site, new_site, gsrc, gtrg. exact Hr.
Qed.

Lemma add_edge_apex_split_witness :
  let H := Demo.ext in
  let ed := add_edge_data in
  let s := add_edge_state in
  let s' := state_of (add_edge ed (Some 4%nat) None s) in
  exists f_site new_site gsrc gtrg,
    face_site (ed_f ed) s = Done f_site s /\
    vertex (v1 ed) s = Done gsrc s /\
    vertex (v2 ed) s = Done gtrg s /\
    face_site (if bool_decide (k3 gsrc = 1%Z) then Some 4%nat else None) s
      = Done new_site s /\
    k3 gtrg = k3 gsrc /\
    if opposite_sides f_site new_site (position gsrc) (position gtrg)
    then
      let apex := fresh (dom (vertices (g s))) in
      kinds s' = <[apex := (APEX, NEW)]> (kinds s) /\
      skeleton s' = add_pair (Some apex) (v2 ed)
                      (add_pair (v1 ed) (Some apex) (skeleton s))
    else
      vertices (g s') = vertices (g s) /\
      skeleton s' = add_pair (v1 ed) (v2 ed) (skeleton s).
Proof.
  intros H ed s s'.
  apply (add_edge_apex_split (H := Demo.ext) ed (Some 4%nat) None s s').
  vm_compute. reflexivity.
Defined.

(** The run of the witness takes the apex-split: its two vertices lie on
    opposite sides, and the vertex added is an APEX with status NEW. *)
Lemma add_edge_splits_at_apex :
  let s := add_edge_state in
  let s' := state_of (add_edge (H := Demo.ext) add_edge_data (Some 4%nat)
                        None s) in
  kinds s' !! fresh (dom (vertices (g s))) = Some (APEX, NEW) /\
  size (skeleton s') = size (skeleton s) + 4.
Proof. vm_compute. split; reflexivity. Qed.

(** X22.  [add_edges(newface, f, newface2)] returns only when the ring of [f]
    counts a positive, even number [n] of NEW vertices.  It then leaves every
    vertex that was there with its kind and status and every half-edge that
    was there with its ends and twin; every vertex it adds is an APEX with
    status NEW; and it adds [n/2] twin pairs and one more for each vertex
    added: [n] half-edges plus two for each new vertex. *)
Theorem add_edges_pairs `{External} newface f newface2 s s' :
  add_edges newface f newface2 s = Done tt s' ->
  exists n : Z,
    num_new_vertices f s = Done n s /\ (0 < n)%Z /\ (n mod 2 = 0)%Z /\
    kinds s ⊆ kinds s' /\ skeleton s ⊆ skeleton s' /\
    (forall i k, kinds s' !! i = Some k -> kinds s !! i = None ->
                 k = (APEX, NEW)) /\
    size (skeleton s')
    = size (skeleton s) + Z.to_nat n + 2 * (size (kinds s') - size (kinds s)).
Proof.
  intros Hr. unfold add_edges in Hr.
  apply bind_Done in Hr as (n & s1 & Hn & Hr).
  pose proof (num_new_vertices_spec _ _ _ _ Hn) as [-> _].
  apply bind_Done in Hr as ([] & s1 & Hpos & Hr).
  apply assert_Done in Hpos as [Hpos ->].
  apply bind_Done in Hr as ([] & s1 & Heven & Hr).
  apply assert_Done in Heven as [Heven ->].
  cbv zeta in Hr.
  apply Z.ltb_lt in Hpos. apply Z.eqb_eq in Heven.
  exists n. repeat (split; [assumption|]).
  destruct (add_edges_loop_grows (kinds s) (skeleton s) _ _ _ _ _ s tt s'
              (conj eq_refl eq_refl) Hr) as (K' & E' & [<- <-] & Hg).
  destruct Hg as (HK & HE & Hnew & Hsize).
  repeat (split; [assumption|]).
  unfold kinds, skeleton in *. rewrite Hsize.
  assert (Hhalf : 2 * Z.to_nat (n `div` 2)%Z = Z.to_nat n); [|lia].
  assert (Hn2 : (n = 2 * (n `div` 2))%Z).
  { rewrite (Z.div_mod n 2) at 1 by discriminate. rewrite Heven. lia. }
  rewrite Hn2 at 2. rewrite Z2Nat.inj_mul by lia. reflexivity.
Qed.

Lemma add_edges_pairs_witness :
  let H := Demo.ext in
  let s := add_edge_state in
  let s' := state_of (add_edges (Some 4%nat) (Some 3%nat) None s) in
  exists n : Z,
    num_new_vertices (Some 3%nat) s = Done n s /\ (0 < n)%Z /\
    (n mod 2 = 0)%Z /\
    kinds s ⊆ kinds s' /\ skeleton s ⊆ skeleton s' /\
    (forall i k, kinds s' !! i = Some k -> kinds s !! i = None ->
                 k = (APEX, NEW)) /\
    size (skeleton s')
    = size (skeleton s) + Z.to_nat n + 2 * (size (kinds s') - size (kinds s)).
Proof.
  intros H s s'.
  apply (add_edges_pairs (H := Demo.ext) (Some 4%nat) (Some 3%nat) None s s').
  vm_compute. reflexivity.
Defined.

(** X23.  [add_vertices] returns only when [v0] is not empty.  It adds one
    vertex for each half-edge that leaves a vertex of [v0] for an OUT vertex
    (the result of [find_in_out_edges]) and changes no vertex that was
    there.  Every vertex added is NORMAL with status NEW, is entered in
    [modified_vertices], and takes the next value of the vertex counter,
    which advances by the number of vertices added. *)
Theorem add_vertices_adds `{External} site s s' :
  add_vertices site s = Done tt s' ->
  let n := length (flat_map (in_out_edges s) (v0 s)) in
  v0 s <> [] /\
  vertices (g s) ⊆ vertices (g s') /\
  (forall i x, vertices (g s') !! i = Some x -> vertices (g s) !! i = None ->
     type x = NORMAL /\ status x = NEW /\
     (count s <= index x < count s')%Z /\ Some i ∈ modified_vertices s') /\
  size (vertices (g s')) = size (vertices (g s)) + n /\
  count s' = (count s + Z.of_nat n)%Z /\
  modified_vertices s ⊆ modified_vertices s'.
Proof.
  intros Hr n. unfold add_vertices in Hr.
  apply bind_Done in Hr as (vs & s1 & Hvs & Hr).
  apply gets_Done in Hvs as [-> ->].
  apply bind_Done in Hr as ([] & s1 & Ha & Hr).
  apply assert_Done in Ha as [Ha ->].
  apply bind_Done in Hr as (q & s1 & Hq & Hr).
  apply find_in_out_edges_spec in Hq as (-> & -> & _ & Hne & _).
  split; [exact Hne|].
  refine (hoare_foreach_count (fun k => vertices_added k s) _ _ 0 _ s tt s' _ Hr).
  - intros k x. apply add_vertices_body.
  - repeat split; try reflexivity; try congruence; lia.
Qed.

Lemma add_vertices_adds_witness :
  let H := Demo.ext in
  let s := stepped_state 2 in
  let s' := stepped_state 3 in
  let n := length (flat_map (in_out_edges s) (v0 s)) in
  v0 s <> [] /\
  vertices (g s) ⊆ vertices (g s') /\
  (forall i x, vertices (g s') !! i = Some x -> vertices (g s) !! i = None ->
     type x = NORMAL /\ status x = NEW /\
     (count s <= index x < count s')%Z /\ Some i ∈ modified_vertices s') /\
  size (vertices (g s')) = size (vertices (g s)) + n /\
  count s' = (count s + Z.of_nat n)%Z /\
  modified_vertices s ⊆ modified_vertices s'.
Proof.
  intros H s s'.
  apply (add_vertices_adds (H := Demo.ext)
           (PointSite (demo_point 0.5 0.25) None) s s').
  vm_compute. reflexivity.
Defined.

(** X24.  [repair_face] only rewires: when it returns, the vertices, the
    faces and every other member of the engine are as before, no half-edge
    was added or removed, and every half-edge has the ends, twin, type and
    parameters it had.  Only next pointers, and the face and k of half-edges,
    can differ. *)
Theorem repair_face_rewires `{External} f s s' :
  repair_face f s = Done tt s' ->
  edges_aside s' = edges_aside s /\
  outline <$> edges (g s') = outline <$> edges (g s).
Proof.
  intros Hr.
  refine ((_ : stable (rewired (edges_aside s) (outline <$> edges (g s))) _)
            s tt s' _ Hr); [|split; reflexivity].
  unfold repair_face, face_props.
  pose proof (rewired_loop (edges_aside s) (outline <$> edges (g s))).
  repeat rewired_step.
Qed.

Lemma repair_face_rewires_witness :
  let s := stepped_state 4 in
  let s' := state_of (repair_face (H := Demo.ext) (Some 4%nat) s) in
  edges_aside s' = edges_aside s /\
  outline <$> edges (g s') = outline <$> edges (g s).
Proof.
  intros s s'.
  apply (repair_face_rewires (H := Demo.ext) (Some 4%nat) s s').
  vm_compute. reflexivity.
Defined.

(** X25.  [find_edge_data(f, startverts)] does not change the state.  The
    data it returns are for face [f]; [v1] and [v2] are two different
    vertices, both NEW and no SEPPOINT; [v1] is none of [startverts];
    [v1_prv] is a half-edge that ends in [v1] and [v1_nxt] the one after it,
    and likewise [v2_prv], [v2_nxt] for [v2]. *)
Theorem find_edge_data_finds `{External} f startverts s ed s' :
  find_edge_data f startverts s = Done ed s' ->
  s' = s /\ ed_f ed = f /\
  new_at s (v1 ed) (v1_prv ed) (v1_nxt ed) /\ (v1 ed ∉ startverts) /\
  new_at s (v2 ed) (v2_prv ed) (v2_nxt ed) /\ v2 ed <> v1 ed.
Proof.
  unfold find_edge_data. intros Hr.
  apply bind_Done in Hr as (fp & s1 & Hfp & Hr).
  apply face_props_Done in Hfp as [_ ->]. cbv zeta in Hr.
  apply bind_Done in Hr as ([found cur] & s1 & H1 & Hr).
  apply find_edge_data_v1_spec in H1 as [-> H1]. simpl in H1.
  apply bind_Done in Hr as ([] & s1 & Ha & Hr).
  apply assert_Done in Ha as [_ ->].
  apply bind_Done in Hr as ([[a1 p1] n1] & s1 & Hv & Hr).
  apply valid_Done in Hv as [-> ->].
  apply bind_Done in Hr as (found2 & s1 & H2 & Hr).
  apply find_edge_data_v2_spec in H2 as [-> H2].
  apply bind_Done in Hr as ([] & s1 & Ha & Hr).
  apply assert_Done in Ha as [_ ->].
  apply bind_Done in Hr as ([[a2 p2] n2] & s1 & Hv & Hr).
  apply valid_Done in Hv as [-> ->].
  apply ret_Done in Hr as [-> ->]. simpl.
  destruct H1 as [H1 Hn1], H2 as [H2 Hn2]. auto 10.
Qed.

Lemma find_edge_data_finds_witness :
  let s := add_edge_state in
  let ed := add_edge_data in
  s = s /\ ed_f ed = Some 3%nat /\
  new_at s (v1 ed) (v1_prv ed) (v1_nxt ed) /\ (v1 ed ∉ []) /\
  new_at s (v2 ed) (v2_prv ed) (v2_nxt ed) /\ v2 ed <> v1 ed.
Proof.
  intros s ed.
  apply (find_edge_data_finds (H := Demo.ext) (Some 3%nat) [] s ed s).
  vm_compute. reflexivity.
Defined.

(** X26.  [mark_adjacent_faces_p(v)] returns only when [v] is IN.  It flags
    INCIDENT exactly the faces of the half-edges leaving [v] that were not
    INCIDENT, and pushes each of them once onto [incident_faces]; afterwards
    every face at [v] is INCIDENT.  Nothing else changes: the vertices, the
    half-edges, the other faces and the other members are as before. *)
Theorem mark_adjacent_faces_p_marks `{External} v site s s' :
  mark_adjacent_faces_p v site s = Done tt s' ->
  has_status v IN s /\
  exists added,
    NoDup added /\
    (forall f, f ∈ added <->
       face_of_some s (hedi.out_edges (g s) v) f /\ not_incident s f) /\
    s' = faces_marked added s /\
    (forall f, face_of_some s (hedi.out_edges (g s) v) f ->
       exists fp, graph_face (g s') f = Some fp /\ fstatus fp = INCIDENT).
Proof.
  unfold mark_adjacent_faces_p. intros Hr.
  apply bind_Done in Hr as (gv & s1 & Hgv & Hr).
  apply vertex_Done in Hgv as [Hgv ->].
  apply bind_Done in Hr as ([] & s1 & Ha & Hr).
  apply assert_Done in Ha as [Ha ->]. apply bool_decide_eq_true in Ha.
  apply bind_Done in Hr as (l & s1 & Hl & Hr).
  apply out_edge_itr_Done in Hl as [-> ->].
  split; [exists gv; auto|].
  apply mark_faces_loop in Hr as (added & Hnd & Hchar & Hall & ->).
  exists added. repeat (split; [assumption|]). split; [reflexivity|].
  intros f Hf. destruct (Hall f Hf) as [fp Hfp].
  destruct f as [i|]; [|discriminate]. simpl in *.
  rewrite flag_all_lookup, Hfp.
  destruct (decide (Some i ∈ added)) as [Hin|Hin].
  - rewrite bool_decide_eq_true_2 by exact Hin. simpl. eauto.
  - rewrite bool_decide_eq_false_2 by exact Hin. exists fp. split; [reflexivity|].
    destruct (decide (fstatus fp = INCIDENT)) as [Hst|Hst]; [exact Hst|].
    destruct Hin. apply Hchar. split; [exact Hf|]. exists fp. auto.
Qed.

Lemma mark_adjacent_faces_p_marks_witness :
  let v := Some 12%nat in
  let s := mark_faces_state in
  let s' := state_of (mark_adjacent_faces_p v
                        (PointSite (demo_point 0.5 0.25) None) s) in
  has_status v IN s /\
  exists added,
    NoDup added /\
    (forall f, f ∈ added <->
       face_of_some s (hedi.out_edges (g s) v) f /\ not_incident s f) /\
    s' = faces_marked added s /\
    (forall f, face_of_some s (hedi.out_edges (g s) v) f ->
       exists fp, graph_face (g s') f = Some fp /\ fstatus fp = INCIDENT).
Proof.
  intros v s s'.
  apply (mark_adjacent_faces_p_marks (H := Demo.ext) v
           (PointSite (demo_point 0.5 0.25) None) s s').
  vm_compute. reflexivity.
Defined.

(** In the run of the witness three faces are flagged and pushed. *)
Lemma mark_adjacent_faces_p_pushes_three :
  incident_faces
    (state_of (mark_adjacent_faces_p (Some 12%nat)
                 (PointSite (demo_point 0.5 0.25) None) mark_faces_state))
  = [Some 3; Some 1; Some 0]%nat.
Proof. vm_compute. reflexivity. Qed.

(** X27.  [add_linesite_edges(seg_start, seg_end, sign)] adds no vertex and
    changes none.  It adds exactly one twin pair between the two endpoints,
    from [seg_start] to [seg_end] first when the sign is true and the other
    way round when it is false, and moves no end or twin of another
    half-edge.  It creates exactly two faces, which it returns as
    (pos_face, neg_face), and does not enter them in the face grid. *)
Theorem add_linesite_edges_adds `{External} a b sign s pf nf s' :
  add_linesite_edges a b sign s = Done (pf, nf) s' ->
  vertices (g s') = vertices (g s) /\
  skeleton s' = (if sign then add_pair a b else add_pair b a) (skeleton s) /\
  pf = Some (fresh (dom (faces (g s)))) /\
  nf = Some (fresh ({[fresh (dom (faces (g s)))]} ∪ dom (faces (g s)))) /\
  dom (faces (g s'))
  = {[fresh ({[fresh (dom (faces (g s)))]} ∪ dom (faces (g s)))]}
      ∪ ({[fresh (dom (faces (g s)))]} ∪ dom (faces (g s))) /\
  fgrid s' = fgrid s.
Proof.
  intros Hr.
  assert (Hshape : seen id (vertices (g s))
            ((if sign then add_pair a b else add_pair b a) (skeleton s)) s').
  { refine ((_ : hoare (seen id (vertices (g s)) (skeleton s)) _
                   (fun _ => seen id (vertices (g s)) _)) s _ s' _ Hr);
      [|split; [apply map_fmap_id | reflexivity]].
    unfold add_linesite_edges.
    apply hoare_bind_stable; [apply seen_vertex|]. intros gstart.
    apply hoare_bind_stable; [apply seen_vertex|]. intros gend.
    eapply hoare_bind.
    { instantiate (1 := fun _ => seen id (vertices (g s))
         ((if sign then add_pair a b else add_pair b a) (skeleton s))).
      destruct sign.
      - eapply hoare_bind; [apply seen_add_twin_edges|]. intros ?.
        apply hoare_ret. auto.
      - eapply hoare_bind; [apply seen_add_twin_edges|]. intros ?.
        apply hoare_ret. auto. }
    intros [[ps ns] [pe ne]].
    pose proof (fun V E => seen_add_face (@id VoronoiVertex) V E).
    repeat shape_step. }
  assert (Hfaces : (pf = Some (fresh (dom (faces (g s)))) /\
            nf = Some (fresh ({[fresh (dom (faces (g s)))]}
                                ∪ dom (faces (g s))))) /\
            face_side
              ({[fresh ({[fresh (dom (faces (g s)))]} ∪ dom (faces (g s)))]}
                 ∪ ({[fresh (dom (faces (g s)))]} ∪ dom (faces (g s))))
              (fgrid s) s').
  { set (D := dom (faces (g s))) in *.
    refine ((_ : hoare (face_side D (fgrid s)) _
                   (fun r s1 => (fst r = _ /\ snd r = _) /\ face_side _ _ s1))
              s (pf, nf) s' _ Hr); [|split; reflexivity].
    unfold add_linesite_edges.
    pose proof face_side_update_edge. pose proof face_side_update_face.
    assert (Hread : forall D G v, stable (face_side D G) (vertex v)).
    { intros. unfold vertex. stable_auto. }
    assert (Hcheck : forall D G e, stable (face_side D G) (vd_checker_check_edge e)).
    { intros. unfold vd_checker_check_edge. stable_auto. }
    apply hoare_bind_stable; [apply Hread|]. intros gstart.
    apply hoare_bind_stable; [apply Hread|]. intros gend.
    eapply hoare_bind.
    { instantiate (1 := fun r s1 =>
         (isPoint (fst (fst r)) = false /\ isPoint (snd (fst r)) = false) /\
         face_side D (fgrid s) s1).
      destruct sign;
        (apply hoare_bind_stable; [apply face_side_add_twin_edges|]; intros ?;
         apply hoare_ret; auto). }
    intros [[ps ns] [pe ne]]. apply hoare_pure. intros [Hp Hn]. simpl in Hp, Hn.
    repeat (apply hoare_bind_stable; [solve [stable_auto; eauto] | intros ?]).
    eapply hoare_bind; [apply face_side_add_face; exact Hp|]. intros f1.
    apply hoare_pure. intros ->.
    eapply hoare_bind; [apply face_side_add_face; exact Hn|]. intros f2.
    apply hoare_pure. intros ->.
    repeat (apply hoare_bind_stable; [solve [stable_auto; eauto] | intros ?]).
    apply hoare_ret. auto. }
  destruct Hshape as [Hv Hsk]. rewrite map_fmap_id in Hv.
  destruct Hfaces as [[-> ->] [Hd Hg]]. auto 10.
Qed.

Lemma add_linesite_edges_adds_witness :
  let H := Demo.ext in
  let a := Some 17%nat in
  let b := Some 10%nat in
  let s := two_points_state in
  let s' := state_of (add_linesite_edges a b true s) in
  vertices (g s') = vertices (g s) /\
  skeleton s' = add_pair a b (skeleton s) /\
  Some 5%nat = Some (fresh (dom (faces (g s)))) /\
  Some 6%nat = Some (fresh ({[fresh (dom (faces (g s)))]} ∪ dom (faces (g s)))) /\
  dom (faces (g s'))
  = {[fresh ({[fresh (dom (faces (g s)))]} ∪ dom (faces (g s)))]}
      ∪ ({[fresh (dom (faces (g s)))]} ∪ dom (faces (g s))) /\
  fgrid s' = fgrid s.
Proof.
  intros H a b s s'.
  apply (add_linesite_edges_adds (H := Demo.ext) a b true s
           (Some 5%nat) (Some 6%nat) s').
  vm_compute. reflexivity.
Defined.

(** X28.  [add_split_vertex(f, s)] changes no vertex that was there.  Every
    vertex it adds is of kind SPLIT with status UNDECIDED and takes the next
    value of the vertex counter, which advances by the number of vertices
    added; none of them is entered in [modified_vertices].  It does nothing
    at all when the new site [s] is a point site, or when the site of [f] is
    a line site. *)
Theorem add_split_vertex_adds `{External} f site s s' :
  add_split_vertex f site s = Done tt s' ->
  vertices (g s) ⊆ vertices (g s') /\
  (forall i x, vertices (g s') !! i = Some x -> vertices (g s) !! i = None ->
     type x = SPLIT /\ status x = UNDECIDED /\
     (count s <= index x < count s')%Z) /\
  count s'
  = (count s + Z.of_nat (size (vertices (g s')) - size (vertices (g s))))%Z /\
  modified_vertices s' = modified_vertices s /\
  (isPoint site = true -> s' = s) /\
  (forall fs, face_site f s = Done fs s -> isPoint fs = false -> s' = s).
Proof.
  intros Hr.
  apply add_split_vertex_shape in Hr as ((n & Hsub & Hnew & Hsize & Hc & Hm)
                                         & Hp & Hl).
  repeat (split; [assumption|]).
  split; [|auto]. rewrite Hc, Hsize. f_equal. lia.
Qed.

Lemma add_split_vertex_adds_witness :
  let H := split_ext in
  let s := split_state in
  let s' := state_of (add_split_vertex (Some 5%nat) augment_site s) in
  vertices (g s) ⊆ vertices (g s') /\
  (forall i x, vertices (g s') !! i = Some x -> vertices (g s) !! i = None ->
     type x = SPLIT /\ status x = UNDECIDED /\
     (count s <= index x < count s')%Z) /\
  count s'
  = (count s + Z.of_nat (size (vertices (g s')) - size (vertices (g s))))%Z /\
  modified_vertices s' = modified_vertices s /\
  (isPoint augment_site = true -> s' = s) /\
  (forall fs, face_site (Some 5%nat) s = Done fs s -> isPoint fs = false ->
     s' = s).
Proof.
  intros H s s'.
  apply (add_split_vertex_adds (H := split_ext) (Some 5%nat) augment_site s s').
  vm_compute. reflexivity.
Defined.

(** In the run of the witness two SPLIT vertices are placed. *)
Lemma add_split_vertex_places_two :
  let s := split_state in
  let s' := state_of (add_split_vertex (H := split_ext) (Some 5%nat)
                        augment_site s) in
  size (vertices (g s')) = size (vertices (g s)) + 2 /\
  length (vertices_of_type SPLIT (g s')) = 2.
Proof. vm_compute. split; reflexivity. Qed.

(** X29.  [remove_split_vertex(f)] removes SPLIT vertices only: every vertex
    that is gone was of kind SPLIT, every vertex that is left is unchanged,
    the vertex counter is as before and [modified_vertices] has gained
    nothing. *)
Theorem remove_split_vertex_removes_splits `{External} f s s' :
  remove_split_vertex f s = Done tt s' ->
  vertices (g s') ⊆ vertices (g s) /\
  (forall i x, vertices (g s) !! i = Some x -> vertices (g s') !! i = None ->
     type x = SPLIT) /\
  count s' = count s /\
  modified_vertices s' ⊆ modified_vertices s.
Proof.
  unfold remove_split_vertex, assertM, vd_checker_face_ok. intros Hr.
  apply bind_Done in Hr as ([] & s1 & Hok & Hr).
  apply bind_Done in Hok as (b & s3 & Hb & Hok).
  apply gets_Done in Hb as [_ ->]. apply assert_Done in Hok as [_ ->].
  apply bind_Done in Hr as ([] & s1 & Hl & Hr).
  apply remove_split_vertex_loop_removes in Hl.
  apply bind_Done in Hr as (b' & s3 & Hb' & Hok').
  apply gets_Done in Hb' as [_ ->]. apply assert_Done in Hok' as [_ ->].
  exact Hl.
Qed.

Lemma remove_split_vertex_removes_splits_witness :
  let H := split_ext in
  let s := split_placed_state in
  let s' := state_of (remove_split_vertex (Some 5%nat) s) in
  vertices (g s') ⊆ vertices (g s) /\
  (forall i x, vertices (g s) !! i = Some x -> vertices (g s') !! i = None ->
     type x = SPLIT) /\
  count s' = count s /\
  modified_vertices s' ⊆ modified_vertices s.
Proof.
  intros H s s'.
  apply (remove_split_vertex_removes_splits (H := split_ext) (Some 5%nat) s s').
  vm_compute. reflexivity.
Defined.

(** In the run of the witness the two SPLIT vertices of the graph are
    removed. *)
Lemma remove_split_vertex_removes_two :
  let s := split_placed_state in
  let s' := state_of (remove_split_vertex (H := split_ext) (Some 5%nat) s) in
  length (vertices_of_type SPLIT (g s)) = 2 /\
  length (vertices_of_type SPLIT (g s')) = 0 /\
  size (vertices (g s)) = size (vertices (g s')) + 2.
Proof. vm_compute. repeat split; reflexivity. Qed.
